(* ===================================================================== *)
(*  Ocean Time Machine VR: scene / year orchestration layer              *)
(*                                                                       *)
(*  A shallow embedding of the JavaScript controllers                    *)
(*    js/scene-manager.js        (SceneManager)                          *)
(*    js/animation-controller.js (AudioController: fadeIn / fadeOut)     *)
(*    js/gaze-controller.js      (EarthController.setupEarthRotation)    *)
(*    earth controller, globe build (EarthController: setupGlobeRotation,*)
(*                                switchYear, auto-play, constructor)    *)
(*  and the properties of the orchestration layer proved about them.     *)
(*                                                                       *)
(*  Conventions.                                                         *)
(*  - JavaScript numbers are modelled as exact rationals (Q); the        *)
(*    properties below only use order, exact assignment of constants and *)
(*    field arithmetic.                                                  *)
(*  - Observable actions (DOM attribute writes, calls on the window.*    *)
(*    collaborators, console output, timers) are recorded in a           *)
(*    chronological trace.                                               *)
(*  - An object used as a dictionary is a gmap that gives, for a key,    *)
(*    what the lookup obj[key] yields; undefined and a null DOM handle   *)
(*    are both None.  Where the key comes from a caller (switchScene,    *)
(*    switchYear), the names an object literal inherits from             *)
(*    Object.prototype are told apart from its own entries.              *)
(* ===================================================================== *)

From Stdlib Require Import ZArith QArith Qabs Qminmax Qround Lqa Lia.
From stdpp Require Import gmap strings list.

Local Open Scope list_scope.

(* ===================================================================== *)
(*  Property lookup on an object literal: the own entries first, then    *)
(*  what every object inherits from Object.prototype                     *)
(* ===================================================================== *)
Module ObjectLiteral.

(** The property names of [Object.prototype]. *)
Definition Object_prototype : list string :=
  ["constructor"; "__defineGetter__"; "__defineSetter__"; "hasOwnProperty";
   "__lookupGetter__"; "__lookupSetter__"; "isPrototypeOf";
   "propertyIsEnumerable"; "toString"; "valueOf"; "__proto__";
   "toLocaleString"].

Definition inherited (key : string) : bool :=
  bool_decide (key ∈ Object_prototype).

(** What [obj[key]] yields for an object literal whose own entries that
    are not null are [own].  The own keys the controllers use are years,
    none of them a name of [Object.prototype], so an own entry that holds
    null reads like a missing one. *)
Inductive Property (A : Type) : Type :=
| Own (a : A)
| Inherited       (* a function or object of Object.prototype: truthy *)
| Undefined.
Arguments Own {A} a.
Arguments Inherited {A}.
Arguments Undefined {A}.

Definition get {A} (own : gmap string A) (key : string) : Property A :=
  match own !! key with
  | Some a => Own a
  | None => if inherited key then Inherited else Undefined
  end.

(** [lookup] gives, for every key, what [obj[key]] yields (None:
    undefined or null) for the object literal with the own entries [own]. *)
Definition lookups_of {A} (own lookup : gmap string A) : Prop :=
  forall key,
    match own !! key with
    | Some a => lookup !! key = Some a
    | None => is_Some (lookup !! key) <-> inherited key = true
    end.

(** The lookups of the object literal with the own entries [own], where
    [value key] stands for what the key inherits. *)
Definition lookups {A} (value : string -> A) (own : gmap string A)
  : gmap string A :=
  own ∪ list_to_map (map (fun key => (key, value key)) Object_prototype).

End ObjectLiteral.

(* ===================================================================== *)
(*  js/scene-manager.js                                                  *)
(* ===================================================================== *)
Module SceneManager.

(** Everything a transition can be observed to do. *)
Inductive Effect : Type :=
| ConsoleWarn (msg : string)
| ConsoleError (msg : string) (arg : string)
| ConsoleLog (msg : string)
| SetVisible (el : string) (b : bool)           (* el.setAttribute('visible', b) *)
| SetMaterialOpacity (el : string) (v : Z)      (* el.setAttribute('material','opacity',v) *)
| SetAnimation (el : string) (to : Z) (dur : Z) (* el.setAttribute('animation',{...}) *)
| SetTimeout (ms : Z)
| SetCurrentScene (year : string)               (* this.currentScene = year *)
| StopSceneAudio (year : string)                (* window.audioController *)
| PlayTransition
| PlaySceneAudio (year : string)
| UpdateSceneInfo (year : string)               (* window.uiManager *)
| StartSubtitles (year : string)
| UpdateWaterLevel (year : string)              (* window.animationController *)
| Exception (err : string).                     (* the call just made raised err *)

#[export] Instance Effect_eq_dec : EqDecision Effect.
Proof. solve_decision. Defined.

(** [CONFIG.scenes[year]] of the portal build; SceneManager reads [id]. *)
Record SceneConfig : Type := { scene_id : string }.

(** What surrounds a SceneManager: the frozen CONFIG, the handles found by
    [init()], the [window.*] collaborators, and which calls raise. *)
Record Env : Type := {
  scenes : gmap string SceneConfig;        (* CONFIG.scenes[year], None: undefined *)
  fadeDuration : Z;                        (* CONFIG.transition.fadeDuration *)
  sceneElements : gmap string string;      (* this.sceneElements, non-null entries *)
  fadeOverlay : option string;             (* this.fadeOverlay *)
  audioController : bool;                  (* window.audioController is set *)
  uiManager : bool;                        (* window.uiManager is set *)
  animationController : bool;              (* window.animationController is set *)
  throws : Effect -> option string         (* Some err: the call raises err *)
}.

(** The two mutable fields of the class. *)
Record State : Type := {
  currentScene : string;
  isTransitioning : bool
}.

(** [constructor()] *)
Definition constructor : State :=
  {| currentScene := "2000"; isTransitioning := false |}.

Definition getCurrentScene (s : State) : string := currentScene s.

(* ------------------------------------------------------------------- *)
(*  A small state-and-exception monad for the synchronous stretches.   *)
(* ------------------------------------------------------------------- *)
Inductive Outcome (A : Type) : Type :=
| Ret (a : A)
| Throw (err : string).
Arguments Ret {A} a.
Arguments Throw {A} err.

Definition Act (A : Type) : Type :=
  State * list Effect -> (State * list Effect) * Outcome A.

#[export] Instance Act_ret : MRet Act := fun A (a : A) st => (st, Ret a).

#[export] Instance Act_bind : MBind Act := fun A B (k : A -> Act B) (m : Act A) st =>
  match m st with
  | (st', Ret a) => k a st'
  | (st', Throw e) => (st', Throw e)
  end.

(** An action that cannot raise (console output, scheduling a timer). *)
Definition emit (e : Effect) : Act unit :=
  fun '(s, tr) => ((s, tr ++ [e]), Ret tt).

(** A call that may raise: it is recorded, then the oracle decides. *)
Definition perform (env : Env) (e : Effect) : Act unit :=
  fun '(s, tr) =>
    match throws env e with
    | None => ((s, tr ++ [e]), Ret tt)
    | Some err => ((s, tr ++ [e; Exception err]), Throw err)
    end.

Definition get : Act State := fun '(s, tr) => ((s, tr), Ret s).

(** The write to the public field is part of what can be observed. *)
Definition set_currentScene (y : string) : Act unit :=
  fun '(s, tr) =>
    (({| currentScene := y; isTransitioning := isTransitioning s |},
      tr ++ [SetCurrentScene y]), Ret tt).

Definition set_isTransitioning (b : bool) : Act unit :=
  fun '(s, tr) =>
    (({| currentScene := currentScene s; isTransitioning := b |}, tr), Ret tt).

Definition when (b : bool) (m : Act unit) : Act unit :=
  if b then m else mret tt.

(* ------------------------------------------------------------------- *)
(*  hideScene / showScene / fadeOut / fadeIn / delay                   *)
(* ------------------------------------------------------------------- *)
Definition hideScene (env : Env) (year : string) : Act unit :=
  match sceneElements env !! year with
  | Some sceneEl =>
      perform env (SetVisible sceneEl false) ;;
      emit (ConsoleLog ("[SceneManager] Hidden scene: " +:+ year))
  | None => mret tt
  end.

Definition showScene (env : Env) (year : string) : Act unit :=
  match sceneElements env !! year with
  | Some sceneEl =>
      perform env (SetVisible sceneEl true) ;;
      emit (ConsoleLog ("[SceneManager] Showing scene: " +:+ year))
  | None => mret tt
  end.

(** A promise as the awaiting code sees it.  The executor of
    [new Promise] runs inside the call; if it raises, the promise is
    rejected, otherwise it is resolved (at once, or by the timer the
    executor scheduled). *)
Inductive Promise : Type :=
| Resolves
| Rejects (err : string).

Definition new_Promise (executor : Act unit) : Act Promise :=
  fun st =>
    match executor st with
    | (st', Ret _) => (st', Ret Resolves)
    | (st', Throw e) => (st', Ret (Rejects e))
    end.

Definition fadeOut (env : Env) : Act Promise :=
  new_Promise
    match fadeOverlay env with
    | None => mret tt
    | Some ov =>
        perform env (SetVisible ov true) ;;
        perform env (SetMaterialOpacity ov 0) ;;
        perform env (SetAnimation ov 1 (fadeDuration env)) ;;
        emit (SetTimeout (fadeDuration env))
    end.

Definition fadeIn (env : Env) : Act Promise :=
  new_Promise
    match fadeOverlay env with
    | None => mret tt
    | Some ov =>
        perform env (SetAnimation ov 0 (fadeDuration env)) ;;
        emit (SetTimeout (fadeDuration env))
    end.

(** The timer callback of [fadeIn], before its [resolve()].  The host
    runs it on its own stack, outside the [try] of [switchScene]. *)
Definition fadeIn_timer (env : Env) : Act unit :=
  match fadeOverlay env with
  | None => mret tt
  | Some ov => perform env (SetVisible ov false)
  end.

Definition delay (ms : Z) : Act Promise :=
  new_Promise (emit (SetTimeout ms)).

(* ------------------------------------------------------------------- *)
(*  switchScene: an async function, cut at its three awaits.           *)
(* ------------------------------------------------------------------- *)

(** Where a call of [switchScene] is suspended, and on what. *)
Inductive Cont : Type :=
| AwaitFadeOut (targetYear : string) (p : Promise)
| AwaitDelay (targetYear : string) (p : Promise)
| AwaitFadeIn (targetYear : string) (p : Promise)
| AwaitForever (targetYear : string) (err : string).
    (* on the promise of [fadeIn] whose timer callback raised [err]:
       [resolve()] was not reached and nothing else settles it *)

Definition transition_error : string := "[SceneManager] Transition error:".

(** [try { body } catch (error) { console.error(..) } finally
    { this.isTransitioning = false }].  A body that stops at an await is
    still inside the block: neither handler runs yet. *)
Definition try_catch_finally (body : Act (option Cont)) : Act (option Cont) :=
  fun st =>
    match body st with
    | (st', Ret (Some k)) => (st', Ret (Some k))
    | (st', Ret None) =>
        (set_isTransitioning false ;; mret None) st'
    | (st', Throw err) =>
        (emit (ConsoleError transition_error err) ;;
         set_isTransitioning false ;; mret None) st'
    end.

(** [await p]: continue with [k] once [p] resolves, raise if rejected. *)
Definition await {A} (p : Promise) (k : Act A) : Act A :=
  match p with
  | Resolves => k
  | Rejects err => fun st => (st, Throw err)
  end.

(** From the entry of the function to [await this.fadeOut()]. *)
Definition switchScene_entry (env : Env) (targetYear : string) : Act (option Cont) :=
  s ← get;
  if isTransitioning s then
    emit (ConsoleWarn "[SceneManager] Transition already in progress") ;;
    mret None
  else match scenes env !! targetYear with
  | None =>
    emit (ConsoleError "[SceneManager] Invalid target scene:" targetYear) ;;
    mret None
  | Some _ =>
    if String.eqb (currentScene s) targetYear then
      emit (ConsoleLog ("[SceneManager] Already in scene: " +:+ targetYear)) ;;
      mret None
    else
      emit (ConsoleLog ("[SceneManager] Transitioning: " +:+ currentScene s
                          +:+ " → " +:+ targetYear)) ;;
      set_isTransitioning true ;;
      try_catch_finally
        (p ← fadeOut env;
         mret (Some (AwaitFadeOut targetYear p)))
  end.

(** From the first await to [await this.delay(300)]. *)
Definition after_fadeOut (env : Env) (targetYear : string) : Act (option Cont) :=
  s ← get;
  when (audioController env) (perform env (StopSceneAudio (currentScene s))) ;;
  s ← get;
  hideScene env (currentScene s) ;;
  set_currentScene targetYear ;;
  showScene env targetYear ;;
  when (uiManager env)
    (perform env (UpdateSceneInfo targetYear) ;;
     perform env (StartSubtitles targetYear)) ;;
  when (audioController env) (perform env PlayTransition) ;;
  p ← delay 300;
  mret (Some (AwaitDelay targetYear p)).

(** From the second await to [await this.fadeIn()]. *)
Definition after_delay (env : Env) (targetYear : string) : Act (option Cont) :=
  p ← fadeIn env;
  mret (Some (AwaitFadeIn targetYear p)).

(** From the third await to the end of the [try] block. *)
Definition after_fadeIn (env : Env) (targetYear : string) : Act (option Cont) :=
  when (audioController env) (perform env (PlaySceneAudio targetYear)) ;;
  when (animationController env) (perform env (UpdateWaterLevel targetYear)) ;;
  emit (ConsoleLog ("[SceneManager] Transition complete: " +:+ targetYear)) ;;
  mret None.

(** [setTimeout(() => { callback; resolve() }, ms)] as the awaiting call
    meets it.  When [callback] completes, [resolve()] lets the call go on
    with [k].  When it raises, the error leaves through the host: neither
    [catch] nor [finally] of [switchScene] runs, [resolve()] is skipped,
    and the call stays suspended for good. *)
Definition timer_resolves (targetYear : string) (callback : Act unit)
           (k : Act (option Cont)) : Act (option Cont) :=
  fun st =>
    match callback st with
    | (st', Ret _) => k st'
    | (st', Throw err) => (st', Ret (Some (AwaitForever targetYear err)))
    end.

(** Resuming a suspended call. *)
Definition switchScene_resume (env : Env) (k : Cont) : Act (option Cont) :=
  match k with
  | AwaitFadeOut targetYear p =>
      try_catch_finally (await p (after_fadeOut env targetYear))
  | AwaitDelay targetYear p =>
      try_catch_finally (await p (after_delay env targetYear))
  | AwaitFadeIn targetYear p =>
      match p with
      | Resolves =>
          timer_resolves targetYear (fadeIn_timer env)
            (try_catch_finally (after_fadeIn env targetYear))
      | Rejects _ =>
          try_catch_finally (await p (after_fadeIn env targetYear))
      end
  | AwaitForever targetYear err => mret (Some (AwaitForever targetYear err))
  end.

(* ------------------------------------------------------------------- *)
(*  The event loop around one SceneManager.                            *)
(* ------------------------------------------------------------------- *)

(** The object, what has been observed so far, and the calls of
    [switchScene] whose promise is still pending. *)
Record Machine : Type := {
  state : State;
  trace : list Effect;
  pending : list Cont
}.

Definition boot : Machine :=
  {| state := constructor; trace := []; pending := [] |}.

(** Something calls [switchScene(targetYear)]. *)
Definition request (env : Env) (targetYear : string) (m : Machine) : Machine :=
  match switchScene_entry env targetYear (state m, trace m) with
  | ((s, tr), Ret (Some k)) =>
      {| state := s; trace := tr; pending := pending m ++ [k] |}
  | ((s, tr), _) =>
      {| state := s; trace := tr; pending := pending m |}
  end.

(** The promise awaited by the oldest pending call settles, or its
    timer fires; a call suspended for good stays as it is. *)
Definition resume (env : Env) (m : Machine) : Machine :=
  match pending m with
  | [] => m
  | k :: rest =>
      match switchScene_resume env k (state m, trace m) with
      | ((s, tr), Ret (Some k')) =>
          {| state := s; trace := tr; pending := k' :: rest |}
      | ((s, tr), _) =>
          {| state := s; trace := tr; pending := rest |}
      end
  end.

Inductive Event : Type :=
| Request (targetYear : string)
| Settle.

Definition step (env : Env) (m : Machine) (ev : Event) : Machine :=
  match ev with
  | Request targetYear => request env targetYear m
  | Settle => resume env m
  end.

Definition run (env : Env) (m : Machine) (evs : list Event) : Machine :=
  fold_left (step env) evs m.

(** The guard as the specification names it. *)
Definition Idle (m : Machine) : Prop := isTransitioning (state m) = false.
Definition InProgress (m : Machine) : Prop := isTransitioning (state m) = true.

(** No call raises. *)
Definition quiet (env : Env) : Prop := forall e, throws env e = None.

(** The timer callback of [fadeIn] raises. *)
Definition timer_raises (env : Env) : Prop :=
  exists ov err, fadeOverlay env = Some ov /\
                 throws env (SetVisible ov false) = Some err.

Definition is_console (e : Effect) : bool :=
  match e with
  | ConsoleWarn _ | ConsoleError _ _ | ConsoleLog _ => true
  | _ => false
  end.

(** A trace without its console lines. *)
Definition side_effects (tr : list Effect) : list Effect :=
  List.filter (fun e => negb (is_console e)) tr.


(** Errors raised so far that the catch block has not reported yet:
    [Exception err] adds [err], the console line of the catch block
    for [err] removes it. *)
Definition note (owed : list string) (e : Effect) : list string :=
  match e with
  | Exception err => owed ++ [err]
  | ConsoleError msg arg =>
      if String.eqb msg transition_error
      then List.filter (fun x => negb (String.eqb x arg)) owed
      else owed
  | _ => owed
  end.

Definition outstanding (tr : list Effect) : list string := fold_left note tr [].

(** Effects that neither raise nor report. *)
Definition neutral (e : Effect) : bool :=
  match e with
  | Exception _ => false
  | ConsoleError msg _ => negb (String.eqb msg transition_error)
  | _ => true
  end.

(** What a pending promise still owes: the error it was rejected with. *)
Definition rejection (p : Promise) : list string :=
  match p with
  | Resolves => []
  | Rejects err => [err]
  end.

(** The error a suspended call has not seen reported: the one its promise
    was rejected with, or the one the timer callback raised. *)
Definition owed (k : Cont) : list string :=
  match k with
  | AwaitFadeOut _ p | AwaitDelay _ p | AwaitFadeIn _ p => rejection p
  | AwaitForever _ err => [err]
  end.

(** How many awaits a suspended call can still pass. *)
Definition awaits_left (k : Cont) : nat :=
  match k with
  | AwaitFadeOut _ _ => 3
  | AwaitDelay _ _ => 2
  | AwaitFadeIn _ _ => 1
  | AwaitForever _ _ => 0
  end.

(** The call is suspended for good. *)
Definition stuck (k : Cont) : bool :=
  match k with
  | AwaitForever _ _ => true
  | _ => false
  end.

(** A stretch of code that leaves the guard alone and, if it raises,
    raises last. *)
Definition tidy {A} (m : Act A) : Prop :=
  forall s tr, exists s' tr' o,
    m (s, tr) = ((s', tr'), o) /\
    isTransitioning s' = isTransitioning s /\
    outstanding tr' =
      outstanding tr ++ match o with Ret _ => [] | Throw err => [err] end.

(** The same for a call that builds a promise. *)
Definition tidy_promise (m : Act Promise) : Prop :=
  forall s tr, exists s' tr' p,
    m (s, tr) = ((s', tr'), Ret p) /\
    isTransitioning s' = isTransitioning s /\
    outstanding tr' = outstanding tr ++ rejection p.

(** The same for the body of the [try] block between two awaits, which
    suspends with [n] awaits left, completes, or raises. *)
Definition tidy_stretch (n : nat) (m : Act (option Cont)) : Prop :=
  forall s tr, exists s' tr' o,
    m (s, tr) = ((s', tr'), o) /\
    isTransitioning s' = isTransitioning s /\
    match o with
    | Ret (Some k) =>
        awaits_left k = n /\ stuck k = false /\
        outstanding tr' = outstanding tr ++ owed k
    | Ret None => outstanding tr' = outstanding tr
    | Throw err => outstanding tr' = outstanding tr ++ [err]
    end.

(** The guard is set exactly while one call is suspended, and only the
    rejection that call is waiting on can still be unreported. *)
Definition guard_consistent (m : Machine) : Prop :=
  match pending m with
  | [] => isTransitioning (state m) = false /\ outstanding (trace m) = []
  | [k] => isTransitioning (state m) = true /\
           outstanding (trace m) = owed k
  | _ => False
  end.

(** Awaits still in front of the calls in flight. *)
Definition awaits_pending (m : Machine) : nat :=
  list_sum (map awaits_left (pending m)).

(** The portal build with every handle found, every collaborator set
    and no call raising. *)
Definition demo_env : Env :=
  {| scenes := {[ "2000" := {| scene_id := "scene-2000" |};
                  "2020" := {| scene_id := "scene-2020" |};
                  "2050" := {| scene_id := "scene-2050" |} ]};
     fadeDuration := 1000;
     sceneElements := {[ "2000" := "scene-2000"; "2020" := "scene-2020";
                         "2050" := "scene-2050" ]};
     fadeOverlay := Some "fade-overlay";
     audioController := true;
     uiManager := true;
     animationController := true;
     throws := fun _ => None |}.

(** The same page where hiding a scene raises. *)
Definition failing_env : Env :=
  {| scenes := scenes demo_env;
     fadeDuration := 1000;
     sceneElements := sceneElements demo_env;
     fadeOverlay := Some "fade-overlay";
     audioController := true;
     uiManager := true;
     animationController := true;
     throws := fun e => match e with
                        | SetVisible _ false => Some "TypeError"
                        | _ => None
                        end |}.

(** The page of [demo_env] with the lookups in CONFIG.scenes and in
    this.sceneElements spelled out: a name of Object.prototype yields the
    inherited function or object, on which [id] is undefined and
    [setAttribute] is not a function. *)
Definition inherited_handle (key : string) : string := "Object.prototype." +:+ key.

Definition prototype_env : Env :=
  {| scenes := ObjectLiteral.lookups (fun _ => {| scene_id := "undefined" |})
                 (scenes demo_env);
     fadeDuration := 1000;
     sceneElements := ObjectLiteral.lookups inherited_handle (sceneElements demo_env);
     fadeOverlay := Some "fade-overlay";
     audioController := true;
     uiManager := true;
     animationController := true;
     throws := fun e => match e with
                        | SetVisible el _ =>
                            if String.prefix "Object.prototype." el
                            then Some "TypeError: sceneEl.setAttribute is not a function"
                            else None
                        | _ => None
                        end |}.

(** The same page where hiding the fade overlay raises. *)
Definition overlay_env : Env :=
  {| scenes := scenes demo_env;
     fadeDuration := 1000;
     sceneElements := sceneElements demo_env;
     fadeOverlay := Some "fade-overlay";
     audioController := true;
     uiManager := true;
     animationController := true;
     throws := fun e => if decide (e = SetVisible "fade-overlay" false)
                        then Some "TypeError" else None |}.

Definition idle_at (A : string) (tr : list Effect) : Machine :=
  {| state := {| currentScene := A; isTransitioning := false |};
     trace := tr; pending := [] |}.

(* ------------------------------------------------------------------- *)
(*  The order of side effects as the specification lists it, steps     *)
(*  (1) to (11).  A step whose collaborator or handle is missing is     *)
(*  empty.                                                             *)
(* ------------------------------------------------------------------- *)
Section SpecifiedOrder.
Variable env : Env.
Variables A B : string.

Definition step_on (present : bool) (es : list Effect) : list Effect :=
  if present then es else [].

Definition step_visual (year : string) (b : bool) : list Effect :=
  match sceneElements env !! year with
  | Some el => [SetVisible el b]
  | None => []
  end.

Definition step1_fade_to_opaque : list Effect :=
  match fadeOverlay env with
  | Some ov => [SetVisible ov true; SetMaterialOpacity ov 0;
                SetAnimation ov 1 (fadeDuration env);
                SetTimeout (fadeDuration env)]
  | None => []
  end.
Definition step2_stop_audio := step_on (audioController env) [StopSceneAudio A].
Definition step3_hide_current := step_visual A false.
Definition step4_commit := [SetCurrentScene B].
Definition step5_show_target := step_visual B true.
Definition step6_notify_ui :=
  step_on (uiManager env) [UpdateSceneInfo B; StartSubtitles B].
Definition step7_transition_cue := step_on (audioController env) [PlayTransition].
Definition step8_settle_delay := [SetTimeout 300].
Definition step9_fade_from_opaque : list Effect :=
  match fadeOverlay env with
  | Some ov => [SetAnimation ov 0 (fadeDuration env);
                SetTimeout (fadeDuration env); SetVisible ov false]
  | None => []
  end.
Definition step10_start_audio := step_on (audioController env) [PlaySceneAudio B].
Definition step11_notify_animation :=
  step_on (animationController env) [UpdateWaterLevel B].

Definition specified_order : list Effect :=
  step1_fade_to_opaque ++ step2_stop_audio ++ step3_hide_current ++
  step4_commit ++ step5_show_target ++ step6_notify_ui ++
  step7_transition_cue ++ step8_settle_delay ++ step9_fade_from_opaque ++
  step10_start_audio ++ step11_notify_animation.
End SpecifiedOrder.

End SceneManager.

(* ===================================================================== *)
(*  js/animation-controller.js, class AudioController: the fade engine   *)
(* ===================================================================== *)
Module AudioController.

(** An HTMLAudioElement, as far as the controller touches it. *)
Record AudioElement : Type := {
  volume : Q;
  paused : bool;
  currentTime : Q
}.

(** The only completion callback in the source: the closure
    [() => { audioEl.pause(); audioEl.currentTime = 0; }] that
    [stopSceneAudio] passes to [fadeOut]. *)
Inductive Callback : Type :=
| PauseAndRewind (audioEl : string).

(** The closure a fade hands to [setInterval]: the variables it captured
    and its [currentStep]. *)
Inductive Fade : Type :=
| FadeInTimer (audioEl : string) (targetVolume volumeStep : Q) (currentStep : nat)
| FadeOutTimer (audioEl : string) (startVolume volumeStep : Q) (currentStep : nat)
               (callback : option Callback).

Definition channel (f : Fade) : string :=
  match f with
  | FadeInTimer el _ _ _ | FadeOutTimer el _ _ _ _ => el
  end.

Record Interval : Type := {
  period : Q;        (* stepTime, in ms *)
  closure : Fade
}.

Inductive AudioEvent : Type :=
| Fired (cb : Callback).

(** The controller, the audio elements of the page (by element id), the
    interval timers of the host that are alive, and the completion
    callbacks invoked so far. *)
Record World : Type := {
  masterVolume : Q;                      (* this.masterVolume *)
  audioElements : gmap string string;    (* this.audioElements: year -> element *)
  elements : string -> AudioElement;
  intervals : gmap nat Interval;
  nextTimer : nat;                       (* the id the next setInterval returns *)
  fired : list AudioEvent
}.

(** CONFIG.audio *)
Definition CONFIG_audio_masterVolume : Q := 7 # 10.
Definition CONFIG_audio_fadeInTime : Q := 1000.
Definition CONFIG_audio_fadeOutTime : Q := 1000.

Definition steps : nat := 20.

Definition Qnat (n : nat) : Q := inject_Z (Z.of_nat n).

Definition with_elements (els : string -> AudioElement) (w : World) : World :=
  {| masterVolume := masterVolume w; audioElements := audioElements w;
     elements := els; intervals := intervals w; nextTimer := nextTimer w;
     fired := fired w |}.

Definition with_intervals (ivs : gmap nat Interval) (w : World) : World :=
  {| masterVolume := masterVolume w; audioElements := audioElements w;
     elements := elements w; intervals := ivs; nextTimer := nextTimer w;
     fired := fired w |}.

Definition update_element (el : string) (f : AudioElement -> AudioElement)
           (w : World) : World :=
  with_elements
    (fun k => if String.eqb k el then f (elements w k) else elements w k) w.

(** [audioEl.volume = v] *)
Definition set_volume (el : string) (v : Q) : World -> World :=
  update_element el
    (fun a => {| volume := v; paused := paused a; currentTime := currentTime a |}).

Definition get_volume (el : string) (w : World) : Q := volume (elements w el).

(** [audioEl.pause(); audioEl.currentTime = 0] *)
Definition pause_and_rewind (el : string) : World -> World :=
  update_element el
    (fun a => {| volume := volume a; paused := true; currentTime := 0 |}).

(** [setInterval(closure, period)]: a fresh timer, alive until cleared. *)
Definition setInterval (f : Fade) (ms : Q) (w : World) : World :=
  {| masterVolume := masterVolume w; audioElements := audioElements w;
     elements := elements w;
     intervals := <[nextTimer w := {| period := ms; closure := f |}]> (intervals w);
     nextTimer := S (nextTimer w);
     fired := fired w |}.

Definition clearInterval (id : nat) (w : World) : World :=
  with_intervals (delete id (intervals w)) w.

(** The closure's own [currentStep++]. *)
Definition store_closure (id : nat) (f : Fade) (w : World) : World :=
  with_intervals
    (alter (fun iv => {| period := period iv; closure := f |}) id (intervals w)) w.

Definition invoke (cb : option Callback) (w : World) : World :=
  match cb with
  | None => w
  | Some (PauseAndRewind el) =>
      let w' := pause_and_rewind el w in
      {| masterVolume := masterVolume w'; audioElements := audioElements w';
         elements := elements w'; intervals := intervals w';
         nextTimer := nextTimer w';
         fired := fired w' ++ [Fired (PauseAndRewind el)] |}
  end.

(** [fadeIn(audioEl)]; a null handle is [None]. *)
Definition fadeIn (audioEl : option string) (w : World) : World :=
  match audioEl with
  | None => w
  | Some el =>
      let targetVolume := masterVolume w in
      let fadeTime := CONFIG_audio_fadeInTime in
      let stepTime := (fadeTime / Qnat steps)%Q in
      let volumeStep := (targetVolume / Qnat steps)%Q in
      let w := set_volume el 0 w in
      setInterval (FadeInTimer el targetVolume volumeStep 0) stepTime w
  end.

(** [fadeOut(audioEl, callback)] *)
Definition fadeOut (audioEl : option string) (callback : option Callback)
           (w : World) : World :=
  match audioEl with
  | None => w
  | Some el =>
      let startVolume := get_volume el w in
      let fadeTime := CONFIG_audio_fadeOutTime in
      let stepTime := (fadeTime / Qnat steps)%Q in
      let volumeStep := (startVolume / Qnat steps)%Q in
      setInterval (FadeOutTimer el startVolume volumeStep 0 callback) stepTime w
  end.

(** The host runs the callback of interval [id] once.  A cleared
    interval is never run again. *)
Definition tick (id : nat) (w : World) : World :=
  match intervals w !! id with
  | None => w
  | Some iv =>
      match closure iv with
      | FadeInTimer el targetVolume volumeStep currentStep =>
          let currentStep := S currentStep in
          let w := store_closure id
                     (FadeInTimer el targetVolume volumeStep currentStep) w in
          let w := set_volume el
                     (Qmin (volumeStep * Qnat currentStep) targetVolume) w in
          if steps <=? currentStep then
            set_volume el targetVolume (clearInterval id w)
          else w
      | FadeOutTimer el startVolume volumeStep currentStep callback =>
          let currentStep := S currentStep in
          let w := store_closure id
                     (FadeOutTimer el startVolume volumeStep currentStep callback) w in
          let w := set_volume el
                     (Qmax (startVolume - volumeStep * Qnat currentStep) 0) w in
          if (steps <=? currentStep) || Qle_bool (get_volume el w) 0 then
            invoke callback (set_volume el 0 (clearInterval id w))
          else w
      end
  end.

(** [stopSceneAudio(year)] *)
Definition stopSceneAudio (year : string) (w : World) : World :=
  match audioElements w !! year with
  | None => w
  | Some el => fadeOut (Some el) (Some (PauseAndRewind el)) w
  end.

(** [setMasterVolume(volume)] for a number, without the update of
    [currentAudio]. *)
Definition setMasterVolume (v : Q) (w : World) : World :=
  {| masterVolume := Qmax 0 (Qmin 1 v); audioElements := audioElements w;
     elements := elements w; intervals := intervals w; nextTimer := nextTimer w;
     fired := fired w |}.

(** The host runs the callbacks of the listed intervals, in that order. *)
Definition ticks (ids : list nat) (w : World) : World := fold_left (fun w id => tick id w) ids w.

Definition alive (id : nat) (w : World) : bool :=
  bool_decide (is_Some (intervals w !! id)).

(** The volume of [el] before the first and after each of [n] ticks of
    interval [id]. *)
Definition volume_sequence (id : nat) (el : string) (n : nat) (w : World) : list Q :=
  map (fun k => get_volume el (ticks (repeat id k) w)) (seq 0 (S n)).

Definition times_fired (cb : Callback) (w : World) : nat :=
  length (List.filter (fun e => match e, cb with
                                | Fired (PauseAndRewind a), PauseAndRewind b =>
                                    String.eqb a b
                                end) (fired w)).

(** At most one interval is ramping the volume of [el]. *)
Definition at_most_one_ramp (el : string) (w : World) : Prop :=
  forall i j f g,
    intervals w !! i = Some f -> intervals w !! j = Some g ->
    channel (closure f) = el -> channel (closure g) = el -> i = j.

(** Timer ids not handed out yet are not alive. *)
Definition fresh_ids (w : World) : Prop :=
  forall id, nextTimer w <= id -> intervals w !! id = None.

(** Where the fade-out held by interval [id] stands after [k] of its own
    ticks, counted from [w0]: still ramping at step [k], or ended. *)
Definition fadeOut_stands (id : nat) (p : Q) (el : string) (start : Q)
           (cb : option Callback) (w0 : World) (k : nat) : Prop :=
  let after := ticks (repeat id k) w0 in
  (intervals after !! id =
     Some {| period := p;
             closure := FadeOutTimer el start (start / Qnat steps) k cb |} /\
   k < steps /\
   (get_volume el after == Qmax (start - start / Qnat steps * Qnat k) 0)%Q /\
   fired after = fired w0 /\
   (k = 0 \/ (0 < start)%Q))
  \/
  (intervals after !! id = None /\
   get_volume el after = 0%Q /\
   fired after = fired w0 ++ match cb with Some c => [Fired c] | None => [] end /\
   0 < k /\
   ((0 < start)%Q -> steps <= k)).

(** The same for a fade-in. *)
Definition fadeIn_stands (id : nat) (p : Q) (el : string) (target : Q)
           (w0 : World) (k : nat) : Prop :=
  let after := ticks (repeat id k) w0 in
  fired after = fired w0 /\
  ((intervals after !! id =
      Some {| period := p;
              closure := FadeInTimer el target (target / Qnat steps) k |} /\
    k < steps /\
    (get_volume el after == Qmin (target / Qnat steps * Qnat k) target)%Q)
   \/
   (intervals after !! id = None /\
    get_volume el after = target /\
    steps <= k)).

Definition non_increasing (l : list Q) : Prop :=
  forall i v v', l !! i = Some v -> l !! S i = Some v' -> (v' <= v)%Q.

Definition non_decreasing (l : list Q) : Prop :=
  forall i v v', l !! i = Some v -> l !! S i = Some v' -> (v <= v')%Q.

(** The two ways to start a fade on an element. *)
Inductive FadeCall : Type :=
| FadeInCall
| FadeOutCall (callback : option Callback).

Definition fade (c : FadeCall) (el : string) (w : World) : World :=
  match c with
  | FadeInCall => fadeIn (Some el) w
  | FadeOutCall callback => fadeOut (Some el) callback w
  end.

Definition currentStep_of (f : Fade) : nat :=
  match f with
  | FadeInTimer _ _ _ currentStep | FadeOutTimer _ _ _ currentStep _ => currentStep
  end.

(** A page with one audio element at full master volume and no timer. *)
Definition demo_world : World :=
  {| masterVolume := CONFIG_audio_masterVolume;
     audioElements := {[ "2000" := "audio-ambient" ]};
     elements := fun _ => {| volume := CONFIG_audio_masterVolume;
                             paused := false; currentTime := 0 |};
     intervals := ∅;
     nextTimer := 1;
     fired := [] |}.

End AudioController.

(* ===================================================================== *)
(*  js/gaze-controller.js, EarthController.setupEarthRotation:           *)
(*  drag rotation with the pitch clamp                                   *)
(* ===================================================================== *)
Module EarthRotation.

Record Point : Type := { x : Q; y : Q }.

(** The variables the handlers close over.  [currentRotation.x] is the
    pitch, [currentRotation.y] the yaw, in degrees. *)
Record State : Type := {
  isDragging : bool;
  previousMousePosition : Point;
  currentRotation : Point;
  rendered : list Point     (* earthContainer.setAttribute('rotation', ..) *)
}.

Definition setup : State :=
  {| isDragging := false;
     previousMousePosition := {| x := 0; y := 0 |};
     currentRotation := {| x := 0; y := 0 |};
     rendered := [] |}.

Inductive Event : Type :=
| MouseDown (tagName : string) (clientX clientY : Q)
| MouseMove (clientX clientY : Q)
| MouseUp
| TouchStart (touches : list Point)
| TouchMove (touches : list Point)
| TouchEnd.

Definition start_drag (at_ : Point) (s : State) : State :=
  {| isDragging := true; previousMousePosition := at_;
     currentRotation := currentRotation s; rendered := rendered s |}.

Definition stop_drag (s : State) : State :=
  {| isDragging := false; previousMousePosition := previousMousePosition s;
     currentRotation := currentRotation s; rendered := rendered s |}.

(** [Math.max(-90, Math.min(90, v))] *)
Definition clamp (v : Q) : Q := Qmax (-90) (Qmin 90 v).

(** The body shared by the mousemove and touchmove handlers. *)
Definition drag_to (client : Point) (s : State) : State :=
  let deltaX := (x client - x (previousMousePosition s))%Q in
  let deltaY := (y client - y (previousMousePosition s))%Q in
  let rotY := (y (currentRotation s) + deltaX * (1 # 2))%Q in
  let rotX := (x (currentRotation s) - deltaY * (1 # 2))%Q in
  let rotX := clamp rotX in
  let rot := {| x := rotX; y := rotY |} in
  {| isDragging := isDragging s; previousMousePosition := client;
     currentRotation := rot; rendered := rendered s ++ [rot] |}.

Definition handle (s : State) (ev : Event) : State :=
  match ev with
  | MouseDown tagName clientX clientY =>
      if String.eqb tagName "CANVAS" || String.eqb tagName "A-SCENE"
      then start_drag {| x := clientX; y := clientY |} s
      else s
  | MouseMove clientX clientY =>
      if isDragging s then drag_to {| x := clientX; y := clientY |} s else s
  | MouseUp => stop_drag s
  | TouchStart touches =>
      match touches with
      | [t] => start_drag t s
      | _ => s
      end
  | TouchMove touches =>
      match isDragging s, touches with
      | true, [t] => drag_to t s
      | _, _ => s
      end
  | TouchEnd => stop_drag s
  end.

Definition run (s : State) (evs : list Event) : State := fold_left handle evs s.

Definition pitch (s : State) : Q := x (currentRotation s).
Definition yaw (s : State) : Q := y (currentRotation s).

Definition in_range (s : State) : Prop := (-90 <= pitch s /\ pitch s <= 90)%Q.

(** What the yaw depends on. *)
Definition yaw_view (s : State) : bool * Q * Q :=
  (isDragging s, x (previousMousePosition s), yaw s).

(** The same input with every vertical coordinate replaced by 0. *)
Definition flat (p : Point) : Point := {| x := x p; y := 0 |}.

Definition flatten (ev : Event) : Event :=
  match ev with
  | MouseDown tagName clientX _ => MouseDown tagName clientX 0
  | MouseMove clientX _ => MouseMove clientX 0
  | TouchStart touches => TouchStart (map flat touches)
  | TouchMove touches => TouchMove (map flat touches)
  | ev => ev
  end.

End EarthRotation.

(* ===================================================================== *)
(*  Earth controller of the globe build, setupGlobeRotation:             *)
(*  drag rotation with inertia, no clamp                                 *)
(* ===================================================================== *)
Module GlobeRotation.

Record Point : Type := { x : Q; y : Q }.

Definition rotationSpeed : Q := 1 # 2.
Definition damping : Q := 96 # 100.
Definition minVelocity : Q := 1 # 100.

(** The handles found by [setup()] that a rotation is written to: the
    Earth spheres whose [visible] attribute is set, in the order of
    [Object.values(this.earthSpheres)], and the hotspots. *)
Record Page : Type := {
  visibleSpheres : list string;
  hotspots : list string
}.

Inductive Effect : Type :=
| SetRotation (el : string) (rot : Point)
| SetCursor (style : string).

(** [this.globeRotation], [this.isRotatingGlobe], the variables the
    handlers close over, and the animation frames the host has been asked
    for and not run or cancelled yet. *)
Record State : Type := {
  globeRotation : Point;
  isRotatingGlobe : bool;
  isDragging : bool;
  previousMousePosition : Point;
  velocity : Point;
  lastMoveTime : Q;
  inertiaAnimationId : option nat;
  frames : list nat;
  nextFrame : nat;
  trace : list Effect
}.

Definition setup : State :=
  {| globeRotation := {| x := 0; y := 0 |};
     isRotatingGlobe := false;
     isDragging := false;
     previousMousePosition := {| x := 0; y := 0 |};
     velocity := {| x := 0; y := 0 |};
     lastMoveTime := 0;
     inertiaAnimationId := None;
     frames := [];
     nextFrame := 1;
     trace := [] |}.

(** The two forEach loops that write [this.globeRotation] to the page. *)
Definition render (page : Page) (rot : Point) : list Effect :=
  map (fun el => SetRotation el rot) (visibleSpheres page) ++
  map (fun el => SetRotation el rot) (hotspots page).

(** [Math.abs(v) > minVelocity] *)
Definition above_threshold (v : Q) : bool := negb (Qle_bool (Qabs v) minVelocity).

(** [applyInertia()] *)
Definition applyInertia (page : Page) (s : State) : State :=
  if negb (isDragging s) &&
     (above_threshold (x (velocity s)) || above_threshold (y (velocity s)))
  then
    let rot := {| x := (x (globeRotation s) + x (velocity s))%Q;
                  y := (y (globeRotation s) + y (velocity s))%Q |} in
    let vel := {| x := (x (velocity s) * damping)%Q;
                  y := (y (velocity s) * damping)%Q |} in
    {| globeRotation := rot;
       isRotatingGlobe := isRotatingGlobe s;
       isDragging := isDragging s;
       previousMousePosition := previousMousePosition s;
       velocity := vel;
       lastMoveTime := lastMoveTime s;
       inertiaAnimationId := Some (nextFrame s);     (* requestAnimationFrame *)
       frames := frames s ++ [nextFrame s];
       nextFrame := S (nextFrame s);
       trace := trace s ++ render page rot |}
  else
    {| globeRotation := globeRotation s;
       isRotatingGlobe := isRotatingGlobe s;
       isDragging := isDragging s;
       previousMousePosition := previousMousePosition s;
       velocity := {| x := 0; y := 0 |};
       lastMoveTime := lastMoveTime s;
       inertiaAnimationId := inertiaAnimationId s;
       frames := frames s;
       nextFrame := nextFrame s;
       trace := trace s |}.

(** [cancelAnimationFrame(id)] *)
Definition cancelAnimationFrame (id : nat) (fs : list nat) : list nat :=
  List.filter (fun f => negb (Nat.eqb f id)) fs.

(** The body shared by the mousedown and touchstart handlers. *)
Definition start_drag (client : Point) (now : Q) (cursor : list Effect)
           (s : State) : State :=
  {| globeRotation := globeRotation s;
     isRotatingGlobe := true;
     isDragging := true;
     previousMousePosition := client;
     velocity := {| x := 0; y := 0 |};
     lastMoveTime := now;
     inertiaAnimationId := inertiaAnimationId s;
     frames := match inertiaAnimationId s with
               | Some id => cancelAnimationFrame id (frames s)
               | None => frames s
               end;
     nextFrame := nextFrame s;
     trace := trace s ++ cursor |}.

(** The body shared by the mousemove and touchmove handlers. *)
Definition drag_to (page : Page) (client : Point) (now : Q) (s : State) : State :=
  let deltaTime := (now - lastMoveTime s)%Q in
  let deltaX := (x client - x (previousMousePosition s))%Q in
  let deltaY := (y client - y (previousMousePosition s))%Q in
  let rotX := (- deltaY * rotationSpeed)%Q in
  let rotY := (deltaX * rotationSpeed)%Q in
  let rot := {| x := (x (globeRotation s) + rotX)%Q;
                y := (y (globeRotation s) + rotY)%Q |} in
  let vel := if Qle_bool deltaTime 0 then velocity s
             else {| x := (rotX / Qmax deltaTime 1 * 10)%Q;
                     y := (rotY / Qmax deltaTime 1 * 10)%Q |} in
  {| globeRotation := rot;
     isRotatingGlobe := isRotatingGlobe s;
     isDragging := isDragging s;
     previousMousePosition := client;
     velocity := vel;
     lastMoveTime := now;
     inertiaAnimationId := inertiaAnimationId s;
     frames := frames s;
     nextFrame := nextFrame s;
     trace := trace s ++ render page rot |}.

(** The body shared by the mouseup and touchend handlers. *)
Definition release (page : Page) (cursor : list Effect) (s : State) : State :=
  if isDragging s then
    applyInertia page
      {| globeRotation := globeRotation s;
         isRotatingGlobe := false;
         isDragging := false;
         previousMousePosition := previousMousePosition s;
         velocity := velocity s;
         lastMoveTime := lastMoveTime s;
         inertiaAnimationId := inertiaAnimationId s;
         frames := frames s;
         nextFrame := nextFrame s;
         trace := trace s ++ cursor |}
  else s.

(** The host runs the oldest animation frame callback it still holds. *)
Definition run_frame (page : Page) (s : State) : State :=
  match frames s with
  | [] => s
  | _ :: rest =>
      applyInertia page
        {| globeRotation := globeRotation s;
           isRotatingGlobe := isRotatingGlobe s;
           isDragging := isDragging s;
           previousMousePosition := previousMousePosition s;
           velocity := velocity s;
           lastMoveTime := lastMoveTime s;
           inertiaAnimationId := inertiaAnimationId s;
           frames := rest;
           nextFrame := nextFrame s;
           trace := trace s |}
  end.

(** [onUI]: the event target is inside a year button, the auto-play
    button or a UI panel.  [now] is [Date.now()]. *)
Inductive Event : Type :=
| MouseDown (onUI : bool) (clientX clientY : Q) (now : Q)
| MouseMove (clientX clientY : Q) (now : Q)
| MouseUp
| TouchStart (onUI : bool) (touches : list Point) (now : Q)
| TouchMove (touches : list Point) (now : Q)
| TouchEnd
| Frame.

Definition handle (page : Page) (s : State) (ev : Event) : State :=
  match ev with
  | MouseDown onUI clientX clientY now =>
      if onUI then s
      else start_drag {| x := clientX; y := clientY |} now [SetCursor "grabbing"] s
  | MouseMove clientX clientY now =>
      if isDragging s then drag_to page {| x := clientX; y := clientY |} now s else s
  | MouseUp => release page [SetCursor "default"] s
  | TouchStart onUI touches now =>
      if onUI then s
      else match touches with
           | [t] => start_drag t now [] s
           | _ => s
           end
  | TouchMove touches now =>
      match isDragging s, touches with
      | true, [t] => drag_to page t now s
      | _, _ => s
      end
  | TouchEnd => release page [] s
  | Frame => run_frame page s
  end.

Definition run (page : Page) (s : State) (evs : list Event) : State :=
  fold_left (handle page) evs s.

Definition pitch (s : State) : Q := x (globeRotation s).
Definition yaw (s : State) : Q := y (globeRotation s).

(** A page showing the sphere of 2000 and two hotspots. *)
Definition demo_page : Page :=
  {| visibleSpheres := ["earth-2000"];
     hotspots := ["hotspot-arctic"; "hotspot-pacific"] |}.

(** Ticks after which the inertia started with velocity [v] has stopped:
    the least [n] with [1 + n/24 >= 100 |v|] is below this. *)
Definition inertia_bound (v : Point) : nat :=
  Z.to_nat (Qceiling (2400 * Qmax (Qabs (x v)) (Qabs (y v)))).

Definition with_frames (fs : list nat) (s : State) : State :=
  {| globeRotation := globeRotation s;
     isRotatingGlobe := isRotatingGlobe s;
     isDragging := isDragging s;
     previousMousePosition := previousMousePosition s;
     velocity := velocity s;
     lastMoveTime := lastMoveTime s;
     inertiaAnimationId := inertiaAnimationId s;
     frames := fs;
     nextFrame := nextFrame s;
     trace := trace s |}.

Definition still (s : State) : Prop :=
  velocity s = {| x := 0; y := 0 |} /\ frames s = [].

(** At most one animation frame is outstanding, it is the one
    [inertiaAnimationId] names, and none is while a drag is on. *)
Definition one_frame (s : State) : Prop :=
  (frames s = [] \/ exists id, frames s = [id] /\ inertiaAnimationId s = Some id) /\
  (isDragging s = true -> frames s = []).

End GlobeRotation.

(* ===================================================================== *)
(*  Earth controller of the globe build: constructor, switchYear,        *)
(*  auto-play, nextYear / previousYear                                   *)
(* ===================================================================== *)
Module EarthController.

(** The JavaScript values a field or a global can hold, as far as the
    controller tells them apart. *)
Inductive Value : Type :=
| VUndefined
| VNull
| VBool (b : bool)
| VNumber (q : Q)
| VString (s : string).

(** [if (v)] *)
Definition truthy (v : Value) : bool :=
  match v with
  | VUndefined | VNull => false
  | VBool b => b
  | VNumber q => negb (Qeq_bool q 0)
  | VString s => negb (String.eqb s EmptyString)
  end.

Inductive Error : Type :=
| ReferenceError (name : string)      (* [name] is not defined *)
| TypeError (what : string).

(** The fields of the class that hold data. *)
Record Controller : Type := {
  currentYear : string;
  autoPlay : Value;
  autoPlayTimer : option nat;
  autoPlayInterval : Z;
  globeRotation : Q * Q;
  isRotatingGlobe : bool
}.

(** Reading a global identifier. *)
Definition identifier (globals : gmap string Value) (name : string)
  : Error + Value :=
  match globals !! name with
  | Some v => inr v
  | None => inl (ReferenceError name)
  end.

(** [init()]: [scene] is [document.querySelector('a-scene')] and, when
    there is one, its [hasLoaded]; the result tells whether [setup()] ran
    at once. *)
Definition init (scene : option bool) : Error + bool :=
  match scene with
  | None => inl (TypeError "Cannot read properties of null (reading 'hasLoaded')")
  | Some hasLoaded => inr hasLoaded
  end.

(** [constructor()], statement by statement. *)
Definition constructor (globals : gmap string Value) (scene : option bool)
  : Error + (Controller * bool) :=
  let currentYear := "2000" in
  match identifier globals "True" with          (* this.autoPlay = True; *)
  | inl err => inl err
  | inr autoPlay =>
      let this := {| currentYear := currentYear;
                     autoPlay := autoPlay;
                     autoPlayTimer := None;
                     autoPlayInterval := 5000;
                     globeRotation := (0, 0)%Q;
                     isRotatingGlobe := false |} in
      match init scene with
      | inl err => inl err
      | inr ran => inr (this, ran)
      end
  end.

(** The handles [setup()] and the methods look up in the page. *)
Record Page : Type := {
  earthSpheres : gmap string string;   (* this.earthSpheres, non-null entries *)
  yearButtons : list string;           (* data-year of every .year-btn *)
  dataTextLeft : bool;                 (* #data-text-left exists *)
  dataTextRight : bool;                (* #data-text-right exists *)
  narrations : gset string;            (* years with an #audio-narration-<year> *)
  autoPlayBtn : bool;                  (* #autoplay-btn exists *)
  uiManager : bool                     (* window.uiManager is set *)
}.

Inductive Side : Type := Left | Right.

Inductive Effect : Type :=
| ConsoleLog (msg : string)
| SetVisible (el : string) (b : bool)
| SetRotation (el : string) (rot : Q * Q)
| ClassAdd (buttonYear : string)
| ClassRemove (buttonYear : string)
| SetPanel (side : Side) (year : string)     (* value := dataContent[year].side *)
| UpdateSceneInfo (year : string)
| PlayNarration (year : string)
| AutoPlayButton (on : bool).

(** The controller, the interval timers of the host that are alive (with
    the time each fires next), the host's clock, and what was done to the
    page. *)
Record World : Type := {
  this : Controller;
  intervals : gmap nat Z;
  nextTimer : nat;
  now : Z;
  trace : list Effect
}.

(** A controller whose [autoPlay] holds [v], as [setup()] leaves it:
    no timer is started. *)
Definition boot (v : Value) : World :=
  {| this := {| currentYear := "2000"; autoPlay := v; autoPlayTimer := None;
                autoPlayInterval := 5000; globeRotation := (0, 0)%Q;
                isRotatingGlobe := false |};
     intervals := ∅; nextTimer := 1; now := 0; trace := [] |}.

Definition years : list string := ["2000"; "2010"; "2020"; "2050"].

(** The keys of [dataContent] in [updateDataPanels]. *)
Definition dataContent : list string := ["2000"; "2010"; "2020"; "2050"].

Definition has (l : list string) (k : string) : bool :=
  existsb (fun k' => String.eqb k' k) l.

Definition updateDataPanels (page : Page) (year : string) : list Effect :=
  (if dataTextLeft page && has dataContent year then [SetPanel Left year] else []) ++
  (if dataTextRight page && has dataContent year then [SetPanel Right year] else []).

Definition playNarration (page : Page) (year : string) : list Effect :=
  if bool_decide (year ∈ narrations page) then [PlayNarration year] else [].

(** [switchYear(year)] when neither [year] nor [currentYear] is a name
    that [this.earthSpheres] inherits from Object.prototype;
    [EarthControllerLookup.switchYear] below covers every argument and
    agrees with this one on those. *)
Definition switchYear (page : Page) (year : string) (w : World) : World :=
  if String.eqb (currentYear (this w)) year then w
  else
    let log := [ConsoleLog ("[EarthController] Switching to year " +:+ year)] in
    let hide := match earthSpheres page !! currentYear (this w) with
                | Some el => [SetVisible el false]
                | None => []
                end in
    let show := match earthSpheres page !! year with
                | Some el => [SetVisible el true;
                              SetRotation el (globeRotation (this w))]
                | None => []
                end in
    let buttons := map (fun buttonYear =>
                          if String.eqb buttonYear year
                          then ClassAdd buttonYear else ClassRemove buttonYear)
                       (yearButtons page) in
    let panels := updateDataPanels page year in
    let ui := if uiManager page then [UpdateSceneInfo year] else [] in
    let narration := playNarration page year in
    {| this := {| currentYear := year;
                  autoPlay := autoPlay (this w);
                  autoPlayTimer := autoPlayTimer (this w);
                  autoPlayInterval := autoPlayInterval (this w);
                  globeRotation := globeRotation (this w);
                  isRotatingGlobe := isRotatingGlobe (this w) |};
       intervals := intervals w; nextTimer := nextTimer w; now := now w;
       trace := trace w ++ log ++ hide ++ show ++ buttons ++ panels ++ ui
                  ++ narration |}.

(** [years.indexOf(year)] *)
Fixpoint indexOf_from (l : list string) (year : string) (i : Z) : Z :=
  match l with
  | [] => -1
  | y :: l' => if String.eqb y year then i else indexOf_from l' year (i + 1)
  end.

Definition indexOf (l : list string) (year : string) : Z := indexOf_from l year 0.

(** [years[i]]; outside the array JavaScript gives undefined, which no
    index computed below reaches. *)
Definition at_index (l : list string) (i : Z) : string :=
  if (i <? 0)%Z then "undefined" else nth (Z.to_nat i) l "undefined".

Definition array_length (l : list string) : Z := Z.of_nat (length l).

(** [nextYear()]; [%] is the remainder that takes the sign of the
    dividend. *)
Definition nextYear (page : Page) (w : World) : World :=
  let currentIndex := indexOf years (currentYear (this w)) in
  let nextIndex := Z.rem (currentIndex + 1) (array_length years) in
  switchYear page (at_index years nextIndex) w.

(** [previousYear()] *)
Definition previousYear (page : Page) (w : World) : World :=
  let currentIndex := indexOf years (currentYear (this w)) in
  let prevIndex := Z.rem (currentIndex - 1 + array_length years)
                         (array_length years) in
  switchYear page (at_index years prevIndex) w.

Definition button_effect (page : Page) (on : bool) : list Effect :=
  if autoPlayBtn page then [AutoPlayButton on] else [].

(** [startAutoPlay()] *)
Definition startAutoPlay (page : Page) (w : World) : World :=
  let id := nextTimer w in
  {| this := {| currentYear := currentYear (this w);
                autoPlay := VBool true;
                autoPlayTimer := Some id;
                autoPlayInterval := autoPlayInterval (this w);
                globeRotation := globeRotation (this w);
                isRotatingGlobe := isRotatingGlobe (this w) |};
     intervals := <[id := (now w + autoPlayInterval (this w))%Z]> (intervals w);
     nextTimer := S id;
     now := now w;
     trace := trace w ++ button_effect page true ++
              [ConsoleLog "[EarthController] Auto-play started"] |}.

(** [clearInterval(this.autoPlayTimer)] under [if (this.autoPlayTimer)] *)
Definition clear_autoPlayTimer (w : World) : gmap nat Z :=
  match autoPlayTimer (this w) with
  | Some id => delete id (intervals w)
  | None => intervals w
  end.

(** [stopAutoPlay()] *)
Definition stopAutoPlay (page : Page) (w : World) : World :=
  {| this := {| currentYear := currentYear (this w);
                autoPlay := VBool false;
                autoPlayTimer := None;
                autoPlayInterval := autoPlayInterval (this w);
                globeRotation := globeRotation (this w);
                isRotatingGlobe := isRotatingGlobe (this w) |};
     intervals := clear_autoPlayTimer w;
     nextTimer := nextTimer w;
     now := now w;
     trace := trace w ++ button_effect page false ++
              [ConsoleLog "[EarthController] Auto-play stopped"] |}.

(** [toggleAutoPlay()] *)
Definition toggleAutoPlay (page : Page) (w : World) : World :=
  if truthy (autoPlay (this w)) then stopAutoPlay page w else startAutoPlay page w.

(** [resetAutoPlay()] *)
Definition resetAutoPlay (page : Page) (w : World) : World :=
  if truthy (autoPlay (this w)) then
    startAutoPlay page
      {| this := this w; intervals := clear_autoPlayTimer w;
         nextTimer := nextTimer w; now := now w; trace := trace w |}
  else w.

(** The host runs the callback of interval [id] when it is alive and
    due, and schedules its next run one period later. *)
Definition fire (page : Page) (id : nat) (w : World) : World :=
  match intervals w !! id with
  | Some due =>
      if (due <=? now w)%Z then
        let w' := nextYear page w in
        {| this := this w';
           intervals := <[id := (due + autoPlayInterval (this w))%Z]> (intervals w');
           nextTimer := nextTimer w'; now := now w'; trace := trace w' |}
      else w
  | None => w
  end.

Definition elapse (dt : Z) (w : World) : World :=
  {| this := this w; intervals := intervals w; nextTimer := nextTimer w;
     now := (now w + Z.max 0 dt)%Z; trace := trace w |}.

Inductive Event : Type :=
| ClickYear (dataYear : string)      (* a .year-btn is clicked *)
| ClickAutoPlay                      (* #autoplay-btn is clicked *)
| CallSwitchYear (year : string)     (* keys 1-4, R, oceanVR.debug.switchYear *)
| TimerFires (id : nat)
| Elapse (dt : Z).

Definition handle (page : Page) (w : World) (ev : Event) : World :=
  match ev with
  | ClickYear dataYear => resetAutoPlay page (switchYear page dataYear w)
  | ClickAutoPlay => toggleAutoPlay page w
  | CallSwitchYear year => switchYear page year w
  | TimerFires id => fire page id w
  | Elapse dt => elapse dt w
  end.

Definition run (page : Page) (w : World) (evs : list Event) : World :=
  fold_left (handle page) evs w.

(** The interval timers alive are exactly the one [autoPlayTimer] names,
    and none while [autoPlay] is off. *)
Definition timer_consistent (w : World) : Prop :=
  (forall id, is_Some (intervals w !! id) <-> autoPlayTimer (this w) = Some id) /\
  (truthy (autoPlay (this w)) = false -> autoPlayTimer (this w) = None) /\
  (forall id, autoPlayTimer (this w) = Some id -> id < nextTimer w) /\
  autoPlayInterval (this w) = 5000%Z.

(** The years visited by [n] auto-play ticks. *)
Fixpoint visits (page : Page) (n : nat) (w : World) : list string :=
  match n with
  | 0 => []
  | S n' => let w' := nextYear page w in currentYear (this w') :: visits page n' w'
  end.

(** The page of the globe build with every handle found. *)
Definition demo_page : Page :=
  {| earthSpheres := {[ "2000" := "earth-2000"; "2010" := "earth-2010";
                        "2020" := "earth-2020"; "2050" := "earth-2050" ]};
     yearButtons := ["2000"; "2010"; "2020"; "2050"];
     dataTextLeft := true; dataTextRight := true;
     narrations := {[ "2000"; "2010"; "2020"; "2050" ]};
     autoPlayBtn := true; uiManager := true |}.

End EarthController.

(* ===================================================================== *)
(*  Earth controller of the globe build: switchYear for every argument,  *)
(*  with the lookups in this.earthSpheres spelled out                    *)
(* ===================================================================== *)
Module EarthControllerLookup.
Import EarthController.

Definition with_trace (tr : list Effect) (w : World) : World :=
  {| this := this w; intervals := intervals w; nextTimer := nextTimer w;
     now := now w; trace := tr |}.

(** Calling [setAttribute] on a function or object of Object.prototype;
    [expression] is the source text of the callee's object. *)
Definition not_a_function (expression : string) : Error :=
  TypeError (expression +:+ ".setAttribute is not a function").

(** [switchYear(year)]: the world it leaves, and the error it raises if
    it does.  [this.earthSpheres] is the object literal of [setup()]; a
    lookup that finds a function or object of Object.prototype passes the
    [if] and raises at [setAttribute]. *)
Definition switchYear (page : Page) (year : string) (w : World)
  : World * option Error :=
  if String.eqb (currentYear (this w)) year then (w, None)
  else
    let log := [ConsoleLog ("[EarthController] Switching to year " +:+ year)] in
    match ObjectLiteral.get (earthSpheres page) (currentYear (this w)) with
    | ObjectLiteral.Inherited =>
        (with_trace (trace w ++ log) w,
         Some (not_a_function "this.earthSpheres[this.currentYear]"))
    | current =>
        let hide := match current with
                    | ObjectLiteral.Own el => [SetVisible el false]
                    | _ => []
                    end in
        match ObjectLiteral.get (earthSpheres page) year with
        | ObjectLiteral.Inherited =>
            (with_trace (trace w ++ log ++ hide) w,
             Some (not_a_function "this.earthSpheres[year]"))
        | target =>
            let show := match target with
                        | ObjectLiteral.Own el =>
                            [SetVisible el true;
                             SetRotation el (globeRotation (this w))]
                        | _ => []
                        end in
            let buttons := map (fun buttonYear =>
                                  if String.eqb buttonYear year
                                  then ClassAdd buttonYear
                                  else ClassRemove buttonYear)
                               (yearButtons page) in
            let panels := updateDataPanels page year in
            let ui := if uiManager page then [UpdateSceneInfo year] else [] in
            let narration := playNarration page year in
            ({| this := {| currentYear := year;
                           autoPlay := autoPlay (this w);
                           autoPlayTimer := autoPlayTimer (this w);
                           autoPlayInterval := autoPlayInterval (this w);
                           globeRotation := globeRotation (this w);
                           isRotatingGlobe := isRotatingGlobe (this w) |};
                intervals := intervals w; nextTimer := nextTimer w; now := now w;
                trace := trace w ++ log ++ hide ++ show ++ buttons ++ panels ++ ui
                           ++ narration |}, None)
        end
    end.

(** [nextYear()] *)
Definition nextYear (page : Page) (w : World) : World * option Error :=
  let currentIndex := indexOf years (currentYear (this w)) in
  let nextIndex := Z.rem (currentIndex + 1) (array_length years) in
  switchYear page (at_index years nextIndex) w.

(** [previousYear()] *)
Definition previousYear (page : Page) (w : World) : World * option Error :=
  let currentIndex := indexOf years (currentYear (this w)) in
  let prevIndex := Z.rem (currentIndex - 1 + array_length years)
                         (array_length years) in
  switchYear page (at_index years prevIndex) w.

(** The host runs the callback of interval [id] when it is alive and
    due; an error the callback raises goes to the host, and the interval
    is scheduled again all the same. *)
Definition fire (page : Page) (id : nat) (w : World) : World :=
  match intervals w !! id with
  | Some due =>
      if (due <=? now w)%Z then
        let w' := fst (nextYear page w) in
        {| this := this w';
           intervals := <[id := (due + autoPlayInterval (this w))%Z]> (intervals w');
           nextTimer := nextTimer w'; now := now w'; trace := trace w' |}
      else w
  | None => w
  end.

(** The listeners: in the click listener of a year button
    [resetAutoPlay()] follows [switchYear(year)], so it is skipped when
    that raises. *)
Definition handle (page : Page) (w : World) (ev : Event) : World :=
  match ev with
  | ClickYear dataYear =>
      match switchYear page dataYear w with
      | (w', None) => resetAutoPlay page w'
      | (w', Some _) => w'
      end
  | ClickAutoPlay => toggleAutoPlay page w
  | CallSwitchYear year => fst (switchYear page year w)
  | TimerFires id => fire page id w
  | Elapse dt => elapse dt w
  end.

Definition run (page : Page) (w : World) (evs : list Event) : World :=
  fold_left (handle page) evs w.

(** [this.earthSpheres[this.currentYear]] is an element or nothing. *)
Definition year_own (page : Page) (w : World) : Prop :=
  ObjectLiteral.get (earthSpheres page) (currentYear (this w))
  <> ObjectLiteral.Inherited.

End EarthControllerLookup.

(* ===================================================================== *)
(*  js/scene-manager.js: init, getCurrentSceneConfig, getNextScene,      *)
(*  getPreviousScene, reset                                              *)
(* ===================================================================== *)
Module SceneNavigation.
Import SceneManager.

(** [a % b] on integers: the remainder takes the sign of the dividend;
    with [b = 0] the result is NaN, here [None]. *)
Definition remainder (a b : Z) : option Z :=
  if (b =? 0)%Z then None else Some (Z.rem a b).

(** [array[i]]: undefined, here [None], for NaN and outside the array. *)
Definition element (l : list string) (i : option Z) : option string :=
  match i with
  | None => None
  | Some i => if (i <? 0)%Z then None else l !! Z.to_nat i
  end.

(** [init()], the loop over [CONFIG.sceneOrder]: [sceneConfig.id] of a
    year that is not configured raises; a handle the page does not have
    is stored as null, which the methods treat like a missing entry. *)
Fixpoint register (scenes : gmap string SceneConfig)
         (getElementById : string -> option string)
         (sceneOrder : list string) (sceneElements : gmap string string)
  : EarthController.Error + gmap string string :=
  match sceneOrder with
  | [] => inr sceneElements
  | year :: rest =>
      match scenes !! year with
      | None =>
          inl (EarthController.TypeError
                 "Cannot read properties of undefined (reading 'id')")
      | Some sceneConfig =>
          register scenes getElementById rest
            match getElementById (scene_id sceneConfig) with
            | Some el => <[year := el]> sceneElements
            | None => delete year sceneElements
            end
      end
  end.

(** [init()]: [this.sceneElements] and [this.fadeOverlay]. *)
Definition init (scenes : gmap string SceneConfig)
           (getElementById : string -> option string)
           (sceneOrder : list string)
  : EarthController.Error + (gmap string string * option string) :=
  match register scenes getElementById sceneOrder ∅ with
  | inl err => inl err
  | inr sceneElements => inr (sceneElements, getElementById "fade-overlay")
  end.

Definition getCurrentSceneConfig (env : Env) (s : State) : option SceneConfig :=
  scenes env !! currentScene s.

(** [getNextScene()]; [indexOf] is [Array.prototype.indexOf]. *)
Definition getNextScene (sceneOrder : list string) (s : State) : option string :=
  let currentIndex := EarthController.indexOf sceneOrder (currentScene s) in
  let nextIndex :=
    remainder (currentIndex + 1) (EarthController.array_length sceneOrder) in
  element sceneOrder nextIndex.

(** [getPreviousScene()] *)
Definition getPreviousScene (sceneOrder : list string) (s : State) : option string :=
  let currentIndex := EarthController.indexOf sceneOrder (currentScene s) in
  let prevIndex :=
    remainder (currentIndex - 1 + EarthController.array_length sceneOrder)
              (EarthController.array_length sceneOrder) in
  element sceneOrder prevIndex.

(** [reset()]: [await this.switchScene(CONFIG.sceneOrder[0])].  With an
    empty [sceneOrder] the argument is undefined, which as a key of
    [CONFIG.scenes] reads "undefined". *)
Definition reset (env : Env) (sceneOrder : list string) (m : Machine) : Machine :=
  request env (default "undefined" (sceneOrder !! 0)) m.

(** The object with [currentScene] replaced. *)
Definition at_scene (year : string) (s : State) : State :=
  {| currentScene := year; isTransitioning := isTransitioning s |}.

(** The year a suspended call is switching to. *)
Definition target_of (k : Cont) : string :=
  match k with
  | AwaitFadeOut targetYear _ | AwaitDelay targetYear _
  | AwaitFadeIn targetYear _ | AwaitForever targetYear _ => targetYear
  end.

Definition configured (env : Env) (year : string) : Prop :=
  is_Some (scenes env !! year).

(** [currentScene] is the constructor's "2000" or a configured year, and
    every call in flight is switching to a configured year. *)
Definition scene_known (env : Env) (m : Machine) : Prop :=
  (currentScene (state m) = "2000" \/ configured env (currentScene (state m))) /\
  Forall (fun k => configured env (target_of k)) (pending m).

(** How a stretch of code may change the object and the trace. *)
Definition Change : Type := State * list Effect -> State * list Effect -> Prop.

Definition respects {A} (R : Change) (m : Act A) : Prop :=
  forall st, R st (fst (m st)).

(** Whenever the stretch suspends, it does so on a continuation in [P]. *)
Definition yields (P : Cont -> Prop) (m : Act (option Cont)) : Prop :=
  forall st st' k, m st = (st', Ret (Some k)) -> P k.

(** [currentScene] is left alone or becomes [t]. *)
Definition moves_to (t : string) : Change :=
  fun '(s, _) '(s', _) => currentScene s' = currentScene s \/ currentScene s' = t.

(** [currentScene] is left alone. *)
Definition stays : Change :=
  fun '(s, _) '(s', _) => currentScene s' = currentScene s.

(** The trace only grows, and not by [e]. *)
Definition never_emits (e : Effect) : Change :=
  fun '(_, tr) '(_, tr') => exists new, tr' = tr ++ new /\ e ∉ new.

(** The effects a relation lets a stretch record. *)
Definition permits (R : Change) (e : Effect) : Prop :=
  forall s tr, R (s, tr) (s, tr ++ [e]).

End SceneNavigation.
(* ===================================================================== *)
(*  js/animation-controller.js, class AudioController: setup,            *)
(*  playSceneAudio, playTransition, setMasterVolume, muteAll, unmuteAll, *)
(*  stopAll, cleanup; and the handlers of init.js that call them.        *)
(*  Console output of the class is left out.                             *)
(* ===================================================================== *)
Module AudioPlayer.
Import AudioController.

(** The fields of the class beside those of [AudioController.World], and
    the [play()] promises that have resolved while their [.then] callback
    has not run yet (by element). *)
Record Player : Type := {
  world : World;
  currentAudio : option string;       (* this.currentAudio *)
  transitionAudio : option string;    (* this.transitionAudio *)
  isInitialized : bool;
  reactions : list string
}.

(** [constructor()], before [init()]; [page] holds the audio elements
    of the document. *)
Definition constructor (page : string -> AudioElement) : Player :=
  {| world := {| masterVolume := CONFIG_audio_masterVolume;
                 audioElements := ∅;
                 elements := page;
                 intervals := ∅;
                 nextTimer := 1;
                 fired := [] |};
     currentAudio := None;
     transitionAudio := None;
     isInitialized := false;
     reactions := [] |}.

Definition with_world (w : World) (p : Player) : Player :=
  {| world := w; currentAudio := currentAudio p;
     transitionAudio := transitionAudio p; isInitialized := isInitialized p;
     reactions := reactions p |}.

Definition register_audio (year el : string) (w : World) : World :=
  {| masterVolume := masterVolume w;
     audioElements := <[year := el]> (audioElements w);
     elements := elements w; intervals := intervals w;
     nextTimer := nextTimer w; fired := fired w |}.

(** [audioEl.currentTime = t] *)
Definition set_currentTime (el : string) (t : Q) : World -> World :=
  update_element el
    (fun a => {| volume := volume a; paused := paused a; currentTime := t |}).

(** [audioEl.play()] when the host lets the element play. *)
Definition start_playback (el : string) : World -> World :=
  update_element el
    (fun a => {| volume := volume a; paused := false; currentTime := currentTime a |}).

(** [audioEl.pause()] *)
Definition pause (el : string) : World -> World :=
  update_element el
    (fun a => {| volume := volume a; paused := true; currentTime := currentTime a |}).

(** The loop of [setup()] over [CONFIG.sceneOrder].  [audioIds] gives
    [CONFIG.scenes[year].audioId]; for a year without configuration the
    loop raises and what was registered so far stays. *)
Fixpoint register (audioIds : gmap string string)
         (getElementById : string -> option string)
         (sceneOrder : list string) (w : World)
  : World * option EarthController.Error :=
  match sceneOrder with
  | [] => (w, None)
  | year :: rest =>
      match audioIds !! year with
      | None =>
          (w, Some (EarthController.TypeError
                      "Cannot read properties of undefined (reading 'audioId')"))
      | Some audioId =>
          match getElementById audioId with
          | Some audioEl =>
              register audioIds getElementById rest
                (set_volume audioEl 0 (register_audio year audioEl w))
          | None => register audioIds getElementById rest w
          end
      end
  end.

(** [setup()] *)
Definition setup (audioIds : gmap string string)
           (getElementById : string -> option string)
           (sceneOrder : list string) (p : Player) : Player :=
  match register audioIds getElementById sceneOrder (world p) with
  | (w, Some _) => with_world w p
  | (w, None) =>
      let transitionAudio := getElementById "audio-transition" in
      let w := match transitionAudio with
               | Some t => set_volume t (masterVolume w * (8 # 10)) w
               | None => w
               end in
      {| world := w; currentAudio := currentAudio p;
         transitionAudio := transitionAudio; isInitialized := true;
         reactions := reactions p |}
  end.

(** [playSceneAudio(year)]; [allowed]: the promise of [play()] resolves
    (the [.then] callback runs later), otherwise it is rejected. *)
Definition playSceneAudio (allowed : bool) (year : string) (p : Player) : Player :=
  if negb (isInitialized p) then p
  else match audioElements (world p) !! year with
  | None => p
  | Some audioEl =>
      let w := match currentAudio p with
               | Some current =>
                   if String.eqb current audioEl then world p
                   else fadeOut (Some current) None (world p)
               | None => world p
               end in
      let w := set_currentTime audioEl 0 w in
      let w := if allowed then start_playback audioEl w else w in
      {| world := w; currentAudio := Some audioEl;
         transitionAudio := transitionAudio p; isInitialized := isInitialized p;
         reactions := if allowed then reactions p ++ [audioEl] else reactions p |}
  end.

(** The oldest [.then(() => this.fadeIn(audioEl))] runs. *)
Definition run_reaction (p : Player) : Player :=
  match reactions p with
  | [] => p
  | audioEl :: rest =>
      {| world := fadeIn (Some audioEl) (world p); currentAudio := currentAudio p;
         transitionAudio := transitionAudio p; isInitialized := isInitialized p;
         reactions := rest |}
  end.

(** [playTransition()] *)
Definition playTransition (allowed : bool) (p : Player) : Player :=
  match transitionAudio p with
  | None => p
  | Some t =>
      let w := set_currentTime t 0 (world p) in
      with_world (if allowed then start_playback t w else w) p
  end.

(** [setMasterVolume(volume)] for a number.  (For NaN, undefined or a
    string that is no number the clamp gives NaN, which a volume of type
    [Q] does not represent; such a call is not among the operations
    below.) *)
Definition setMasterVolume (v : Q) (p : Player) : Player :=
  let w := AudioController.setMasterVolume v (world p) in
  with_world match currentAudio p with
             | Some current => set_volume current (masterVolume w) w
             | None => w
             end p.

(** [Object.values(this.audioElements)] *)
Definition registered (w : World) : list string :=
  (map_to_list (audioElements w)).*2.

Definition for_each (f : string -> World -> World) (els : list string)
           (w : World) : World :=
  fold_left (fun w el => f el w) els w.

(** [muteAll()] *)
Definition muteAll (p : Player) : Player :=
  let w := for_each (fun audioEl => set_volume audioEl 0)
                    (registered (world p)) (world p) in
  with_world match transitionAudio p with
             | Some t => set_volume t 0 w
             | None => w
             end p.

(** [unmuteAll()] *)
Definition unmuteAll (p : Player) : Player :=
  let w := world p in
  let w := match currentAudio p with
           | Some current => set_volume current (masterVolume w) w
           | None => w
           end in
  with_world match transitionAudio p with
             | Some t => set_volume t (masterVolume w * (8 # 10)) w
             | None => w
             end p.

(** [stopAll()] *)
Definition stopAll (p : Player) : Player :=
  let w := for_each (fun audioEl w =>
                       set_volume audioEl 0 (set_currentTime audioEl 0 (pause audioEl w)))
                    (registered (world p)) (world p) in
  {| world := w; currentAudio := None;
     transitionAudio := transitionAudio p; isInitialized := isInitialized p;
     reactions := reactions p |}.

(** [cleanup()] *)
Definition cleanup (p : Player) : Player :=
  let p := stopAll p in
  let w := world p in
  {| world := {| masterVolume := masterVolume w; audioElements := ∅;
                 elements := elements w; intervals := intervals w;
                 nextTimer := nextTimer w; fired := fired w |};
     currentAudio := None; transitionAudio := None; isInitialized := false;
     reactions := reactions p |}.

(** init.js, [handleKeyboard], case 'm', for a window whose
    [audioController] is set. *)
Definition key_m (p : Player) : Player :=
  if negb (Qle_bool (masterVolume (world p)) 0) then muteAll p else unmuteAll p.

(** init.js, the [visibilitychange] listener. *)
Definition visibilitychange (hidden : bool) (p : Player) : Player :=
  if hidden then muteAll p else unmuteAll p.

(** What can happen to an AudioController. *)
Inductive Op : Type :=
| Setup (audioIds : gmap string string) (getElementById : string -> option string)
        (sceneOrder : list string)
| PlaySceneAudio (allowed : bool) (year : string)
| Reaction
| StopSceneAudio (year : string)
| PlayTransition (allowed : bool)
| SetMasterVolume (v : Q)               (* with a number *)
| MuteAll
| UnmuteAll
| StopAll
| Cleanup
| KeyM
| VisibilityChange (hidden : bool)
| Tick (id : nat).

Definition handle (p : Player) (op : Op) : Player :=
  match op with
  | Setup audioIds getElementById sceneOrder =>
      setup audioIds getElementById sceneOrder p
  | PlaySceneAudio allowed year => playSceneAudio allowed year p
  | Reaction => run_reaction p
  | StopSceneAudio year => with_world (stopSceneAudio year (world p)) p
  | PlayTransition allowed => playTransition allowed p
  | SetMasterVolume v => setMasterVolume v p
  | MuteAll => muteAll p
  | UnmuteAll => unmuteAll p
  | StopAll => stopAll p
  | Cleanup => cleanup p
  | KeyM => key_m p
  | VisibilityChange hidden => visibilitychange hidden p
  | Tick id => with_world (tick id (world p)) p
  end.

Definition run (p : Player) (ops : list Op) : Player := fold_left handle ops p.

(** A volume an HTMLMediaElement accepts. *)
Definition unit_interval (v : Q) : Prop := (0 <= v /\ v <= 1)%Q.

Definition sane_closure (f : Fade) : Prop :=
  match f with
  | FadeInTimer _ targetVolume volumeStep _ =>
      unit_interval targetVolume /\ (0 <= volumeStep)%Q
  | FadeOutTimer _ startVolume volumeStep _ _ =>
      unit_interval startVolume /\ (0 <= volumeStep)%Q
  end.

(** The master volume, every element's volume and every volume a live
    fade has captured lie in [0, 1]. *)
Definition volumes_in_range (w : World) : Prop :=
  unit_interval (masterVolume w) /\
  (forall el, unit_interval (get_volume el w)) /\
  (forall id iv, intervals w !! id = Some iv -> sane_closure (closure iv)).

Definition is_paused (el : string) (w : World) : bool := paused (elements w el).

(** Where the fade-out of [el] held by interval [id] stands: at step [k],
    or ended after [k] ticks. *)
Definition fadeOut_at (id : nat) (el : string) (start : Q) (k : nat)
           (w : World) : Prop :=
  (exists p, intervals w !! id =
     Some {| period := p;
             closure := FadeOutTimer el start (start / Qnat steps) k None |}) /\
  k < steps /\ (k = 0 \/ (0 < start)%Q)
  \/
  intervals w !! id = None /\ get_volume el w = 0%Q /\
  0 < k /\ ((0 < start)%Q -> steps <= k).

(** The same for a fade-in. *)
Definition fadeIn_at (id : nat) (el : string) (target : Q) (k : nat)
           (w : World) : Prop :=
  (exists p, intervals w !! id =
     Some {| period := p;
             closure := FadeInTimer el target (target / Qnat steps) k |}) /\
  k < steps
  \/
  intervals w !! id = None /\ get_volume el w = target /\ steps <= k.

(** A page whose audio elements are paused at full volume. *)
Definition demo_page (_ : string) : AudioElement :=
  {| volume := 1; paused := true; currentTime := 0 |}.

(** A configuration with one audio element per scene, and a document
    that has every element asked for. *)
Definition demo_audioIds : gmap string string :=
  {[ "2000" := "audio-2000"; "2020" := "audio-2020"; "2050" := "audio-2050" ]}.

Definition demo_document (id : string) : option string := Some id.

Definition demo_player : Player :=
  setup demo_audioIds demo_document ["2000"; "2020"; "2050"] (constructor demo_page).

End AudioPlayer.
(* ===================================================================== *)
(*  js/ui-manager.js, class UIManager: scene info and subtitles.         *)
(*  Console output and the fade-in CSS class are left out.               *)
(* ===================================================================== *)
Module UIManager.

(** An entry of [CONFIG.scenes[year].subtitles]. *)
Record Subtitle : Type := { time : Z; text : string }.

Record SceneConfig : Type := {
  title : string;
  description : string;
  subtitles : option (list Subtitle)      (* None: no [subtitles] property *)
}.

(** What the class reads from CONFIG. *)
Record Config : Type := {
  scenes : gmap string SceneConfig;
  subtitlesEnabled : bool;                (* CONFIG.accessibility.subtitlesEnabled *)
  subtitleDuration : Z                    (* CONFIG.accessibility.subtitleDuration *)
}.

(** The handles found by [init()]: whether the document has the element. *)
Record Handles : Type := {
  sceneTitle : bool;
  sceneDescription : bool;
  subtitleDisplay : bool;
  subtitleText : bool;
  instructions : bool
}.

(** The two closures the class hands to [setTimeout]. *)
Inductive Callback : Type :=
| ShowTimer (subtitle : Subtitle) (index : nat)   (* scheduled by startSubtitles *)
| HideTimer.                                      (* scheduled by showSubtitle *)

Record Timeout : Type := { delay : Z; callback : Callback }.

(** The content of the page the class writes, its own fields, and the
    one-shot timers of the host that have neither run nor been cleared. *)
Record UI : Type := {
  titleContent : string;
  descriptionContent : string;
  subtitleContent : string;
  subtitleHidden : bool;                 (* subtitleDisplay has class 'hidden' *)
  instructionsDisplay : string;          (* instructions.style.display *)
  currentSubtitles : list Subtitle;
  subtitleTimers : list nat;
  currentSubtitleIndex : nat;
  timeouts : gmap nat Timeout;
  nextTimer : nat
}.

Definition with_timeouts (ts : gmap nat Timeout) (ui : UI) : UI :=
  {| titleContent := titleContent ui; descriptionContent := descriptionContent ui;
     subtitleContent := subtitleContent ui; subtitleHidden := subtitleHidden ui;
     instructionsDisplay := instructionsDisplay ui;
     currentSubtitles := currentSubtitles ui; subtitleTimers := subtitleTimers ui;
     currentSubtitleIndex := currentSubtitleIndex ui;
     timeouts := ts; nextTimer := nextTimer ui |}.

(** [setTimeout(callback, delay)]: the id it returns and the new state. *)
Definition setTimeout (cb : Callback) (ms : Z) (ui : UI) : nat * UI :=
  (nextTimer ui,
   {| titleContent := titleContent ui; descriptionContent := descriptionContent ui;
      subtitleContent := subtitleContent ui; subtitleHidden := subtitleHidden ui;
      instructionsDisplay := instructionsDisplay ui;
      currentSubtitles := currentSubtitles ui; subtitleTimers := subtitleTimers ui;
      currentSubtitleIndex := currentSubtitleIndex ui;
      timeouts := <[nextTimer ui := {| delay := ms; callback := cb |}]> (timeouts ui);
      nextTimer := S (nextTimer ui) |}).

Definition clearTimeout (id : nat) (ui : UI) : UI :=
  with_timeouts (delete id (timeouts ui)) ui.

(** [updateSceneInfo(year)] *)
Definition updateSceneInfo (cfg : Config) (h : Handles) (year : string) (ui : UI) : UI :=
  match scenes cfg !! year with
  | None => ui
  | Some sceneConfig =>
      {| titleContent := if sceneTitle h then title sceneConfig else titleContent ui;
         descriptionContent :=
           if sceneDescription h then description sceneConfig
           else descriptionContent ui;
         subtitleContent := subtitleContent ui; subtitleHidden := subtitleHidden ui;
         instructionsDisplay := instructionsDisplay ui;
         currentSubtitles := currentSubtitles ui; subtitleTimers := subtitleTimers ui;
         currentSubtitleIndex := currentSubtitleIndex ui;
         timeouts := timeouts ui; nextTimer := nextTimer ui |}
  end.

(** [hideSubtitle()] *)
Definition hideSubtitle (h : Handles) (ui : UI) : UI :=
  if subtitleDisplay h then
    {| titleContent := titleContent ui; descriptionContent := descriptionContent ui;
       subtitleContent := subtitleContent ui; subtitleHidden := true;
       instructionsDisplay := instructionsDisplay ui;
       currentSubtitles := currentSubtitles ui; subtitleTimers := subtitleTimers ui;
       currentSubtitleIndex := currentSubtitleIndex ui;
       timeouts := timeouts ui; nextTimer := nextTimer ui |}
  else ui.

(** [showSubtitle(text, duration)] *)
Definition showSubtitle (h : Handles) (txt : string) (duration : Z) (ui : UI) : UI :=
  if negb (subtitleText h) || negb (subtitleDisplay h) then ui
  else
    let shown :=
      {| titleContent := titleContent ui; descriptionContent := descriptionContent ui;
         subtitleContent := txt; subtitleHidden := false;
         instructionsDisplay := instructionsDisplay ui;
         currentSubtitles := currentSubtitles ui; subtitleTimers := subtitleTimers ui;
         currentSubtitleIndex := currentSubtitleIndex ui;
         timeouts := timeouts ui; nextTimer := nextTimer ui |} in
    snd (setTimeout HideTimer duration shown).

(** [clearSubtitles()] *)
Definition clearSubtitles (h : Handles) (ui : UI) : UI :=
  let ui := fold_left (fun ui timer => clearTimeout timer ui) (subtitleTimers ui) ui in
  hideSubtitle h
    {| titleContent := titleContent ui; descriptionContent := descriptionContent ui;
       subtitleContent := subtitleContent ui; subtitleHidden := subtitleHidden ui;
       instructionsDisplay := instructionsDisplay ui;
       currentSubtitles := currentSubtitles ui; subtitleTimers := [];
       currentSubtitleIndex := currentSubtitleIndex ui;
       timeouts := timeouts ui; nextTimer := nextTimer ui |}.

(** The loop of [startSubtitles] from entry [index] on: one timer per
    subtitle, its id pushed to [subtitleTimers]. *)
Fixpoint schedule (subs : list Subtitle) (index : nat) (ui : UI) : UI :=
  match subs with
  | [] => ui
  | subtitle :: rest =>
      let '(timer, ui) := setTimeout (ShowTimer subtitle index) (time subtitle) ui in
      schedule rest (S index)
        {| titleContent := titleContent ui; descriptionContent := descriptionContent ui;
           subtitleContent := subtitleContent ui; subtitleHidden := subtitleHidden ui;
           instructionsDisplay := instructionsDisplay ui;
           currentSubtitles := currentSubtitles ui;
           subtitleTimers := subtitleTimers ui ++ [timer];
           currentSubtitleIndex := currentSubtitleIndex ui;
           timeouts := timeouts ui; nextTimer := nextTimer ui |}
  end.

(** [startSubtitles(year)] *)
Definition startSubtitles (cfg : Config) (h : Handles) (year : string) (ui : UI) : UI :=
  if negb (subtitlesEnabled cfg) then ui
  else match scenes cfg !! year with
  | None => ui
  | Some sceneConfig =>
      match subtitles sceneConfig with
      | None => ui
      | Some subs =>
          let ui := clearSubtitles h ui in
          schedule subs 0
            {| titleContent := titleContent ui;
               descriptionContent := descriptionContent ui;
               subtitleContent := subtitleContent ui;
               subtitleHidden := subtitleHidden ui;
               instructionsDisplay := instructionsDisplay ui;
               currentSubtitles := subs; subtitleTimers := subtitleTimers ui;
               currentSubtitleIndex := 0;
               timeouts := timeouts ui; nextTimer := nextTimer ui |}
      end
  end.

(** [showMessage(message, duration)] *)
Definition showMessage (h : Handles) (message : string) (duration : Z) : UI -> UI :=
  showSubtitle h message duration.

(** [showError(message)] *)
Definition showError (h : Handles) (message : string) : UI -> UI :=
  showSubtitle h ("⚠️ " +:+ message) 5000.

Definition set_instructions (h : Handles) (display : string) (ui : UI) : UI :=
  if instructions h then
    {| titleContent := titleContent ui; descriptionContent := descriptionContent ui;
       subtitleContent := subtitleContent ui; subtitleHidden := subtitleHidden ui;
       instructionsDisplay := display;
       currentSubtitles := currentSubtitles ui; subtitleTimers := subtitleTimers ui;
       currentSubtitleIndex := currentSubtitleIndex ui;
       timeouts := timeouts ui; nextTimer := nextTimer ui |}
  else ui.

(** [showInstructions()], [hideInstructions()] *)
Definition showInstructions (h : Handles) : UI -> UI := set_instructions h "block".
Definition hideInstructions (h : Handles) : UI -> UI := set_instructions h "none".

(** [cleanup()] *)
Definition cleanup (h : Handles) (ui : UI) : UI :=
  let ui := clearSubtitles h ui in
  {| titleContent := titleContent ui; descriptionContent := descriptionContent ui;
     subtitleContent := subtitleContent ui; subtitleHidden := subtitleHidden ui;
     instructionsDisplay := instructionsDisplay ui;
     currentSubtitles := []; subtitleTimers := subtitleTimers ui;
     currentSubtitleIndex := 0;
     timeouts := timeouts ui; nextTimer := nextTimer ui |}.

(** The host runs the callback of timer [id], once. *)
Definition fire (cfg : Config) (h : Handles) (id : nat) (ui : UI) : UI :=
  match timeouts ui !! id with
  | None => ui
  | Some t =>
      let ui := clearTimeout id ui in
      match callback t with
      | ShowTimer subtitle index =>
          let ui := showSubtitle h (text subtitle) (subtitleDuration cfg) ui in
          {| titleContent := titleContent ui;
             descriptionContent := descriptionContent ui;
             subtitleContent := subtitleContent ui;
             subtitleHidden := subtitleHidden ui;
             instructionsDisplay := instructionsDisplay ui;
             currentSubtitles := currentSubtitles ui;
             subtitleTimers := subtitleTimers ui;
             currentSubtitleIndex := index;
             timeouts := timeouts ui; nextTimer := nextTimer ui |}
      | HideTimer => hideSubtitle h ui
      end
  end.

(** [constructor()] and [init()] on a page whose title, description and
    subtitle text are empty. *)
Definition init (cfg : Config) (h : Handles) (hidden : bool) (display : string) : UI :=
  updateSceneInfo cfg h "2000"
    {| titleContent := EmptyString; descriptionContent := EmptyString;
       subtitleContent := EmptyString; subtitleHidden := hidden;
       instructionsDisplay := display;
       currentSubtitles := []; subtitleTimers := []; currentSubtitleIndex := 0;
       timeouts := ∅; nextTimer := 1 |}.

Inductive Event : Type :=
| UpdateSceneInfo (year : string)
| StartSubtitles (year : string)
| ShowMessage (message : string) (duration : Z)
| ShowError (message : string)
| ClearSubtitles
| ShowInstructions
| HideInstructions
| Cleanup
| Fire (id : nat).

Definition handle (cfg : Config) (h : Handles) (ui : UI) (ev : Event) : UI :=
  match ev with
  | UpdateSceneInfo year => updateSceneInfo cfg h year ui
  | StartSubtitles year => startSubtitles cfg h year ui
  | ShowMessage message duration => showMessage h message duration ui
  | ShowError message => showError h message ui
  | ClearSubtitles => clearSubtitles h ui
  | ShowInstructions => showInstructions h ui
  | HideInstructions => hideInstructions h ui
  | Cleanup => cleanup h ui
  | Fire id => fire cfg h id ui
  end.

Definition run (cfg : Config) (h : Handles) (ui : UI) (evs : list Event) : UI :=
  fold_left (handle cfg h) evs ui.

(** Every subtitle still scheduled is held in [subtitleTimers] and is the
    entry of [currentSubtitles] at its index; no timer has an id that is
    still to be handed out. *)
Definition schedule_current (ui : UI) : Prop :=
  (forall id ms subtitle index,
      timeouts ui !! id = Some {| delay := ms; callback := ShowTimer subtitle index |} ->
      id ∈ subtitleTimers ui /\
      currentSubtitles ui !! index = Some subtitle /\ ms = time subtitle) /\
  (forall id, nextTimer ui <= id -> timeouts ui !! id = None).

(** A page with every element, and the subtitles of one scene. *)
Definition demo_handles : Handles :=
  {| sceneTitle := true; sceneDescription := true; subtitleDisplay := true;
     subtitleText := true; instructions := true |}.

Definition demo_config : Config :=
  {| scenes :=
       {[ "2000" :=
            {| title := "Year 2000 - Baseline Conditions";
               description := "Healthy oceans with vibrant ecosystems.";
               subtitles :=
                 Some [ {| time := 0;
                           text := "Welcome to the year 2000." |};
                        {| time := 5000;
                           text := "NASA satellites monitor ocean color." |};
                        {| time := 10000;
                           text := "Click the glowing hotspots." |} ] |} ]};
     subtitlesEnabled := true;
     subtitleDuration := 5000 |}.

End UIManager.
(* ===================================================================== *)
(*  Earth controller of the globe build: which sphere is visible         *)
(* ===================================================================== *)
Module EarthSpheres.
Import EarthController.

(** The elements whose [visible] attribute is set, after the writes of a
    trace. *)
Definition visible_after (visible : gset string) (tr : list Effect) : gset string :=
  fold_left (fun V e => match e with
                        | SetVisible el true => V ∪ {[ el ]}
                        | SetVisible el false => V ∖ {[ el ]}
                        | _ => V
                        end) tr visible.

(** The sphere of a year, if the page has one. *)
Definition sphere (page : Page) (year : string) : gset string :=
  match earthSpheres page !! year with
  | Some el => {[ el ]}
  | None => ∅
  end.

(** What is visible: the sphere of currentYear, or nothing. *)
Definition at_most_current (page : Page) (V : gset string) (w : World) : Prop :=
  visible_after V (trace w) = sphere page (currentYear (this w)) \/
  visible_after V (trace w) = ∅.

(** The event carries no year that [this.earthSpheres] inherits from
    Object.prototype. *)
Definition plain (page : Page) (ev : Event) : Prop :=
  match ev with
  | ClickYear year | CallSwitchYear year =>
      ObjectLiteral.get (earthSpheres page) year <> ObjectLiteral.Inherited
  | _ => True
  end.

End EarthSpheres.
(* ===================================================================== *)
(*  js/gaze-controller.js, class EarthController: setup, switchYear,     *)
(*  auto-play and the listeners of the year and auto-play buttons.       *)
(*  The console lines of setup and the star field are left out.          *)
(* ===================================================================== *)
Module EarthControllerVR.
Import EarthController.

(** The fields of the class that hold data. *)
Record Controller : Type := {
  currentYear : string;
  autoPlay : bool;
  autoPlayTimer : option nat;
  autoPlayInterval : Z
}.

(** The handles [setup()] and the methods look up in the page. *)
Record Page : Type := {
  earthSpheres : gmap string string;   (* this.earthSpheres, non-null entries *)
  yearButtons : gmap string string;    (* this.yearButtons, non-null entries *)
  dataTextLeft : bool;
  dataTextRight : bool;
  narrations : gset string;            (* years with an #audio-narration-<year> *)
  autoPlayText : bool;                 (* #autoplay-text exists *)
  autoPlayBtn : bool;                  (* #btn-autoplay exists *)
  uiManager : bool                     (* window.uiManager is set *)
}.

Inductive Effect : Type :=
| ConsoleLog (msg : string)
| SetVisible (el : string) (b : bool)
| SetColor (el : string) (color : string)
| ClassAdd (el : string) (class : string)
| ClassRemove (el : string) (class : string)
| SetPanel (side : Side) (year : string)
| UpdateSceneInfo (year : string)
| PlayNarration (year : string)
| SetValue (el : string) (value : string).

Record World : Type := {
  this : Controller;
  intervals : gmap nat Z;      (* live interval timers, with the time each fires next *)
  nextTimer : nat;
  now : Z;
  trace : list Effect
}.

(** The keys of [this.yearButtons] in the order of [Object.entries]. *)
Definition buttonYears : list string := ["2000"; "2010"; "2020"; "2050"].

Definition null_button : Error :=
  TypeError "Cannot read properties of null (reading 'setAttribute')".

(** The loop of [switchYear] over the year buttons; a button the page
    does not have is null, and the call on it raises. *)
Fixpoint update_buttons (page : Page) (year : string) (entries : list string)
  : list Effect * option Error :=
  match entries with
  | [] => ([], None)
  | y :: rest =>
      match yearButtons page !! y with
      | None => ([], Some null_button)
      | Some button =>
          let here :=
            if String.eqb y year
            then [SetColor button "#00D9FF"; ClassAdd button "active-year"]
            else [SetColor button "#003366"; ClassRemove button "active-year"] in
          let '(later, err) := update_buttons page year rest in
          (here ++ later, err)
      end
  end.

Definition updateDataPanels (page : Page) (year : string) : list Effect :=
  (if dataTextLeft page && has dataContent year then [SetPanel Left year] else []) ++
  (if dataTextRight page && has dataContent year then [SetPanel Right year] else []).

Definition playNarration (page : Page) (year : string) : list Effect :=
  if bool_decide (year ∈ narrations page) then [PlayNarration year] else [].

Definition with_trace (tr : list Effect) (w : World) : World :=
  {| this := this w; intervals := intervals w; nextTimer := nextTimer w;
     now := now w; trace := tr |}.

(** [switchYear(year)]: [this.currentYear] is assigned last. *)
Definition switchYear (page : Page) (year : string) (w : World)
  : World * option Error :=
  if String.eqb (currentYear (this w)) year then (w, None)
  else
    let log := [ConsoleLog ("[EarthController] Switching to year " +:+ year)] in
    let hide := match earthSpheres page !! currentYear (this w) with
                | Some el => [SetVisible el false]
                | None => []
                end in
    let show := match earthSpheres page !! year with
                | Some el => [SetVisible el true]
                | None => []
                end in
    match update_buttons page year buttonYears with
    | (buttons, Some err) =>
        (with_trace (trace w ++ log ++ hide ++ show ++ buttons) w, Some err)
    | (buttons, None) =>
        let panels := updateDataPanels page year in
        let ui := if uiManager page then [UpdateSceneInfo year] else [] in
        let narration := playNarration page year in
        ({| this := {| currentYear := year;
                       autoPlay := autoPlay (this w);
                       autoPlayTimer := autoPlayTimer (this w);
                       autoPlayInterval := autoPlayInterval (this w) |};
            intervals := intervals w; nextTimer := nextTimer w; now := now w;
            trace := trace w ++ log ++ hide ++ show ++ buttons ++ panels ++ ui
                       ++ narration |}, None)
    end.

(** [nextYear()] *)
Definition nextYear (page : Page) (w : World) : World * option Error :=
  let currentIndex := indexOf years (currentYear (this w)) in
  let nextIndex := Z.rem (currentIndex + 1) (array_length years) in
  switchYear page (at_index years nextIndex) w.

(** [previousYear()] *)
Definition previousYear (page : Page) (w : World) : World * option Error :=
  let currentIndex := indexOf years (currentYear (this w)) in
  let prevIndex := Z.rem (currentIndex - 1 + array_length years)
                         (array_length years) in
  switchYear page (at_index years prevIndex) w.

Definition button_effects (page : Page) (value color : string) : list Effect :=
  (if autoPlayText page then [SetValue "autoplay-text" value] else []) ++
  (if autoPlayBtn page then [SetColor "btn-autoplay" color] else []).

(** [startAutoPlay()] *)
Definition startAutoPlay (page : Page) (w : World) : World :=
  let id := nextTimer w in
  {| this := {| currentYear := currentYear (this w);
                autoPlay := true;
                autoPlayTimer := Some id;
                autoPlayInterval := autoPlayInterval (this w) |};
     intervals := <[id := (now w + autoPlayInterval (this w))%Z]> (intervals w);
     nextTimer := S id;
     now := now w;
     trace := trace w ++ button_effects page "AUTO-PLAY ON" "#4CAF50" ++
              [ConsoleLog "[EarthController] Auto-play started"] |}.

Definition clear_autoPlayTimer (w : World) : gmap nat Z :=
  match autoPlayTimer (this w) with
  | Some id => delete id (intervals w)
  | None => intervals w
  end.

(** [stopAutoPlay()] *)
Definition stopAutoPlay (page : Page) (w : World) : World :=
  {| this := {| currentYear := currentYear (this w);
                autoPlay := false;
                autoPlayTimer := None;
                autoPlayInterval := autoPlayInterval (this w) |};
     intervals := clear_autoPlayTimer w;
     nextTimer := nextTimer w;
     now := now w;
     trace := trace w ++ button_effects page "AUTO-PLAY OFF" "#666666" ++
              [ConsoleLog "[EarthController] Auto-play stopped"] |}.

(** [toggleAutoPlay()] *)
Definition toggleAutoPlay (page : Page) (w : World) : World :=
  if autoPlay (this w) then stopAutoPlay page w else startAutoPlay page w.

(** [resetAutoPlay()] *)
Definition resetAutoPlay (page : Page) (w : World) : World :=
  if autoPlay (this w) then
    startAutoPlay page
      {| this := this w; intervals := clear_autoPlayTimer w;
         nextTimer := nextTimer w; now := now w; trace := trace w |}
  else w.

(** [constructor()] and [setup()]: auto-play starts on. *)
Definition setup (page : Page) : World :=
  startAutoPlay page
    {| this := {| currentYear := "2000"; autoPlay := true; autoPlayTimer := None;
                  autoPlayInterval := 5000 |};
       intervals := ∅; nextTimer := 1; now := 0; trace := [] |}.

(** The listener of a year button: [switchYear(year); resetAutoPlay()];
    when [switchYear] raises, the listener ends there. *)
Definition year_listener (page : Page) (year : string) (w : World) : World :=
  match switchYear page year w with
  | (w', Some _) => w'
  | (w', None) => resetAutoPlay page w'
  end.

(** The host runs the callback of interval [id] when it is alive and due;
    an interval whose callback raises stays alive. *)
Definition fire (page : Page) (id : nat) (w : World) : World :=
  match intervals w !! id with
  | Some due =>
      if (due <=? now w)%Z then
        let w' := fst (nextYear page w) in
        {| this := this w';
           intervals := <[id := (due + autoPlayInterval (this w))%Z]> (intervals w');
           nextTimer := nextTimer w'; now := now w'; trace := trace w' |}
      else w
  | None => w
  end.

Definition elapse (dt : Z) (w : World) : World :=
  {| this := this w; intervals := intervals w; nextTimer := nextTimer w;
     now := (now w + Z.max 0 dt)%Z; trace := trace w |}.

(** A listener exists only on a button the page has. *)
Inductive Event : Type :=
| ClickYear (year : string)          (* click on #btn-<year> *)
| EnterYear (year : string)          (* mouseenter on #btn-<year> *)
| ClickAutoPlay                      (* click on #btn-autoplay *)
| EnterAutoPlay                      (* mouseenter on #btn-autoplay *)
| CallSwitchYear (year : string)     (* keys 1-4, R, oceanVR.debug.switchYear *)
| TimerFires (id : nat)
| Elapse (dt : Z).

Definition handle (page : Page) (w : World) (ev : Event) : World :=
  match ev with
  | ClickYear year =>
      match yearButtons page !! year with
      | Some _ =>
          year_listener page year
            (with_trace (trace w ++
                         [ConsoleLog ("[EarthController] Year button clicked: " +:+ year)]) w)
      | None => w
      end
  | EnterYear year =>
      match yearButtons page !! year with
      | Some _ => year_listener page year w
      | None => w
      end
  | ClickAutoPlay =>
      if autoPlayBtn page then
        toggleAutoPlay page
          (with_trace (trace w ++
                       [ConsoleLog "[EarthController] Auto-play button clicked"]) w)
      else w
  | EnterAutoPlay => if autoPlayBtn page then toggleAutoPlay page w else w
  | CallSwitchYear year => fst (switchYear page year w)
  | TimerFires id => fire page id w
  | Elapse dt => elapse dt w
  end.

Definition run (page : Page) (w : World) (evs : list Event) : World :=
  fold_left (handle page) evs w.

(** Auto-play is on exactly while its interval is alive, and that is
    the only interval. *)
Definition autoPlay_consistent (w : World) : Prop :=
  (forall id, is_Some (intervals w !! id) <-> autoPlayTimer (this w) = Some id) /\
  (autoPlay (this w) = true <-> is_Some (autoPlayTimer (this w))) /\
  (forall id, autoPlayTimer (this w) = Some id -> id < nextTimer w).

(** The page of the VR build with every handle found, and the same page
    without the button of 2050. *)
Definition demo_page : Page :=
  {| earthSpheres := {[ "2000" := "earth-2000"; "2010" := "earth-2010";
                        "2020" := "earth-2020"; "2050" := "earth-2050" ]};
     yearButtons := {[ "2000" := "btn-2000"; "2010" := "btn-2010";
                       "2020" := "btn-2020"; "2050" := "btn-2050" ]};
     dataTextLeft := true; dataTextRight := true;
     narrations := {[ "2000"; "2010"; "2020"; "2050" ]};
     autoPlayText := true; autoPlayBtn := true; uiManager := true |}.

Definition page_without_2050 : Page :=
  {| earthSpheres := earthSpheres demo_page;
     yearButtons := {[ "2000" := "btn-2000"; "2010" := "btn-2010";
                       "2020" := "btn-2020" ]};
     dataTextLeft := true; dataTextRight := true;
     narrations := narrations demo_page;
     autoPlayText := true; autoPlayBtn := true; uiManager := true |}.

End EarthControllerVR.
(* ===================================================================== *)
(*  Earth controller of the globe build, setupGlobeRotation: what the    *)
(*  page shows and where the globe comes to rest                         *)
(* ===================================================================== *)
Module GlobeView.
Import GlobeRotation.

(** The rotation last written to [el]. *)
Definition last_rotation (el : string) (tr : list Effect) : option Point :=
  fold_left (fun acc e => match e with
                          | SetRotation el' rot =>
                              if String.eqb el' el then Some rot else acc
                          | SetCursor _ => acc
                          end) tr None.

(** The elements a rotation is written to. *)
Definition rotated (page : Page) : list string :=
  visibleSpheres page ++ hotspots page.

(** Every element shows the current rotation; before the first write the
    rotation is the initial one. *)
Definition in_step (page : Page) (s : State) : Prop :=
  forall el, el ∈ rotated page ->
    last_rotation el (trace s) = Some (globeRotation s) \/
    (last_rotation el (trace s) = None /\ globeRotation s = {| x := 0; y := 0 |}).

End GlobeView.
(* ===================================================================== *)
(*  js/animation-controller.js, class AnimationController: the water     *)
(*  elements (setup, updateWaterLevel, createWaveEffect, stopWaveEffect, *)
(*  stopAllAnimations, cleanup).  Console output is left out.            *)
(* ===================================================================== *)
Module AnimationController.

(** The values the class writes to attributes of a water element. *)
Inductive Attribute : Type :=
| LevelAnimation (targetLevel : Q)   (* animation__level: position to 0 <level> 0 *)
| WaveAnimation                      (* animation__wave: rotation to 0 0 5, looping *)
| Plain (value : string).

(** [this.waterElements], [this.isInitialized], and the attributes of the
    page by element and attribute name. *)
Record Controller : Type := {
  waterElements : gmap string string;
  isInitialized : bool;
  attributes : gmap (string * string) Attribute
}.

Definition constructor (attrs : gmap (string * string) Attribute) : Controller :=
  {| waterElements := ∅; isInitialized := false; attributes := attrs |}.

Definition setAttribute (el name : string) (v : Attribute) (c : Controller) : Controller :=
  {| waterElements := waterElements c; isInitialized := isInitialized c;
     attributes := <[(el, name) := v]> (attributes c) |}.

Definition removeAttribute (el name : string) (c : Controller) : Controller :=
  {| waterElements := waterElements c; isInitialized := isInitialized c;
     attributes := delete (el, name) (attributes c) |}.

(** The loop of [setup()] over [CONFIG.sceneOrder]. *)
Fixpoint register (getElementById : string -> option string)
         (sceneOrder : list string) (found : gmap string string)
  : gmap string string :=
  match sceneOrder with
  | [] => found
  | year :: rest =>
      register getElementById rest
        match getElementById ("water-" +:+ year) with
        | Some waterEl => <[year := waterEl]> found
        | None => found
        end
  end.

(** [setup()] *)
Definition setup (getElementById : string -> option string)
           (sceneOrder : list string) (c : Controller) : Controller :=
  {| waterElements := register getElementById sceneOrder (waterElements c);
     isInitialized := true; attributes := attributes c |}.

(** [updateWaterLevel(year)]; [waterLevels] gives
    [CONFIG.scenes[year].waterLevel] for the configured years. *)
Definition updateWaterLevel (waterLevels : gmap string Q) (year : string)
           (c : Controller) : Controller :=
  if negb (isInitialized c) then c
  else match waterLevels !! year with
  | None => c
  | Some targetLevel =>
      match waterElements c !! year with
      | None => c
      | Some waterEl =>
          setAttribute waterEl "animation__level" (LevelAnimation targetLevel) c
      end
  end.

(** [createWaveEffect(year)] *)
Definition createWaveEffect (year : string) (c : Controller) : Controller :=
  match waterElements c !! year with
  | None => c
  | Some waterEl => setAttribute waterEl "animation__wave" WaveAnimation c
  end.

(** [stopWaveEffect(year)] *)
Definition stopWaveEffect (year : string) (c : Controller) : Controller :=
  match waterElements c !! year with
  | None => c
  | Some waterEl =>
      setAttribute waterEl "rotation" (Plain "0 0 0")
        (removeAttribute waterEl "animation__wave" c)
  end.

(** [stopAllAnimations()]: the loop over [Object.values(this.waterElements)]. *)
Definition stopAllAnimations (c : Controller) : Controller :=
  fold_left (fun c waterEl =>
               removeAttribute waterEl "animation__wave"
                 (removeAttribute waterEl "animation__rise"
                    (removeAttribute waterEl "animation__level" c)))
            (map_to_list (waterElements c)).*2 c.

(** [cleanup()] *)
Definition cleanup (c : Controller) : Controller :=
  let c := stopAllAnimations c in
  {| waterElements := ∅; isInitialized := false; attributes := attributes c |}.

(** The calls that reach a controller after [setup()]. *)
Inductive Call : Type :=
| UpdateWaterLevel (year : string)
| CreateWaveEffect (year : string)
| StopWaveEffect (year : string)
| StopAllAnimations
| Cleanup.

Definition handle (waterLevels : gmap string Q) (c : Controller) (call : Call)
  : Controller :=
  match call with
  | UpdateWaterLevel year => updateWaterLevel waterLevels year c
  | CreateWaveEffect year => createWaveEffect year c
  | StopWaveEffect year => stopWaveEffect year c
  | StopAllAnimations => stopAllAnimations c
  | Cleanup => cleanup c
  end.

Definition run (waterLevels : gmap string Q) (c : Controller) (calls : list Call)
  : Controller :=
  fold_left (handle waterLevels) calls c.

(** The three animations [stopAllAnimations] removes. *)
Definition animations : list string :=
  ["animation__level"; "animation__rise"; "animation__wave"].

End AnimationController.
(* ===================================================================== *)
(*  js/gaze-controller.js, class GazeController: the gaze on a portal    *)
(*  and the scene change it triggers                                     *)
(* ===================================================================== *)
Module GazeController.
Import SceneManager.

(** CONFIG.gaze and CONFIG.portalMappings *)
Record Config : Type := {
  fuseTimeout : Z;
  activeColor : string;
  portalMappings : gmap string string    (* portal id -> target scene *)
}.

(** [e.detail.intersectedEl], as far as the handlers look at it. *)
Record Element : Type := {
  id : string;
  has_class_portal : bool;      (* classList.contains('portal') *)
  color : string                (* getAttribute('color') *)
}.

(** What the controller writes. *)
Inductive Effect : Type :=
| ConsoleLog (msg arg : string)
| ConsoleError (msg arg : string)
| Pulse (el : string) (dur : Z)                  (* animation__pulse: scale to 1.1 *)
| ColorFeedback (el from to : string) (dur : Z)  (* animation__color *)
| RemoveAttribute (el name : string)
| SetScale (el value : string)
| Flash (el : string)                            (* animation__flash: opacity 1 to 0 *)
| SetTimeout (ms : Z)
| SetOpacity (el : string) (opacity : Q).        (* material.opacity, by the timer *)

(** The fields of the class, what it has written, and the SceneManager
    behind [window.sceneManager] (None: not set). *)
Record World : Type := {
  gazeTarget : option string;
  gazeStartTime : Z;
  isGazing : bool;
  written : list Effect;
  sceneManager : option Machine
}.

(** [constructor()]; [init()] and [setup()] attach the listeners that
    [handle] below stands for. *)
Definition constructor (sceneManager : option Machine) : World :=
  {| gazeTarget := None; gazeStartTime := 0; isGazing := false; written := [];
     sceneManager := sceneManager |}.

Definition write (es : list Effect) (w : World) : World :=
  {| gazeTarget := gazeTarget w; gazeStartTime := gazeStartTime w;
     isGazing := isGazing w; written := written w ++ es;
     sceneManager := sceneManager w |}.

(** [portal && portal.classList.contains('portal')] *)
Definition is_portal (portal : option Element) : option Element :=
  match portal with
  | Some el => if has_class_portal el then Some el else None
  | None => None
  end.

(** [window.sceneManager && window.sceneManager.isTransitioning] *)
Definition transitioning (w : World) : bool :=
  match sceneManager w with
  | Some m => isTransitioning (state m)
  | None => false
  end.

(** [onGazeStart(portal)]; [now] is [Date.now()]. *)
Definition onGazeStart (cfg : Config) (now : Z) (portal : option Element)
           (w : World) : World :=
  match is_portal portal with
  | None => w
  | Some el =>
      if transitioning w then w
      else
        {| gazeTarget := Some (id el); gazeStartTime := now; isGazing := true;
           written := written w ++
                      [ConsoleLog "[GazeController] Gaze started on:" (id el);
                       Pulse (id el) (fuseTimeout cfg);
                       ColorFeedback (id el) (color el) (activeColor cfg)
                                     (fuseTimeout cfg)];
           sceneManager := sceneManager w |}
  end.

(** [resetGaze(portal)] for a portal that is not null. *)
Definition resetGaze (el : Element) (w : World) : World :=
  {| gazeTarget := None; gazeStartTime := 0; isGazing := false;
     written := written w ++
                [RemoveAttribute (id el) "animation__pulse";
                 RemoveAttribute (id el) "animation__color";
                 SetScale (id el) "1 1 1"];
     sceneManager := sceneManager w |}.

(** [CONFIG.portalMappings[portal.id]] when it passes [!targetScene]:
    a missing entry and an empty string do not. *)
Definition mapping (cfg : Config) (portal : string) : option string :=
  match portalMappings cfg !! portal with
  | Some targetScene =>
      if String.eqb targetScene EmptyString then None else Some targetScene
  | None => None
  end.

(** [flashPortal(portal)]; the timer is [FlashTimer] below. *)
Definition flashPortal (el : Element) (w : World) : World :=
  write [Flash (id el); SetTimeout 500] w.

(** [onGazeComplete(portal)] *)
Definition onGazeComplete (cfg : Config) (env : Env) (portal : option Element)
           (w : World) : World :=
  match is_portal portal with
  | None => w
  | Some el =>
      let w := write [ConsoleLog "[GazeController] Gaze complete on:" (id el)] w in
      match mapping cfg (id el) with
      | None =>
          write [ConsoleError "[GazeController] No mapping found for portal:" (id el)] w
      | Some targetScene =>
          let w :=
            {| gazeTarget := gazeTarget w; gazeStartTime := gazeStartTime w;
               isGazing := isGazing w; written := written w;
               sceneManager := request env targetScene <$> sceneManager w |} in
          flashPortal el (resetGaze el w)
      end
  end.

(** What reaches the controller and the SceneManager behind it. *)
Inductive Event : Type :=
| Fusing (portal : option Element) (now : Z)   (* the cursor's 'fusing' event *)
| Click (portal : option Element)              (* the cursor's 'click' event *)
| FlashTimer (el : string)                     (* the timer of flashPortal fires *)
| Settle.                                      (* an await of switchScene settles *)

Definition handle (cfg : Config) (env : Env) (w : World) (ev : Event) : World :=
  match ev with
  | Fusing portal now => onGazeStart cfg now portal w
  | Click portal =>
      match is_portal portal with
      | Some _ => onGazeComplete cfg env portal w
      | None => w
      end
  | FlashTimer el => write [SetOpacity el (6 # 10)] w
  | Settle =>
      {| gazeTarget := gazeTarget w; gazeStartTime := gazeStartTime w;
         isGazing := isGazing w; written := written w;
         sceneManager := resume env <$> sceneManager w |}
  end.

Definition run (cfg : Config) (env : Env) (w : World) (evs : list Event) : World :=
  fold_left (handle cfg env) evs w.

(** A scene some portal leads to and CONFIG.scenes has. *)
Definition reachable (cfg : Config) (env : Env) (year : string) : Prop :=
  (exists portal, mapping cfg portal = Some year) /\
  is_Some (scenes env !! year).

(** The SceneManager is in its first scene or one a portal leads to, and
    so is every scene a call in flight is switching to. *)
Definition on_the_map (cfg : Config) (env : Env) (m : Machine) : Prop :=
  (currentScene (state m) = "2000" \/ reachable cfg env (currentScene (state m))) /\
  Forall (fun k => reachable cfg env (SceneNavigation.target_of k)) (pending m).

End GazeController.

(* ===================================================================== *)
(*  PROOFS                                                               *)
(* ===================================================================== *)

Module ObjectLiteralProofs.
Import ObjectLiteral.

Lemma inherited_spec key : inherited key = true <-> key ∈ Object_prototype.
Proof. unfold inherited. apply bool_decide_eq_true. Qed.

Lemma get_own {A} (own : gmap string A) key a :
  own !! key = Some a -> get own key = Own a.
Proof. intros H. unfold get. now rewrite H. Qed.

Lemma get_inherited {A} (own : gmap string A) key :
  get own key = Inherited <-> own !! key = None /\ inherited key = true.
Proof.
  unfold get. destruct (own !! key); [split; [discriminate | intros [? _]; discriminate]|].
  destruct (inherited key); split; try tauto; try discriminate.
  intros [_ ?]. discriminate.
Qed.

Lemma get_plain {A} (own : gmap string A) key :
  inherited key = false -> get own key <> Inherited.
Proof. intros H E. apply get_inherited in E. destruct E. congruence. Qed.

Lemma keys_of_pairs {A} (value : string -> A) (l : list string) :
  (map (fun key => (key, value key)) l).*1 = l.
Proof. induction l as [|k l IH]; [reflexivity | cbn; now f_equal]. Qed.

Lemma lookups_spec {A} (value : string -> A) own : lookups_of own (lookups value own).
Proof.
  intros key. unfold lookups. destruct (own !! key) as [a|] eqn:E.
  - now apply lookup_union_Some_l.
  - rewrite lookup_union_r by exact E. rewrite inherited_spec.
    rewrite <- (keys_of_pairs value Object_prototype) at 2. split.
    + intros Hs. destruct (decide (key ∈ (map (fun key => (key, value key))
                                           Object_prototype).*1)) as [Hin|Hout];
        [exact Hin|].
      apply not_elem_of_list_to_map_1 in Hout.
      rewrite Hout in Hs. now destruct Hs.
    + intros Hin. apply not_eq_None_Some. intros Hn.
      now apply not_elem_of_list_to_map_2 in Hn.
Qed.

End ObjectLiteralProofs.

Module SceneManagerProofs.
Import SceneManager.

(* ------------------------------------------------------------------- *)
(*  Running the monad                                                  *)
(* ------------------------------------------------------------------- *)
Lemma bind_Ret {A B} (m : Act A) (k : A -> Act B) st st' a :
  m st = (st', Ret a) -> (m ≫= k) st = k a st'.
Proof. intros H. unfold mbind, Act_bind. now rewrite H. Qed.

Lemma bind_Throw {A B} (m : Act A) (k : A -> Act B) st st' err :
  m st = (st', Throw err) -> (m ≫= k) st = (st', Throw err).
Proof. intros H. unfold mbind, Act_bind. now rewrite H. Qed.

Lemma emit_run e s tr : emit e (s, tr) = ((s, tr ++ [e]), Ret tt).
Proof. reflexivity. Qed.

Lemma get_run s tr : get (s, tr) = ((s, tr), Ret s).
Proof. reflexivity. Qed.

Lemma mret_run {A} (a : A) st : (mret a : Act A) st = (st, Ret a).
Proof. reflexivity. Qed.

Lemma set_currentScene_run y s tr :
  set_currentScene y (s, tr) =
  (({| currentScene := y; isTransitioning := isTransitioning s |},
    tr ++ [SetCurrentScene y]), Ret tt).
Proof. reflexivity. Qed.

Lemma set_isTransitioning_run b s tr :
  set_isTransitioning b (s, tr) =
  (({| currentScene := currentScene s; isTransitioning := b |}, tr), Ret tt).
Proof. reflexivity. Qed.

(* ------------------------------------------------------------------- *)
(*  A transition in which no call raises                               *)
(* ------------------------------------------------------------------- *)
Section Quiet.
Variable env : Env.
Hypothesis Hq : quiet env.

Lemma perform_run e s tr : perform env e (s, tr) = ((s, tr ++ [e]), Ret tt).
Proof. unfold perform. now rewrite Hq. Qed.

Lemma new_Promise_run executor st st' :
  executor st = (st', Ret tt) -> new_Promise executor st = (st', Ret Resolves).
Proof. intros H. unfold new_Promise. now rewrite H. Qed.

Lemma timer_resolves_Ret targetYear callback k st st' :
  callback st = (st', Ret tt) -> timer_resolves targetYear callback k st = k st'.
Proof. intros H. unfold timer_resolves. now rewrite H. Qed.

Lemma try_suspended body st st' k :
  body st = (st', Ret (Some k)) ->
  try_catch_finally body st = (st', Ret (Some k)).
Proof. intros H. unfold try_catch_finally. now rewrite H. Qed.

Lemma try_completed body st s' tr' :
  body st = ((s', tr'), Ret None) ->
  try_catch_finally body st =
  (({| currentScene := currentScene s'; isTransitioning := false |}, tr'), Ret None).
Proof. intros H. unfold try_catch_finally. now rewrite H. Qed.

Ltac solve_run :=
  first [ apply emit_run | apply perform_run | apply get_run
        | apply set_currentScene_run | apply set_isTransitioning_run
        | apply mret_run
        | apply new_Promise_run; solve_run
        | apply try_suspended; solve_run
        | apply try_completed; solve_run
        | (erewrite bind_Ret by solve_run); solve_run ].

Ltac run_all :=
  repeat first [ erewrite bind_Ret by solve_run
               | progress cbn [currentScene isTransitioning when await] ].

Ltac close_trace :=
  rewrite <- ?app_assoc; simpl;
  eexists; split; [reflexivity | reflexivity].

Lemma switchScene_entry_run A B tr :
  is_Some (scenes env !! B) -> A <> B ->
  exists new,
    switchScene_entry env B ({| currentScene := A; isTransitioning := false |}, tr) =
    (({| currentScene := A; isTransitioning := true |}, tr ++ new),
     Ret (Some (AwaitFadeOut B Resolves))) /\
    side_effects new = step1_fade_to_opaque env.
Proof.
  intros [cfg Hcfg] HAB. apply String.eqb_neq in HAB.
  unfold switchScene_entry, fadeOut, step1_fade_to_opaque.
  erewrite bind_Ret by solve_run. cbn [currentScene isTransitioning].
  rewrite Hcfg, HAB.
  destruct (fadeOverlay env) as [ov|]; run_all;
    (erewrite try_suspended by solve_run); close_trace.
Qed.

Lemma after_fadeOut_run A B g tr :
  exists new,
    switchScene_resume env (AwaitFadeOut B Resolves)
      ({| currentScene := A; isTransitioning := g |}, tr) =
    (({| currentScene := B; isTransitioning := g |}, tr ++ new),
     Ret (Some (AwaitDelay B Resolves))) /\
    side_effects new =
      step2_stop_audio env A ++ step3_hide_current env A ++ step4_commit B ++
      step5_show_target env B ++ step6_notify_ui env B ++
      step7_transition_cue env ++ step8_settle_delay.
Proof.
  unfold switchScene_resume, after_fadeOut, hideScene, showScene, delay.
  unfold step2_stop_audio, step3_hide_current, step4_commit, step5_show_target,
    step6_notify_ui, step7_transition_cue, step8_settle_delay, step_on, step_visual.
  cbn [await].
  destruct (audioController env), (uiManager env),
    (sceneElements env !! A) as [elA|] eqn:HA,
    (sceneElements env !! B) as [elB|] eqn:HB.
  all: erewrite try_suspended;
    [| repeat first [ erewrite bind_Ret by solve_run
                    | progress cbn [currentScene isTransitioning when]
                    | rewrite HA | rewrite HB ];
       solve_run ].
  all: close_trace.
Qed.

Lemma after_delay_run s tr B :
  exists new,
    switchScene_resume env (AwaitDelay B Resolves) (s, tr) =
    ((s, tr ++ new), Ret (Some (AwaitFadeIn B Resolves))) /\
    match fadeOverlay env with
    | Some ov => side_effects new = [SetAnimation ov 0 (fadeDuration env);
                                     SetTimeout (fadeDuration env)]
    | None => new = []
    end.
Proof.
  unfold switchScene_resume, after_delay, fadeIn. cbn [await].
  destruct (fadeOverlay env) as [ov|].
  - erewrite try_suspended by solve_run. close_trace.
  - erewrite try_suspended by solve_run. exists []. now rewrite app_nil_r.
Qed.

Lemma after_fadeIn_run A g tr B :
  exists new,
    switchScene_resume env (AwaitFadeIn B Resolves)
      ({| currentScene := A; isTransitioning := g |}, tr) =
    (({| currentScene := A; isTransitioning := false |}, tr ++ new), Ret None) /\
    side_effects new =
      match fadeOverlay env with Some ov => [SetVisible ov false] | None => [] end ++
      step10_start_audio env B ++ step11_notify_animation env B.
Proof.
  unfold switchScene_resume, after_fadeIn, fadeIn_timer.
  unfold step10_start_audio, step11_notify_animation, step_on.
  destruct (fadeOverlay env) as [ov|], (audioController env),
    (animationController env).
  all: erewrite timer_resolves_Ret by solve_run.
  all: erewrite try_completed;
    [| repeat first [ erewrite bind_Ret by solve_run | progress cbn [when] ];
       solve_run ].
  all: cbn [currentScene]; close_trace.
Qed.
End Quiet.

Lemma request_suspends env B m s tr k :
  switchScene_entry env B (state m, trace m) = ((s, tr), Ret (Some k)) ->
  request env B m = {| state := s; trace := tr; pending := pending m ++ [k] |}.
Proof. intros H. unfold request. now rewrite H. Qed.

Lemma resume_suspends env m k rest s tr k' :
  pending m = k :: rest ->
  switchScene_resume env k (state m, trace m) = ((s, tr), Ret (Some k')) ->
  resume env m = {| state := s; trace := tr; pending := k' :: rest |}.
Proof. intros Hp H. unfold resume. now rewrite Hp, H. Qed.

Lemma resume_completes env m k rest s tr :
  pending m = k :: rest ->
  switchScene_resume env k (state m, trace m) = ((s, tr), Ret None) ->
  resume env m = {| state := s; trace := tr; pending := rest |}.
Proof. intros Hp H. unfold resume. now rewrite Hp, H. Qed.

Lemma run_events_snoc env m evs ev : run env m (evs ++ [ev]) = step env (run env m evs) ev.
Proof. unfold run. now rewrite fold_left_app. Qed.

Lemma side_effects_app l1 l2 :
  side_effects (l1 ++ l2) = side_effects l1 ++ side_effects l2.
Proof. apply List.filter_app. Qed.

(** C1.  A valid request A -> B (A <> B) made while no transition is in
    progress performs the side effects of steps (1) to (11) in exactly the
    specified order; the returned promise resolves at the third await and
    not before, and then currentScene is B and the guard is Idle again. *)
Theorem switchScene_specified_order env A B tr :
  quiet env ->
  is_Some (scenes env !! B) ->
  A <> B ->
  let after n := run env (idle_at A tr) (Request B :: repeat Settle n) in
  (exists new, trace (after 3) = tr ++ new /\
               side_effects new = specified_order env A B) /\
  pending (after 3) = [] /\
  currentScene (state (after 3)) = B /\
  Idle (after 3) /\
  (forall n, n < 3 -> pending (after n) <> [] /\ InProgress (after n)).
Proof.
  intros Hq HB HAB after.
  destruct (switchScene_entry_run env Hq A B tr HB HAB) as (n1 & E1 & S1).
  destruct (after_fadeOut_run env Hq A B true (tr ++ n1)) as (n2 & E2 & S2).
  destruct (after_delay_run env Hq
              {| currentScene := B; isTransitioning := true |}
              ((tr ++ n1) ++ n2) B) as (n3 & E3 & S3).
  destruct (after_fadeIn_run env Hq B true (((tr ++ n1) ++ n2) ++ n3) B)
    as (n4 & E4 & S4).
  assert (H0 : after 0 =
               {| state := {| currentScene := A; isTransitioning := true |};
                  trace := tr ++ n1;
                  pending := [AwaitFadeOut B Resolves] |}).
  { unfold after. cbn [repeat]. change (run env (idle_at A tr) [Request B])
      with (request env B (idle_at A tr)).
    now erewrite request_suspends by exact E1. }
  assert (Hs : forall n, after (S n) = resume env (after n)).
  { intros n. unfold after.
    change (Request B :: repeat Settle (S n))
      with ([Request B] ++ (Settle :: repeat Settle n)).
    rewrite repeat_cons, app_assoc, run_events_snoc. reflexivity. }
  assert (H1 : after 1 =
               {| state := {| currentScene := B; isTransitioning := true |};
                  trace := (tr ++ n1) ++ n2;
                  pending := [AwaitDelay B Resolves] |}).
  { rewrite Hs, H0. now erewrite resume_suspends by (reflexivity || exact E2). }
  assert (H2 : after 2 =
               {| state := {| currentScene := B; isTransitioning := true |};
                  trace := ((tr ++ n1) ++ n2) ++ n3;
                  pending := [AwaitFadeIn B Resolves] |}).
  { rewrite Hs, H1. now erewrite resume_suspends by (reflexivity || exact E3). }
  assert (H3 : after 3 =
               {| state := {| currentScene := B; isTransitioning := false |};
                  trace := (((tr ++ n1) ++ n2) ++ n3) ++ n4;
                  pending := [] |}).
  { rewrite Hs, H2. now erewrite resume_completes by (reflexivity || exact E4). }
  rewrite H3. cbn [state trace pending currentScene]. unfold Idle, InProgress.
  split; [| split; [reflexivity | split; [reflexivity | split; [reflexivity |]]]].
  - exists (n1 ++ n2 ++ n3 ++ n4). split.
    + now rewrite <- !app_assoc.
    + rewrite !side_effects_app, S1, S2, S4. unfold specified_order.
      assert (S3' : side_effects n3 ++
                    match fadeOverlay env with
                    | Some ov => [SetVisible ov false]
                    | None => []
                    end = step9_fade_from_opaque env).
      { unfold step9_fade_from_opaque.
        destruct (fadeOverlay env); [now rewrite S3 | now subst n3]. }
      rewrite <- S3'. now rewrite <- !app_assoc.
  - intros n Hn.
    destruct n as [|[|[|n]]]; [rewrite H0 | rewrite H1 | rewrite H2 | lia];
      split; [discriminate | reflexivity | discriminate | reflexivity
             | discriminate | reflexivity ].
Qed.

(* ------------------------------------------------------------------- *)
(*  Any oracle: the guard and the catch block                          *)
(* ------------------------------------------------------------------- *)
Lemma outstanding_snoc tr e : outstanding (tr ++ [e]) = note (outstanding tr) e.
Proof. unfold outstanding. now rewrite fold_left_app. Qed.

Lemma note_neutral owed e : neutral e = true -> note owed e = owed.
Proof.
  destruct e; simpl; try reflexivity; try discriminate.
  intros H. apply negb_true_iff in H. now rewrite H.
Qed.

Lemma tidy_mret {A} (a : A) : tidy (mret a).
Proof. intros s tr. exists s, tr, (Ret a). now rewrite app_nil_r. Qed.

Lemma tidy_bind {A B} (m : Act A) (k : A -> Act B) :
  tidy m -> (forall a, tidy (k a)) -> tidy (m ≫= k).
Proof.
  intros Hm Hk s tr. destruct (Hm s tr) as (s1 & tr1 & o1 & E1 & G1 & O1).
  destruct o1 as [a|err].
  - destruct (Hk a s1 tr1) as (s2 & tr2 & o2 & E2 & G2 & O2).
    exists s2, tr2, o2. rewrite (bind_Ret _ _ _ _ _ E1). split; [exact E2|].
    split; [congruence|]. rewrite O2, O1. now rewrite app_nil_r.
  - exists s1, tr1, (Throw err). rewrite (bind_Throw _ _ _ _ _ E1). auto.
Qed.

Lemma tidy_emit e : neutral e = true -> tidy (emit e).
Proof.
  intros Hn s tr. exists s, (tr ++ [e]), (Ret tt). split; [reflexivity|].
  split; [reflexivity|]. now rewrite outstanding_snoc, note_neutral, app_nil_r.
Qed.

Lemma tidy_perform env e : neutral e = true -> tidy (perform env e).
Proof.
  intros Hn s tr. unfold perform. destruct (throws env e) as [err|].
  - exists s, (tr ++ [e; Exception err]), (Throw err). split; [reflexivity|].
    split; [reflexivity|].
    change (tr ++ [e; Exception err]) with (tr ++ [e] ++ [Exception err]).
    rewrite app_assoc, !outstanding_snoc, (note_neutral _ e Hn). reflexivity.
  - exists s, (tr ++ [e]), (Ret tt). split; [reflexivity|].
    split; [reflexivity|]. now rewrite outstanding_snoc, note_neutral, app_nil_r.
Qed.

Lemma tidy_get : tidy get.
Proof. intros s tr. exists s, tr, (Ret s). now rewrite app_nil_r. Qed.

Lemma tidy_set_currentScene y : tidy (set_currentScene y).
Proof.
  intros s tr. eexists _, _, _. split; [reflexivity|]. split; [reflexivity|].
  now rewrite outstanding_snoc, app_nil_r.
Qed.

Lemma tidy_when b m : tidy m -> tidy (when b m).
Proof. destruct b; [auto | intros _; apply tidy_mret]. Qed.

Create HintDb tidy.
#[local] Hint Resolve tidy_mret tidy_get tidy_set_currentScene tidy_when : tidy.
#[local] Hint Extern 1 (tidy (_ ≫= _)) => apply tidy_bind; [| intros ?] : tidy.
#[local] Hint Extern 1 (tidy (emit _)) => apply tidy_emit; reflexivity : tidy.
#[local] Hint Extern 1 (tidy (perform _ _)) => apply tidy_perform; reflexivity : tidy.

Lemma tidy_hideScene env year : tidy (hideScene env year).
Proof. unfold hideScene. destruct (sceneElements env !! year); auto with tidy. Qed.

Lemma tidy_showScene env year : tidy (showScene env year).
Proof. unfold showScene. destruct (sceneElements env !! year); auto with tidy. Qed.

#[local] Hint Resolve tidy_hideScene tidy_showScene : tidy.

Lemma tidy_new_Promise executor : tidy executor -> tidy_promise (new_Promise executor).
Proof.
  intros H s tr. destruct (H s tr) as (s' & tr' & o & E & G & O).
  unfold new_Promise. rewrite E. destruct o as [[]|err].
  - exists s', tr', Resolves. auto.
  - exists s', tr', (Rejects err). auto.
Qed.

Lemma tidy_fadeOut env : tidy_promise (fadeOut env).
Proof.
  unfold fadeOut. apply tidy_new_Promise.
  destruct (fadeOverlay env); auto 10 with tidy.
Qed.

Lemma tidy_fadeIn env : tidy_promise (fadeIn env).
Proof.
  unfold fadeIn. apply tidy_new_Promise.
  destruct (fadeOverlay env); auto 10 with tidy.
Qed.

Lemma stretch_bind {A} n (m : Act A) (k : A -> Act (option Cont)) :
  tidy m -> (forall a, tidy_stretch n (k a)) -> tidy_stretch n (m ≫= k).
Proof.
  intros Hm Hk s tr. destruct (Hm s tr) as (s1 & tr1 & o1 & E1 & G1 & O1).
  destruct o1 as [a|err].
  - destruct (Hk a s1 tr1) as (s2 & tr2 & o2 & E2 & G2 & O2).
    exists s2, tr2, o2. rewrite (bind_Ret _ _ _ _ _ E1). split; [exact E2|].
    split; [congruence|]. rewrite app_nil_r in O1. now rewrite <- O1.
  - exists s1, tr1, (Throw err). rewrite (bind_Throw _ _ _ _ _ E1). auto.
Qed.

(** A stretch that ends by awaiting a promise just built. *)
Lemma stretch_await n (mp : Act Promise) K :
  tidy_promise mp ->
  (forall p, awaits_left (K p) = n /\ stuck (K p) = false /\
             owed (K p) = rejection p) ->
  tidy_stretch n (p ← mp; mret (Some (K p))).
Proof.
  intros Hp HK s tr. destruct (Hp s tr) as (s2 & tr2 & p & E2 & G2 & O2).
  exists s2, tr2, (Ret (Some (K p))). rewrite (bind_Ret _ _ _ _ _ E2).
  split; [reflexivity|]. split; [exact G2|].
  destruct (HK p) as (-> & -> & ->). auto.
Qed.

(** A stretch that reaches the end of the [try] block. *)
Lemma stretch_end n : tidy_stretch n (mret None).
Proof. intros s tr. exists s, tr, (Ret None). auto. Qed.

Lemma tidy_delay ms : tidy_promise (delay ms).
Proof. unfold delay. apply tidy_new_Promise. auto with tidy. Qed.

Lemma stretch_entry env targetYear :
  tidy_stretch 3 (p ← fadeOut env; mret (Some (AwaitFadeOut targetYear p))).
Proof. apply stretch_await; [apply tidy_fadeOut | auto]. Qed.

Lemma stretch_after_fadeOut env targetYear :
  tidy_stretch 2 (after_fadeOut env targetYear).
Proof.
  unfold after_fadeOut.
  repeat (apply stretch_bind; [solve [auto 10 with tidy] | intros ?]).
  apply stretch_await; [apply tidy_delay | auto].
Qed.

Lemma stretch_after_delay env targetYear :
  tidy_stretch 1 (after_delay env targetYear).
Proof. apply stretch_await; [apply tidy_fadeIn | auto]. Qed.

Lemma stretch_after_fadeIn env targetYear :
  tidy_stretch 0 (after_fadeIn env targetYear).
Proof.
  unfold after_fadeIn.
  repeat (apply stretch_bind; [solve [auto 10 with tidy] | intros ?]).
  apply stretch_end.
Qed.

Lemma filter_owed err :
  List.filter (fun x => negb (String.eqb x err)) [err] = [].
Proof. simpl. now rewrite String.eqb_refl. Qed.

Lemma outstanding_catch tr err :
  outstanding tr = [err] ->
  outstanding (tr ++ [ConsoleError transition_error err]) = [].
Proof.
  intros H. rewrite outstanding_snoc, H. cbn [note].
  rewrite String.eqb_refl. apply filter_owed.
Qed.

(** What the [try]/[catch]/[finally] makes of a tidy stretch started with
    nothing unreported: it never raises; it either stays suspended with
    the guard untouched, or ends with the guard cleared and every error
    reported. *)
Lemma try_catch_finally_tidy n body s tr :
  tidy_stretch n body ->
  outstanding tr = [] ->
  exists s' tr' o,
    try_catch_finally body (s, tr) = ((s', tr'), Ret o) /\
    match o with
    | Some k => isTransitioning s' = isTransitioning s /\ awaits_left k = n /\
                stuck k = false /\ outstanding tr' = owed k
    | None => isTransitioning s' = false /\ outstanding tr' = []
    end.
Proof.
  intros Hb H0. destruct (Hb s tr) as (s1 & tr1 & o1 & E1 & G1 & O1).
  unfold try_catch_finally. rewrite E1. rewrite H0 in O1. simpl in O1.
  destruct o1 as [[k|]|err].
  - exists s1, tr1, (Some k). destruct O1 as (? & ? & ?). auto.
  - eexists _, _, None. split; [reflexivity|]. auto.
  - eexists _, _, None. split; [reflexivity|]. split; [reflexivity|].
    now apply outstanding_catch.
Qed.

(** A request made while the guard is set does nothing but warn. *)
Lemma switchScene_entry_busy env targetYear s tr :
  isTransitioning s = true ->
  switchScene_entry env targetYear (s, tr) =
  ((s, tr ++ [ConsoleWarn "[SceneManager] Transition already in progress"]), Ret None).
Proof.
  intros H. unfold switchScene_entry.
  erewrite bind_Ret by apply get_run. rewrite H. reflexivity.
Qed.

Lemma switchScene_entry_idle env targetYear s tr :
  isTransitioning s = false ->
  outstanding tr = [] ->
  exists s' tr' o,
    switchScene_entry env targetYear (s, tr) = ((s', tr'), Ret o) /\
    match o with
    | Some k => isTransitioning s' = true /\ stuck k = false /\
                outstanding tr' = owed k
    | None => isTransitioning s' = false /\ outstanding tr' = []
    end.
Proof.
  intros Hg H0. unfold switchScene_entry.
  erewrite bind_Ret by apply get_run. rewrite Hg.
  destruct (scenes env !! targetYear) as [cfg|].
  - destruct (String.eqb (currentScene s) targetYear).
    + eexists _, _, None. split; [reflexivity|]. split; [exact Hg|].
      now rewrite outstanding_snoc, H0.
    + erewrite bind_Ret by apply emit_run.
      erewrite bind_Ret by apply set_isTransitioning_run.
      edestruct (try_catch_finally_tidy 3) as (s' & tr' & o & E & Ho);
        [apply (stretch_entry env targetYear) | | rewrite E].
      { now rewrite outstanding_snoc, H0. }
      exists s', tr', o. split; [reflexivity|].
      destruct o as [k|]; [destruct Ho as (G & _ & St & O); auto | exact Ho].
  - eexists _, _, None. split; [reflexivity|]. split; [exact Hg|].
    now rewrite outstanding_snoc, H0.
Qed.

Lemma no_await_left k : stuck k = false -> awaits_left k <> 0.
Proof. destruct k; discriminate. Qed.

(** One more step of a suspended call: it never raises into the event
    loop; it stays suspended with the guard untouched, or ends with the
    guard cleared and every error reported.  Only the timer callback of
    [fadeIn] can leave it suspended for good. *)
Lemma switchScene_resume_tidy env k s tr :
  outstanding tr = owed k ->
  exists s' tr' o,
    switchScene_resume env k (s, tr) = ((s', tr'), Ret o) /\
    match o with
    | Some k' => isTransitioning s' = isTransitioning s /\
                 awaits_left k' <= pred (awaits_left k) /\
                 outstanding tr' = owed k' /\
                 (stuck k' = true ->
                  stuck k = true \/
                  exists t ov err, k = AwaitFadeIn t Resolves /\
                                   fadeOverlay env = Some ov /\
                                   throws env (SetVisible ov false) = Some err)
    | None => isTransitioning s' = false /\ outstanding tr' = []
    end.
Proof.
  intros H0.
  destruct k as [t [|err] | t [|err] | t [|err] | t err]; cbn [owed rejection] in H0;
    cbn [switchScene_resume].
  2, 4, 6:
    eexists _, _, None; split; [reflexivity|]; split; [reflexivity|];
    now apply outstanding_catch.
  - destruct (try_catch_finally_tidy 2 (after_fadeOut env t) s tr
                (stretch_after_fadeOut env t) H0) as (s' & tr' & o & E & Ho).
    cbn [await]. exists s', tr', o. split; [exact E|].
    destruct o as [k'|]; [|exact Ho]. destruct Ho as (G & R & St & O).
    cbn [awaits_left]. rewrite R, St. repeat split; auto; try discriminate; lia.
  - destruct (try_catch_finally_tidy 1 (after_delay env t) s tr
                (stretch_after_delay env t) H0) as (s' & tr' & o & E & Ho).
    cbn [await]. exists s', tr', o. split; [exact E|].
    destruct o as [k'|]; [|exact Ho]. destruct Ho as (G & R & St & O).
    cbn [awaits_left]. rewrite R, St. repeat split; auto; try discriminate; lia.
  - unfold timer_resolves, fadeIn_timer.
    destruct (fadeOverlay env) as [ov|] eqn:Eov.
    + unfold perform. destruct (throws env (SetVisible ov false)) as [e1|] eqn:Et.
      * eexists _, _, (Some (AwaitForever t e1)). split; [reflexivity|].
        split; [reflexivity|]. split; [cbn [awaits_left]; lia|]. split.
        { change (tr ++ [SetVisible ov false; Exception e1])
            with (tr ++ [SetVisible ov false] ++ [Exception e1]).
          rewrite app_assoc, !outstanding_snoc, H0. reflexivity. }
        intros _. right. now exists t, ov, e1.
      * destruct (try_catch_finally_tidy 0 (after_fadeIn env t) s
                    (tr ++ [SetVisible ov false])
                    (stretch_after_fadeIn env t)) as (s' & tr' & o & E & Ho).
        { now rewrite outstanding_snoc, H0. }
        exists s', tr', o. split; [exact E|].
        destruct o as [k'|]; [|exact Ho]. destruct Ho as (G & R & St & O).
        now apply no_await_left in R.
    + destruct (try_catch_finally_tidy 0 (after_fadeIn env t) s tr
                  (stretch_after_fadeIn env t) H0) as (s' & tr' & o & E & Ho).
      exists s', tr', o. split; [exact E|].
      destruct o as [k'|]; [|exact Ho]. destruct Ho as (G & R & St & O).
      now apply no_await_left in R.
  - exists s, tr, (Some (AwaitForever t err)). split; [reflexivity|].
    split; [reflexivity|]. split; [reflexivity|]. split; [exact H0|]. now left.
Qed.

Lemma request_consistent env targetYear m :
  guard_consistent m -> guard_consistent (request env targetYear m).
Proof.
  unfold guard_consistent, request. destruct m as [s tr [|k [|k' rest]]];
    cbn [pending state trace]; [| |tauto].
  - intros [G O].
    destruct (switchScene_entry_idle env targetYear s tr G O)
      as (s' & tr' & o & E & Ho).
    rewrite E. destruct o as [k|]; cbn [pending state trace app]; tauto.
  - intros [G O]. rewrite (switchScene_entry_busy env targetYear s tr G).
    cbn [pending state trace]. split; [exact G|].
    now rewrite outstanding_snoc.
Qed.

Lemma resume_consistent env m :
  guard_consistent m -> guard_consistent (resume env m).
Proof.
  unfold guard_consistent, resume. destruct m as [s tr [|k [|k' rest]]];
    cbn [pending state trace]; [auto| |tauto].
  intros [G O].
  destruct (switchScene_resume_tidy env k s tr O) as (s' & tr' & o & E & Ho).
  rewrite E. destruct o as [k'|]; cbn [pending state trace]; [|exact Ho].
  destruct Ho as (G' & _ & O' & _). split; [congruence | exact O'].
Qed.

Lemma run_guard_consistent env m evs :
  guard_consistent m -> guard_consistent (run env m evs).
Proof.
  revert m. induction evs as [|ev evs IH]; intros m Hm; [exact Hm|].
  apply IH. destruct ev; [now apply request_consistent | now apply resume_consistent].
Qed.

Lemma boot_guard_consistent : guard_consistent boot.
Proof. split; reflexivity. Qed.

(** Awaits still in front of the calls in flight. *)
Lemma resume_progress env m :
  guard_consistent m ->
  awaits_pending (resume env m) <= pred (awaits_pending m).
Proof.
  unfold guard_consistent, resume, awaits_pending.
  destruct m as [s tr [|k [|k' rest]]];
    cbn [pending state trace]; [simpl; lia| |tauto].
  intros [G O].
  destruct (switchScene_resume_tidy env k s tr O) as (s' & tr' & o & E & Ho).
  rewrite E. destruct o as [k'|]; cbn [pending state trace];
    unfold list_sum; cbn [map fold_right];
    [destruct Ho as (_ & R & _) |]; lia.
Qed.

Lemma consistent_bound m : guard_consistent m -> awaits_pending m <= 3.
Proof.
  unfold guard_consistent, awaits_pending.
  destruct m as [s tr [|k [|k' rest]]]; cbn [pending]; [simpl; lia| |tauto].
  destruct k; simpl; lia.
Qed.

Lemma consistent_drained m :
  guard_consistent m -> awaits_pending m = 0 ->
  (pending m = [] /\ Idle m) \/
  (InProgress m /\ exists t err, pending m = [AwaitForever t err]).
Proof.
  unfold guard_consistent, awaits_pending, Idle, InProgress.
  destruct m as [s tr [|k [|k' rest]]]; cbn [pending state trace];
    [tauto| |tauto].
  intros [G _] H. right. split; [exact G|].
  destruct k as [| | |t err]; [discriminate H.. |]. now exists t, err.
Qed.

Lemma step_not_stuck env m ev :
  ~ timer_raises env -> guard_consistent m ->
  Forall (fun k => stuck k = false) (pending m) ->
  Forall (fun k => stuck k = false) (pending (step env m ev)).
Proof.
  intros Hn Hc Hs. destruct ev as [targetYear|]; cbn [step].
  - unfold guard_consistent in Hc. unfold request.
    destruct m as [s tr [|k [|k' rest]]]; cbn [pending state trace] in *;
      [| |tauto].
    + destruct Hc as [G O].
      destruct (switchScene_entry_idle env targetYear s tr G O)
        as (s' & tr' & o & E & Ho).
      rewrite E. destruct o as [k|]; cbn [pending app]; [|constructor].
      apply Forall_singleton. tauto.
    + destruct Hc as [G O]. rewrite (switchScene_entry_busy env targetYear s tr G).
      exact Hs.
  - unfold guard_consistent in Hc. unfold resume.
    destruct m as [s tr [|k [|k' rest]]]; cbn [pending state trace] in *;
      [exact Hs| |tauto].
    destruct Hc as [G O].
    destruct (switchScene_resume_tidy env k s tr O) as (s' & tr' & o & E & Ho).
    rewrite E. destruct o as [k'|]; cbn [pending]; [|constructor].
    apply Forall_singleton. destruct Ho as (_ & _ & _ & Hst).
    destruct (stuck k') eqn:Ek; [|reflexivity]. exfalso.
    destruct (Hst eq_refl) as [Hk | (t & ov & err & _ & Hov & Hth)].
    + apply (proj1 (Forall_singleton _ _)) in Hs. congruence.
    + apply Hn. now exists ov, err.
Qed.

Lemma run_not_stuck env evs : forall m,
  ~ timer_raises env -> guard_consistent m ->
  Forall (fun k => stuck k = false) (pending m) ->
  Forall (fun k => stuck k = false) (pending (run env m evs)).
Proof.
  induction evs as [|ev evs IH]; intros m Hn Hc Hs; [exact Hs|].
  cbn [run fold_left]. apply IH; [exact Hn | | now apply step_not_stuck].
  destruct ev; [now apply request_consistent | now apply resume_consistent].
Qed.

(** Once a call is suspended for good, nothing changes the object or
    the calls in flight any more. *)
Lemma step_stuck env m ev t err :
  InProgress m -> pending m = [AwaitForever t err] ->
  state (step env m ev) = state m /\ pending (step env m ev) = pending m.
Proof.
  intros G Hp. destruct m as [s tr ps]. unfold InProgress in G.
  cbn [state pending] in *. subst ps. destruct ev as [targetYear|]; cbn [step].
  - unfold request. cbn [state trace pending].
    rewrite (switchScene_entry_busy env targetYear s tr G). split; reflexivity.
  - split; reflexivity.
Qed.

Lemma run_stuck env evs : forall m t err,
  InProgress m -> pending m = [AwaitForever t err] ->
  state (run env m evs) = state m /\ pending (run env m evs) = pending m.
Proof.
  induction evs as [|ev evs IH]; intros m t err G Hp; [split; reflexivity|].
  cbn [run fold_left].
  destruct (step_stuck env m ev t err G Hp) as [Es Ep].
  destruct (IH (step env m ev) t err) as [Es' Ep'].
  - unfold InProgress. now rewrite Es.
  - now rewrite Ep.
  - fold (run env (step env m ev) evs) in *. split; congruence.
Qed.

(** From [owed] on, an error stays owed until the catch block reports it. *)
Lemma note_keeps tr : forall owed err,
  err ∈ owed ->
  err ∈ fold_left note tr owed \/ ConsoleError transition_error err ∈ tr.
Proof.
  induction tr as [|e tr IH]; intros owed err Hin; [now left|].
  cbn [fold_left].
  destruct (decide (e = ConsoleError transition_error err)) as [->|Hne].
  { right. left. }
  destruct (IH (note owed e) err) as [H|H]; [| now left | right; now right].
  destruct e; cbn [note]; try exact Hin.
  - destruct (String.eqb msg transition_error) eqn:Em; [|exact Hin].
    apply String.eqb_eq in Em. subst msg.
    apply list_elem_of_In, filter_In. split; [now apply list_elem_of_In|].
    apply negb_true_iff, String.eqb_neq. congruence.
  - apply elem_of_app. now left.
Qed.

Lemma outstanding_reported t1 err t2 :
  outstanding (t1 ++ Exception err :: t2) = [] ->
  ConsoleError transition_error err ∈ t2.
Proof.
  unfold outstanding. rewrite fold_left_app. cbn [fold_left note]. intros H.
  destruct (note_keeps t2 (fold_left note t1 [] ++ [err]) err) as [Hin|Hin];
    [apply elem_of_app; right; left | | exact Hin].
  rewrite H in Hin. now apply not_elem_of_nil in Hin.
Qed.

(** X22.  The guard of switchScene.  (a) A request that arrives while a
    transition is InProgress is dropped: the object and the calls in flight
    are unchanged, only a warning is written.  (b) At every moment at most
    one call is in flight and the guard is set exactly while it is.
    (c) Whatever raises inside the try block, three settled awaits end the
    call in flight with the guard back to Idle; the one other outcome is a
    call suspended for good with the guard still set, and (d) that happens
    only when the timer callback of fadeIn raises.  (e) Once no call is in
    flight, every error a step raised has been reported afterwards by the
    catch block.  (f) A call suspended for good stays so: whatever is
    requested or settles afterwards, the guard stays InProgress and
    currentScene never changes again. *)
Theorem single_transition_guard env :
  (forall m targetYear,
      InProgress m ->
      request env targetYear m =
      {| state := state m;
         trace := trace m ++
                  [ConsoleWarn "[SceneManager] Transition already in progress"];
         pending := pending m |}) /\
  (forall evs,
      let m := run env boot evs in
      (Idle m /\ pending m = []) \/ (InProgress m /\ exists k, pending m = [k])) /\
  (forall evs,
      let m := run env (run env boot evs) [Settle; Settle; Settle] in
      (Idle m /\ pending m = []) \/
      (InProgress m /\ exists t err, pending m = [AwaitForever t err])) /\
  (~ timer_raises env ->
   forall evs,
      let m := run env (run env boot evs) [Settle; Settle; Settle] in
      Idle m /\ pending m = []) /\
  (forall evs t1 err t2,
      let m := run env boot evs in
      pending m = [] ->
      trace m = t1 ++ Exception err :: t2 ->
      ConsoleError transition_error err ∈ t2) /\
  (forall evs t err later,
      let m := run env boot evs in
      pending m = [AwaitForever t err] ->
      let m' := run env m later in
      InProgress m' /\ state m' = state m /\ pending m' = pending m).
Proof.
  assert (Hthree : forall evs,
      let m := run env (run env boot evs) [Settle; Settle; Settle] in
      guard_consistent m /\
      ((pending m = [] /\ Idle m) \/
       (InProgress m /\ exists t err, pending m = [AwaitForever t err]))).
  { intros evs m.
    pose proof (run_guard_consistent env boot evs boot_guard_consistent) as H0.
    set (m0 := run env boot evs) in *.
    pose proof (resume_consistent env _ H0) as H1.
    pose proof (resume_consistent env _ H1) as H2.
    pose proof (resume_consistent env _ H2) as H3.
    pose proof (consistent_bound _ H0).
    pose proof (resume_progress env _ H0).
    pose proof (resume_progress env _ H1).
    pose proof (resume_progress env _ H2).
    change m with (resume env (resume env (resume env m0))).
    split; [exact H3|]. apply consistent_drained; [exact H3 | lia]. }
  split; [|split; [|split; [|split; [|split]]]].
  - intros [s tr ps] targetYear G. unfold InProgress in G. cbn [state] in G.
    unfold request. cbn [state trace pending].
    now rewrite (switchScene_entry_busy env targetYear s tr G).
  - intros evs m. pose proof (run_guard_consistent env boot evs boot_guard_consistent) as H.
    fold m in H. unfold guard_consistent, Idle, InProgress in *.
    destruct (pending m) as [|k [|k' rest]]; [left; tauto | right | tauto].
    split; [tauto | now exists k].
  - intros evs m. destruct (Hthree evs) as [_ H]. fold m in H. tauto.
  - intros Hn evs m. destruct (Hthree evs) as [Hc [H|[_ (t & err & Hp)]]];
      fold m in Hc, H || fold m in Hc, Hp; [tauto|]. exfalso.
    assert (Hs : Forall (fun k => stuck k = false) (pending m)).
    { unfold m. apply run_not_stuck; [exact Hn | |].
      - apply run_guard_consistent, boot_guard_consistent.
      - apply run_not_stuck; [exact Hn | apply boot_guard_consistent | constructor]. }
    rewrite Hp in Hs. apply (proj1 (Forall_singleton _ _)) in Hs. discriminate.
  - intros evs t1 err t2 m Hp Ht.
    pose proof (run_guard_consistent env boot evs boot_guard_consistent) as H. fold m in H.
    unfold guard_consistent in H. rewrite Hp in H. destruct H as [_ H].
    rewrite Ht in H. now apply outstanding_reported in H.
  - intros evs t err later m Hp m'.
    pose proof (run_guard_consistent env boot evs boot_guard_consistent) as H. fold m in H.
    unfold guard_consistent in H. rewrite Hp in H. destruct H as [G _].
    destruct (run_stuck env later m t err G Hp) as [Es Ep]. fold m' in Es, Ep.
    split; [|split; [exact Es | exact Ep]]. unfold InProgress. now rewrite Es.
Qed.

(** C2.  The guard does get stuck.  On a page where hiding the fade
    overlay raises, a transition from 2000 to 2020 commits the new scene and
    passes its first two awaits; the timer callback of fadeIn then raises
    outside the try block, so the error is never logged by the catch block,
    the finally block never runs, and the guard stays InProgress: every
    later request is dropped. *)
Lemma guard_stuck_when_fadeIn_timer_raises :
  let m := run overlay_env boot [Request "2020"; Settle; Settle; Settle] in
  InProgress m /\
  currentScene (state m) = "2020" /\
  pending m = [AwaitForever "2020" "TypeError"] /\
  (Exception "TypeError" ∈ trace m) /\
  (ConsoleError transition_error "TypeError" ∉ trace m) /\
  forall later,
    let m' := run overlay_env m later in
    InProgress m' /\ currentScene (state m') = "2020" /\
    (ConsoleError transition_error "TypeError" ∉ trace m').
Proof.
  intros m.
  assert (Em : m = {| state := {| currentScene := "2020"; isTransitioning := true |};
                      trace := trace m;
                      pending := [AwaitForever "2020" "TypeError"] |})
    by (vm_compute; reflexivity).
  assert (Hin : Exception "TypeError" ∈ trace m).
  { apply (bool_decide_unpack _). vm_compute. reflexivity. }
  assert (Hout : ConsoleError transition_error "TypeError" ∉ trace m).
  { apply (bool_decide_unpack _). vm_compute. reflexivity. }
  split; [now rewrite Em|]. split; [now rewrite Em|]. split; [now rewrite Em|].
  split; [exact Hin|]. split; [exact Hout|].
  intros later m'.
  assert (G : InProgress m) by now rewrite Em.
  assert (Hp : pending m = [AwaitForever "2020" "TypeError"]) by now rewrite Em.
  destruct (run_stuck overlay_env later m _ _ G Hp) as [Es Ep]. fold m' in Es, Ep.
  split; [unfold InProgress; now rewrite Es|]. split; [rewrite Es; now rewrite Em|].
  unfold m'. clear m' Es Ep. revert Hout G Hp. generalize m. clear.
  induction later as [|ev later IH]; intros m Hout G Hp; [exact Hout|].
  cbn [run fold_left]. fold (run overlay_env (step overlay_env m ev) later).
  destruct (step_stuck overlay_env m ev _ _ G Hp) as [Es Ep].
  apply IH; [| unfold InProgress; now rewrite Es | now rewrite Ep].
  destruct m as [s tr ps]. unfold InProgress in G. cbn [state pending trace] in *.
  subst ps. destruct ev as [targetYear|]; cbn [step].
  - unfold request. cbn [state trace pending].
    rewrite (switchScene_entry_busy overlay_env targetYear s tr G). cbn [trace].
    rewrite elem_of_app, list_elem_of_singleton. intros [H|H]; [tauto | discriminate].
  - exact Hout.
Qed.

(* ------------------------------------------------------------------- *)
(*  The model at work                                                  *)
(* ------------------------------------------------------------------- *)

Example transition_2000_2020 :
  run demo_env boot [Request "2020"; Settle; Settle; Settle] =
  {| state := {| currentScene := "2020"; isTransitioning := false |};
     trace :=
       [ConsoleLog "[SceneManager] Transitioning: 2000 → 2020";
        SetVisible "fade-overlay" true; SetMaterialOpacity "fade-overlay" 0;
        SetAnimation "fade-overlay" 1 1000; SetTimeout 1000;
        StopSceneAudio "2000"; SetVisible "scene-2000" false;
        ConsoleLog "[SceneManager] Hidden scene: 2000";
        SetCurrentScene "2020"; SetVisible "scene-2020" true;
        ConsoleLog "[SceneManager] Showing scene: 2020";
        UpdateSceneInfo "2020"; StartSubtitles "2020"; PlayTransition;
        SetTimeout 300; SetAnimation "fade-overlay" 0 1000;
        SetTimeout 1000; SetVisible "fade-overlay" false;
        PlaySceneAudio "2020"; UpdateWaterLevel "2020";
        ConsoleLog "[SceneManager] Transition complete: 2020"];
     pending := [] |}.
Proof. vm_compute. reflexivity. Qed.

(** A step that raises before the commit: the scene stays, the error is
    logged, the guard is cleared. *)
Example transition_raising :
  run failing_env boot [Request "2020"; Settle] =
  {| state := {| currentScene := "2000"; isTransitioning := false |};
     trace :=
       [ConsoleLog "[SceneManager] Transitioning: 2000 → 2020";
        SetVisible "fade-overlay" true; SetMaterialOpacity "fade-overlay" 0;
        SetAnimation "fade-overlay" 1 1000; SetTimeout 1000;
        StopSceneAudio "2000"; SetVisible "scene-2000" false;
        Exception "TypeError";
        ConsoleError "[SceneManager] Transition error:" "TypeError"];
     pending := [] |}.
Proof. vm_compute. reflexivity. Qed.

(** A second request in the middle of a transition only warns. *)
Example request_during_transition :
  let m := run demo_env boot [Request "2020"; Settle; Request "2050"] in
  state m = {| currentScene := "2020"; isTransitioning := true |} /\
  pending m = [AwaitDelay "2020" Resolves] /\
  last (trace m) = Some (ConsoleWarn "[SceneManager] Transition already in progress").
Proof. vm_compute. repeat split. Qed.

Lemma demo_env_quiet : quiet demo_env.
Proof. intros e. reflexivity. Qed.

Lemma switchScene_specified_order_witness :
  quiet demo_env /\
  is_Some (scenes demo_env !! "2020") /\
  "2000" <> "2020" /\
  let after n := run demo_env (idle_at "2000" []) (Request "2020" :: repeat Settle n) in
  (exists new, trace (after 3) = [] ++ new /\
               side_effects new = specified_order demo_env "2000" "2020") /\
  pending (after 3) = [] /\
  currentScene (state (after 3)) = "2020" /\
  Idle (after 3) /\
  (forall n, n < 3 -> pending (after n) <> [] /\ InProgress (after n)).
Proof.
  split; [exact demo_env_quiet|].
  split; [vm_compute; eauto|].
  split; [discriminate|].
  apply (switchScene_specified_order demo_env "2000" "2020" []);
    [exact demo_env_quiet | vm_compute; eauto | discriminate].
Defined.

Lemma overlay_env_timer_raises : timer_raises overlay_env.
Proof. exists "fade-overlay", "TypeError". split; reflexivity. Qed.

Lemma demo_env_timer_completes : ~ timer_raises demo_env.
Proof. intros (ov & err & _ & H). discriminate. Qed.
End SceneManagerProofs.

Module AudioControllerProofs.
Import AudioController.

Lemma ticks_snoc id k w :
  ticks (repeat id (S k)) w = tick id (ticks (repeat id k) w).
Proof.
  unfold ticks. change (repeat id (S k)) with (id :: repeat id k).
  now rewrite repeat_cons, fold_left_app.
Qed.

Lemma tick_dead id w : intervals w !! id = None -> tick id w = w.
Proof. intros H. unfold tick. now rewrite H. Qed.

Lemma ticks_dead id n w :
  intervals w !! id = None -> ticks (repeat id n) w = w.
Proof.
  intros H. induction n as [|n IH]; [reflexivity|].
  rewrite ticks_snoc, IH. now apply tick_dead.
Qed.

Lemma get_set_volume el v w : get_volume el (set_volume el v w) = v.
Proof. unfold get_volume, set_volume, update_element. simpl. now rewrite String.eqb_refl. Qed.

Lemma get_volume_invoke el cb w : get_volume el (invoke cb w) = get_volume el w.
Proof.
  destruct cb as [[a]|]; [|reflexivity].
  unfold get_volume, invoke, pause_and_rewind, update_element. simpl.
  now destruct (String.eqb el a).
Qed.

(** One tick of a fade-out. *)
Lemma tick_fadeOut w id p el start step cur cb :
  intervals w !! id =
    Some {| period := p; closure := FadeOutTimer el start step cur cb |} ->
  let v := Qmax (start - step * Qnat (S cur)) 0 in
  let w' := tick id w in
  (forall j, j <> id -> intervals w' !! j = intervals w !! j) /\
  nextTimer w' = nextTimer w /\
  if (steps <=? S cur) || Qle_bool v 0 then
    intervals w' !! id = None /\ get_volume el w' = 0%Q /\
    fired w' = fired w ++ match cb with Some c => [Fired c] | None => [] end
  else
    intervals w' !! id =
      Some {| period := p; closure := FadeOutTimer el start step (S cur) cb |} /\
    get_volume el w' = v /\ fired w' = fired w.
Proof.
  intros H v w'. subst w'. unfold tick. rewrite H. cbn [closure].
  rewrite get_set_volume. fold v.
  destruct ((steps <=? S cur) || Qle_bool v 0).
  - split; [|split; [|split; [|split]]].
    + intros j Hj. destruct cb as [[a]|]; simpl;
        now rewrite lookup_delete_ne, lookup_alter_ne by congruence.
    + now destruct cb as [[a]|].
    + destruct cb as [[a]|]; simpl; apply lookup_delete_eq.
    + now rewrite get_volume_invoke, get_set_volume.
    + now destruct cb as [[a]|]; simpl; rewrite ?app_nil_r.
  - split; [|split; [|split; [|split]]].
    + intros j Hj. simpl. now rewrite lookup_alter_ne by congruence.
    + reflexivity.
    + simpl. rewrite lookup_alter_eq, H. reflexivity.
    + apply get_set_volume.
    + reflexivity.
Qed.

(** One tick of a fade-in. *)
Lemma tick_fadeIn w id p el target step cur :
  intervals w !! id =
    Some {| period := p; closure := FadeInTimer el target step cur |} ->
  let w' := tick id w in
  (forall j, j <> id -> intervals w' !! j = intervals w !! j) /\
  nextTimer w' = nextTimer w /\
  fired w' = fired w /\
  if steps <=? S cur then
    intervals w' !! id = None /\ get_volume el w' = target
  else
    intervals w' !! id =
      Some {| period := p; closure := FadeInTimer el target step (S cur) |} /\
    get_volume el w' = Qmin (step * Qnat (S cur)) target.
Proof.
  intros H w'. subst w'. unfold tick. rewrite H. cbn [closure].
  destruct (steps <=? S cur).
  - split; [|split; [|split; [|split]]]; try reflexivity.
    + intros j Hj. simpl. now rewrite lookup_delete_ne, lookup_alter_ne by congruence.
    + simpl. apply lookup_delete_eq.
    + apply get_set_volume.
  - split; [|split; [|split; [|split]]]; try reflexivity.
    + intros j Hj. simpl. now rewrite lookup_alter_ne by congruence.
    + simpl. rewrite lookup_alter_eq, H. reflexivity.
    + apply get_set_volume.
Qed.
Lemma Qnat_S k : (Qnat (S k) == Qnat k + 1)%Q.
Proof. unfold Qnat. rewrite Nat2Z.inj_succ, <- Z.add_1_r, inject_Z_plus. reflexivity. Qed.

Lemma Qnat_nonneg k : (0 <= Qnat k)%Q.
Proof. unfold Qnat. change 0%Q with (inject_Z 0). rewrite <- Zle_Qle. lia. Qed.

Lemma Qnat_le j k : j <= k -> (Qnat j <= Qnat k)%Q.
Proof. intros H. unfold Qnat. rewrite <- Zle_Qle. lia. Qed.

Lemma Qnat_steps : (Qnat steps == 20)%Q.
Proof. reflexivity. Qed.

Lemma step_nonneg v : (0 <= v)%Q -> (0 <= v / Qnat steps)%Q.
Proof. intros H. rewrite Qnat_steps. apply Qle_shift_div_l; lra. Qed.

(** Below the last step a ramp has not reached its end. *)
Lemma ramp_short v k :
  (0 < v)%Q -> k < steps -> (v / Qnat steps * Qnat k < v)%Q.
Proof.
  intros Hv Hk. pose proof (Qnat_le k 19 ltac:(unfold steps in Hk; lia)) as H19.
  pose proof (Qnat_nonneg k) as H0.
  change (Qnat 19) with 19%Q in H19.
  rewrite Qnat_steps. unfold Qdiv.
  assert (E : (v * / 20 * Qnat k == v * (Qnat k / 20))%Q) by (field).
  rewrite E.
  assert (Qnat k / 20 < 1)%Q by (apply Qlt_shift_div_r; lra).
  nra.
Qed.

Lemma ramp_step s k : (0 <= s)%Q -> (s * Qnat k <= s * Qnat (S k))%Q.
Proof.
  intros Hs. rewrite Qnat_S. pose proof (Qnat_nonneg k). nra.
Qed.

Section FadeOut.
Variables (id : nat) (p : Q) (el : string) (start : Q) (cb : option Callback).
Variable w0 : World.
Hypothesis Hlive : intervals w0 !! id =
  Some {| period := p;
          closure := FadeOutTimer el start (start / Qnat steps) 0 cb |}.
Hypothesis Hvol : get_volume el w0 = start.
Hypothesis Hpos : (0 <= start)%Q.

Local Abbreviation after k := (ticks (repeat id k) w0).
Local Abbreviation fadeOut_stands := (fadeOut_stands id p el start cb w0).

Lemma fadeOut_stands_0 : fadeOut_stands 0.
Proof.
  left. cbn [repeat ticks fold_left].
  split; [exact Hlive|]. split; [unfold steps; lia|].
  split; [|auto]. rewrite Hvol.
  change (Qnat 0) with 0%Q. rewrite Qmult_0_r.
  rewrite Q.max_l; lra.
Qed.

Lemma fadeOut_stands_S k :
  fadeOut_stands k ->
  fadeOut_stands (S k) /\
  (get_volume el (after (S k)) <= get_volume el (after k))%Q.
Proof.
  intros [(Hl & Hk & Hv & Hf & Hs) | (Hd & Hv & Hf & Hk & Hs)].
  - pose proof (tick_fadeOut (after k) id p el start (start / Qnat steps) k cb Hl)
      as (_ & _ & Ht).
    cbv zeta in Ht. rewrite <- ticks_snoc in Ht.
    pose proof (step_nonneg start Hpos) as Hstep.
    pose proof (ramp_step _ k Hstep) as Hramp.
    destruct ((steps <=? S k)
              || Qle_bool (Qmax (start - start / Qnat steps * Qnat (S k)) 0) 0)
      eqn:Hend.
    + destruct Ht as (Hd' & Hv' & Hf'). split.
      * right. split; [exact Hd'|]. split; [exact Hv'|].
        split; [now rewrite Hf', Hf|]. split; [lia|].
        intros Hs0. apply orb_true_iff in Hend. destruct Hend as [He|He].
        { apply Nat.leb_le in He. exact He. }
        apply Qle_bool_iff in He.
        destruct (le_lt_dec steps (S k)) as [|Hlt]; [assumption|].
        pose proof (ramp_short start (S k) Hs0 Hlt).
        pose proof (Q.le_max_l (start - start / Qnat steps * Qnat (S k)) 0).
        lra.
      * rewrite Hv', Hv. apply Q.le_max_r.
    + destruct Ht as (Hl' & Hv' & Hf'). apply orb_false_iff in Hend.
      destruct Hend as [He Hq]. apply Nat.leb_gt in He. split.
      * left. split; [exact Hl'|]. split; [exact He|].
        split; [now rewrite Hv'|]. split; [now rewrite Hf'|].
        right.
        assert (Hnq : ~ (Qmax (start - start / Qnat steps * Qnat (S k)) 0 <= 0)%Q).
        { intros Hc. apply Qle_bool_iff in Hc. congruence. }
        apply Qnot_le_lt in Hnq.
        destruct (Q.max_spec (start - start / Qnat steps * Qnat (S k)) 0)
          as [[_ E]|[_ E]]; rewrite E in Hnq; [lra|].
        pose proof (Qnat_nonneg (S k)). nra.
      * rewrite Hv', Hv. apply Q.max_le_compat_r. lra.
  - assert (E : after (S k) = after k).
    { rewrite ticks_snoc. now apply tick_dead. }
    rewrite E. split; [|lra].
    right. rewrite E. split; [exact Hd|]. split; [exact Hv|].
    split; [exact Hf|]. split; [lia|]. intros H. specialize (Hs H). lia.
Qed.

Lemma fadeOut_stands_all k : fadeOut_stands k.
Proof.
  induction k as [|k IH]; [apply fadeOut_stands_0 | now apply fadeOut_stands_S].
Qed.
End FadeOut.
Section FadeIn.
Variables (id : nat) (p : Q) (el : string) (target : Q).
Variable w0 : World.
Hypothesis Hlive : intervals w0 !! id =
  Some {| period := p;
          closure := FadeInTimer el target (target / Qnat steps) 0 |}.
Hypothesis Hvol : get_volume el w0 = 0%Q.
Hypothesis Hpos : (0 <= target)%Q.

Local Abbreviation after k := (ticks (repeat id k) w0).
Local Abbreviation fadeIn_stands := (fadeIn_stands id p el target w0).

Lemma fadeIn_stands_0 : fadeIn_stands 0.
Proof.
  split; [reflexivity|]. left. cbn [repeat ticks fold_left].
  split; [exact Hlive|]. split; [unfold steps; lia|].
  rewrite Hvol. change (Qnat 0) with 0%Q. rewrite Qmult_0_r.
  rewrite Q.min_l; lra.
Qed.

Lemma fadeIn_stands_S k :
  fadeIn_stands k ->
  fadeIn_stands (S k) /\
  (get_volume el (after k) <= get_volume el (after (S k)))%Q.
Proof.
  intros [Hf [(Hl & Hk & Hv) | (Hd & Hv & Hk)]].
  - pose proof (tick_fadeIn (after k) id p el target (target / Qnat steps) k Hl)
      as (_ & _ & Hf' & Ht).
    cbv zeta in Ht, Hf'. rewrite <- ticks_snoc in Ht, Hf'.
    pose proof (step_nonneg target Hpos) as Hstep.
    pose proof (ramp_step _ k Hstep) as Hramp.
    destruct (steps <=? S k) eqn:He.
    + apply Nat.leb_le in He. destruct Ht as (Hd' & Hv'). split.
      * split; [congruence|]. right. auto.
      * rewrite Hv', Hv. apply Q.le_min_r.
    + apply Nat.leb_gt in He. destruct Ht as (Hl' & Hv'). split.
      * split; [congruence|]. left. split; [exact Hl'|]. split; [exact He|].
        now rewrite Hv'.
      * rewrite Hv', Hv. now apply Q.min_le_compat_r.
  - assert (E : after (S k) = after k).
    { rewrite ticks_snoc. now apply tick_dead. }
    rewrite E. split; [|lra].
    split; [now rewrite E|]. right. rewrite E.
    split; [exact Hd|]. split; [exact Hv|]. lia.
Qed.

Lemma fadeIn_stands_all k : fadeIn_stands k.
Proof.
  induction k as [|k IH]; [apply fadeIn_stands_0 | now apply fadeIn_stands_S].
Qed.
End FadeIn.

Lemma volume_sequence_lookup id el n w i v :
  volume_sequence id el n w !! i = Some v ->
  i <= n /\ v = get_volume el (ticks (repeat id i) w).
Proof.
  unfold volume_sequence. rewrite list_lookup_fmap.
  destruct (seq 0 (S n) !! i) as [k|] eqn:E; [|discriminate].
  apply lookup_seq in E. destruct E as [-> E]. simpl. intros [= <-].
  split; [lia | reflexivity].
Qed.

Lemma times_fired_snoc cb w w' :
  fired w' = fired w ++ [Fired cb] -> times_fired cb w' = S (times_fired cb w).
Proof.
  intros H. unfold times_fired. rewrite H, List.filter_app, length_app.
  destruct cb as [a]. simpl. rewrite String.eqb_refl. simpl. lia.
Qed.

Lemma alive_None id w : intervals w !! id = None -> alive id w = false.
Proof.
  intros H. unfold alive. apply bool_decide_eq_false. rewrite H.
  intros [x Hx]. discriminate.
Qed.

Lemma alive_Some id w iv : intervals w !! id = Some iv -> alive id w = true.
Proof. intros H. unfold alive. apply bool_decide_eq_true. rewrite H. eauto. Qed.

(** C5.  A fade left to run on its own.  Fade-out: the volume never
    rises from one tick to the next, after its 20 steps the fade has ended
    with the volume exactly 0, and the completion callback has then been
    invoked once, is never invoked again, and at no moment has been
    invoked more than once.  Fade-in: the volume never falls, the fade ends
    at its 20th step with the volume exactly the master volume. *)
Theorem fades_reach_target_monotonically w el cb :
  (0 <= get_volume el w)%Q ->
  (0 <= masterVolume w)%Q ->
  let id := nextTimer w in
  (let w0 := fadeOut (Some el) (Some cb) w in
   let w' := ticks (repeat id steps) w0 in
   non_increasing (volume_sequence id el steps w0) /\
   get_volume el w' = 0%Q /\
   alive id w' = false /\
   (forall n, times_fired cb (ticks (repeat id n) w') = S (times_fired cb w)) /\
   (forall k, times_fired cb (ticks (repeat id k) w0) <= S (times_fired cb w)))
  /\
  (let w0 := fadeIn (Some el) w in
   let w' := ticks (repeat id steps) w0 in
   non_decreasing (volume_sequence id el steps w0) /\
   get_volume el w' = masterVolume w /\
   alive id w' = false /\
   (forall k, k < steps -> alive id (ticks (repeat id k) w0) = true)).
Proof.
  intros Hv Hm id. split.
  - intros w0 w'. subst w'.
    assert (Hlive : intervals w0 !! id =
              Some {| period := (CONFIG_audio_fadeOutTime / Qnat steps)%Q;
                      closure := FadeOutTimer el (get_volume el w)
                                   (get_volume el w / Qnat steps) 0 (Some cb) |}).
    { subst w0 id. unfold fadeOut, setInterval. cbn [intervals].
      apply lookup_insert_eq. }
    assert (Hvol : get_volume el w0 = get_volume el w) by reflexivity.
    assert (Hfired : fired w0 = fired w) by reflexivity.
    pose proof (fadeOut_stands_all id _ el _ (Some cb) w0 Hlive Hvol Hv) as Hall.
    pose proof (fadeOut_stands_S id (CONFIG_audio_fadeOutTime / Qnat steps)%Q
                  el _ (Some cb) w0 Hv) as Hstep.
    split; [|split; [|split; [|split]]].
    + intros i v v' Hi Hi'.
      apply volume_sequence_lookup in Hi, Hi'. destruct Hi as [_ ->], Hi' as [_ ->].
      now apply Hstep.
    + destruct (Hall steps) as [(_ & Hk & _) | (_ & H0 & _)]; [lia | exact H0].
    + destruct (Hall steps) as [(_ & Hk & _) | (Hd & _)]; [lia | now apply alive_None].
    + intros n.
      destruct (Hall steps) as [(_ & Hk & _) | (Hd & _ & Hf & _)]; [lia|].
      rewrite Hfired in Hf.
      rewrite (ticks_dead id n _ Hd). now apply times_fired_snoc.
    + intros k.
      destruct (Hall k) as [(_ & _ & _ & Hf & _) | (_ & _ & Hf & _)].
      * unfold times_fired. rewrite Hf, Hfired. lia.
      * rewrite Hfired in Hf. rewrite (times_fired_snoc _ _ _ Hf). lia.
  - intros w0 w'. subst w'.
    assert (Hlive : intervals w0 !! id =
              Some {| period := (CONFIG_audio_fadeInTime / Qnat steps)%Q;
                      closure := FadeInTimer el (masterVolume w)
                                   (masterVolume w / Qnat steps) 0 |}).
    { subst w0 id. unfold fadeIn, setInterval. cbn [intervals].
      apply lookup_insert_eq. }
    assert (Hvol : get_volume el w0 = 0%Q).
    { subst w0. unfold fadeIn, setInterval, get_volume. cbn [elements].
      apply get_set_volume. }
    pose proof (fadeIn_stands_all id _ el _ w0 Hlive Hvol Hm) as Hall.
    pose proof (fadeIn_stands_S id (CONFIG_audio_fadeInTime / Qnat steps)%Q
                  el _ w0 Hm) as Hstep.
    split; [|split; [|split]].
    + intros i v v' Hi Hi'.
      apply volume_sequence_lookup in Hi, Hi'. destruct Hi as [_ ->], Hi' as [_ ->].
      now apply Hstep.
    + destruct (Hall steps) as [_ [(_ & Hk & _) | (_ & H0 & _)]]; [lia | exact H0].
    + destruct (Hall steps) as [_ [(_ & Hk & _) | (Hd & _)]];
        [lia | now apply alive_None].
    + intros k Hk.
      destruct (Hall k) as [_ [(Hl & _) | (_ & _ & Hs)]];
        [now apply alive_Some in Hl | lia].
Qed.

(** [setMasterVolume] keeps the master volume inside [0, 1]; CONFIG starts
    it at 0.7. *)
Lemma setMasterVolume_range v w :
  (0 <= masterVolume (setMasterVolume v w) <= 1)%Q.
Proof.
  unfold setMasterVolume. cbn [masterVolume]. split.
  - apply Q.le_max_l.
  - apply Q.max_lub; [lra | apply Q.le_min_l].
Qed.

(* ------------------------------------------------------------------- *)
(*  Two fades on one channel                                           *)
(* ------------------------------------------------------------------- *)

(** A tick leaves the other intervals as they are. *)
Lemma tick_other j id w : j <> id -> intervals (tick j w) !! id = intervals w !! id.
Proof.
  intros Hne. destruct (intervals w !! j) as [[p f]|] eqn:Hj.
  - destruct f as [el t s c | el st s c cb].
    + now apply (tick_fadeIn w j p el t s c Hj).
    + now apply (tick_fadeOut w j p el st s c cb Hj).
  - now rewrite tick_dead.
Qed.

(** Its own tick ends an interval or moves it one step on, short of the
    last step. *)
Lemma tick_own id w iv :
  intervals w !! id = Some iv ->
  intervals (tick id w) !! id = None \/
  exists iv', intervals (tick id w) !! id = Some iv' /\
              currentStep_of (closure iv') = S (currentStep_of (closure iv)) /\
              S (currentStep_of (closure iv)) < steps.
Proof.
  destruct iv as [p [el t s c | el st s c cb]]; intros H.
  - pose proof (tick_fadeIn w id p el t s c H) as (_ & _ & _ & Ht). cbv zeta in Ht.
    destruct (steps <=? S c) eqn:He; [left; tauto|].
    apply Nat.leb_gt in He. right. eexists. split; [apply Ht|]. auto.
  - pose proof (tick_fadeOut w id p el st s c cb H) as (_ & _ & Ht). cbv zeta in Ht.
    destruct ((steps <=? S c) || _) eqn:He; [left; tauto|].
    apply orb_false_iff in He. destruct He as [He _].
    apply Nat.leb_gt in He. right. eexists. split; [apply Ht|]. auto.
Qed.

Lemma ticks_cons j ids w : ticks (j :: ids) w = ticks ids (tick j w).
Proof. reflexivity. Qed.

Lemma ticks_keep_dead ids : forall w id,
  intervals w !! id = None -> intervals (ticks ids w) !! id = None.
Proof.
  induction ids as [|j ids IH]; intros w id H; [exact H|].
  rewrite ticks_cons. apply IH.
  destruct (decide (j = id)) as [->|Hne]; [now rewrite tick_dead|].
  now rewrite tick_other.
Qed.

(** However the ticks of several intervals interleave, an interval is
    ended by its own 20th tick at the latest. *)
Lemma ticks_count ids : forall w id iv,
  intervals w !! id = Some iv ->
  intervals (ticks ids w) !! id = None \/
  exists iv', intervals (ticks ids w) !! id = Some iv' /\
              currentStep_of (closure iv') =
                currentStep_of (closure iv) + count_occ Nat.eq_dec ids id /\
              (count_occ Nat.eq_dec ids id = 0 \/
               currentStep_of (closure iv) + count_occ Nat.eq_dec ids id < steps).
Proof.
  induction ids as [|j ids IH]; intros w id iv H.
  - right. exists iv. simpl. split; [exact H|]. split; [lia | now left].
  - rewrite ticks_cons. cbn [count_occ].
    destruct (Nat.eq_dec j id) as [->|Hne].
    + destruct (tick_own id w iv H) as [Hd | (iv' & Hl & Hc & Hlt)].
      * left. now apply ticks_keep_dead.
      * destruct (IH (tick id w) id iv' Hl) as [Hd | (iv'' & Hl' & Hc' & Hlt')];
          [now left|].
        right. exists iv''. split; [exact Hl'|]. split; [lia|].
        right. destruct Hlt' as [E|Hlt']; lia.
    + apply IH. now rewrite tick_other.
Qed.

Lemma fade_adds_timer c el w :
  exists f, intervals (fade c el w) = <[nextTimer w := f]> (intervals w) /\
            channel (closure f) = el /\
            nextTimer (fade c el w) = S (nextTimer w).
Proof. destruct c; eexists; split; reflexivity || (split; reflexivity). Qed.

(** C4, as the code has it.  A fade call cancels nothing: it leaves every
    interval that is alive alive and adds one of its own, so after two
    fade calls in a row on one channel two intervals are ramping that
    channel.  Each of the two is ended by its own step count, at its own
    20th tick at the latest, however their ticks interleave. *)
Theorem fade_calls_add_timers w el first second :
  fresh_ids w ->
  let w2 := fade second el (fade first el w) in
  let i := nextTimer w in
  let j := S (nextTimer w) in
  (exists f g, intervals w2 !! i = Some f /\ intervals w2 !! j = Some g /\
               channel (closure f) = el /\ channel (closure g) = el) /\
  (forall id iv, intervals w !! id = Some iv -> intervals w2 !! id = Some iv) /\
  (forall ids id,
      id = i \/ id = j ->
      steps <= count_occ Nat.eq_dec ids id ->
      alive id (ticks ids w2) = false).
Proof.
  intros Hfresh w2 i j.
  destruct (fade_adds_timer first el w) as (f & E1 & C1 & N1).
  destruct (fade_adds_timer second el (fade first el w)) as (g & E2 & C2 & N2).
  fold w2 in E2. rewrite N1 in E2. fold j in E2. fold i in E1.
  assert (Hi : intervals w2 !! i = Some f).
  { rewrite E2, lookup_insert_ne by (subst i j; lia).
    rewrite E1. apply lookup_insert_eq. }
  assert (Hj : intervals w2 !! j = Some g).
  { rewrite E2. apply lookup_insert_eq. }
  split; [now exists f, g|]. split.
  - intros id iv H.
    assert (id < nextTimer w).
    { destruct (le_lt_dec (nextTimer w) id) as [Hle|]; [|assumption].
      rewrite (Hfresh id Hle) in H. discriminate. }
    rewrite E2, lookup_insert_ne by (subst j; lia).
    rewrite E1, lookup_insert_ne by (subst i; lia). exact H.
  - intros ids id Hid Hcount.
    assert (exists iv, intervals w2 !! id = Some iv) as [iv Hiv]
      by (destruct Hid as [-> | ->]; eauto).
    destruct (ticks_count ids w2 id iv Hiv) as [Hd | (iv' & _ & _ & Hlt)].
    + now apply alive_None.
    + unfold steps in *. lia.
Qed.

(** C4, as stated, fails: after two fade-in calls in a row on the ambient
    channel two intervals are ramping it. *)
Lemma fade_twice_two_ramps :
  ~ at_most_one_ramp "audio-ambient"
      (fade FadeInCall "audio-ambient" (fade FadeInCall "audio-ambient" demo_world)).
Proof.
  intros H.
  specialize (H 1 2 _ _ eq_refl eq_refl eq_refl eq_refl). discriminate.
Qed.

(* ------------------------------------------------------------------- *)
(*  The model at work                                                  *)
(* ------------------------------------------------------------------- *)

Example fadeOut_from_master_volume :
  volume_sequence 1 "audio-ambient" 20
    (fade (FadeOutCall None) "audio-ambient" demo_world) =
  [7 # 10; 1330 # 2000; 1260 # 2000; 1190 # 2000; 1120 # 2000; 1050 # 2000;
   980 # 2000; 910 # 2000; 840 # 2000; 770 # 2000; 700 # 2000; 630 # 2000;
   560 # 2000; 490 # 2000; 420 # 2000; 350 # 2000; 280 # 2000; 210 # 2000;
   140 # 2000; 70 # 2000; 0]%Q.
Proof. vm_compute. reflexivity. Qed.

Example fadeIn_to_master_volume :
  volume_sequence 1 "audio-ambient" 20
    (fade FadeInCall "audio-ambient" demo_world) =
  [0; 7 # 200; 14 # 200; 21 # 200; 28 # 200; 35 # 200; 42 # 200; 49 # 200;
   56 # 200; 63 # 200; 70 # 200; 77 # 200; 84 # 200; 91 # 200; 98 # 200;
   105 # 200; 112 # 200; 119 # 200; 126 # 200; 133 # 200; 7 # 10]%Q.
Proof. vm_compute. reflexivity. Qed.

(** Two fade-ins on one channel, the second started five steps into the
    first: the two intervals take turns, and the volume jumps between
    their two ramps. *)
Example two_ramps_take_turns :
  let w := fade FadeInCall "audio-ambient"
             (ticks (repeat 1 5) (fade FadeInCall "audio-ambient" demo_world)) in
  map (fun ids => get_volume "audio-ambient" (ticks ids w))
      [[1]; [1; 2]; [1; 2; 1]; [1; 2; 1; 2]] =
  [42 # 200; 7 # 200; 49 # 200; 14 # 200]%Q.
Proof. vm_compute. reflexivity. Qed.

Lemma demo_world_fresh : fresh_ids demo_world.
Proof. intros id _. apply lookup_empty. Qed.

Lemma fade_calls_add_timers_witness :
  fresh_ids demo_world /\
  let w2 := fade FadeInCall "audio-ambient"
              (fade (FadeOutCall None) "audio-ambient" demo_world) in
  (exists f g, intervals w2 !! 1 = Some f /\ intervals w2 !! 2 = Some g /\
               channel (closure f) = "audio-ambient" /\
               channel (closure g) = "audio-ambient") /\
  (forall id iv, intervals demo_world !! id = Some iv -> intervals w2 !! id = Some iv) /\
  (forall ids id,
      id = 1 \/ id = 2 ->
      steps <= count_occ Nat.eq_dec ids id ->
      alive id (ticks ids w2) = false).
Proof.
  split; [exact demo_world_fresh|].
  apply (fade_calls_add_timers demo_world "audio-ambient" (FadeOutCall None) FadeInCall).
  exact demo_world_fresh.
Defined.

Lemma fades_reach_target_monotonically_witness :
  (0 <= get_volume "audio-ambient" demo_world)%Q /\
  (0 <= masterVolume demo_world)%Q /\
  get_volume "audio-ambient"
    (ticks (repeat 1 steps)
       (fadeOut (Some "audio-ambient") (Some (PauseAndRewind "audio-ambient"))
          demo_world)) = 0%Q /\
  get_volume "audio-ambient"
    (ticks (repeat 1 steps) (fadeIn (Some "audio-ambient") demo_world)) =
  masterVolume demo_world.
Proof.
  assert (H1 : (0 <= get_volume "audio-ambient" demo_world)%Q)
    by (vm_compute; discriminate).
  assert (H2 : (0 <= masterVolume demo_world)%Q) by (vm_compute; discriminate).
  pose proof (fades_reach_target_monotonically demo_world "audio-ambient"
                (PauseAndRewind "audio-ambient") H1 H2) as [Hout Hin].
  split; [exact H1|]. split; [exact H2|].
  split; [apply Hout | apply Hin].
Defined.
End AudioControllerProofs.

Module EarthRotationProofs.
Import EarthRotation.

Lemma clamp_range v : (-90 <= clamp v /\ clamp v <= 90)%Q.
Proof.
  unfold clamp. split.
  - apply Q.le_max_l.
  - apply Q.max_lub; [lra | apply Q.le_min_l].
Qed.

(** Past the upper bound the clamp returns the constant 90 itself. *)
Lemma clamp_top v : (90 < v)%Q -> clamp v = 90%Q.
Proof.
  intros H. unfold clamp, Qmin, Qmax, GenericMinMax.gmin.
  assert (Hc : Qcompare 90 v = Lt) by (now apply Qlt_alt).
  rewrite Hc. reflexivity.
Qed.

Lemma clamp_bottom v : (v < -90)%Q -> (clamp v == -90)%Q.
Proof.
  intros H. unfold clamp. rewrite Q.min_r by lra. rewrite Q.max_l; lra.
Qed.

Lemma clamp_inside v : (-90 <= v <= 90)%Q -> (clamp v == v)%Q.
Proof.
  intros H. unfold clamp. rewrite Q.min_r by lra. rewrite Q.max_r; lra.
Qed.

Lemma handle_in_range s ev : in_range s -> in_range (handle s ev).
Proof.
  intros H. destruct ev as [tag cx cy | cx cy | | ts | ts | ]; cbn [handle].
  - destruct (_ || _); exact H.
  - destruct (isDragging s); [apply clamp_range | exact H].
  - exact H.
  - destruct ts as [|t [|t' ts]]; exact H.
  - destruct (isDragging s); [|exact H].
    destruct ts as [|t [|t' ts]]; [exact H | apply clamp_range | exact H].
  - exact H.
Qed.

Lemma run_in_range evs : forall s, in_range s -> in_range (run s evs).
Proof.
  induction evs as [|ev evs IH]; intros s H; [exact H|].
  apply IH. now apply handle_in_range.
Qed.

Lemma handle_flatten s s' ev :
  yaw_view s = yaw_view s' ->
  yaw_view (handle s ev) = yaw_view (handle s' (flatten ev)).
Proof.
  destruct s as [d [px py] [rx ry] tr], s' as [d' [px' py'] [rx' ry'] tr'].
  unfold yaw_view, yaw. cbn. intros [= -> -> ->].
  destruct ev as [tag cx cy | cx cy | | ts | ts | ]; cbn [handle flatten].
  - destruct (_ || _); reflexivity.
  - destruct d'; reflexivity.
  - reflexivity.
  - destruct ts as [|t [|t' ts]]; reflexivity.
  - destruct d'; [|reflexivity]. destruct ts as [|t [|t' ts]]; reflexivity.
  - reflexivity.
Qed.

Lemma run_flatten evs : forall s s',
  yaw_view s = yaw_view s' ->
  yaw_view (run s evs) = yaw_view (run s' (map flatten evs)).
Proof.
  induction evs as [|ev evs IH]; intros s s' H; [exact H|].
  cbn [map run fold_left]. apply IH. now apply handle_flatten.
Qed.
End EarthRotationProofs.

Module GlobeRotationProofs.
Import GlobeRotation.

Lemma damping_value : (damping == 24 # 25)%Q.
Proof. reflexivity. Qed.

Lemma above_threshold_false v : (2400 * Qabs v <= 24)%Q -> above_threshold v = false.
Proof.
  intros H. unfold above_threshold. apply negb_false_iff, Qle_bool_iff.
  unfold minVelocity. lra.
Qed.

Lemma above_threshold_true v : above_threshold v = true -> (minVelocity < Qabs v)%Q.
Proof.
  unfold above_threshold. intros H. apply negb_true_iff in H.
  apply Qnot_le_lt. intros Hc. apply Qle_bool_iff in Hc. congruence.
Qed.

(** One tick of damping buys one unit of the bound. *)
Lemma damped_bound v n :
  (2400 * Qabs v <= 24 + inject_Z (Z.of_nat (S n)))%Q ->
  (2400 * Qabs (v * damping) <= 24 + inject_Z (Z.of_nat n))%Q.
Proof.
  intros H. rewrite Qabs_Qmult.
  assert (Hd : (Qabs damping == 24 # 25)%Q) by reflexivity.
  rewrite Hd. rewrite Nat2Z.inj_succ, <- Z.add_1_r, inject_Z_plus in H.
  assert (Hn : (0 <= inject_Z (Z.of_nat n))%Q).
  { change 0%Q with (inject_Z 0). rewrite <- Zle_Qle. lia. }
  pose proof (Qabs_nonneg v).
  change (inject_Z 1) with 1%Q in H.
  set (a := Qabs v) in *. set (m := inject_Z (Z.of_nat n)) in *.
  clearbody a m. clear Hd. lra.
Qed.

Lemma inertia_bound_spec v :
  (2400 * Qabs (x v) <= 24 + inject_Z (Z.of_nat (inertia_bound v)))%Q /\
  (2400 * Qabs (y v) <= 24 + inject_Z (Z.of_nat (inertia_bound v)))%Q.
Proof.
  unfold inertia_bound.
  set (m := Qmax (Qabs (x v)) (Qabs (y v))).
  assert (Hm : (0 <= m)%Q).
  { eapply Qle_trans; [apply (Qabs_nonneg (x v)) | apply Q.le_max_l]. }
  pose proof (Q.le_max_l (Qabs (x v)) (Qabs (y v))) as Hx.
  pose proof (Q.le_max_r (Qabs (x v)) (Qabs (y v))) as Hy.
  fold m in Hx, Hy.
  pose proof (Qle_ceiling (2400 * m)) as Hc.
  assert (Hz : (0 <= Qceiling (2400 * m))%Z).
  { rewrite Zle_Qle. change (inject_Z 0) with 0%Q. lra. }
  rewrite Z2Nat.id by exact Hz.
  set (c := inject_Z (Qceiling (2400 * m))) in *.
  clearbody c m. split; lra.
Qed.

Lemma run_pointer_snoc page s evs ev :
  run page s (evs ++ [ev]) = handle page (run page s evs) ev.
Proof. unfold run. now rewrite fold_left_app. Qed.

Lemma run_app page s evs evs' :
  run page s (evs ++ evs') = run page (run page s evs) evs'.
Proof. unfold run. now rewrite fold_left_app. Qed.

Lemma frames_idle page k : forall s,
  frames s = [] -> run page s (repeat Frame k) = s.
Proof.
  induction k as [|k IH]; intros s H; [reflexivity|].
  cbn [repeat run fold_left handle]. unfold run_frame. rewrite H. now apply IH.
Qed.

(** [applyInertia] when it does not move the globe. *)
Lemma applyInertia_rest page s :
  isDragging s = true \/
  (above_threshold (x (velocity s)) = false /\
   above_threshold (y (velocity s)) = false) ->
  globeRotation (applyInertia page s) = globeRotation s /\
  velocity (applyInertia page s) = {| x := 0; y := 0 |} /\
  frames (applyInertia page s) = frames s /\
  isDragging (applyInertia page s) = isDragging s /\
  inertiaAnimationId (applyInertia page s) = inertiaAnimationId s.
Proof.
  intros H. unfold applyInertia.
  destruct H as [-> | [-> ->]]; cbn [negb andb orb]; [tauto|].
  rewrite andb_false_r. tauto.
Qed.

(** [applyInertia] when it does. *)
Lemma applyInertia_active page s :
  isDragging s = false ->
  above_threshold (x (velocity s)) || above_threshold (y (velocity s)) = true ->
  velocity (applyInertia page s) =
    {| x := (x (velocity s) * damping)%Q; y := (y (velocity s) * damping)%Q |} /\
  globeRotation (applyInertia page s) =
    {| x := (x (globeRotation s) + x (velocity s))%Q;
       y := (y (globeRotation s) + y (velocity s))%Q |} /\
  frames (applyInertia page s) = frames s ++ [nextFrame s] /\
  inertiaAnimationId (applyInertia page s) = Some (nextFrame s) /\
  isDragging (applyInertia page s) = false.
Proof.
  intros Hd Ha. unfold applyInertia. rewrite Hd, Ha. cbn [negb andb]. tauto.
Qed.

(** The loop: [applyInertia], then one more call per animation frame. *)
Lemma inertia_halts page n : forall s,
  isDragging s = false ->
  frames s = [] ->
  (2400 * Qabs (x (velocity s)) <= 24 + inject_Z (Z.of_nat n))%Q ->
  (2400 * Qabs (y (velocity s)) <= 24 + inject_Z (Z.of_nat n))%Q ->
  let s' := run page (applyInertia page s) (repeat Frame n) in
  still s' /\ isDragging s' = false.
Proof.
  induction n as [|n IH]; intros s Hd Hf Hx Hy.
  - cbn [repeat run fold_left]. change (inject_Z (Z.of_nat 0)) with 0%Q in Hx, Hy.
    destruct (applyInertia_rest page s) as (_ & Hv & Hf' & Hd' & _).
    { right. split; apply above_threshold_false; lra. }
    unfold still. rewrite Hv, Hf', Hd'. auto.
  - destruct (above_threshold (x (velocity s)) || above_threshold (y (velocity s)))
      eqn:Ha.
    + destruct (applyInertia_active page s Hd Ha) as (Hv & _ & Hf' & _ & Hd').
      cbn [repeat run fold_left handle]. unfold run_frame.
      rewrite Hf', Hf. cbn [app].
      apply (IH (with_frames [] (applyInertia page s)));
        cbn [with_frames isDragging frames velocity]; try assumption; try reflexivity.
      * rewrite Hv. cbn [x]. now apply damped_bound.
      * rewrite Hv. cbn [y]. now apply damped_bound.
    + apply orb_false_iff in Ha.
      destruct (applyInertia_rest page s (or_intror Ha)) as (_ & Hv & Hf' & Hd' & _).
      rewrite frames_idle by congruence.
      unfold still. rewrite Hv, Hf', Hd'. auto.
Qed.

Lemma cancel_own id : cancelAnimationFrame id [id] = [].
Proof. unfold cancelAnimationFrame. cbn. now rewrite Nat.eqb_refl. Qed.

Lemma handle_one_frame page s ev : one_frame s -> one_frame (handle page s ev).
Proof.
  intros [Hf Hd].
  assert (Hs : one_frame s) by (now split).
  assert (Hrel : forall cursor, one_frame (release page cursor s)).
  { intros cursor. unfold release. destruct (isDragging s) eqn:E; [|exact Hs].
    specialize (Hd eq_refl).
    set (s1 := {| globeRotation := globeRotation s; isDragging := false;
                  frames := frames s |}).
    destruct (above_threshold (x (velocity s1)) || above_threshold (y (velocity s1)))
      eqn:Ha.
    - destruct (applyInertia_active page s1 eq_refl Ha) as (_ & _ & Hf' & Hi & Hd').
      split; [|congruence]. right. exists (nextFrame s).
      rewrite Hf', Hi. subst s1. cbn [frames nextFrame]. now rewrite Hd.
    - apply orb_false_iff in Ha.
      destruct (applyInertia_rest page s1 (or_intror Ha)) as (_ & _ & Hf' & Hd' & _).
      split; [left; rewrite Hf'; exact Hd | intros _; rewrite Hf'; exact Hd]. }
  assert (Hstart : forall c now cursor, one_frame (start_drag c now cursor s)).
  { intros c now cursor. unfold start_drag, one_frame. cbn [frames isDragging].
    assert (E : match inertiaAnimationId s with
                | Some id => cancelAnimationFrame id (frames s)
                | None => frames s
                end = []).
    { destruct Hf as [-> | (id & -> & ->)]; [now destruct (inertiaAnimationId s)|].
      apply cancel_own. }
    rewrite E. auto. }
  destruct ev as [onUI cx cy now | cx cy now | | onUI ts now | ts now | | ];
    cbn [handle].
  - destruct onUI; [exact Hs | apply Hstart].
  - destruct (isDragging s) eqn:E; [|exact Hs].
    split; cbn [drag_to frames isDragging inertiaAnimationId]; [exact Hf | apply Hs].
  - apply Hrel.
  - destruct onUI; [exact Hs|]. destruct ts as [|t [|t' ts]];
      [exact Hs | apply Hstart | exact Hs].
  - destruct (isDragging s) eqn:E; [|exact Hs].
    destruct ts as [|t [|t' ts]]; [exact Hs | | exact Hs].
    split; cbn [drag_to frames isDragging inertiaAnimationId]; [exact Hf | apply Hs].
  - apply Hrel.
  - unfold run_frame. destruct (frames s) as [|id rest] eqn:Efs; [exact Hs|].
    assert (Hnd : isDragging s = false).
    { destruct (isDragging s); [specialize (Hd eq_refl); discriminate | reflexivity]. }
    assert (rest = []) as ->.
    { destruct Hf as [Hf | (id' & Hf & _)]; congruence. }
    set (s1 := {| globeRotation := globeRotation s; isDragging := isDragging s;
                  frames := [] |}).
    destruct (above_threshold (x (velocity s1)) || above_threshold (y (velocity s1)))
      eqn:Ha.
    + destruct (applyInertia_active page s1 Hnd Ha) as (_ & _ & Hf' & Hi & Hd').
      split; [|congruence]. right. exists (nextFrame s).
      rewrite Hf', Hi. now subst s1.
    + apply orb_false_iff in Ha.
      destruct (applyInertia_rest page s1 (or_intror Ha)) as (_ & _ & Hf' & Hd' & _).
      split; [left; now rewrite Hf' | intros _; now rewrite Hf'].
Qed.

Lemma setup_one_frame : one_frame setup.
Proof. split; [now left | discriminate]. Qed.

Lemma run_one_frame page evs : forall s, one_frame s -> one_frame (run page s evs).
Proof.
  induction evs as [|ev evs IH]; intros s H; [exact H|].
  apply IH. now apply handle_one_frame.
Qed.

(** While a drag is on, animation frames leave the rotation alone. *)
Lemma frames_during_drag page k : forall s,
  isDragging s = true ->
  globeRotation (run page s (repeat Frame k)) = globeRotation s /\
  isDragging (run page s (repeat Frame k)) = true.
Proof.
  induction k as [|k IH]; intros s Hd; [auto|].
  cbn [repeat run fold_left handle].
  assert (H : globeRotation (run_frame page s) = globeRotation s /\
              isDragging (run_frame page s) = true).
  { unfold run_frame. destruct (frames s) as [|id rest]; [auto|].
    match goal with |- context [applyInertia page ?s1] =>
      destruct (applyInertia_rest page s1 (or_introl Hd)) as (Hr & _ & _ & Hd' & _)
    end.
    rewrite Hr, Hd'. auto. }
  destruct H as [Hr Hd']. destruct (IH _ Hd') as [Hr' Hd''].
  unfold run in *. rewrite Hr', Hr. auto.
Qed.

(** C7.  (a) After a release the inertia loop moves the globe for a
    bounded number of animation frames: [inertia_bound] of the release
    velocity frames later the velocity is zero, no frame is outstanding,
    and nothing changes any more.  (b) Each tick of the loop multiplies
    both velocity components by the damping factor, which is below 1.
    (c) A new drag zeroes the velocity and cancels the outstanding frame,
    and however many frames the host still runs, they leave the rotation
    where the drag found it. *)
Theorem inertia_bounded_and_interruptible page evs :
  let s := run page setup evs in
  (isDragging s = true ->
   let released := handle page s MouseUp in
   let N := inertia_bound (velocity s) in
   still (run page released (repeat Frame N)) /\
   forall k, N <= k ->
             run page released (repeat Frame k) =
             run page released (repeat Frame N)) /\
  (isDragging s = false ->
   above_threshold (x (velocity s)) || above_threshold (y (velocity s)) = true ->
   velocity (applyInertia page s) =
     {| x := (x (velocity s) * damping)%Q; y := (y (velocity s) * damping)%Q |} /\
   (damping < 1)%Q) /\
  (forall cx cy now k,
      let dragging := handle page s (MouseDown false cx cy now) in
      velocity dragging = {| x := 0; y := 0 |} /\
      frames dragging = [] /\
      globeRotation (run page dragging (repeat Frame k)) = globeRotation s).
Proof.
  intros s.
  pose proof (run_one_frame page evs setup setup_one_frame) as Hwf. fold s in Hwf.
  split; [|split].
  - intros Hd released N.
    assert (Hf : frames s = []) by (now apply Hwf).
    destruct (inertia_bound_spec (velocity s)) as [Hx Hy].
    assert (Hhalt : still (run page released (repeat Frame N))).
    { subst released. cbn [handle]. unfold release. rewrite Hd.
      match goal with |- context [applyInertia page ?s1] =>
        apply (inertia_halts page N s1 eq_refl Hf Hx Hy)
      end. }
    split; [exact Hhalt|]. intros k Hk.
    replace k with (N + (k - N)) by lia.
    rewrite repeat_app, run_app. apply frames_idle, Hhalt.
  - intros Hd Ha. split; [now apply applyInertia_active | reflexivity].
  - intros cx cy now k dragging.
    pose proof (handle_one_frame page s (MouseDown false cx cy now) Hwf) as [_ Hf].
    fold dragging in Hf.
    split; [reflexivity|]. split; [now apply Hf|].
    now destruct (frames_during_drag page k dragging eq_refl) as [-> _].
Qed.

(* ------------------------------------------------------------------- *)
(*  The model at work                                                  *)
(* ------------------------------------------------------------------- *)

(** A slow drag of 4 pixels in one second: release velocity 0.02 degrees
    per frame, which the inertia loop uses up in 17 frames. *)
Example slow_release :
  let s := run demo_page setup [MouseDown false 0 0 0; MouseMove 4 0 1000] in
  let released := handle demo_page s MouseUp in
  (y (velocity s) == 2 # 100)%Q /\
  still (run demo_page released (repeat Frame 17)) /\
  frames (run demo_page released (repeat Frame 16)) = [17] /\
  inertia_bound (velocity s) = 48.
Proof.
  vm_compute. split; [reflexivity|]. split; [split; reflexivity|].
  split; reflexivity.
Qed.

Lemma inertia_bounded_and_interruptible_witness :
  let s := run demo_page setup [MouseDown false 0 0 0; MouseMove 4 0 1000] in
  isDragging s = true /\
  still (run demo_page (handle demo_page s MouseUp)
           (repeat Frame (inertia_bound (velocity s)))) /\
  (let t := run demo_page setup [MouseDown false 0 0 0; MouseMove 4 0 1000; MouseUp] in
   isDragging t = false /\
   above_threshold (x (velocity t)) || above_threshold (y (velocity t)) = true /\
   velocity (applyInertia demo_page t) =
     {| x := (x (velocity t) * damping)%Q; y := (y (velocity t) * damping)%Q |}).
Proof.
  pose proof (inertia_bounded_and_interruptible demo_page
                [MouseDown false 0 0 0; MouseMove 4 0 1000]) as (Hrel & _ & _).
  pose proof (inertia_bounded_and_interruptible demo_page
                [MouseDown false 0 0 0; MouseMove 4 0 1000; MouseUp]) as (_ & Hdamp & _).
  split; [reflexivity|]. split; [apply Hrel; reflexivity|].
  split; [reflexivity|]. split; [reflexivity|].
  apply Hdamp; reflexivity.
Defined.
End GlobeRotationProofs.

Module RotationClampProofs.
Import EarthRotationProofs.

(** C6, as the code has it.  With [setupEarthRotation] (the build that
    clamps): after every sequence of pointer events the pitch lies in
    [-90, 90]; a drag by mouse or by touch that would take it past 90
    leaves it at exactly 90; the yaw is the same whatever the vertical
    coordinates of the input were, so the clamp never touches it, and it
    has no bound.  With [setupGlobeRotation] (the build with inertia) there
    is no clamp: a drag by mouse or by touch adds its delta to the pitch
    and to the yaw as it is, and neither the pitch nor the yaw has a
    bound. *)
Theorem pitch_clamp_by_build :
  (forall evs, EarthRotation.in_range (EarthRotation.run EarthRotation.setup evs)) /\
  (forall s cx cy,
      EarthRotation.isDragging s = true ->
      (90 < EarthRotation.pitch s -
            (cy - EarthRotation.y (EarthRotation.previousMousePosition s)) * (1 # 2))%Q ->
      EarthRotation.pitch (EarthRotation.handle s (EarthRotation.MouseMove cx cy))
      = 90%Q) /\
  (forall evs,
      EarthRotation.yaw (EarthRotation.run EarthRotation.setup evs) =
      EarthRotation.yaw (EarthRotation.run EarthRotation.setup
                           (map EarthRotation.flatten evs))) /\
  (forall M : Q,
      let s := EarthRotation.run EarthRotation.setup
                 [EarthRotation.MouseDown "CANVAS" 0 0;
                  EarthRotation.MouseMove (2 * M + 2) (-1000)] in
      (M < EarthRotation.yaw s)%Q /\ EarthRotation.pitch s = 90%Q) /\
  (forall page s cx cy now,
      GlobeRotation.isDragging s = true ->
      GlobeRotation.pitch
        (GlobeRotation.handle page s (GlobeRotation.MouseMove cx cy now)) =
      (GlobeRotation.pitch s +
       - (cy - GlobeRotation.y (GlobeRotation.previousMousePosition s))
       * GlobeRotation.rotationSpeed)%Q) /\
  (forall page (M : Q),
      (M < GlobeRotation.pitch
             (GlobeRotation.run page GlobeRotation.setup
                [GlobeRotation.MouseDown false 0 0 0;
                 GlobeRotation.MouseMove 0 (- (2 * M + 2)) 16]))%Q) /\
  (forall page s cx cy now,
      GlobeRotation.isDragging s = true ->
      GlobeRotation.yaw
        (GlobeRotation.handle page s (GlobeRotation.MouseMove cx cy now)) =
      (GlobeRotation.yaw s +
       (cx - GlobeRotation.x (GlobeRotation.previousMousePosition s))
       * GlobeRotation.rotationSpeed)%Q) /\
  (forall page (M : Q),
      (M < GlobeRotation.yaw
             (GlobeRotation.run page GlobeRotation.setup
                [GlobeRotation.MouseDown false 0 0 0;
                 GlobeRotation.MouseMove (2 * M + 2) 0 16]))%Q) /\
  (forall s t,
      EarthRotation.isDragging s = true ->
      (90 < EarthRotation.pitch s -
            (EarthRotation.y t -
             EarthRotation.y (EarthRotation.previousMousePosition s)) * (1 # 2))%Q ->
      EarthRotation.pitch (EarthRotation.handle s (EarthRotation.TouchMove [t]))
      = 90%Q) /\
  (forall page s t now,
      GlobeRotation.isDragging s = true ->
      let s' := GlobeRotation.handle page s (GlobeRotation.TouchMove [t] now) in
      GlobeRotation.pitch s' =
      (GlobeRotation.pitch s +
       - (GlobeRotation.y t - GlobeRotation.y (GlobeRotation.previousMousePosition s))
       * GlobeRotation.rotationSpeed)%Q /\
      GlobeRotation.yaw s' =
      (GlobeRotation.yaw s +
       (GlobeRotation.x t - GlobeRotation.x (GlobeRotation.previousMousePosition s))
       * GlobeRotation.rotationSpeed)%Q).
Proof.
  split; [|split; [|split; [|split; [|split; [|split; [|split; [|split; [|split]]]]]]]].
  - intros evs. apply run_in_range. split; vm_compute; discriminate.
  - intros s cx cy Hd H. cbn [EarthRotation.handle]. rewrite Hd.
    unfold EarthRotation.pitch, EarthRotation.drag_to.
    cbn [EarthRotation.currentRotation EarthRotation.x EarthRotation.y].
    now apply clamp_top.
  - intros evs.
    pose proof (run_flatten evs EarthRotation.setup EarthRotation.setup eq_refl) as H.
    unfold EarthRotation.yaw_view in H. congruence.
  - intros M s.
    assert (E : s = EarthRotation.drag_to
                      {| EarthRotation.x := 2 * M + 2; EarthRotation.y := -1000 |}
                      (EarthRotation.start_drag
                         {| EarthRotation.x := 0; EarthRotation.y := 0 |}
                         EarthRotation.setup)) by reflexivity.
    rewrite E. unfold EarthRotation.yaw, EarthRotation.pitch, EarthRotation.drag_to,
      EarthRotation.start_drag, EarthRotation.setup.
    cbn [EarthRotation.currentRotation EarthRotation.previousMousePosition
         EarthRotation.x EarthRotation.y].
    split; [lra | apply clamp_top; lra].
  - intros page s cx cy now Hd. cbn [GlobeRotation.handle]. rewrite Hd. reflexivity.
  - intros page M.
    match goal with |- (_ < GlobeRotation.pitch ?t)%Q =>
      assert (E : t = GlobeRotation.drag_to page
                        {| GlobeRotation.x := 0; GlobeRotation.y := - (2 * M + 2) |} 16
                        (GlobeRotation.start_drag
                           {| GlobeRotation.x := 0; GlobeRotation.y := 0 |} 0
                           [GlobeRotation.SetCursor "grabbing"] GlobeRotation.setup))
        by reflexivity;
      rewrite E
    end.
    unfold GlobeRotation.pitch, GlobeRotation.drag_to, GlobeRotation.start_drag,
      GlobeRotation.setup, GlobeRotation.rotationSpeed.
    cbn [GlobeRotation.globeRotation GlobeRotation.previousMousePosition
         GlobeRotation.x GlobeRotation.y].
    lra.
  - intros page s cx cy now Hd. cbn [GlobeRotation.handle]. rewrite Hd. reflexivity.
  - intros page M.
    match goal with |- (_ < GlobeRotation.yaw ?t)%Q =>
      assert (E : t = GlobeRotation.drag_to page
                        {| GlobeRotation.x := 2 * M + 2; GlobeRotation.y := 0 |} 16
                        (GlobeRotation.start_drag
                           {| GlobeRotation.x := 0; GlobeRotation.y := 0 |} 0
                           [GlobeRotation.SetCursor "grabbing"] GlobeRotation.setup))
        by reflexivity;
      rewrite E
    end.
    unfold GlobeRotation.yaw, GlobeRotation.drag_to, GlobeRotation.start_drag,
      GlobeRotation.setup, GlobeRotation.rotationSpeed.
    cbn [GlobeRotation.globeRotation GlobeRotation.previousMousePosition
         GlobeRotation.x GlobeRotation.y].
    lra.
  - intros s t Hd H. cbn [EarthRotation.handle]. rewrite Hd.
    unfold EarthRotation.pitch, EarthRotation.drag_to.
    cbn [EarthRotation.currentRotation EarthRotation.x EarthRotation.y].
    now apply clamp_top.
  - intros page s t now Hd s'. subst s'. cbn [GlobeRotation.handle]. rewrite Hd.
    split; reflexivity.
Qed.

(** C6, as stated, fails on the globe build: dragging the pointer 200
    pixels up from rest leaves the pitch at 100 degrees. *)
Lemma globe_pitch_exceeds_90 :
  ~ (GlobeRotation.pitch
       (GlobeRotation.run GlobeRotation.demo_page
          GlobeRotation.setup
          [GlobeRotation.MouseDown false 0 200 0;
           GlobeRotation.MouseMove 0 0 16]) <= 90)%Q.
Proof. vm_compute. intros H. now apply H. Qed.

Example drag_past_the_pole :
  EarthRotation.currentRotation
    (EarthRotation.run EarthRotation.setup
       [EarthRotation.MouseDown "CANVAS" 0 400;
        EarthRotation.MouseMove 1440 0;
        EarthRotation.MouseUp]) =
  {| EarthRotation.x := 90; EarthRotation.y := (0 + (1440 - 0) * (1 # 2))%Q |}.
Proof. reflexivity. Qed.

Lemma pitch_clamp_by_build_witness :
  let s := EarthRotation.run EarthRotation.setup
             [EarthRotation.MouseDown "CANVAS" 0 400] in
  EarthRotation.isDragging s = true /\
  (90 < EarthRotation.pitch s -
        (0 - EarthRotation.y (EarthRotation.previousMousePosition s)) * (1 # 2))%Q /\
  EarthRotation.pitch (EarthRotation.handle s (EarthRotation.MouseMove 1440 0)) = 90%Q /\
  (let g := GlobeRotation.run GlobeRotation.demo_page GlobeRotation.setup
              [GlobeRotation.MouseDown false 0 400 0] in
   GlobeRotation.isDragging g = true /\
   GlobeRotation.pitch
     (GlobeRotation.handle GlobeRotation.demo_page g (GlobeRotation.MouseMove 0 0 16)) =
   (GlobeRotation.pitch g +
    - (0 - GlobeRotation.y (GlobeRotation.previousMousePosition g))
    * GlobeRotation.rotationSpeed)%Q).
Proof.
  pose proof pitch_clamp_by_build as (_ & Htop & _ & _ & Hglobe & _).
  split; [reflexivity|].
  assert (H : (90 < 0 - (0 - 400) * (1 # 2))%Q) by (vm_compute; reflexivity).
  split; [exact H|].
  split; [apply Htop; [reflexivity | exact H]|].
  split; [reflexivity|]. apply Hglobe. reflexivity.
Defined.
End RotationClampProofs.

Module EarthControllerProofs.
Import EarthController.

Lemma switchYear_currentYear page year w :
  currentYear (this (switchYear page year w)) = year.
Proof.
  unfold switchYear. destruct (String.eqb (currentYear (this w)) year) eqn:E;
    [now apply String.eqb_eq in E | reflexivity].
Qed.

Lemma switchYear_keeps page year w :
  let w' := switchYear page year w in
  intervals w' = intervals w /\ nextTimer w' = nextTimer w /\ now w' = now w /\
  autoPlay (this w') = autoPlay (this w) /\
  autoPlayTimer (this w') = autoPlayTimer (this w) /\
  autoPlayInterval (this w') = autoPlayInterval (this w).
Proof.
  unfold switchYear. destruct (String.eqb (currentYear (this w)) year); cbn; tauto.
Qed.

Lemma has_years_false y :
  has years y = false ->
  String.eqb "2000" y = false /\ String.eqb "2010" y = false /\
  String.eqb "2020" y = false /\ String.eqb "2050" y = false.
Proof.
  unfold has, years. cbn [existsb]. intros H.
  repeat (apply orb_false_iff in H; destruct H as [? H]). tauto.
Qed.

Lemma indexOf_missing y : has years y = false -> indexOf years y = (-1)%Z.
Proof.
  intros H. apply has_years_false in H. destruct H as (H0 & H1 & H2 & H5).
  unfold indexOf, years. cbn [indexOf_from]. now rewrite H0, H1, H2, H5.
Qed.

(** C10.  When currentYear is none of the four years, nextYear() switches
    to '2000' and previousYear() to '2020': indexOf gives -1, and
    (-1 + 1) % 4 = 0, (-1 - 1 + 4) % 4 = 2.  Either way currentYear is one
    of the four years again. *)
Theorem nextYear_recovers_closed_set page w :
  has years (currentYear (this w)) = false ->
  currentYear (this (nextYear page w)) = "2000" /\
  currentYear (this (previousYear page w)) = "2020" /\
  has years (currentYear (this (nextYear page w))) = true /\
  has years (currentYear (this (previousYear page w))) = true.
Proof.
  intros H. unfold nextYear, previousYear.
  rewrite (indexOf_missing _ H), !switchYear_currentYear.
  repeat split; reflexivity.
Qed.
(* ------------------------------------------------------------------- *)
(*  The constructor                                                    *)
(* ------------------------------------------------------------------- *)

(** With a global [True] the constructor would go through, and copy its
    value into [autoPlay]. *)
Lemma constructor_with_True globals v hasLoaded :
  globals !! "True" = Some v ->
  exists c, constructor globals (Some hasLoaded) = inr (c, hasLoaded) /\
            autoPlay c = v /\ currentYear c = "2000".
Proof.
  intros H. unfold constructor, identifier. rewrite H. cbn. eauto.
Qed.

(** C9.  In the globe build the constructor reads the identifier [True].
    Nothing defines it, so evaluating the constructor raises a
    ReferenceError at that assignment, whatever the page looks like: no
    controller is produced. *)
Theorem constructor_raises_ReferenceError globals scene :
  globals !! "True" = None ->
  constructor globals scene = inl (ReferenceError "True").
Proof.
  intros H. unfold constructor, identifier. now rewrite H.
Qed.

(* ------------------------------------------------------------------- *)
(*  Auto-play                                                          *)
(* ------------------------------------------------------------------- *)

Lemma nextYear_cycle page w i :
  i < 4 ->
  currentYear (this w) = nth i years EmptyString ->
  currentYear (this (nextYear page w)) = nth ((i + 1) mod 4) years EmptyString.
Proof.
  intros Hi H. unfold nextYear. rewrite switchYear_currentYear, H.
  destruct i as [|[|[|[|i]]]]; [reflexivity .. | lia].
Qed.

Lemma consistent_cleared w : timer_consistent w -> clear_autoPlayTimer w = ∅.
Proof.
  intros (Hdom & _). apply map_empty. intros j. unfold clear_autoPlayTimer.
  apply eq_None_not_Some.
  destruct (autoPlayTimer (this w)) as [id|] eqn:E.
  - destruct (decide (id = j)) as [->|Hne].
    + rewrite lookup_delete_eq. now intros [? ?].
    + rewrite lookup_delete_ne by exact Hne. intros Hs.
      apply Hdom in Hs. congruence.
  - intros Hs. apply Hdom in Hs. discriminate.
Qed.

Lemma consistent_off w :
  timer_consistent w -> truthy (autoPlay (this w)) = false -> intervals w = ∅.
Proof.
  intros H Hoff. pose proof (consistent_cleared w H) as Hc.
  destruct H as (_ & Hnone & _). unfold clear_autoPlayTimer in Hc.
  now rewrite (Hnone Hoff) in Hc.
Qed.

(** What [startAutoPlay] leaves when no timer was alive. *)
Lemma startAutoPlay_single page w :
  intervals w = ∅ ->
  autoPlayInterval (this w) = 5000%Z ->
  let w' := startAutoPlay page w in
  intervals w' = {[ nextTimer w := (now w + 5000)%Z ]} /\
  autoPlayTimer (this w') = Some (nextTimer w) /\
  timer_consistent w'.
Proof.
  intros He Hi w'. subst w'. unfold startAutoPlay. cbn [intervals this autoPlayTimer].
  rewrite He, Hi, insert_empty. split; [reflexivity|]. split; [reflexivity|].
  unfold timer_consistent.
  cbn [intervals this autoPlayTimer autoPlay nextTimer autoPlayInterval truthy].
  split; [|split; [|split]].
  - intros id. split.
    + intros [z Hz]. apply lookup_singleton_Some in Hz. destruct Hz as [-> _].
      reflexivity.
    + intros [= <-]. rewrite lookup_singleton_eq. eauto.
  - discriminate.
  - intros id [= <-]. lia.
  - reflexivity.
Qed.

Lemma switchYear_consistent page year w :
  timer_consistent w -> timer_consistent (switchYear page year w).
Proof.
  intros H. destruct (switchYear_keeps page year w) as (Ei & En & _ & Ea & Et & Ep).
  unfold timer_consistent. rewrite Ei, En, Ea, Et, Ep. exact H.
Qed.

Lemma resetAutoPlay_consistent page w :
  timer_consistent w -> timer_consistent (resetAutoPlay page w).
Proof.
  intros H. unfold resetAutoPlay.
  destruct (truthy (autoPlay (this w))); [|exact H].
  apply startAutoPlay_single; [now apply consistent_cleared | apply H].
Qed.

Lemma toggleAutoPlay_consistent page w :
  timer_consistent w -> timer_consistent (toggleAutoPlay page w).
Proof.
  intros H. unfold toggleAutoPlay. destruct (truthy (autoPlay (this w))) eqn:E.
  - unfold stopAutoPlay, timer_consistent.
    cbn [intervals this autoPlayTimer autoPlay nextTimer autoPlayInterval truthy].
    rewrite (consistent_cleared w H).
    split; [|split; [|split]]; [| reflexivity | discriminate | apply H].
    intros id. rewrite lookup_empty. split; [now intros [? ?] | discriminate].
  - apply startAutoPlay_single; [now apply consistent_off | apply H].
Qed.

Lemma fire_consistent page id w :
  timer_consistent w -> timer_consistent (fire page id w).
Proof.
  intros H. unfold fire. destruct (intervals w !! id) as [due|] eqn:E; [|exact H].
  destruct (due <=? now w)%Z; [|exact H].
  unfold nextYear.
  pose proof (switchYear_consistent page
                (at_index years
                   (Z.rem (indexOf years (currentYear (this w)) + 1)
                      (array_length years))) w H) as H'.
  destruct (switchYear_keeps page
              (at_index years
                 (Z.rem (indexOf years (currentYear (this w)) + 1)
                    (array_length years))) w) as (Ei & _).
  set (w' := switchYear page _ w) in *.
  destruct H' as (Hdom & Hoff & Hlt & Hp).
  split; [|split; [|split]]; cbn [intervals this nextTimer]; try assumption.
  intros j. rewrite <- Hdom. destruct (decide (id = j)) as [->|Hne].
  - rewrite lookup_insert_eq, Ei, E. split; eauto.
  - now rewrite lookup_insert_ne.
Qed.

Lemma handle_consistent page w ev :
  timer_consistent w -> timer_consistent (handle page w ev).
Proof.
  intros H. destruct ev; cbn [handle].
  - now apply resetAutoPlay_consistent, switchYear_consistent.
  - now apply toggleAutoPlay_consistent.
  - now apply switchYear_consistent.
  - now apply fire_consistent.
  - exact H.
Qed.

Lemma boot_timer_consistent v : timer_consistent (boot v).
Proof.
  split; [|split; [|split]]; cbn; try reflexivity; try discriminate.
  intros id. rewrite lookup_empty. split; [now intros [? ?] | discriminate].
Qed.

Lemma run_timer_consistent page evs : forall w,
  timer_consistent w -> timer_consistent (run page w evs).
Proof.
  induction evs as [|ev evs IH]; intros w H; [exact H|].
  apply IH. now apply handle_consistent.
Qed.

Lemma consistent_size w : timer_consistent w -> size (intervals w) <= 1.
Proof.
  intros (Hdom & _). destruct (autoPlayTimer (this w)) as [id|] eqn:E.
  - destruct (intervals w !! id) as [z|] eqn:Ez.
    + assert (Hm : intervals w = {[ id := z ]}).
      { apply map_eq. intros j. destruct (decide (id = j)) as [<-|Hne].
        - now rewrite lookup_singleton_eq.
        - rewrite lookup_singleton_ne by exact Hne. apply eq_None_not_Some.
          intros Hs. apply Hdom in Hs. congruence. }
      rewrite Hm, map_size_singleton. lia.
    + exfalso. assert (Hs : is_Some (intervals w !! id)) by (now apply Hdom).
      rewrite Ez in Hs. now destruct Hs.
  - assert (Hm : intervals w = ∅).
    { apply map_empty. intros j. apply eq_None_not_Some. intros Hs.
      apply Hdom in Hs. discriminate. }
    rewrite Hm, map_size_empty. lia.
Qed.

(** C8.  (a) An auto-play tick is a call of nextYear, which moves currentYear from position i of the
    year sequence to position (i + 1) mod 4; from 2000 the ticks visit
    2010, 2020, 2050, 2000, 2010.  (b) Whatever the user does, at most one
    auto-play interval is alive.  (c) A click on a year button while
    auto-play is on clears the interval that was alive and starts a new
    one, which is then the only one and whose first tick is a full
    period away: no interval fires before that. *)
Theorem autoPlay_cycle_and_reset page :
  (forall w id due,
      intervals w !! id = Some due -> (due <= now w)%Z ->
      this (fire page id w) = this (nextYear page w)) /\
  (forall w i,
      i < 4 ->
      currentYear (this w) = nth i years EmptyString ->
      currentYear (this (nextYear page w)) = nth ((i + 1) mod 4) years EmptyString) /\
  (forall v, visits page 5 (boot v) = ["2010"; "2020"; "2050"; "2000"; "2010"]) /\
  (forall v evs, size (intervals (run page (boot v) evs)) <= 1) /\
  (forall v evs dataYear,
      let w := run page (boot v) evs in
      truthy (autoPlay (this w)) = true ->
      let w' := handle page w (ClickYear dataYear) in
      intervals w' = {[ nextTimer w := (now w + 5000)%Z ]} /\
      autoPlayTimer (this w') = Some (nextTimer w) /\
      (forall id, autoPlayTimer (this w) = Some id -> intervals w' !! id = None) /\
      (forall id dt, (0 <= dt < 5000)%Z ->
                     fire page id (elapse dt w') = elapse dt w')).
Proof.
  split; [|split; [|split; [|split]]].
  - intros w id due Hl Hdue. unfold fire. rewrite Hl.
    apply Z.leb_le in Hdue. now rewrite Hdue.
  - intros w i Hi H. now apply nextYear_cycle.
  - intros v. reflexivity.
  - intros v evs. apply consistent_size, run_timer_consistent, boot_timer_consistent.
  - intros v evs dataYear w Hon w'.
    pose proof (run_timer_consistent page evs (boot v) (boot_timer_consistent v)) as Hw.
    fold w in Hw.
    pose proof (switchYear_consistent page dataYear w Hw) as Hs.
    destruct (switchYear_keeps page dataYear w) as (Ei & En & Enow & Ea & Et & Ep).
    set (ws := switchYear page dataYear w) in *.
    assert (Hw' : w' = startAutoPlay page
                         {| this := this ws; intervals := clear_autoPlayTimer ws;
                            nextTimer := nextTimer ws; now := now ws;
                            trace := trace ws |}).
    { subst w'. cbn [handle]. fold ws. unfold resetAutoPlay. now rewrite Ea, Hon. }
    destruct (startAutoPlay_single page
                {| this := this ws; intervals := clear_autoPlayTimer ws;
                   nextTimer := nextTimer ws; now := now ws; trace := trace ws |})
      as (Hi & Ht & _); [now apply consistent_cleared | apply Hs |].
    rewrite <- Hw' in Hi, Ht.
    cbn [nextTimer now] in Hi, Ht. rewrite En, Enow in Hi. rewrite En in Ht.
    split; [exact Hi|]. split; [exact Ht|]. split.
    + intros id Hid. rewrite Hi. apply lookup_singleton_ne.
      destruct Hw as (_ & _ & Hlt & _). specialize (Hlt id Hid). lia.
    + intros id dt Hdt.
      assert (Hnow : now w' = now w) by (rewrite Hw'; exact Enow).
      clearbody w'. unfold fire.
      change (intervals (elapse dt w')) with (intervals w').
      change (now (elapse dt w')) with (now w' + Z.max 0 dt)%Z.
      rewrite Hi, Hnow. destruct (decide (nextTimer w = id)) as [<-|Hne].
      * rewrite lookup_singleton_eq.
        destruct (now w + 5000 <=? now w + Z.max 0 dt)%Z eqn:Hle; [|reflexivity].
        apply Z.leb_le in Hle. lia.
      * now rewrite lookup_singleton_ne.
Qed.

(* ------------------------------------------------------------------- *)
(*  Years outside the closed set                                       *)
(* ------------------------------------------------------------------- *)

(** [switchYear] with the lookups spelled out is the [switchYear] above
    wherever no lookup in [this.earthSpheres] finds an inherited name. *)
Lemma lookup_switchYear_agrees page year w :
  EarthControllerLookup.year_own page w ->
  ObjectLiteral.get (earthSpheres page) year <> ObjectLiteral.Inherited ->
  EarthControllerLookup.switchYear page year w = (switchYear page year w, None).
Proof.
  unfold EarthControllerLookup.year_own, EarthControllerLookup.switchYear, switchYear.
  intros Hc Hy. destruct (String.eqb (currentYear (this w)) year); [reflexivity|].
  revert Hc Hy. unfold ObjectLiteral.get.
  destruct (earthSpheres page !! currentYear (this w)) as [elc|],
           (earthSpheres page !! year) as [ely|];
    repeat match goal with
           | |- context [ObjectLiteral.inherited ?k] =>
               destruct (ObjectLiteral.inherited k)
           end; intros Hc Hy; try reflexivity; congruence.
Qed.

Lemma lookup_switchYear_raises page year w :
  EarthControllerLookup.year_own page w ->
  ObjectLiteral.get (earthSpheres page) year = ObjectLiteral.Inherited ->
  currentYear (this w) <> year ->
  EarthControllerLookup.switchYear page year w =
  (EarthControllerLookup.with_trace
     (trace w ++ [ConsoleLog ("[EarthController] Switching to year " +:+ year)] ++
      match earthSpheres page !! currentYear (this w) with
      | Some el => [SetVisible el false]
      | None => []
      end) w,
   Some (EarthControllerLookup.not_a_function "this.earthSpheres[year]")).
Proof.
  unfold EarthControllerLookup.year_own, EarthControllerLookup.switchYear.
  intros Hc Hy Hne. apply String.eqb_neq in Hne. rewrite Hne, Hy.
  revert Hc. unfold ObjectLiteral.get.
  destruct (earthSpheres page !! currentYear (this w)) as [elc|]; [reflexivity|].
  destruct (ObjectLiteral.inherited (currentYear (this w))); [congruence | reflexivity].
Qed.

Lemma lookup_switchYear_own page year w :
  EarthControllerLookup.year_own page w ->
  EarthControllerLookup.year_own page (fst (EarthControllerLookup.switchYear page year w)).
Proof.
  intros Hc. unfold EarthControllerLookup.year_own in *.
  assert (Hplain : ObjectLiteral.get (earthSpheres page) year
                   <> ObjectLiteral.Inherited ->
                   ObjectLiteral.get (earthSpheres page)
                     (currentYear (this (fst (EarthControllerLookup.switchYear
                                                page year w))))
                   <> ObjectLiteral.Inherited).
  { intros Hy. rewrite (lookup_switchYear_agrees page year w Hc Hy). cbn [fst].
    now rewrite switchYear_currentYear. }
  destruct (ObjectLiteral.get (earthSpheres page) year) eqn:Hy;
    [apply Hplain; discriminate | | apply Hplain; discriminate].
  destruct (decide (currentYear (this w) = year)) as [E|Hne]; [congruence|].
  now rewrite (lookup_switchYear_raises page year w Hc Hy Hne).
Qed.

Lemma lookup_handle_own page w ev :
  EarthControllerLookup.year_own page w ->
  EarthControllerLookup.year_own page (EarthControllerLookup.handle page w ev).
Proof.
  intros Hc. destruct ev as [dataYear| |year|id|dt]; cbn [EarthControllerLookup.handle].
  - pose proof (lookup_switchYear_own page dataYear w Hc) as H.
    destruct (EarthControllerLookup.switchYear page dataYear w) as [w' [err|]];
      cbn [fst] in H; [exact H|].
    unfold EarthControllerLookup.year_own, resetAutoPlay in *.
    now destruct (truthy (autoPlay (this w'))).
  - unfold EarthControllerLookup.year_own, toggleAutoPlay in *.
    now destruct (truthy (autoPlay (this w))).
  - now apply lookup_switchYear_own.
  - unfold EarthControllerLookup.fire.
    destruct (intervals w !! id) as [due|]; [|exact Hc].
    destruct (due <=? now w)%Z; [|exact Hc].
    exact (lookup_switchYear_own page _ w Hc).
  - exact Hc.
Qed.

Lemma lookup_run_own page evs : forall w,
  EarthControllerLookup.year_own page w ->
  EarthControllerLookup.year_own page (EarthControllerLookup.run page w evs).
Proof.
  induction evs as [|ev evs IH]; intros w Hc; [exact Hc|].
  apply IH. now apply lookup_handle_own.
Qed.

Lemma lookup_boot_own page v : EarthControllerLookup.year_own page (boot v).
Proof. apply ObjectLiteralProofs.get_plain. reflexivity. Qed.

(** C3, as the code has it.  switchScene (portal build): a year that is
    neither an own key of CONFIG.scenes nor a name inherited from
    Object.prototype is rejected; the object and the calls in flight stay
    as they were and nothing but one console line is produced.  switchYear
    (globe build) has no membership check: in whatever state the
    controller is, given a year that is not such an inherited name,
    currentYear is that year afterwards, and when it differs from the
    current year the current sphere is hidden and the UI collaborator is
    notified.  Given an inherited name that is not a sphere, switchYear
    raises after it has hidden the current sphere, and currentYear stays. *)
Theorem unknown_year_by_build :
  (forall own env m targetYear,
      ObjectLiteral.lookups_of own (SceneManager.scenes env) ->
      own !! targetYear = None ->
      ObjectLiteral.inherited targetYear = false ->
      let m' := SceneManager.request env targetYear m in
      SceneManager.state m' = SceneManager.state m /\
      SceneManager.pending m' = SceneManager.pending m /\
      exists line, SceneManager.trace m' = SceneManager.trace m ++ [line] /\
                   SceneManager.is_console line = true) /\
  (forall page v evs year,
      ObjectLiteral.inherited year = false ->
      let w := EarthControllerLookup.run page (boot v) evs in
      let w' := fst (EarthControllerLookup.switchYear page year w) in
      snd (EarthControllerLookup.switchYear page year w) = None /\
      currentYear (this w') = year /\
      (currentYear (this w) <> year ->
       (forall el, earthSpheres page !! currentYear (this w) = Some el ->
                   SetVisible el false ∈ trace w') /\
       (uiManager page = true -> UpdateSceneInfo year ∈ trace w'))) /\
  (forall page v evs year,
      ObjectLiteral.inherited year = true ->
      earthSpheres page !! year = None ->
      let w := EarthControllerLookup.run page (boot v) evs in
      let w' := fst (EarthControllerLookup.switchYear page year w) in
      snd (EarthControllerLookup.switchYear page year w)
        = Some (EarthControllerLookup.not_a_function "this.earthSpheres[year]") /\
      currentYear (this w') = currentYear (this w) /\
      currentYear (this w) <> year /\
      (forall el, earthSpheres page !! currentYear (this w) = Some el ->
                  SetVisible el false ∈ trace w')).
Proof.
  split; [|split].
  - intros own env [s tr ps] targetYear Hl Hown Hinh m'. subst m'.
    assert (H : SceneManager.scenes env !! targetYear = None).
    { specialize (Hl targetYear). rewrite Hown in Hl.
      apply eq_None_not_Some. intros Hs. apply Hl in Hs. congruence. }
    unfold SceneManager.request. cbn [SceneManager.state SceneManager.trace
                                      SceneManager.pending].
    unfold SceneManager.switchScene_entry.
    erewrite SceneManagerProofs.bind_Ret by apply SceneManagerProofs.get_run.
    destruct (SceneManager.isTransitioning s); [|rewrite H];
      cbn; (split; [reflexivity|]; split; [reflexivity|]);
      eexists; split; reflexivity.
  - intros page v evs year Hinh w w'.
    assert (Hc : EarthControllerLookup.year_own page w)
      by apply lookup_run_own, lookup_boot_own.
    subst w'.
    rewrite (lookup_switchYear_agrees page year w Hc
               (ObjectLiteralProofs.get_plain _ _ Hinh)).
    cbn [fst snd]. split; [reflexivity|]. split; [apply switchYear_currentYear|].
    intros Hne. apply String.eqb_neq in Hne. unfold switchYear.
    rewrite Hne. cbn [trace]. split.
    + intros el Hel. rewrite Hel. rewrite !elem_of_app. right. right. left.
      apply list_elem_of_singleton. reflexivity.
    + intros Hui. rewrite Hui. rewrite !elem_of_app.
      do 6 right. left. apply list_elem_of_singleton. reflexivity.
  - intros page v evs year Hinh Hnone w w'.
    assert (Hc : EarthControllerLookup.year_own page w)
      by apply lookup_run_own, lookup_boot_own.
    assert (Hy : ObjectLiteral.get (earthSpheres page) year = ObjectLiteral.Inherited)
      by now apply ObjectLiteralProofs.get_inherited.
    assert (Hne : currentYear (this w) <> year).
    { intros E. apply Hc. now rewrite E. }
    subst w'. rewrite (lookup_switchYear_raises page year w Hc Hy Hne).
    cbn [fst snd EarthControllerLookup.with_trace this trace].
    split; [reflexivity|]. split; [reflexivity|]. split; [exact Hne|].
    intros el Hel. rewrite Hel, !elem_of_app. right. right.
    apply list_elem_of_singleton. reflexivity.
Qed.

(** C3, as stated, fails in both builds.  Globe build: asked for the year
    1999, switchYear changes currentYear and hides the sphere of 2000.
    Portal build: 'constructor' is no scene of CONFIG.scenes, yet the
    lookup finds what every object inherits under that name, the check
    passes, and the transition hides the scene of 2000 and commits
    currentScene = 'constructor' before showing the new scene raises. *)
Lemma unknown_year_accepted :
  (let w := boot (VBool false) in
   let w' := fst (EarthControllerLookup.switchYear demo_page "1999" w) in
   has years "1999" = false /\
   ~ (currentYear (this w') = currentYear (this w) /\ trace w' = trace w)) /\
  (let m := SceneManager.run SceneManager.prototype_env SceneManager.boot
              [SceneManager.Request "constructor"; SceneManager.Settle] in
   SceneManager.scenes SceneManager.demo_env !! "constructor" = None /\
   ~ (SceneManager.currentScene (SceneManager.state m) =
      SceneManager.currentScene (SceneManager.state SceneManager.boot) /\
      SceneManager.side_effects (SceneManager.trace m) = [])).
Proof.
  split.
  - split; [reflexivity|]. intros [H _]. vm_compute in H. discriminate.
  - split; [reflexivity|]. intros [H _]. vm_compute in H. discriminate.
Qed.

(* ------------------------------------------------------------------- *)
(*  The model at work                                                  *)
(* ------------------------------------------------------------------- *)

Example switchYear_2000_2010 :
  trace (switchYear demo_page "2010" (boot (VBool false))) =
  [ConsoleLog "[EarthController] Switching to year 2010";
   SetVisible "earth-2000" false;
   SetVisible "earth-2010" true; SetRotation "earth-2010" (0, 0)%Q;
   ClassRemove "2000"; ClassAdd "2010"; ClassRemove "2020"; ClassRemove "2050";
   SetPanel Left "2010"; SetPanel Right "2010";
   UpdateSceneInfo "2010"; PlayNarration "2010"].
Proof. vm_compute. reflexivity. Qed.

Example switchYear_1999 :
  let w := switchYear demo_page "1999" (boot (VBool false)) in
  currentYear (this w) = "1999" /\
  trace w =
  [ConsoleLog "[EarthController] Switching to year 1999";
   SetVisible "earth-2000" false;
   ClassRemove "2000"; ClassRemove "2010"; ClassRemove "2020"; ClassRemove "2050";
   UpdateSceneInfo "1999"].
Proof. vm_compute. split; reflexivity. Qed.

Example manual_change_during_autoPlay :
  let w := run demo_page (boot (VBool false))
             [ClickAutoPlay; Elapse 3000; ClickYear "2020"; Elapse 4999;
              TimerFires 1; TimerFires 2] in
  currentYear (this w) = "2020" /\ intervals w = {[ 2 := 8000%Z ]}.
Proof. vm_compute. split; reflexivity. Qed.

Lemma constructor_raises_ReferenceError_witness :
  ({[ "CONFIG" := VNull; "undefined" := VUndefined ]} : gmap string Value) !! "True"
    = None /\
  constructor {[ "CONFIG" := VNull; "undefined" := VUndefined ]} (Some true) =
    inl (ReferenceError "True").
Proof.
  split; [reflexivity|].
  apply constructor_raises_ReferenceError. reflexivity.
Defined.

Lemma nextYear_recovers_closed_set_witness :
  let w := switchYear demo_page "1999" (boot (VBool true)) in
  has years (currentYear (this w)) = false /\
  currentYear (this (nextYear demo_page w)) = "2000" /\
  currentYear (this (previousYear demo_page w)) = "2020".
Proof.
  pose proof (nextYear_recovers_closed_set demo_page
                (switchYear demo_page "1999" (boot (VBool true)))
                eq_refl) as (Hn & Hp & _).
  split; [reflexivity|]. split; [exact Hn | exact Hp].
Defined.

Lemma autoPlay_cycle_and_reset_witness :
  let w := run demo_page (boot (VBool false)) [ClickAutoPlay; Elapse 3000] in
  truthy (autoPlay (this w)) = true /\
  intervals (handle demo_page w (ClickYear "2020")) = {[ 2 := 8000%Z ]} /\
  (2 < 4 /\ currentYear (this (handle demo_page w (ClickYear "2020"))) = nth 2 years EmptyString /\
   currentYear (this (nextYear demo_page (handle demo_page w (ClickYear "2020")))) =
   "2050").
Proof.
  pose proof (autoPlay_cycle_and_reset demo_page) as (_ & Hcycle & _ & _ & Hreset).
  split; [reflexivity|]. split.
  - apply (Hreset (VBool false) [ClickAutoPlay; Elapse 3000] "2020"). reflexivity.
  - split; [lia|]. split; [reflexivity|].
    apply (Hcycle _ 2); [lia | reflexivity].
Defined.

Lemma unknown_year_by_build_witness :
  ObjectLiteral.lookups_of (SceneManager.scenes SceneManager.demo_env)
    (SceneManager.scenes SceneManager.prototype_env) /\
  SceneManager.scenes SceneManager.demo_env !! "1999" = None /\
  ObjectLiteral.inherited "1999" = false /\
  SceneManager.state (SceneManager.request SceneManager.prototype_env "1999"
                        SceneManager.boot) = SceneManager.state SceneManager.boot /\
  (let w := EarthControllerLookup.run demo_page (boot (VBool false)) [] in
   currentYear (this w) <> "1999" /\
   SetVisible "earth-2000" false
     ∈ trace (fst (EarthControllerLookup.switchYear demo_page "1999" w))) /\
  (let w := EarthControllerLookup.run demo_page (boot (VBool false)) [] in
   ObjectLiteral.inherited "constructor" = true /\
   earthSpheres demo_page !! "constructor" = None /\
   currentYear
     (this (fst (EarthControllerLookup.switchYear demo_page "constructor" w))) =
   currentYear (this w)).
Proof.
  pose proof unknown_year_by_build as (Hportal & Hglobe & Hraise).
  assert (Hl : ObjectLiteral.lookups_of (SceneManager.scenes SceneManager.demo_env)
                 (SceneManager.scenes SceneManager.prototype_env))
    by apply ObjectLiteralProofs.lookups_spec.
  split; [exact Hl|]. split; [reflexivity|]. split; [reflexivity|]. split; [|split].
  - apply (Hportal (SceneManager.scenes SceneManager.demo_env)
             SceneManager.prototype_env SceneManager.boot "1999");
      [exact Hl | reflexivity | reflexivity].
  - split; [discriminate|].
    apply (Hglobe demo_page (VBool false) [] "1999"); [reflexivity | discriminate | reflexivity].
  - split; [reflexivity|]. split; [reflexivity|].
    apply (Hraise demo_page (VBool false) [] "constructor"); reflexivity.
Defined.
End EarthControllerProofs.

Module SceneNavigationProofs.
Import SceneManager SceneNavigation SceneManagerProofs.

(* ------------------------------------------------------------------- *)
(*  indexOf and the index arithmetic                                   *)
(* ------------------------------------------------------------------- *)
Lemma indexOf_from_absent l : forall y i,
  y ∉ l -> EarthController.indexOf_from l y i = (-1)%Z.
Proof.
  induction l as [|a l IH]; intros y i Hy; [reflexivity|].
  cbn [EarthController.indexOf_from].
  destruct (String.eqb a y) eqn:E.
  - apply String.eqb_eq in E. subst a. exfalso. apply Hy. left.
  - apply IH. intros H. apply Hy. now right.
Qed.

Lemma indexOf_from_found l : forall y i k,
  NoDup l -> l !! k = Some y ->
  EarthController.indexOf_from l y i = (i + Z.of_nat k)%Z.
Proof.
  induction l as [|a l IH]; intros y i k Hnd Hk; [discriminate|].
  apply NoDup_cons in Hnd. destruct Hnd as [Ha Hnd].
  cbn [EarthController.indexOf_from].
  destruct k as [|k]; cbn in Hk.
  - injection Hk as ->. rewrite String.eqb_refl. lia.
  - destruct (String.eqb a y) eqn:E.
    + apply String.eqb_eq in E. subst a. exfalso. apply Ha.
      now apply list_elem_of_lookup_2 in Hk.
    + rewrite (IH y (i + 1)%Z k Hnd Hk). lia.
Qed.

Lemma element_at l (k : nat) : element l (Some (Z.of_nat k)) = l !! k.
Proof.
  unfold element. destruct (Z.ltb_spec (Z.of_nat k) 0); [lia|].
  now rewrite Nat2Z.id.
Qed.

Lemma remainder_next (n i : nat) :
  i < n ->
  exists j, remainder (Z.of_nat i + 1) (Z.of_nat n) = Some (Z.of_nat j) /\
            j < n /\
            remainder (Z.of_nat j - 1 + Z.of_nat n) (Z.of_nat n) = Some (Z.of_nat i).
Proof.
  intros Hi. unfold remainder.
  destruct (Z.eqb_spec (Z.of_nat n) 0) as [E|_]; [lia|].
  destruct (decide (S i = n)) as [<-|Hne].
  - exists 0. replace (Z.of_nat i + 1)%Z with (Z.of_nat (S i)) by lia.
    rewrite Z.rem_same by lia. split; [reflexivity|]. split; [lia|].
    f_equal. rewrite Z.rem_small; lia.
  - exists (S i). rewrite Z.rem_small by lia. split; [f_equal; lia|].
    split; [lia|]. f_equal.
    replace (Z.of_nat (S i) - 1 + Z.of_nat n)%Z
      with (Z.of_nat i + 1 * Z.of_nat n)%Z by lia.
    rewrite Z.rem_mod_nonneg by lia.
    rewrite Z_mod_plus_full. apply Z.mod_small. lia.
Qed.

Lemma remainder_prev (n i : nat) :
  i < n ->
  exists j, remainder (Z.of_nat i - 1 + Z.of_nat n) (Z.of_nat n) = Some (Z.of_nat j) /\
            j < n /\
            remainder (Z.of_nat j + 1) (Z.of_nat n) = Some (Z.of_nat i).
Proof.
  intros Hi. unfold remainder.
  destruct (Z.eqb_spec (Z.of_nat n) 0) as [E|_]; [lia|].
  destruct i as [|i].
  - exists (n - 1). rewrite Z.rem_small by lia. split; [f_equal; lia|].
    split; [lia|]. f_equal.
    replace (Z.of_nat (n - 1) + 1)%Z with (Z.of_nat n) by lia.
    apply Z.rem_same. lia.
  - exists i.
    replace (Z.of_nat (S i) - 1 + Z.of_nat n)%Z
      with (Z.of_nat i + 1 * Z.of_nat n)%Z by lia.
    rewrite Z.rem_mod_nonneg by lia.
    rewrite Z_mod_plus_full, Z.mod_small by lia.
    split; [reflexivity|]. split; [lia|]. f_equal. rewrite Z.rem_small; lia.
Qed.

(** X1.  In a [sceneOrder] without repetition, for a current scene that is
    listed, getNextScene and getPreviousScene return listed scenes and undo
    each other: the previous scene of the next one, and the next scene of
    the previous one, is the current scene. *)
Theorem scene_order_round_trip sceneOrder s :
  NoDup sceneOrder ->
  currentScene s ∈ sceneOrder ->
  exists next prev,
    getNextScene sceneOrder s = Some next /\ next ∈ sceneOrder /\
    getPreviousScene sceneOrder s = Some prev /\ prev ∈ sceneOrder /\
    getPreviousScene sceneOrder (at_scene next s) = Some (currentScene s) /\
    getNextScene sceneOrder (at_scene prev s) = Some (currentScene s).
Proof.
  intros Hnd Hin. apply list_elem_of_lookup_1 in Hin. destruct Hin as [i Hi].
  pose proof (lookup_lt_Some _ _ _ Hi) as Hlt.
  destruct (remainder_next _ _ Hlt) as (j & Ej & Hj & Bj).
  destruct (remainder_prev _ _ Hlt) as (p & Ep & Hp & Bp).
  destruct (lookup_lt_is_Some_2 sceneOrder j Hj) as [next Hnext].
  destruct (lookup_lt_is_Some_2 sceneOrder p Hp) as [prev Hprev].
  exists next, prev.
  unfold getNextScene, getPreviousScene, EarthController.indexOf,
    EarthController.array_length, at_scene. cbn [currentScene].
  rewrite (indexOf_from_found _ _ 0 _ Hnd Hi),
    (indexOf_from_found _ _ 0 _ Hnd Hnext),
    (indexOf_from_found _ _ 0 _ Hnd Hprev).
  rewrite !Z.add_0_l, Ej, Ep, Bj, Bp, !element_at.
  repeat split; try assumption;
    eapply list_elem_of_lookup_2; eassumption.
Qed.

(** X2.  For a current scene that is not listed in [sceneOrder], indexOf is
    -1: getNextScene returns the first listed scene and getPreviousScene
    the last but one (the only one when there is one); with an empty
    [sceneOrder] both return undefined. *)
Theorem scene_order_outside sceneOrder s :
  currentScene s ∉ sceneOrder ->
  getNextScene sceneOrder s = sceneOrder !! 0 /\
  getPreviousScene sceneOrder s = sceneOrder !! (length sceneOrder - 2).
Proof.
  intros Hout.
  unfold getNextScene, getPreviousScene, EarthController.indexOf,
    EarthController.array_length.
  rewrite (indexOf_from_absent _ _ 0%Z Hout). unfold remainder.
  destruct sceneOrder as [|a [|b l]].
  - split; reflexivity.
  - split; reflexivity.
  - set (n := length (a :: b :: l)).
    assert (Hn : 2 <= n) by (unfold n; simpl; lia).
    destruct (Z.eqb_spec (Z.of_nat n) 0) as [E|_]; [lia|].
    rewrite Z.rem_0_l by lia.
    replace (-1 - 1 + Z.of_nat n)%Z with (Z.of_nat (n - 2)) by lia.
    rewrite Z.rem_small by lia.
    split; [reflexivity | apply element_at].
Qed.


(* ------------------------------------------------------------------- *)
(*  What a stretch of switchScene may change                           *)
(* ------------------------------------------------------------------- *)
Section Respecting.
Variable R : Change.
Context `{!PreOrder R}.

Lemma respects_mret {A} (a : A) : respects R (mret a).
Proof. intros st. reflexivity. Qed.

Lemma respects_bind {A B} (m : Act A) (k : A -> Act B) :
  respects R m -> (forall a, respects R (k a)) -> respects R (m ≫= k).
Proof.
  intros Hm Hk st. specialize (Hm st). unfold mbind, Act_bind.
  destruct (m st) as [st1 [a|err]]; cbn [fst] in *; [|exact Hm].
  etransitivity; [exact Hm | apply Hk].
Qed.

Lemma respects_get : respects R get.
Proof. intros [s tr]. reflexivity. Qed.

Lemma respects_when b m : respects R m -> respects R (when b m).
Proof. destruct b; [auto | intros _; apply respects_mret]. Qed.

Lemma respects_new_Promise executor :
  respects R executor -> respects R (new_Promise executor).
Proof.
  intros H st. specialize (H st). unfold new_Promise.
  destruct (executor st) as [st1 [a|err]]; exact H.
Qed.

Lemma respects_await {A} p (k : Act A) : respects R k -> respects R (await p k).
Proof. destruct p; [auto | intros _ st; reflexivity]. Qed.

Lemma respects_timer t callback (k : Act (option Cont)) :
  respects R callback -> respects R k -> respects R (timer_resolves t callback k).
Proof.
  intros Hc Hk st. specialize (Hc st). unfold timer_resolves.
  destruct (callback st) as [st1 [a|err]]; cbn [fst] in *; [|exact Hc].
  etransitivity; [exact Hc | apply Hk].
Qed.

Lemma respects_emit e : permits R e -> respects R (emit e).
Proof. intros H [s tr]. apply H. Qed.

Lemma respects_perform env e :
  permits R e -> (forall err, permits R (Exception err)) ->
  respects R (perform env e).
Proof.
  intros He Hx [s tr]. unfold perform. destruct (throws env e) as [err|].
  - cbn [fst]. change (tr ++ [e; Exception err]) with (tr ++ [e] ++ [Exception err]).
    rewrite app_assoc. etransitivity; [apply He | apply Hx].
  - apply He.
Qed.

Variable env : Env.
Hypothesis Hany : forall e, (forall el, e <> SetVisible el false) -> permits R e.
Hypothesis Hhide :
  forall year el, sceneElements env !! year = Some el -> permits R (SetVisible el false).
Hypothesis Hguard : forall b, respects R (set_isTransitioning b).

Ltac permitted := apply Hany; intros; discriminate.

Ltac respecting :=
  repeat first
    [ apply respects_mret | apply respects_get | apply Hguard
    | apply respects_emit; permitted
    | apply respects_perform; [permitted | intros; permitted]
    | apply respects_when
    | apply respects_new_Promise
    | apply respects_bind; [| intros ?] ].

Lemma respects_try body :
  respects R body -> respects R (try_catch_finally body).
Proof.
  intros H st. specialize (H st). unfold try_catch_finally.
  destruct (body st) as [st1 [[k|]|err]]; cbn [fst] in *; [exact H| |].
  - etransitivity; [exact H|].
    assert (Hr : respects R (set_isTransitioning false ;; mret None : Act (option Cont)))
      by respecting.
    apply Hr.
  - etransitivity; [exact H|].
    assert (Hr : respects R (emit (ConsoleError transition_error err) ;;
                             set_isTransitioning false ;;
                             mret None : Act (option Cont)))
      by respecting.
    apply Hr.
Qed.

Lemma respects_fadeOut : respects R (SceneManager.fadeOut env).
Proof. unfold SceneManager.fadeOut. destruct (fadeOverlay env); respecting. Qed.

Lemma respects_fadeIn : respects R (SceneManager.fadeIn env).
Proof. unfold SceneManager.fadeIn. destruct (fadeOverlay env); respecting. Qed.

Lemma respects_hideScene year : respects R (hideScene env year).
Proof.
  unfold hideScene. destruct (sceneElements env !! year) as [el|] eqn:E;
    [| apply respects_mret].
  apply respects_bind; [| intros ?; respecting].
  apply respects_perform; [now apply (Hhide year) | intros; permitted].
Qed.

Lemma respects_showScene year : respects R (showScene env year).
Proof. unfold showScene. destruct (sceneElements env !! year); respecting. Qed.

Lemma respects_entry targetYear : respects R (switchScene_entry env targetYear).
Proof.
  unfold switchScene_entry. apply respects_bind; [apply respects_get | intros s].
  destruct (isTransitioning s); [respecting|].
  destruct (scenes env !! targetYear); [|respecting].
  destruct (String.eqb (currentScene s) targetYear); [respecting|].
  apply respects_bind; [respecting | intros ?].
  apply respects_bind; [respecting | intros ?].
  apply respects_try. apply respects_bind; [apply respects_fadeOut | intros ?].
  apply respects_mret.
Qed.

Lemma respects_after_fadeOut t :
  respects R (set_currentScene t) -> respects R (after_fadeOut env t).
Proof.
  intros Hcommit. unfold after_fadeOut, delay.
  apply respects_bind; [apply respects_get | intros s].
  apply respects_bind; [respecting | intros ?].
  apply respects_bind; [apply respects_get | intros s'].
  apply respects_bind; [apply respects_hideScene | intros ?].
  apply respects_bind; [exact Hcommit | intros ?].
  apply respects_bind; [apply respects_showScene | intros ?].
  respecting.
Qed.

Lemma respects_after_delay t : respects R (after_delay env t).
Proof.
  unfold after_delay. apply respects_bind; [apply respects_fadeIn | intros ?].
  apply respects_mret.
Qed.

Lemma respects_after_fadeIn t : respects R (after_fadeIn env t).
Proof. unfold after_fadeIn. respecting. Qed.

(** Resuming a call that is not at its last await. *)
Lemma respects_resume_early k :
  2 <= awaits_left k ->
  respects R (set_currentScene (target_of k)) ->
  respects R (switchScene_resume env k).
Proof.
  intros Hk Hcommit.
  destruct k as [t p|t p|t p|t e]; cbn [awaits_left] in Hk; [| |lia|lia];
    cbn [switchScene_resume target_of] in *; apply respects_try, respects_await.
  - now apply respects_after_fadeOut.
  - apply respects_after_delay.
Qed.

Lemma respects_resume k :
  (forall ov, fadeOverlay env = Some ov -> permits R (SetVisible ov false)) ->
  respects R (set_currentScene (target_of k)) ->
  respects R (switchScene_resume env k).
Proof.
  intros Hov Hcommit.
  destruct (decide (2 <= awaits_left k)) as [Hk|Hk];
    [now apply respects_resume_early|].
  destruct k as [t p|t p|t p|t e]; cbn [awaits_left] in Hk; [lia|lia| |];
    cbn [switchScene_resume]; [|apply respects_mret].
  destruct p as [|err].
  - apply respects_timer; [| apply respects_try, respects_after_fadeIn].
    unfold fadeIn_timer. destruct (fadeOverlay env) as [ov|] eqn:E;
      [| apply respects_mret].
    apply respects_perform; [now apply Hov | intros; permitted].
  - apply respects_try, respects_await, respects_after_fadeIn.
Qed.

Lemma request_respects targetYear m :
  R (state m, trace m)
    (state (request env targetYear m), trace (request env targetYear m)).
Proof.
  pose proof (respects_entry targetYear (state m, trace m)) as H.
  unfold request.
  destruct (switchScene_entry env targetYear (state m, trace m))
    as [[s tr] [[k|]|err]]; exact H.
Qed.

Lemma resume_respects m k rest :
  pending m = k :: rest ->
  respects R (switchScene_resume env k) ->
  R (state m, trace m) (state (resume env m), trace (resume env m)).
Proof.
  intros Hp Hk. specialize (Hk (state m, trace m)). unfold resume. rewrite Hp.
  destruct (switchScene_resume env k (state m, trace m))
    as [[s tr] [[k'|]|err]]; exact Hk.
Qed.
End Respecting.

(* ------------------------------------------------------------------- *)
(*  The three relations                                                *)
(* ------------------------------------------------------------------- *)
#[local] Instance moves_to_preorder t : PreOrder (moves_to t).
Proof.
  split.
  - intros [s tr]. now left.
  - intros [s1 tr1] [s2 tr2] [s3 tr3]. unfold moves_to. intuition congruence.
Qed.

#[local] Instance stays_preorder : PreOrder stays.
Proof.
  split.
  - intros [s tr]. reflexivity.
  - intros [s1 tr1] [s2 tr2] [s3 tr3]. unfold stays. congruence.
Qed.

#[local] Instance never_emits_preorder e : PreOrder (never_emits e).
Proof.
  split.
  - intros [s tr]. exists []. split; [now rewrite app_nil_r | apply not_elem_of_nil].
  - intros [s1 tr1] [s2 tr2] [s3 tr3] (n1 & -> & H1) (n2 & -> & H2).
    exists (n1 ++ n2). split; [now rewrite app_assoc|].
    rewrite elem_of_app. tauto.
Qed.

Lemma never_emits_permits e e' : e' <> e -> permits (never_emits e) e'.
Proof.
  intros Hne s tr. exists [e']. split; [reflexivity|].
  rewrite list_elem_of_singleton. congruence.
Qed.

Lemma never_emits_guard e b : respects (never_emits e) (set_isTransitioning b).
Proof. intros [s tr]. cbn. exists []. split; [now rewrite app_nil_r | apply not_elem_of_nil]. Qed.

(* ------------------------------------------------------------------- *)
(*  On what a stretch suspends                                         *)
(* ------------------------------------------------------------------- *)
Lemma yields_bind {A} P (m : Act A) k :
  (forall a, yields P (k a)) -> yields P (m ≫= k).
Proof.
  intros Hk st st' c. unfold mbind, Act_bind.
  destruct (m st) as [st1 [a|err]]; [apply Hk | discriminate].
Qed.

Lemma yields_none P : yields P (mret None).
Proof. intros st st' c. discriminate. Qed.

Lemma yields_some P c : P c -> yields P (mret (Some c)).
Proof. intros Hc st st' c' [= _ <-]. exact Hc. Qed.

Lemma yields_try P body : yields P body -> yields P (try_catch_finally body).
Proof.
  intros H st st' c. unfold try_catch_finally.
  destruct (body st) as [st1 [[k|]|err]] eqn:E.
  - intros [= _ <-]. eapply H, E.
  - destruct st1. discriminate.
  - destruct st1. discriminate.
Qed.

Lemma yields_await P p k : yields P k -> yields P (await p k).
Proof. destruct p; [auto | intros _ st st' c; discriminate]. Qed.

Lemma yields_entry env targetYear :
  yields (fun k => awaits_left k = 3 /\ target_of k = targetYear /\
                   configured env targetYear)
         (switchScene_entry env targetYear).
Proof.
  unfold switchScene_entry. apply yields_bind. intros s.
  destruct (isTransitioning s); [apply yields_bind; intros; apply yields_none|].
  destruct (scenes env !! targetYear) as [cfg|] eqn:E;
    [| apply yields_bind; intros; apply yields_none].
  destruct (String.eqb (currentScene s) targetYear);
    [apply yields_bind; intros; apply yields_none|].
  do 2 (apply yields_bind; intros ?). apply yields_try, yields_bind. intros p.
  apply yields_some. repeat split. unfold configured. now rewrite E.
Qed.

Lemma yields_timer P t callback k :
  (forall err, P (AwaitForever t err)) -> yields P k ->
  yields P (timer_resolves t callback k).
Proof.
  intros Hf Hk st st' c. unfold timer_resolves.
  destruct (callback st) as [st1 [a|err]]; [apply Hk|].
  intros [= _ <-]. apply Hf.
Qed.

Lemma yields_resume env k :
  yields (fun k' => awaits_left k' = pred (awaits_left k) /\
                    (stuck k' = false -> awaits_left k' <> 0) /\
                    target_of k' = target_of k)
         (switchScene_resume env k).
Proof.
  destruct k as [t p|t p|t p|t e];
    cbn [switchScene_resume awaits_left target_of pred].
  - apply yields_try, yields_await. unfold after_fadeOut.
    repeat (apply yields_bind; intros ?). now apply yields_some.
  - apply yields_try, yields_await. unfold after_delay.
    apply yields_bind; intros ?. now apply yields_some.
  - assert (H : forall P, yields P (try_catch_finally (after_fadeIn env t))).
    { intros P. apply yields_try. unfold after_fadeIn.
      repeat (apply yields_bind; intros ?). apply yields_none. }
    destruct p; [apply yields_timer; [|apply H]|].
    { intros err. repeat split. discriminate. }
    apply yields_try, yields_await. unfold after_fadeIn.
    repeat (apply yields_bind; intros ?). apply yields_none.
  - apply yields_some. repeat split. discriminate.
Qed.

(** The calls in flight after a request: those before, and possibly the
    new one. *)
Lemma request_pending env targetYear m :
  pending (request env targetYear m) = pending m \/
  exists k, pending (request env targetYear m) = pending m ++ [k] /\
            awaits_left k = 3 /\ target_of k = targetYear /\
            configured env targetYear.
Proof.
  unfold request.
  destruct (switchScene_entry env targetYear (state m, trace m))
    as [[s tr] [[k|]|err]] eqn:E; [right | now left | now left].
  exists k. split; [reflexivity|]. eapply (yields_entry env targetYear), E.
Qed.

Lemma resume_pending env m k rest :
  pending m = k :: rest ->
  pending (resume env m) = rest \/
  exists k', pending (resume env m) = k' :: rest /\
             awaits_left k' = pred (awaits_left k) /\
             (stuck k' = false -> awaits_left k' <> 0) /\
             target_of k' = target_of k.
Proof.
  intros Hp. unfold resume. rewrite Hp.
  destruct (switchScene_resume env k (state m, trace m))
    as [[s tr] [[k'|]|err]] eqn:E; [right | now left | now left].
  exists k'. split; [reflexivity|]. eapply (yields_resume env k), E.
Qed.

Lemma resume_nothing env m : pending m = [] -> resume env m = m.
Proof. intros H. unfold resume. now rewrite H. Qed.

(* ------------------------------------------------------------------- *)
(*  currentScene only takes configured values                          *)
(* ------------------------------------------------------------------- *)
Lemma moves_to_permits t e : permits (moves_to t) e.
Proof. intros s tr. now left. Qed.

Lemma moves_to_guard t b : respects (moves_to t) (set_isTransitioning b).
Proof. intros [s tr]. now left. Qed.

Lemma moves_to_commit t : respects (moves_to t) (set_currentScene t).
Proof. intros [s tr]. now right. Qed.

Lemma stays_permits e : permits stays e.
Proof. intros s tr. reflexivity. Qed.

Lemma stays_guard b : respects stays (set_isTransitioning b).
Proof. intros [s tr]. reflexivity. Qed.

Lemma request_stays env targetYear m :
  currentScene (state (request env targetYear m)) = currentScene (state m).
Proof.
  change (stays (state m, trace m)
            (state (request env targetYear m), trace (request env targetYear m))).
  apply request_respects; [typeclasses eauto | | apply stays_guard].
  intros e _. apply stays_permits.
Qed.

Lemma resume_moves env m k rest :
  pending m = k :: rest ->
  currentScene (state (resume env m)) = currentScene (state m) \/
  currentScene (state (resume env m)) = target_of k.
Proof.
  intros Hp.
  change (moves_to (target_of k) (state m, trace m)
            (state (resume env m), trace (resume env m))).
  apply (resume_respects _ env m k rest Hp).
  apply respects_resume; try typeclasses eauto.
  - intros e _. apply moves_to_permits.
  - intros. apply moves_to_permits.
  - apply moves_to_guard.
  - intros. apply moves_to_permits.
  - apply moves_to_commit.
Qed.

Lemma step_scene_known env m ev : scene_known env m -> scene_known env (step env m ev).
Proof.
  intros [Hs Hp]. destruct ev as [targetYear|]; cbn [step].
  - split; [now rewrite request_stays|].
    destruct (request_pending env targetYear m) as [->|(k & -> & _ & Ht & Hc)];
      [exact Hp|].
    apply Forall_app. split; [exact Hp|]. apply Forall_singleton. now rewrite Ht.
  - destruct (pending m) as [|k rest] eqn:E;
      [rewrite (resume_nothing env m E); split; [exact Hs | now rewrite E]|].
    apply Forall_cons in Hp. destruct Hp as [Hk Hrest]. split.
    + destruct (resume_moves env m k rest E) as [->| ->]; [exact Hs | now right].
    + destruct (resume_pending env m k rest E) as [->|(k' & -> & _ & _ & Ht)];
        [exact Hrest|].
      apply Forall_cons. split; [now rewrite Ht | exact Hrest].
Qed.

(** currentScene only takes values that passed the check of switchScene. *)
Lemma run_scene_known env evs :
  let m := run env boot evs in
  currentScene (state m) = "2000" \/
  is_Some (scenes env !! currentScene (state m)).
Proof.
  assert (H : forall evs m, scene_known env m -> scene_known env (run env m evs)).
  { clear evs. induction evs as [|ev evs IH]; intros m Hm; [exact Hm|].
    apply IH. now apply step_scene_known. }
  apply (H evs boot). split; [now left | constructor].
Qed.

(** X3.  CONFIG.scenes being an object literal with the own entries
    [own]: whatever is requested and whatever raises, currentScene is the
    constructor's "2000", an own key of CONFIG.scenes, or a name that the
    literal inherits from Object.prototype.  The last does happen: on the
    page of the demo every such name, requested as a scene, passes the
    check [!CONFIG.scenes[targetYear]] and is committed as currentScene. *)
Theorem currentScene_stays_configured own env evs :
  ObjectLiteral.lookups_of own (scenes env) ->
  let m := run env boot evs in
  (currentScene (state m) = "2000" \/
   is_Some (own !! currentScene (state m)) \/
   ObjectLiteral.inherited (currentScene (state m)) = true) /\
  (forall key,
      ObjectLiteral.inherited key = true ->
      scenes demo_env !! key = None /\
      currentScene (state (run prototype_env boot [Request key; Settle])) = key).
Proof.
  intros Hl m. split.
  - destruct (run_scene_known env evs) as [H|H]; fold m in H; [now left | right].
    specialize (Hl (currentScene (state m))).
    destruct (own !! currentScene (state m)) as [cfg|]; [left; eauto | right].
    now apply Hl.
  - intros key Hk. apply ObjectLiteralProofs.inherited_spec in Hk.
    unfold ObjectLiteral.Object_prototype in Hk.
    repeat (apply elem_of_cons in Hk; destruct Hk as [->|Hk];
            [split; vm_compute; reflexivity|]).
    now apply elem_of_nil in Hk.
Qed.

Lemma currentScene_stays_configured_witness :
  ObjectLiteral.lookups_of (scenes demo_env) (scenes prototype_env) /\
  (let m := run prototype_env boot [Request "toString"; Settle; Request "2050"] in
   currentScene (state m) = "2000" \/
   is_Some (scenes demo_env !! currentScene (state m)) \/
   ObjectLiteral.inherited (currentScene (state m)) = true).
Proof.
  split; [apply ObjectLiteralProofs.lookups_spec|].
  apply (currentScene_stays_configured (scenes demo_env) prototype_env
           [Request "toString"; Settle; Request "2050"]).
  apply ObjectLiteralProofs.lookups_spec.
Defined.

(* ------------------------------------------------------------------- *)
(*  One request and the awaits that follow it                          *)
(* ------------------------------------------------------------------- *)
Lemma settle_S env m n :
  run env m (repeat Settle (S n)) = resume env (run env m (repeat Settle n)).
Proof.
  cbn [repeat]. rewrite repeat_cons. unfold run. now rewrite fold_left_app.
Qed.

Lemma settle_drained env m n : pending m = [] -> run env m (repeat Settle n) = m.
Proof.
  intros H. induction n as [|n IH]; [reflexivity|].
  rewrite settle_S, IH. now apply resume_nothing.
Qed.

Lemma settle_add env m i j :
  run env m (repeat Settle (i + j)) =
  run env (run env m (repeat Settle i)) (repeat Settle j).
Proof. unfold run. now rewrite repeat_app, fold_left_app. Qed.

Lemma never_emits_commit e t :
  e <> SetCurrentScene t -> respects (never_emits e) (set_currentScene t).
Proof.
  intros Hne [s tr]. cbn. exists [SetCurrentScene t]. split; [reflexivity|].
  rewrite list_elem_of_singleton. congruence.
Qed.

(** A call that is not at its last await is resumed without hiding the
    overlay. *)
Lemma resume_early_overlay env ov m :
  (forall year el, sceneElements env !! year = Some el -> el <> ov) ->
  (pending m = [] \/ exists k, pending m = [k] /\ 2 <= awaits_left k) ->
  never_emits (SetVisible ov false) (state m, trace m)
    (state (resume env m), trace (resume env m)).
Proof.
  intros Hel [Hp|(k & Hp & Hk)].
  - rewrite (resume_nothing env m Hp). reflexivity.
  - apply (resume_respects (never_emits (SetVisible ov false)) env m k [] Hp).
    apply respects_resume_early; try typeclasses eauto; try exact Hk.
    + intros e He. apply never_emits_permits, He.
    + intros year el Hy. apply never_emits_permits.
      intros [= ->]. now apply (Hel year ov).
    + apply never_emits_guard.
    + now apply never_emits_commit.
Qed.

(** X4.  One request A -> B and the awaits that follow it, whatever
    raises: currentScene is A or B at every moment; and when the call ends
    before its third await (B was rejected, or a step raised), nothing ever
    hides the fade overlay again: a transition that fails after the fade to
    opaque leaves the overlay up. *)
Theorem failed_transition_leaves_overlay env A B tr ov :
  fadeOverlay env = Some ov ->
  (forall year el, sceneElements env !! year = Some el -> el <> ov) ->
  let after n := run env (idle_at A tr) (Request B :: repeat Settle n) in
  (forall n, currentScene (state (after n)) = A \/
             currentScene (state (after n)) = B) /\
  (pending (after 2) = [] ->
   forall n, exists new, trace (after n) = tr ++ new /\ SetVisible ov false ∉ new).
Proof.
  intros Hov Hel after.
  set (m0 := request env B (idle_at A tr)).
  assert (Ha : forall n, after n = run env m0 (repeat Settle n)) by reflexivity.
  split.
  - assert (H : forall n,
               (currentScene (state (after n)) = A \/
                currentScene (state (after n)) = B) /\
               Forall (fun k => target_of k = B) (pending (after n))).
    { induction n as [|n [Hs Hp]].
      - rewrite Ha. cbn [repeat run fold_left]. split.
        + left. unfold m0. now rewrite request_stays.
        + unfold m0.
          destruct (request_pending env B (idle_at A tr))
            as [->|(k & -> & _ & Ht & _)]; cbn [idle_at pending app];
            [constructor | now apply Forall_singleton].
      - rewrite Ha, settle_S, <- Ha.
        destruct (pending (after n)) as [|k rest] eqn:E.
        + rewrite (resume_nothing env _ E). split; [exact Hs | now rewrite E].
        + apply Forall_cons in Hp. destruct Hp as [Hk Hrest]. split.
          * destruct (resume_moves env _ k rest E) as [->| ->];
              [exact Hs | right; exact Hk].
          * destruct (resume_pending env _ k rest E)
              as [->|(k' & -> & _ & _ & Ht)]; [exact Hrest|].
            apply Forall_cons. split; [congruence | exact Hrest]. }
    intros n. apply H.
  - intros Hdone.
    assert (R0 : never_emits (SetVisible ov false)
                   ({| currentScene := A; isTransitioning := false |}, tr)
                   (state m0, trace m0)).
    { apply (request_respects (never_emits (SetVisible ov false)) env
               (fun e He => never_emits_permits _ e (He ov))
               (never_emits_guard _) B (idle_at A tr)). }
    assert (P0 : pending m0 = [] \/
                 exists k, pending m0 = [k] /\ awaits_left k = 3).
    { unfold m0.
      destruct (request_pending env B (idle_at A tr))
        as [->|(k & -> & Hk & _)]; [now left | right].
      exists k. now split. }
    set (m1 := resume env m0).
    assert (R1 : never_emits (SetVisible ov false) (state m0, trace m0)
                   (state m1, trace m1)).
    { apply resume_early_overlay; [exact Hel|].
      destruct P0 as [?|(k & ? & Hk)]; [now left | right].
      exists k. split; [assumption | lia]. }
    assert (P1 : pending m1 = [] \/
                 exists k, pending m1 = [k] /\ awaits_left k = 2).
    { destruct P0 as [E|(k & E & Hk)].
      - left. unfold m1. now rewrite (resume_nothing env m0 E).
      - unfold m1.
        destruct (resume_pending env m0 k [] E) as [->|(k' & -> & Hk' & _)];
          [now left | right].
        exists k'. split; [reflexivity | rewrite Hk', Hk; reflexivity]. }
    set (m2 := resume env m1).
    assert (R2 : never_emits (SetVisible ov false) (state m1, trace m1)
                   (state m2, trace m2)).
    { apply resume_early_overlay; [exact Hel|].
      destruct P1 as [?|(k & ? & Hk)]; [now left | right].
      exists k. split; [assumption | lia]. }
    assert (E1 : after 1 = m1) by (rewrite Ha; apply (settle_S env m0 0)).
    assert (E2 : after 2 = m2).
    { rewrite Ha, settle_S, <- Ha, E1. reflexivity. }
    rewrite E2 in Hdone.
    intros [|[|n]].
    + exact R0.
    + rewrite E1. exact (transitivity R0 R1).
    + replace (S (S n)) with (2 + n) by lia.
      rewrite Ha, settle_add, <- Ha, E2, (settle_drained env m2 n Hdone).
      exact (transitivity R0 (transitivity R1 R2)).
Qed.

(* ------------------------------------------------------------------- *)
(*  reset                                                              *)
(* ------------------------------------------------------------------- *)
Lemma quiet_transition env A B tr :
  quiet env -> is_Some (scenes env !! B) -> A <> B ->
  exists new,
    run env (idle_at A tr) (Request B :: repeat Settle 3) =
    {| state := {| currentScene := B; isTransitioning := false |};
       trace := tr ++ new; pending := [] |}.
Proof.
  intros Hq HB HAB.
  destruct (switchScene_entry_run env Hq A B tr HB HAB) as (n1 & E1 & _).
  destruct (after_fadeOut_run env Hq A B true (tr ++ n1)) as (n2 & E2 & _).
  destruct (after_delay_run env Hq
              {| currentScene := B; isTransitioning := true |}
              ((tr ++ n1) ++ n2) B) as (n3 & E3 & _).
  destruct (after_fadeIn_run env Hq B true (((tr ++ n1) ++ n2) ++ n3) B)
    as (n4 & E4 & _).
  exists (n1 ++ n2 ++ n3 ++ n4).
  change (run env (idle_at A tr) (Request B :: repeat Settle 3))
    with (resume env (resume env (resume env (request env B (idle_at A tr))))).
  assert (H0 : request env B (idle_at A tr) =
               {| state := {| currentScene := A; isTransitioning := true |};
                  trace := tr ++ n1;
                  pending := [AwaitFadeOut B Resolves] |})
    by (now erewrite request_suspends by exact E1).
  rewrite H0.
  assert (H1 : forall s0 tr0 k0 s1 tr1 k1,
             switchScene_resume env k0 (s0, tr0) = ((s1, tr1), Ret (Some k1)) ->
             resume env {| state := s0; trace := tr0; pending := [k0] |} =
             {| state := s1; trace := tr1; pending := [k1] |}).
  { intros s0 tr0 k0 s1 tr1 k1 E.
    now erewrite resume_suspends by (reflexivity || exact E). }
  rewrite (H1 _ _ _ _ _ _ E2), (H1 _ _ _ _ _ _ E3).
  erewrite resume_completes by (reflexivity || exact E4).
  now rewrite <- !app_assoc.
Qed.

Lemma request_same_scene env A tr :
  is_Some (scenes env !! A) ->
  request env A (idle_at A tr) =
  idle_at A (tr ++ [ConsoleLog ("[SceneManager] Already in scene: " +:+ A)]).
Proof.
  intros [cfg Hcfg]. unfold request, switchScene_entry, idle_at. cbn [state trace].
  erewrite bind_Ret by apply get_run. cbn [isTransitioning currentScene pending].
  rewrite Hcfg, String.eqb_refl. reflexivity.
Qed.

(** X5.  reset() from an idle SceneManager, when no call raises and the
    first entry of sceneOrder is configured: after the three awaits
    currentScene is that first entry, the guard is Idle and no call is in
    flight; when the first scene is already current, reset only writes a
    console line. *)
Theorem reset_returns_to_first env first rest A tr :
  quiet env ->
  is_Some (scenes env !! first) ->
  let m := run env (reset env (first :: rest) (idle_at A tr)) [Settle; Settle; Settle] in
  currentScene (state m) = first /\ Idle m /\ pending m = [] /\
  (A = first -> side_effects (trace m) = side_effects tr).
Proof.
  intros Hq Hfirst m. unfold reset in m. cbn [lookup list_lookup default] in m.
  destruct (decide (A = first)) as [->|Hne].
  - assert (Hm : m = idle_at first
                       (tr ++ [ConsoleLog ("[SceneManager] Already in scene: " +:+ first)])).
    { unfold m. rewrite request_same_scene by exact Hfirst.
      apply (settle_drained env _ 3). reflexivity. }
    rewrite Hm. repeat split. intros _. cbn [trace idle_at].
    rewrite side_effects_app. apply app_nil_r.
  - destruct (quiet_transition env A first tr Hq Hfirst Hne) as (new & E).
    change m with (run env (idle_at A tr) (Request first :: repeat Settle 3)).
    rewrite E. repeat split. intros ->. congruence.
Qed.

(* ------------------------------------------------------------------- *)
(*  init                                                               *)
(* ------------------------------------------------------------------- *)
Lemma register_spec scenes getElementById sceneOrder : forall sceneElements,
  match register scenes getElementById sceneOrder sceneElements with
  | inr registered =>
      (forall year, year ∈ sceneOrder -> is_Some (scenes !! year)) /\
      forall year,
        registered !! year =
        if bool_decide (year ∈ sceneOrder)
        then cfg ← scenes !! year; getElementById (scene_id cfg)
        else sceneElements !! year
  | inl _ => exists year, year ∈ sceneOrder /\ scenes !! year = None
  end.
Proof.
  induction sceneOrder as [|y rest IH]; intros acc; cbn [register].
  - split; [intros year H; now apply elem_of_nil in H | intros year].
    rewrite bool_decide_eq_false_2; [reflexivity | apply not_elem_of_nil].
  - destruct (scenes !! y) as [cfg|] eqn:Ey.
    2: { exists y. split; [left | exact Ey]. }
    set (acc' := match getElementById (scene_id cfg) with
                 | Some el => <[y := el]> acc
                 | None => delete y acc
                 end).
    specialize (IH acc').
    destruct (register scenes getElementById rest acc') as [err|registered].
    + destruct IH as (year & Hin & Hnone). exists year. split; [now right | exact Hnone].
    + destruct IH as [Hall Hlook]. split.
      * intros year Hin. apply elem_of_cons in Hin. destruct Hin as [->|Hin];
          [now rewrite Ey | now apply Hall].
      * intros year. rewrite Hlook.
        destruct (decide (year ∈ rest)) as [Hin|Hout].
        { rewrite !bool_decide_eq_true_2; [reflexivity | now right | exact Hin]. }
        rewrite (bool_decide_eq_false_2 _ Hout).
        destruct (decide (year = y)) as [->|Hne].
        { rewrite bool_decide_eq_true_2 by left. rewrite Ey. cbn. unfold acc'.
          destruct (getElementById (scene_id cfg));
            [apply lookup_insert_eq | apply lookup_delete_eq]. }
        rewrite bool_decide_eq_false_2.
        2: { intros Hin. apply elem_of_cons in Hin. tauto. }
        unfold acc'. destruct (getElementById (scene_id cfg));
          [now apply lookup_insert_ne | now apply lookup_delete_ne].
Qed.

(** X6.  init() raises exactly when sceneOrder lists a year without an
    entry in CONFIG.scenes; otherwise the fade overlay is the page's
    #fade-overlay and sceneElements holds, for the listed years and no
    others, the handle the page has for the scene's id. *)
Theorem init_registers_scene_order scenes getElementById sceneOrder :
  match init scenes getElementById sceneOrder with
  | inr (sceneElements, fadeOverlay) =>
      (forall year, year ∈ sceneOrder -> is_Some (scenes !! year)) /\
      fadeOverlay = getElementById "fade-overlay" /\
      forall year,
        sceneElements !! year =
        if bool_decide (year ∈ sceneOrder)
        then cfg ← scenes !! year; getElementById (scene_id cfg)
        else None
  | inl _ => exists year, year ∈ sceneOrder /\ scenes !! year = None
  end.
Proof.
  unfold init. pose proof (register_spec scenes getElementById sceneOrder ∅) as H.
  destruct (register scenes getElementById sceneOrder ∅) as [err|registered];
    [exact H|].
  destruct H as [Hall Hlook]. split; [exact Hall|]. split; [reflexivity|].
  intros year. rewrite Hlook. now rewrite lookup_empty.
Qed.

(* ------------------------------------------------------------------- *)
(*  The theorems at work                                               *)
(* ------------------------------------------------------------------- *)
Lemma scene_order_round_trip_witness :
  NoDup ["2000"; "2020"; "2050"] /\
  "2050" ∈ ["2000"; "2020"; "2050"] /\
  exists next prev,
    getNextScene ["2000"; "2020"; "2050"] (at_scene "2050" constructor) = Some next /\
    next ∈ ["2000"; "2020"; "2050"] /\
    getPreviousScene ["2000"; "2020"; "2050"] (at_scene "2050" constructor) = Some prev /\
    prev ∈ ["2000"; "2020"; "2050"] /\
    getPreviousScene ["2000"; "2020"; "2050"]
      (at_scene next (at_scene "2050" constructor)) = Some "2050" /\
    getNextScene ["2000"; "2020"; "2050"]
      (at_scene prev (at_scene "2050" constructor)) = Some "2050".
Proof.
  assert (Hnd : NoDup ["2000"; "2020"; "2050"])
    by (apply (bool_decide_unpack _); vm_compute; reflexivity).
  assert (Hin : "2050" ∈ ["2000"; "2020"; "2050"])
    by (apply (bool_decide_unpack _); vm_compute; reflexivity).
  split; [exact Hnd|]. split; [exact Hin|].
  exact (scene_order_round_trip ["2000"; "2020"; "2050"]
           (at_scene "2050" constructor) Hnd Hin).
Defined.

Lemma scene_order_outside_witness :
  ("1999" ∉ ["2000"; "2020"; "2050"]) /\
  getNextScene ["2000"; "2020"; "2050"] (at_scene "1999" constructor) = Some "2000" /\
  getPreviousScene ["2000"; "2020"; "2050"] (at_scene "1999" constructor) = Some "2020".
Proof.
  assert (Hout : "1999" ∉ ["2000"; "2020"; "2050"])
    by (apply (bool_decide_unpack _); vm_compute; reflexivity).
  split; [exact Hout|].
  exact (scene_order_outside ["2000"; "2020"; "2050"]
           (at_scene "1999" constructor) Hout).
Defined.

Lemma failing_env_overlay year el :
  sceneElements failing_env !! year = Some el -> el <> "fade-overlay".
Proof.
  revert year el.
  change (map_Forall (fun _ el => el <> "fade-overlay") (sceneElements failing_env)).
  apply (bool_decide_unpack _). vm_compute. reflexivity.
Defined.

Lemma failed_transition_leaves_overlay_witness :
  fadeOverlay failing_env = Some "fade-overlay" /\
  pending (run failing_env (idle_at "2000" []) [Request "2020"; Settle; Settle]) = [] /\
  (exists new,
     trace (run failing_env (idle_at "2000" [])
              (Request "2020" :: repeat Settle 3)) = [] ++ new /\
     SetVisible "fade-overlay" false ∉ new) /\
  (currentScene (state (run failing_env (idle_at "2000" [])
                          (Request "2020" :: repeat Settle 3))) = "2000" \/
   currentScene (state (run failing_env (idle_at "2000" [])
                          (Request "2020" :: repeat Settle 3))) = "2020").
Proof.
  pose proof (failed_transition_leaves_overlay failing_env "2000" "2020" []
                "fade-overlay" eq_refl failing_env_overlay) as [Hscene Hoverlay].
  split; [reflexivity|]. split; [reflexivity|]. split.
  - apply (Hoverlay eq_refl 3).
  - apply (Hscene 3).
Defined.

Lemma reset_returns_to_first_witness :
  quiet demo_env /\
  is_Some (scenes demo_env !! "2000") /\
  let m := run demo_env (reset demo_env ["2000"; "2020"; "2050"] (idle_at "2050" []))
             [Settle; Settle; Settle] in
  currentScene (state m) = "2000" /\ Idle m /\ pending m = [] /\
  ("2050" = "2000" -> side_effects (trace m) = side_effects []).
Proof.
  assert (Hc : is_Some (scenes demo_env !! "2000")) by (vm_compute; eauto).
  split; [exact demo_env_quiet|]. split; [exact Hc|].
  exact (reset_returns_to_first demo_env "2000" ["2020"; "2050"] "2050" []
           demo_env_quiet Hc).
Defined.

End SceneNavigationProofs.
Module AudioPlayerProofs.
Import AudioController AudioPlayer AudioControllerProofs.

(* ------------------------------------------------------------------- *)
(*  Volumes stay in [0, 1]                                             *)
(* ------------------------------------------------------------------- *)
Lemma get_volume_update el' el f w :
  get_volume el' (update_element el f w) =
  if String.eqb el' el then volume (f (elements w el')) else get_volume el' w.
Proof.
  unfold get_volume, update_element. simpl. now destruct (String.eqb el' el).
Qed.

Lemma range_update el f w :
  (forall a, unit_interval (volume a) -> unit_interval (volume (f a))) ->
  volumes_in_range w -> volumes_in_range (update_element el f w).
Proof.
  intros Hf (Hm & Hv & Hi). split; [exact Hm|]. split; [|exact Hi].
  intros el'. rewrite get_volume_update.
  destruct (String.eqb el' el); [apply Hf|]; apply Hv.
Qed.

Lemma range_set_volume el v w :
  unit_interval v -> volumes_in_range w -> volumes_in_range (set_volume el v w).
Proof. intros Hv. apply range_update. intros a _. exact Hv. Qed.

Lemma range_set_currentTime el t w :
  volumes_in_range w -> volumes_in_range (set_currentTime el t w).
Proof. apply range_update. auto. Qed.

Lemma range_start_playback el w :
  volumes_in_range w -> volumes_in_range (start_playback el w).
Proof. apply range_update. auto. Qed.

Lemma range_pause el w : volumes_in_range w -> volumes_in_range (pause el w).
Proof. apply range_update. auto. Qed.

Lemma range_pause_and_rewind el w :
  volumes_in_range w -> volumes_in_range (pause_and_rewind el w).
Proof. apply range_update. auto. Qed.

Lemma range_with_intervals ivs w :
  (forall id iv, ivs !! id = Some iv -> sane_closure (closure iv)) ->
  volumes_in_range w -> volumes_in_range (with_intervals ivs w).
Proof. intros Hivs (Hm & Hv & _). split; [exact Hm|]. split; [exact Hv | exact Hivs]. Qed.

Lemma range_setInterval f ms w :
  sane_closure f -> volumes_in_range w -> volumes_in_range (setInterval f ms w).
Proof.
  intros Hf (Hm & Hv & Hi). split; [exact Hm|]. split; [exact Hv|].
  intros id iv. cbn [intervals setInterval].
  destruct (decide (id = nextTimer w)) as [->|Hne].
  - rewrite lookup_insert_eq. intros [= <-]. exact Hf.
  - rewrite lookup_insert_ne by congruence. apply Hi.
Qed.

Lemma range_invoke cb w : volumes_in_range w -> volumes_in_range (invoke cb w).
Proof.
  destruct cb as [[el]|]; [|auto]. intros H.
  apply (range_pause_and_rewind el) in H. exact H.
Qed.

Lemma unit_zero : unit_interval 0.
Proof. split; lra. Qed.

Lemma range_fadeIn audioEl w :
  volumes_in_range w -> volumes_in_range (fadeIn audioEl w).
Proof.
  intros H. destruct audioEl as [el|]; [|exact H]. unfold fadeIn.
  apply range_setInterval.
  - cbn [sane_closure masterVolume set_volume update_element with_elements].
    destruct H as (Hm & _). split; [exact Hm | apply step_nonneg, Hm].
  - apply range_set_volume; [apply unit_zero | exact H].
Qed.

Lemma range_fadeOut audioEl cb w :
  volumes_in_range w -> volumes_in_range (fadeOut audioEl cb w).
Proof.
  intros H. destruct audioEl as [el|]; [|exact H]. unfold fadeOut.
  apply range_setInterval; [|exact H].
  destruct H as (_ & Hv & _). split; [apply Hv | apply step_nonneg, Hv].
Qed.

Lemma range_stopSceneAudio year w :
  volumes_in_range w -> volumes_in_range (stopSceneAudio year w).
Proof.
  intros H. unfold stopSceneAudio.
  destruct (audioElements w !! year); [now apply range_fadeOut | exact H].
Qed.

Lemma range_tick id w : volumes_in_range w -> volumes_in_range (tick id w).
Proof.
  intros H. unfold tick.
  destruct (intervals w !! id) as [[p f]|] eqn:E; [|exact H].
  pose proof H as (_ & _ & Hi). specialize (Hi id _ E). cbn [closure] in *.
  assert (Halter : forall g, sane_closure g ->
            forall id' iv',
              alter (fun iv => {| period := period iv; closure := g |}) id
                    (intervals w) !! id' = Some iv' ->
              sane_closure (closure iv')).
  { intros g Hg id' iv'. destruct (decide (id' = id)) as [->|Hne].
    - rewrite lookup_alter_eq, E. intros [= <-]. exact Hg.
    - rewrite lookup_alter_ne by congruence. destruct H as (_ & _ & Hi'). apply Hi'. }
  assert (Hdel : forall w', volumes_in_range w' ->
                   volumes_in_range (clearInterval id w')).
  { intros w' H'. apply range_with_intervals; [|exact H'].
    intros id' iv' Hl. apply lookup_delete_Some in Hl.
    destruct H' as (_ & _ & Hi'). now apply (Hi' id'). }
  destruct f as [el target step cur | el start step cur cb];
    destruct Hi as [Ht Hs].
  - assert (Hv : unit_interval (Qmin (step * Qnat (S cur)) target)).
    { split.
      - apply Q.min_glb; [|apply Ht].
        apply Qmult_le_0_compat; [exact Hs | apply Qnat_nonneg].
      - eapply Qle_trans; [apply Q.le_min_r | apply Ht]. }
    assert (H2 : volumes_in_range
                   (set_volume el (Qmin (step * Qnat (S cur)) target)
                      (store_closure id (FadeInTimer el target step (S cur)) w))).
    { apply range_set_volume; [exact Hv|].
      apply range_with_intervals; [|exact H]. apply Halter. now split. }
    destruct (steps <=? S cur); [|exact H2].
    apply range_set_volume; [exact Ht|]. now apply Hdel.
  - assert (Hv : unit_interval (Qmax (start - step * Qnat (S cur)) 0)).
    { split.
      - apply Q.le_max_r.
      - apply Q.max_lub; [|lra].
        pose proof (Qmult_le_0_compat _ _ Hs (Qnat_nonneg (S cur))).
        destruct Ht. lra. }
    assert (H2 : volumes_in_range
                   (set_volume el (Qmax (start - step * Qnat (S cur)) 0)
                      (store_closure id (FadeOutTimer el start step (S cur) cb) w))).
    { apply range_set_volume; [exact Hv|].
      apply range_with_intervals; [|exact H]. apply Halter. now split. }
    destruct ((steps <=? S cur) || _); [|exact H2].
    apply range_invoke, range_set_volume; [apply unit_zero|]. now apply Hdel.
Qed.

Lemma range_for_each f els : forall w,
  (forall el w, volumes_in_range w -> volumes_in_range (f el w)) ->
  volumes_in_range w -> volumes_in_range (for_each f els w).
Proof.
  induction els as [|el els IH]; intros w Hf H; [exact H|].
  cbn [for_each fold_left]. apply IH; [exact Hf | now apply Hf].
Qed.

Lemma range_register_audio year el w :
  volumes_in_range w -> volumes_in_range (register_audio year el w).
Proof. intros H. exact H. Qed.

Lemma range_register audioIds getElementById sceneOrder : forall w,
  volumes_in_range w ->
  volumes_in_range (fst (register audioIds getElementById sceneOrder w)).
Proof.
  induction sceneOrder as [|year rest IH]; intros w H; [exact H|].
  cbn [register]. destruct (audioIds !! year) as [audioId|]; [|exact H].
  destruct (getElementById audioId) as [audioEl|]; apply IH; [|exact H].
  apply range_set_volume; [apply unit_zero | now apply range_register_audio].
Qed.

Lemma unit_scaled v : unit_interval v -> unit_interval (v * (8 # 10)).
Proof. intros [H0 H1]. split; lra. Qed.

Lemma range_muteAll p : volumes_in_range (world p) -> volumes_in_range (world (muteAll p)).
Proof.
  intros H. unfold muteAll. cbn [world with_world].
  assert (H' : volumes_in_range
                 (for_each (fun audioEl => set_volume audioEl 0)
                    (registered (world p)) (world p))).
  { apply range_for_each; [|exact H].
    intros el w. apply range_set_volume, unit_zero. }
  destruct (transitionAudio p); [|exact H'].
  now apply range_set_volume; [apply unit_zero|].
Qed.

Lemma range_unmuteAll p :
  volumes_in_range (world p) -> volumes_in_range (world (unmuteAll p)).
Proof.
  intros H. unfold unmuteAll. cbn [world with_world].
  assert (H' : volumes_in_range
                 match currentAudio p with
                 | Some current => set_volume current (masterVolume (world p)) (world p)
                 | None => world p
                 end).
  { destruct (currentAudio p); [|exact H].
    apply range_set_volume; [apply H | exact H]. }
  destruct (transitionAudio p); [|exact H'].
  apply range_set_volume; [|exact H'].
  apply unit_scaled. destruct (currentAudio p); apply H.
Qed.

Lemma range_stopAll p : volumes_in_range (world p) -> volumes_in_range (world (stopAll p)).
Proof.
  intros H. unfold stopAll. cbn [world]. apply range_for_each; [|exact H].
  intros el w Hw. apply range_set_volume; [apply unit_zero|].
  now apply range_set_currentTime, range_pause.
Qed.

Lemma range_handle p op :
  volumes_in_range (world p) -> volumes_in_range (world (handle p op)).
Proof.
  intros H. destruct op; cbn [handle].
  - unfold setup.
    pose proof (range_register audioIds getElementById sceneOrder (world p) H) as Hr.
    destruct (register audioIds getElementById sceneOrder (world p)) as [w [err|]];
      cbn [fst] in Hr; [exact Hr|]. cbn [world].
    destruct (getElementById "audio-transition"); [|exact Hr].
    apply range_set_volume; [apply unit_scaled, Hr | exact Hr].
  - unfold playSceneAudio. destruct (negb (isInitialized p)); [exact H|].
    destruct (audioElements (world p) !! year) as [audioEl|]; [|exact H].
    cbn [world].
    assert (H1 : volumes_in_range
                   match currentAudio p with
                   | Some current =>
                       if String.eqb current audioEl then world p
                       else fadeOut (Some current) None (world p)
                   | None => world p
                   end).
    { destruct (currentAudio p) as [current|]; [|exact H].
      destruct (String.eqb current audioEl); [exact H | now apply range_fadeOut]. }
    destruct allowed;
      [apply range_start_playback |]; now apply range_set_currentTime.
  - unfold run_reaction. destruct (reactions p); [exact H|].
    cbn [world]. now apply range_fadeIn.
  - cbn [world with_world]. now apply range_stopSceneAudio.
  - unfold playTransition. destruct (transitionAudio p); [|exact H].
    cbn [world with_world].
    destruct allowed;
      [apply range_start_playback |]; now apply range_set_currentTime.
  - unfold AudioPlayer.setMasterVolume. cbn [world with_world].
    assert (H1 : volumes_in_range (AudioController.setMasterVolume v (world p))).
    { destruct H as (_ & Hv & Hi). split; [apply setMasterVolume_range|].
      split; [exact Hv | exact Hi]. }
    destruct (currentAudio p); [|exact H1].
    apply range_set_volume; [apply H1 | exact H1].
  - now apply range_muteAll.
  - now apply range_unmuteAll.
  - now apply range_stopAll.
  - unfold cleanup. cbn [world]. apply (range_stopAll p) in H.
    destruct H as (Hm & Hv & Hi). split; [exact Hm|]. split; [exact Hv | exact Hi].
  - unfold key_m. destruct (negb _); [now apply range_muteAll | now apply range_unmuteAll].
  - unfold visibilitychange.
    destruct hidden; [now apply range_muteAll | now apply range_unmuteAll].
  - cbn [world with_world]. now apply range_tick.
Qed.

Lemma range_run ops : forall p,
  volumes_in_range (world p) -> volumes_in_range (world (run p ops)).
Proof.
  induction ops as [|op ops IH]; intros p H; [exact H|].
  apply IH. now apply range_handle.
Qed.

(** X7.  On a page whose audio elements start with a volume in [0, 1],
    whatever is done to the AudioController (setup, playing and stopping
    scenes, setMasterVolume with any number, muting, the M key, cleanup)
    and however the fade timers tick, the master volume and the volume of
    every element stay in [0, 1]: no assignment to [volume] is out of the
    range an audio element accepts.  A call of setMasterVolume with
    something that is not a number is outside this statement. *)
Theorem volumes_stay_in_unit_interval page ops :
  (forall el, unit_interval (volume (page el))) ->
  let p := run (constructor page) ops in
  unit_interval (masterVolume (world p)) /\
  forall el, unit_interval (get_volume el (world p)).
Proof.
  intros Hpage p.
  assert (H : volumes_in_range (world p)).
  { apply range_run. split; [split; cbn; unfold CONFIG_audio_masterVolume; lra|].
    split; [exact Hpage|].
    intros id iv. cbn. now rewrite lookup_empty. }
  split; apply H.
Qed.

(* ------------------------------------------------------------------- *)
(*  No operation cancels a fade                                        *)
(* ------------------------------------------------------------------- *)
Lemma for_each_timers f els : forall w,
  (forall el w, intervals (f el w) = intervals w /\ nextTimer (f el w) = nextTimer w) ->
  intervals (for_each f els w) = intervals w /\
  nextTimer (for_each f els w) = nextTimer w.
Proof.
  induction els as [|el els IH]; intros w Hf; [now split|].
  change (for_each f (el :: els) w) with (for_each f els (f el w)).
  destruct (IH (f el w) Hf) as [-> ->]. apply Hf.
Qed.

Lemma register_timers audioIds getElementById sceneOrder : forall w,
  intervals (fst (register audioIds getElementById sceneOrder w)) = intervals w /\
  nextTimer (fst (register audioIds getElementById sceneOrder w)) = nextTimer w.
Proof.
  induction sceneOrder as [|year rest IH]; intros w; [now split|].
  cbn [register]. destruct (audioIds !! year) as [audioId|]; [|now split].
  destruct (getElementById audioId) as [audioEl|]; [|apply IH].
  destruct (IH (set_volume audioEl 0 (register_audio year audioEl w))) as [-> ->].
  now split.
Qed.

(** What an operation other than a tick does to the timers: nothing, or
    one new timer under the next free id. *)
Lemma handle_timers p op :
  (forall id, op <> Tick id) ->
  (intervals (world (handle p op)) = intervals (world p) /\
   nextTimer (world (handle p op)) = nextTimer (world p)) \/
  (exists f, intervals (world (handle p op)) =
               <[nextTimer (world p) := f]> (intervals (world p)) /\
             nextTimer (world (handle p op)) = S (nextTimer (world p))).
Proof.
  intros Hop. destruct op; cbn [handle].
  - left. unfold setup.
    pose proof (register_timers audioIds getElementById sceneOrder (world p)) as Hr.
    destruct (register audioIds getElementById sceneOrder (world p)) as [w [err|]];
      cbn [fst] in Hr; [exact Hr|]. cbn [world].
    now destruct (getElementById "audio-transition").
  - unfold playSceneAudio. destruct (negb (isInitialized p)); [now left|].
    destruct (audioElements (world p) !! year) as [audioEl|]; [|now left].
    cbn [world]. destruct (currentAudio p) as [current|].
    + destruct (String.eqb current audioEl); [left | right; eexists];
        destruct allowed; split; reflexivity.
    + left. destruct allowed; split; reflexivity.
  - unfold run_reaction. destruct (reactions p); [now left|].
    right. eexists. cbn [world]. split; reflexivity.
  - cbn [world with_world]. unfold stopSceneAudio.
    destruct (audioElements (world p) !! year); [right; eexists | left];
      split; reflexivity.
  - left. unfold playTransition. destruct (transitionAudio p); [|now split].
    destruct allowed; split; reflexivity.
  - left. unfold AudioPlayer.setMasterVolume. cbn [world with_world].
    destruct (currentAudio p); split; reflexivity.
  - left. unfold muteAll. cbn [world with_world].
    destruct (for_each_timers (fun audioEl => set_volume audioEl 0)
                (registered (world p)) (world p)) as [E1 E2]; [now split|].
    destruct (transitionAudio p); cbn; now rewrite ?E1, ?E2.
  - left. unfold unmuteAll. cbn [world with_world].
    destruct (currentAudio p), (transitionAudio p); split; reflexivity.
  - left. unfold stopAll. cbn [world]. apply for_each_timers. now split.
  - left. unfold cleanup, stopAll. cbn [world intervals nextTimer].
    apply for_each_timers. now split.
  - left. unfold key_m, muteAll, unmuteAll. cbn [world with_world].
    destruct (for_each_timers (fun audioEl => set_volume audioEl 0)
                (registered (world p)) (world p)) as [E1 E2]; [now split|].
    destruct (negb _), (currentAudio p), (transitionAudio p); cbn;
      now rewrite ?E1, ?E2.
  - left. unfold visibilitychange, muteAll, unmuteAll. cbn [world with_world].
    destruct (for_each_timers (fun audioEl => set_volume audioEl 0)
                (registered (world p)) (world p)) as [E1 E2]; [now split|].
    destruct hidden, (currentAudio p), (transitionAudio p); cbn;
      now rewrite ?E1, ?E2.
  - now destruct (Hop id).
Qed.

Lemma tick_nextTimer id w : nextTimer (tick id w) = nextTimer w.
Proof.
  destruct (intervals w !! id) as [[p f]|] eqn:E; [|now rewrite tick_dead].
  destruct f as [el t s c | el st s c cb].
  - now apply (tick_fadeIn w id p el t s c E).
  - now apply (tick_fadeOut w id p el st s c cb E).
Qed.

Lemma fresh_handle p op : fresh_ids (world p) -> fresh_ids (world (handle p op)).
Proof.
  intros Hf. assert (Hdec : (forall id, op <> Tick id) \/ exists id, op = Tick id).
  { destruct op; try (left; intros; discriminate). right. now exists id. }
  destruct Hdec as [Hop|[j ->]].
  - destruct (handle_timers p op Hop) as [[E1 E2]|(f & E1 & E2)];
      intros id Hid; rewrite E1; rewrite E2 in Hid.
    + now apply Hf.
    + rewrite lookup_insert_ne by lia. apply Hf. lia.
  - cbn [handle world with_world]. intros id Hid. rewrite tick_nextTimer in Hid.
    destruct (decide (j = id)) as [->|Hne].
    + rewrite tick_dead; now apply Hf.
    + rewrite tick_other by exact Hne. now apply Hf.
Qed.

Lemma fresh_run ops : forall p, fresh_ids (world p) -> fresh_ids (world (run p ops)).
Proof.
  induction ops as [|op ops IH]; intros p H; [exact H|].
  apply IH. now apply fresh_handle.
Qed.

Lemma fresh_constructor page : fresh_ids (world (constructor page)).
Proof. intros id _. apply lookup_empty. Qed.

Lemma handle_keeps_timer p op id iv :
  fresh_ids (world p) ->
  intervals (world p) !! id = Some iv ->
  op <> Tick id ->
  intervals (world (handle p op)) !! id = Some iv.
Proof.
  intros Hf Hl Hop.
  assert (Hdec : (forall j, op <> Tick j) \/ exists j, op = Tick j).
  { destruct op; try (left; intros; discriminate). right. now exists id0. }
  destruct Hdec as [Hany|[j ->]].
  - destruct (handle_timers p op Hany) as [[-> _]|(f & -> & _)]; [exact Hl|].
    rewrite lookup_insert_ne; [exact Hl|].
    intros <-. rewrite Hf in Hl by lia. discriminate.
  - cbn [handle world with_world]. rewrite tick_other; [exact Hl | congruence].
Qed.

(** X8.  No operation of the AudioController cancels a fade: whatever is
    called (muteAll, stopAll, cleanup, setMasterVolume, a new scene, the
    tick of another timer, ...), a live interval timer stays alive with its
    closure unchanged; only its own tick advances or ends it.  So after
    any such call the next tick of a running fade-in writes the next value
    of its ramp to the element, which is above 0 again when the ramp is
    rising. *)
Theorem operations_keep_timers p op id iv :
  fresh_ids (world p) ->
  intervals (world p) !! id = Some iv ->
  op <> Tick id ->
  intervals (world (handle p op)) !! id = Some iv /\
  forall el target step k,
    closure iv = FadeInTimer el target step k -> S k < steps ->
    let v := get_volume el (world (handle (handle p op) (Tick id))) in
    v = Qmin (step * Qnat (S k)) target /\
    ((0 < step)%Q -> (0 < target)%Q -> (0 < v)%Q).
Proof.
  intros Hf Hl Hop. pose proof (handle_keeps_timer p op id iv Hf Hl Hop) as Hk.
  split; [exact Hk|]. intros el target step k Hc Hlt v.
  destruct iv as [period f]. cbn [closure] in Hc. subst f.
  pose proof (tick_fadeIn _ id period el target step k Hk) as (_ & _ & _ & Ht).
  cbv zeta in Ht. destruct (Nat.leb_spec steps (S k)) as [Hge|_]; [lia|].
  destruct Ht as [_ Hv]. subst v. cbn [handle world with_world].
  split; [exact Hv|]. intros Hs Hpos. rewrite Hv.
  apply Q.min_glb_lt; [|exact Hpos].
  apply Qmult_lt_0_compat; [exact Hs|].
  unfold Qnat. change 0%Q with (inject_Z 0). rewrite <- Zlt_Qlt. lia.
Qed.

(* ------------------------------------------------------------------- *)
(*  The M key                                                          *)
(* ------------------------------------------------------------------- *)
Lemma get_set_volume_other el' el v w :
  el' <> el -> get_volume el' (set_volume el v w) = get_volume el' w.
Proof.
  intros Hne. unfold set_volume. rewrite get_volume_update.
  apply String.eqb_neq in Hne. now rewrite Hne.
Qed.

Lemma for_each_silent el els : forall w,
  el ∈ els \/ get_volume el w = 0%Q ->
  get_volume el (for_each (fun audioEl => set_volume audioEl 0) els w) = 0%Q.
Proof.
  induction els as [|a els IH]; intros w H.
  - destruct H as [H|H]; [now apply elem_of_nil in H | exact H].
  - cbn [for_each fold_left]. apply IH.
    destruct (decide (el = a)) as [->|Hne]; [right; apply get_set_volume|].
    destruct H as [H|H].
    + apply elem_of_cons in H. destruct H as [H|H]; [contradiction | now left].
    + right. now rewrite get_set_volume_other.
Qed.

Lemma registered_elem w year el :
  audioElements w !! year = Some el -> el ∈ registered w.
Proof.
  intros H. unfold registered. apply list_elem_of_fmap.
  exists (year, el). split; [reflexivity | now apply elem_of_map_to_list].
Qed.

Lemma for_each_static f els : forall w,
  (forall el w, masterVolume (f el w) = masterVolume w /\
                audioElements (f el w) = audioElements w) ->
  masterVolume (for_each f els w) = masterVolume w /\
  audioElements (for_each f els w) = audioElements w.
Proof.
  induction els as [|el els IH]; intros w Hf; [now split|].
  change (for_each f (el :: els) w) with (for_each f els (f el w)).
  destruct (IH (f el w) Hf) as [-> ->]. apply Hf.
Qed.

Lemma muteAll_static p :
  masterVolume (world (muteAll p)) = masterVolume (world p) /\
  audioElements (world (muteAll p)) = audioElements (world p) /\
  transitionAudio (muteAll p) = transitionAudio p.
Proof.
  unfold muteAll. cbn [world with_world transitionAudio].
  destruct (for_each_static (fun audioEl => set_volume audioEl 0)
              (registered (world p)) (world p)) as [E1 E2]; [now split|].
  destruct (transitionAudio p); cbn; now rewrite ?E1, ?E2.
Qed.

Lemma muteAll_silent p :
  (forall year el, audioElements (world p) !! year = Some el ->
                   get_volume el (world (muteAll p)) = 0%Q) /\
  (forall t, transitionAudio p = Some t -> get_volume t (world (muteAll p)) = 0%Q).
Proof.
  unfold muteAll. cbn [world with_world]. split.
  - intros year el H.
    pose proof (for_each_silent el (registered (world p)) (world p)
                  (or_introl (registered_elem _ _ _ H))) as Hs.
    destruct (transitionAudio p) as [t|]; [|exact Hs].
    destruct (decide (el = t)) as [->|Hne]; [apply get_set_volume|].
    now rewrite get_set_volume_other.
  - intros t ->. apply get_set_volume.
Qed.

Lemma key_m_mutes p :
  (0 < masterVolume (world p))%Q -> key_m p = muteAll p.
Proof.
  intros H. unfold key_m.
  destruct (Qle_bool (masterVolume (world p)) 0) eqn:E; [|reflexivity].
  apply Qle_bool_iff in E. lra.
Qed.

(** X9.  The M key of init.js calls muteAll while masterVolume is above 0
    and unmuteAll otherwise, and muteAll leaves masterVolume as it is: with
    a master volume above 0, however often M is pressed, every registered
    scene track and the transition sound are at volume 0 afterwards and the
    master volume is unchanged; the key never unmutes. *)
Theorem mute_key_never_unmutes p n :
  (0 < masterVolume (world p))%Q ->
  let p' := Nat.iter (S n) key_m p in
  masterVolume (world p') = masterVolume (world p) /\
  (forall year el, audioElements (world p) !! year = Some el ->
                   get_volume el (world p') = 0%Q) /\
  (forall t, transitionAudio p = Some t -> get_volume t (world p') = 0%Q).
Proof.
  intros Hm.
  assert (H : forall k,
             masterVolume (world (Nat.iter k key_m p)) = masterVolume (world p) /\
             audioElements (world (Nat.iter k key_m p)) = audioElements (world p) /\
             transitionAudio (Nat.iter k key_m p) = transitionAudio p).
  { induction k as [|k (E1 & E2 & E3)]; [now repeat split|].
    rewrite !Nat.iter_succ, key_m_mutes by (rewrite E1; exact Hm).
    destruct (muteAll_static (Nat.iter k key_m p)) as (-> & -> & ->). auto. }
  intros p'. destruct (H n) as (E1 & E2 & E3). unfold p'.
  rewrite Nat.iter_succ, key_m_mutes by (rewrite E1; exact Hm).
  destruct (muteAll_static (Nat.iter n key_m p)) as (-> & _ & _).
  destruct (muteAll_silent (Nat.iter n key_m p)) as [Hs Ht].
  split; [exact E1|]. split.
  - intros year el Hy. apply (Hs year). now rewrite E2.
  - intros t Hy. apply Ht. now rewrite E3.
Qed.

(* ------------------------------------------------------------------- *)
(*  Changing the scene track: a fade-out and a fade-in side by side     *)
(* ------------------------------------------------------------------- *)
Lemma tick_volume_other j w el :
  (forall iv, intervals w !! j = Some iv -> channel (closure iv) <> el) ->
  get_volume el (tick j w) = get_volume el w.
Proof.
  intros Hch. unfold tick. destruct (intervals w !! j) as [[p f]|] eqn:E;
    [|reflexivity].
  specialize (Hch _ eq_refl). cbn [closure] in *.
  assert (Hw : forall ivs w0, get_volume el (with_intervals ivs w0) = get_volume el w0)
    by reflexivity.
  destruct f as [a t s c | a st s c cb]; cbn [channel] in Hch.
  - destruct (steps <=? S c); unfold clearInterval, store_closure;
      repeat first [ rewrite Hw | rewrite get_set_volume_other by congruence ];
      reflexivity.
  - destruct ((steps <=? S c) || _); unfold clearInterval, store_closure;
      repeat first [ rewrite Hw | rewrite get_volume_invoke
                   | rewrite get_set_volume_other by congruence ];
      reflexivity.
Qed.

Lemma tick_paused j w el :
  (forall p a st s c cb,
      intervals w !! j =
        Some {| period := p; closure := FadeOutTimer a st s c cb |} -> cb = None) ->
  is_paused el (tick j w) = is_paused el w.
Proof.
  intros Hcb. unfold tick. destruct (intervals w !! j) as [[p f]|] eqn:E;
    [|reflexivity].
  assert (Hw : forall ivs w0, is_paused el (with_intervals ivs w0) = is_paused el w0)
    by reflexivity.
  assert (Hs : forall a v w0, is_paused el (set_volume a v w0) = is_paused el w0).
  { intros a v w0. unfold is_paused, set_volume, update_element. cbn.
    now destruct (String.eqb el a). }
  cbn [closure]. destruct f as [a t s c | a st s c cb].
  - destruct (steps <=? S c); unfold clearInterval, store_closure;
      repeat first [ rewrite Hw | rewrite Hs ]; reflexivity.
  - rewrite (Hcb p a st s c cb eq_refl). cbn [invoke].
    destruct ((steps <=? S c) || _); unfold clearInterval, store_closure;
      repeat first [ rewrite Hw | rewrite Hs ]; reflexivity.
Qed.

Lemma tick_masterVolume j w : masterVolume (tick j w) = masterVolume w.
Proof.
  unfold tick. destruct (intervals w !! j) as [[p f]|]; [|reflexivity].
  cbn [closure]. destruct f as [a t s c | a st s c cb].
  - now destruct (steps <=? S c).
  - destruct ((steps <=? S c) || _); [|reflexivity]. now destruct cb as [[x]|].
Qed.

Lemma fadeOut_at_tick i a start k w :
  (0 <= start)%Q -> fadeOut_at i a start k w -> fadeOut_at i a start (S k) (tick i w).
Proof.
  intros Hpos [([p Hl] & Hk & Hs) | (Hd & Hv & Hk & Hs)].
  - pose proof (tick_fadeOut w i p a start (start / Qnat steps) k None Hl)
      as (_ & _ & Ht). cbv zeta in Ht.
    pose proof (step_nonneg start Hpos) as Hstep.
    destruct ((steps <=? S k)
              || Qle_bool (Qmax (start - start / Qnat steps * Qnat (S k)) 0) 0)
      eqn:Hend.
    + destruct Ht as (Hd' & Hv' & _). right. split; [exact Hd'|].
      split; [exact Hv'|]. split; [lia|]. intros Hs0.
      apply orb_true_iff in Hend. destruct Hend as [He|He].
      { now apply Nat.leb_le in He. }
      apply Qle_bool_iff in He.
      destruct (le_lt_dec steps (S k)) as [|Hlt]; [assumption|].
      pose proof (ramp_short start (S k) Hs0 Hlt).
      pose proof (Q.le_max_l (start - start / Qnat steps * Qnat (S k)) 0).
      lra.
    + destruct Ht as (Hl' & _ & _). apply orb_false_iff in Hend.
      destruct Hend as [He Hq]. apply Nat.leb_gt in He.
      left. split; [now exists p|]. split; [exact He|]. right.
      assert (Hnq : ~ (Qmax (start - start / Qnat steps * Qnat (S k)) 0 <= 0)%Q).
      { intros Hc. apply Qle_bool_iff in Hc. congruence. }
      apply Qnot_le_lt in Hnq.
      destruct (Q.max_spec (start - start / Qnat steps * Qnat (S k)) 0)
        as [[_ E]|[_ E]]; rewrite E in Hnq; [lra|].
      pose proof (Qnat_nonneg (S k)). nra.
  - right. rewrite (tick_dead i w Hd). split; [exact Hd|]. split; [exact Hv|].
    split; [lia|]. intros H. specialize (Hs H). lia.
Qed.

Lemma fadeOut_at_frame i a start k w w' :
  intervals w' !! i = intervals w !! i ->
  get_volume a w' = get_volume a w ->
  fadeOut_at i a start k w -> fadeOut_at i a start k w'.
Proof. intros Ei Ev. unfold fadeOut_at. now rewrite Ei, Ev. Qed.

Lemma fadeIn_at_tick j b target k w :
  fadeIn_at j b target k w -> fadeIn_at j b target (S k) (tick j w).
Proof.
  intros [([p Hl] & Hk) | (Hd & Hv & Hk)].
  - pose proof (tick_fadeIn w j p b target (target / Qnat steps) k Hl)
      as (_ & _ & _ & Ht). cbv zeta in Ht.
    destruct (Nat.leb_spec steps (S k)) as [He|He].
    + right. destruct Ht as [Hd Hv]. auto.
    + left. destruct Ht as [Hl' _]. split; [now exists p | exact He].
  - right. rewrite (tick_dead j w Hd). split; [exact Hd|]. split; [exact Hv | lia].
Qed.

Lemma fadeIn_at_frame j b target k w w' :
  intervals w' !! j = intervals w !! j ->
  get_volume b w' = get_volume b w ->
  fadeIn_at j b target k w -> fadeIn_at j b target k w'.
Proof. intros Ei Ev. unfold fadeIn_at. now rewrite Ei, Ev. Qed.

Lemma fadeOut_at_channel i a start k w iv :
  fadeOut_at i a start k w -> intervals w !! i = Some iv ->
  channel (closure iv) = a /\
  forall p x st s c cb,
    iv = {| period := p; closure := FadeOutTimer x st s c cb |} -> cb = None.
Proof.
  intros [([p Hl] & _) | (Hd & _)] H; rewrite H in *; [|discriminate].
  injection Hl as ->. split; [reflexivity|]. now intros ? ? ? ? ? ? [= _ _ _ _ _ ->].
Qed.

Lemma fadeIn_at_channel j b target k w iv :
  fadeIn_at j b target k w -> intervals w !! j = Some iv ->
  channel (closure iv) = b /\
  forall p x st s c cb,
    iv = {| period := p; closure := FadeOutTimer x st s c cb |} -> cb = None.
Proof.
  intros [([p Hl] & _) | (Hd & _)] H; rewrite H in *; [|discriminate].
  injection Hl as ->. split; [reflexivity|]. intros; discriminate.
Qed.

(** The ticks of the fade-out [i] on [a] and of the fade-in [j] on [b],
    in any order. *)
Lemma crossfade_ticks i j a b start target ids : forall w ci cj,
  i <> j -> a <> b -> (0 <= start)%Q ->
  (forall id, id ∈ ids -> id = i \/ id = j) ->
  fadeOut_at i a start ci w -> fadeIn_at j b target cj w ->
  let w' := ticks ids w in
  fadeOut_at i a start (ci + count_occ Nat.eq_dec ids i) w' /\
  fadeIn_at j b target (cj + count_occ Nat.eq_dec ids j) w' /\
  (forall el, is_paused el w' = is_paused el w) /\
  masterVolume w' = masterVolume w.
Proof.
  induction ids as [|id ids IH]; intros w ci cj Hij Hab Hpos Hids Ho Hi.
  - cbn. rewrite !Nat.add_0_r. auto.
  - rewrite ticks_cons. cbn [count_occ].
    assert (Hrest : forall x, x ∈ ids -> x = i \/ x = j)
      by (intros x Hx; apply Hids; now right).
    destruct (Hids id ltac:(left)) as [->| ->].
    + destruct (Nat.eq_dec i i) as [_|]; [|congruence].
      destruct (Nat.eq_dec i j) as [|_]; [congruence|].
      assert (Ho' : fadeOut_at i a start (S ci) (tick i w))
        by (now apply fadeOut_at_tick).
      assert (Hi' : fadeIn_at j b target cj (tick i w)).
      { apply (fadeIn_at_frame j b target cj w); [| |exact Hi].
        - apply tick_other. congruence.
        - apply tick_volume_other. intros iv Hiv.
          destruct (fadeOut_at_channel i a start ci w iv Ho Hiv) as [-> _].
          exact Hab. }
      destruct (IH (tick i w) (S ci) cj Hij Hab Hpos Hrest Ho' Hi')
        as (R1 & R2 & R3 & R4).
      replace (ci + S (count_occ Nat.eq_dec ids i))
        with (S ci + count_occ Nat.eq_dec ids i) by lia.
      split; [exact R1|]. split; [exact R2|]. split.
      * intros el. rewrite R3. apply tick_paused. intros p x st s c cb Hl.
        now apply (proj2 (fadeOut_at_channel i a start ci w _ Ho Hl) p x st s c cb).
      * rewrite R4. apply tick_masterVolume.
    + destruct (Nat.eq_dec j i) as [|_]; [congruence|].
      destruct (Nat.eq_dec j j) as [_|]; [|congruence].
      assert (Hi' : fadeIn_at j b target (S cj) (tick j w))
        by (now apply fadeIn_at_tick).
      assert (Ho' : fadeOut_at i a start ci (tick j w)).
      { apply (fadeOut_at_frame i a start ci w); [| |exact Ho].
        - apply tick_other. congruence.
        - apply tick_volume_other. intros iv Hiv.
          destruct (fadeIn_at_channel j b target cj w iv Hi Hiv) as [-> _].
          congruence. }
      destruct (IH (tick j w) ci (S cj) Hij Hab Hpos Hrest Ho' Hi')
        as (R1 & R2 & R3 & R4).
      replace (cj + S (count_occ Nat.eq_dec ids j))
        with (S cj + count_occ Nat.eq_dec ids j) by lia.
      split; [exact R1|]. split; [exact R2|]. split.
      * intros el. rewrite R3. apply tick_paused. intros p x st s c cb Hl.
        now apply (proj2 (fadeIn_at_channel j b target cj w _ Hi Hl) p x st s c cb).
      * rewrite R4. apply tick_masterVolume.
Qed.

(** The ticks before the fade-in exists: only the fade-out [i] is alive. *)
Lemma fadeOut_alone i j a start ids : forall w ci,
  i <> j -> (0 <= start)%Q ->
  (forall id, id ∈ ids -> id = i \/ id = j) ->
  fadeOut_at i a start ci w -> intervals w !! j = None ->
  let w' := ticks ids w in
  fadeOut_at i a start (ci + count_occ Nat.eq_dec ids i) w' /\
  intervals w' !! j = None /\
  nextTimer w' = nextTimer w /\
  (forall el, is_paused el w' = is_paused el w) /\
  masterVolume w' = masterVolume w.
Proof.
  induction ids as [|id ids IH]; intros w ci Hij Hpos Hids Ho Hj.
  - cbn. rewrite Nat.add_0_r. auto.
  - rewrite ticks_cons. cbn [count_occ].
    assert (Hrest : forall x, x ∈ ids -> x = i \/ x = j)
      by (intros x Hx; apply Hids; now right).
    destruct (Hids id ltac:(left)) as [->| ->].
    + destruct (Nat.eq_dec i i) as [_|]; [|congruence].
      assert (Ho' : fadeOut_at i a start (S ci) (tick i w))
        by (now apply fadeOut_at_tick).
      assert (Hj' : intervals (tick i w) !! j = None)
        by (rewrite tick_other by congruence; exact Hj).
      destruct (IH (tick i w) (S ci) Hij Hpos Hrest Ho' Hj')
        as (R1 & R2 & R3 & R4 & R5).
      replace (ci + S (count_occ Nat.eq_dec ids i))
        with (S ci + count_occ Nat.eq_dec ids i) by lia.
      split; [exact R1|]. split; [exact R2|].
      split; [now rewrite R3, tick_nextTimer|]. split.
      * intros el. rewrite R4. apply tick_paused. intros p x st s c cb Hl.
        now apply (proj2 (fadeOut_at_channel i a start ci w _ Ho Hl) p x st s c cb).
      * rewrite R5. apply tick_masterVolume.
    + destruct (Nat.eq_dec j i) as [|_]; [congruence|].
      rewrite (tick_dead j w Hj). now apply IH.
Qed.

Lemma run_ticks ids : forall p,
  run p (map Tick ids) = with_world (ticks ids (world p)) p.
Proof.
  induction ids as [|id ids IH]; intros p; [now destruct p|].
  cbn [map run fold_left handle]. fold (run (with_world (tick id (world p)) p) (map Tick ids)).
  rewrite IH. reflexivity.
Qed.

Lemma player_run_app p ops ops' : run p (ops ++ ops') = run (run p ops) ops'.
Proof. unfold run. apply fold_left_app. Qed.

(** X10.  playSceneAudio for a track [b] while another track [a] is
    current, when the host lets [b] play: a fade-out of [a] and, once the
    promise of play() has resolved, a fade-in of [b] run side by side.
    However their ticks interleave, once each timer has had its 20 ticks
    [a] is at volume 0, [b] is at the master volume and playing, both
    timers have ended, and [b] is the current track.  The old track is
    silenced, not paused. *)
Theorem crossfade_completes p year a b pre ids :
  isInitialized p = true ->
  reactions p = [] ->
  currentAudio p = Some a ->
  audioElements (world p) !! year = Some b ->
  a <> b ->
  fresh_ids (world p) ->
  (0 <= get_volume a (world p))%Q ->
  let i := nextTimer (world p) in
  let j := S (nextTimer (world p)) in
  (forall id, id ∈ pre ++ ids -> id = i \/ id = j) ->
  steps <= count_occ Nat.eq_dec (pre ++ ids) i ->
  steps <= count_occ Nat.eq_dec ids j ->
  let p' := run p ([PlaySceneAudio true year] ++ map Tick pre ++
                   [Reaction] ++ map Tick ids) in
  currentAudio p' = Some b /\
  get_volume a (world p') = 0%Q /\
  get_volume b (world p') = masterVolume (world p) /\
  intervals (world p') !! i = None /\
  intervals (world p') !! j = None /\
  is_paused a (world p') = is_paused a (world p) /\
  is_paused b (world p') = false.
Proof.
  intros Hinit Hre Hcur Hb Hab Hfresh Hpos i j Hids Hci Hcj p'.
  assert (Hij : i <> j) by (unfold i, j; lia).
  set (start := get_volume a (world p)).
  (* the call *)
  set (p0 := playSceneAudio true year p).
  assert (E0 : p0 =
    {| world := start_playback b (set_currentTime b 0 (fadeOut (Some a) None (world p)));
       currentAudio := Some b; transitionAudio := transitionAudio p;
       isInitialized := isInitialized p; reactions := [b] |}).
  { unfold p0, playSceneAudio. rewrite Hinit, Hb, Hcur, Hre. cbn [negb].
    apply String.eqb_neq in Hab. now rewrite Hab. }
  set (w0 := world p0).
  assert (Ho0 : fadeOut_at i a start 0 w0).
  { left. unfold w0. rewrite E0. cbn [world]. split; [|split; [unfold steps; lia | now left]].
    eexists. cbn. apply lookup_insert_eq. }
  assert (Hj0 : intervals w0 !! j = None).
  { unfold w0. rewrite E0. cbn. rewrite lookup_insert_ne by (fold i; lia).
    apply Hfresh. unfold j. lia. }
  assert (Hn0 : nextTimer w0 = j) by (unfold w0; rewrite E0; reflexivity).
  assert (Hp0 : is_paused a w0 = is_paused a (world p) /\ is_paused b w0 = false).
  { unfold w0. rewrite E0. unfold is_paused. cbn.
    apply String.eqb_neq in Hab. rewrite Hab, String.eqb_refl. now split. }
  assert (Hm0 : masterVolume w0 = masterVolume (world p))
    by (unfold w0; rewrite E0; reflexivity).
  (* the ticks before the promise of play() resolves *)
  assert (Hpre : forall id, id ∈ pre -> id = i \/ id = j)
    by (intros id H; apply Hids, elem_of_app; now left).
  assert (Hpost : forall id, id ∈ ids -> id = i \/ id = j)
    by (intros id H; apply Hids, elem_of_app; now right).
  destruct (fadeOut_alone i j a start pre w0 0 Hij Hpos Hpre Ho0 Hj0)
    as (Ho1 & Hj1 & Hn1 & Hp1 & Hm1).
  set (w1 := ticks pre w0) in *.
  (* the reaction *)
  set (w2 := fadeIn (Some b) w1).
  assert (Ho2 : fadeOut_at i a start (0 + count_occ Nat.eq_dec pre i) w2).
  { apply (fadeOut_at_frame i a start _ w1); [| |exact Ho1].
    - unfold w2. cbn. rewrite lookup_insert_ne; [reflexivity|].
      rewrite Hn1, Hn0. congruence.
    - unfold w2, fadeIn. cbn [get_volume setInterval elements].
      change (get_volume a (set_volume b 0 w1) = get_volume a w1).
      now apply get_set_volume_other. }
  assert (Hi2 : fadeIn_at j b (masterVolume (world p)) 0 w2).
  { left. split; [|unfold steps; lia]. eexists. unfold w2, fadeIn.
    cbn [intervals setInterval nextTimer set_volume update_element with_elements
         masterVolume].
    rewrite Hn1, Hn0, Hm1, Hm0. apply lookup_insert_eq. }
  assert (Hp2 : forall el, is_paused el w2 = is_paused el w1).
  { intros el. unfold w2, is_paused. cbn. now destruct (String.eqb el b). }
  destruct (crossfade_ticks i j a b start (masterVolume (world p)) ids w2 _ 0
              Hij Hab Hpos Hpost Ho2 Hi2) as (Ho3 & Hi3 & Hp3 & Hm3).
  (* the run as a whole *)
  assert (E : p' = {| world := ticks ids w2; currentAudio := Some b;
                      transitionAudio := transitionAudio p;
                      isInitialized := isInitialized p; reactions := [] |}).
  { unfold p'. rewrite !player_run_app.
    change (run p [PlaySceneAudio true year]) with p0.
    rewrite (run_ticks pre p0). fold w0. fold w1.
    change (run (with_world w1 p0) [Reaction]) with (run_reaction (with_world w1 p0)).
    assert (E2 : run_reaction (with_world w1 p0) =
                 {| world := w2; currentAudio := Some b;
                    transitionAudio := transitionAudio p;
                    isInitialized := isInitialized p; reactions := [] |}).
    { unfold run_reaction, with_world. rewrite E0. reflexivity. }
    rewrite E2, run_ticks. reflexivity. }
  rewrite E. cbn [world currentAudio].
  rewrite count_occ_app in Hci.
  destruct Ho3 as [(_ & Hlt & _) | (Hd & Hv & _)]; [lia|].
  destruct Hi3 as [(_ & Hlt) | (Hd' & Hv' & _)]; [lia|].
  repeat split; try assumption.
  - rewrite Hp3, Hp2, Hp1. apply Hp0.
  - rewrite Hp3, Hp2, Hp1. apply Hp0.
Qed.

(* ------------------------------------------------------------------- *)
(*  The theorems at work                                               *)
(* ------------------------------------------------------------------- *)
Lemma demo_page_unit el : unit_interval (volume (demo_page el)).
Proof. split; cbn; lra. Defined.

Lemma volumes_stay_in_unit_interval_witness :
  (forall el, unit_interval (volume (demo_page el))) /\
  let p := run (constructor demo_page)
             [Setup demo_audioIds demo_document ["2000"; "2020"; "2050"];
              PlaySceneAudio true "2000"; Reaction; Tick 1;
              SetMasterVolume 5; StopAll] in
  unit_interval (masterVolume (world p)) /\
  forall el, unit_interval (get_volume el (world p)).
Proof.
  split; [exact demo_page_unit|].
  exact (volumes_stay_in_unit_interval demo_page _ demo_page_unit).
Defined.

Lemma demo_player_fresh ops : fresh_ids (world (run demo_player ops)).
Proof.
  apply fresh_run.
  apply (fresh_handle (constructor demo_page)
           (Setup demo_audioIds demo_document ["2000"; "2020"; "2050"])).
  apply fresh_constructor.
Defined.

Lemma operations_keep_timers_witness :
  let p := run demo_player [PlaySceneAudio true "2000"; Reaction] in
  fresh_ids (world p) /\
  is_Some (intervals (world p) !! 1) /\
  StopAll <> Tick 1 /\
  is_Some (intervals (world (handle p StopAll)) !! 1) /\
  (0 < get_volume "audio-2000" (world (handle (handle p StopAll) (Tick 1))))%Q.
Proof.
  set (p := run demo_player [PlaySceneAudio true "2000"; Reaction]).
  set (iv := {| period := CONFIG_audio_fadeInTime / Qnat steps;
                closure := FadeInTimer "audio-2000" CONFIG_audio_masterVolume
                             (CONFIG_audio_masterVolume / Qnat steps) 0 |}).
  assert (Hf : fresh_ids (world p)) by apply demo_player_fresh.
  assert (Hl : intervals (world p) !! 1 = Some iv) by (vm_compute; reflexivity).
  assert (Hne : StopAll <> Tick 1) by discriminate.
  pose proof (operations_keep_timers p StopAll 1 iv Hf Hl Hne) as [Hk Hv].
  split; [exact Hf|]. split; [now rewrite Hl|]. split; [exact Hne|].
  split; [now rewrite Hk|].
  apply (Hv "audio-2000" _ _ 0 eq_refl); [unfold steps; lia | reflexivity | reflexivity].
Defined.

Lemma mute_key_never_unmutes_witness :
  (0 < masterVolume (world demo_player))%Q /\
  masterVolume (world (key_m (key_m demo_player))) = masterVolume (world demo_player) /\
  get_volume "audio-2020" (world (key_m (key_m demo_player))) = 0%Q.
Proof.
  assert (Hm : (0 < masterVolume (world demo_player))%Q) by reflexivity.
  pose proof (mute_key_never_unmutes demo_player 1 Hm) as (E & Hs & _).
  split; [exact Hm|]. split; [exact E|].
  apply (Hs "2020"). vm_compute. reflexivity.
Defined.

Lemma crossfade_completes_witness :
  let p := run demo_player [PlaySceneAudio false "2000"] in
  let ids := concat (repeat [1; 2] 20) in
  let p' := run p ([PlaySceneAudio true "2020"] ++ map Tick [] ++
                   [Reaction] ++ map Tick ids) in
  currentAudio p = Some "audio-2000" /\
  "audio-2000" <> "audio-2020" /\
  (0 <= get_volume "audio-2000" (world p))%Q /\
  steps <= count_occ Nat.eq_dec ids 1 /\
  steps <= count_occ Nat.eq_dec ids 2 /\
  currentAudio p' = Some "audio-2020" /\
  get_volume "audio-2000" (world p') = 0%Q /\
  get_volume "audio-2020" (world p') = masterVolume (world p) /\
  is_paused "audio-2020" (world p') = false.
Proof.
  set (p := run demo_player [PlaySceneAudio false "2000"]).
  set (ids := concat (repeat [1; 2] 20)).
  assert (Hcur : currentAudio p = Some "audio-2000") by (vm_compute; reflexivity).
  assert (Hne : "audio-2000" <> "audio-2020") by discriminate.
  assert (Hpos : (0 <= get_volume "audio-2000" (world p))%Q)
    by (vm_compute; discriminate).
  assert (Hall : Forall (fun id => id = 1 \/ id = 2) ([] ++ ids))
    by (apply (bool_decide_unpack _); vm_compute; reflexivity).
  assert (Hc1 : steps <= count_occ Nat.eq_dec ([] ++ ids) 1)
    by (apply Nat.leb_le; vm_compute; reflexivity).
  assert (Hc2 : steps <= count_occ Nat.eq_dec ids 2)
    by (apply Nat.leb_le; vm_compute; reflexivity).
  pose proof (crossfade_completes p "2020" "audio-2000" "audio-2020" [] ids
                eq_refl eq_refl Hcur eq_refl Hne (demo_player_fresh _) Hpos
                (proj1 (Forall_forall _ _) Hall) Hc1 Hc2)
    as (R1 & R2 & R3 & _ & _ & _ & R4).
  cbv zeta. fold p. fold ids.
  repeat split; assumption.
Defined.

End AudioPlayerProofs.
Module UIManagerProofs.
Import UIManager.

(* ------------------------------------------------------------------- *)
(*  The subtitles that are scheduled                                   *)
(* ------------------------------------------------------------------- *)
Lemma clear_all_timeouts ids : forall ui,
  let ui' := fold_left (fun ui timer => clearTimeout timer ui) ids ui in
  (forall id, timeouts ui' !! id = if bool_decide (id ∈ ids) then None
                                   else timeouts ui !! id) /\
  nextTimer ui' = nextTimer ui /\
  currentSubtitles ui' = currentSubtitles ui /\
  subtitleHidden ui' = subtitleHidden ui.
Proof.
  induction ids as [|a ids IH]; intros ui.
  - cbn. split; [|now repeat split]. intros id.
    rewrite bool_decide_eq_false_2; [reflexivity | apply not_elem_of_nil].
  - cbn [fold_left]. destruct (IH (clearTimeout a ui)) as (Hl & Hn & Hc & Hh).
    split; [|split; [exact Hn | split; [exact Hc | exact Hh]]].
    intros id. rewrite Hl. cbn [clearTimeout with_timeouts timeouts].
    destruct (decide (id ∈ ids)) as [Hin|Hout].
    + rewrite !bool_decide_eq_true_2; [reflexivity | now right | exact Hin].
    + rewrite (bool_decide_eq_false_2 _ Hout).
      destruct (decide (id = a)) as [->|Hne].
      * rewrite bool_decide_eq_true_2 by left. apply lookup_delete_eq.
      * rewrite bool_decide_eq_false_2.
        2: { intros Hin. apply elem_of_cons in Hin. tauto. }
        now apply lookup_delete_ne.
Qed.

(** After [clearSubtitles] no subtitle is scheduled. *)
Lemma clearSubtitles_clears h ui :
  schedule_current ui ->
  let ui' := clearSubtitles h ui in
  (forall id ms subtitle index,
      timeouts ui' !! id <>
      Some {| delay := ms; callback := ShowTimer subtitle index |}) /\
  (forall id, nextTimer ui' <= id -> timeouts ui' !! id = None) /\
  subtitleTimers ui' = [] /\
  currentSubtitles ui' = currentSubtitles ui /\
  nextTimer ui' = nextTimer ui.
Proof.
  intros [Hs Hf] ui'.
  destruct (clear_all_timeouts (subtitleTimers ui) ui) as (Hl & Hn & Hc & Hh).
  cbv zeta in Hl, Hn, Hc, Hh.
  set (cleared := fold_left (fun ui timer => clearTimeout timer ui)
                    (subtitleTimers ui) ui) in *.
  assert (E : timeouts ui' = timeouts cleared /\
              nextTimer ui' = nextTimer cleared /\
              subtitleTimers ui' = [] /\
              currentSubtitles ui' = currentSubtitles cleared).
  { unfold ui', clearSubtitles, hideSubtitle. cbv zeta. fold cleared.
    destruct (subtitleDisplay h); cbn; auto. }
  destruct E as (Et & En & E1 & E2).
  split; [|split; [|split; [exact E1 | split; congruence]]].
  - intros id ms subtitle index. rewrite Et, Hl.
    destruct (decide (id ∈ subtitleTimers ui)) as [Hin|Hout].
    + rewrite bool_decide_eq_true_2 by exact Hin. discriminate.
    + rewrite bool_decide_eq_false_2 by exact Hout. intros H.
      apply Hs in H. tauto.
  - intros id Hid. rewrite Et, Hl. rewrite En, Hn in Hid.
    destruct (bool_decide _); [reflexivity | now apply Hf].
Qed.

Lemma schedule_spec subs : forall index ui all,
  currentSubtitles ui = all ->
  drop index all = subs ->
  schedule_current ui ->
  let ui' := schedule subs index ui in
  schedule_current ui' /\
  currentSubtitles ui' = all /\
  subtitleHidden ui' = subtitleHidden ui /\
  subtitleContent ui' = subtitleContent ui /\
  forall k subtitle, subs !! k = Some subtitle ->
    timeouts ui' !! (nextTimer ui + k) =
    Some {| delay := time subtitle; callback := ShowTimer subtitle (index + k) |}.
Proof.
  induction subs as [|s subs IH]; intros index ui all Hc Hd Hi.
  - cbn. split; [exact Hi|]. split; [exact Hc|]. split; [reflexivity|].
    split; [reflexivity|]. intros k sb H. discriminate.
  - set (ui1 :=
           {| titleContent := titleContent ui;
              descriptionContent := descriptionContent ui;
              subtitleContent := subtitleContent ui;
              subtitleHidden := subtitleHidden ui;
              instructionsDisplay := instructionsDisplay ui;
              currentSubtitles := currentSubtitles ui;
              subtitleTimers := subtitleTimers ui ++ [nextTimer ui];
              currentSubtitleIndex := currentSubtitleIndex ui;
              timeouts := <[nextTimer ui :=
                              {| delay := time s; callback := ShowTimer s index |}]>
                            (timeouts ui);
              nextTimer := S (nextTimer ui) |}).
    change (schedule (s :: subs) index ui) with (schedule subs (S index) ui1).
    assert (Hs : all !! index = Some s).
    { rewrite <- (Nat.add_0_r index), <- lookup_drop, Hd. reflexivity. }
    assert (Hi1 : schedule_current ui1).
    { destruct Hi as [Hs1 Hf1]. split.
      - intros id ms subtitle idx. cbn [ui1 timeouts subtitleTimers currentSubtitles].
        destruct (decide (id = nextTimer ui)) as [->|Hne].
        + rewrite lookup_insert_eq. intros [= <- <- <-].
          split; [apply elem_of_app; right; left|]. split; [now rewrite Hc | reflexivity].
        + rewrite lookup_insert_ne by congruence. intros H.
          destruct (Hs1 _ _ _ _ H) as (? & ? & ?).
          split; [apply elem_of_app; now left | auto].
      - intros id Hid. cbn [ui1 timeouts nextTimer] in *.
        rewrite lookup_insert_ne by lia. apply Hf1. lia. }
    assert (Hd1 : drop (S index) all = subs).
    { replace (S index) with (index + 1) by lia.
      rewrite <- drop_drop, Hd. reflexivity. }
    destruct (IH (S index) ui1 all Hc Hd1 Hi1) as (R1 & R2 & R3 & R4 & R5).
    split; [exact R1|]. split; [exact R2|]. split; [exact R3|]. split; [exact R4|].
    intros [|k] subtitle Hk.
    + injection Hk as <-. rewrite !Nat.add_0_r.
      destruct R1 as [_ Hf'].
      assert (Hkeep : forall subs' idx u,
                 timeouts u !! nextTimer ui =
                   Some {| delay := time s; callback := ShowTimer s index |} ->
                 nextTimer ui < nextTimer u ->
                 timeouts (schedule subs' idx u) !! nextTimer ui =
                   Some {| delay := time s; callback := ShowTimer s index |}).
      { clear. induction subs' as [|s' subs' IH']; intros idx u Hl Hlt; [exact Hl|].
        cbn [schedule setTimeout]. apply IH'; cbn [timeouts nextTimer]; [|lia].
        rewrite lookup_insert_ne by lia. exact Hl. }
      apply Hkeep; cbn [ui1 timeouts nextTimer]; [apply lookup_insert_eq | lia].
    + specialize (R5 k subtitle Hk). cbn [ui1 nextTimer] in R5.
      replace (nextTimer ui + S k) with (S (nextTimer ui) + k) by lia.
      replace (index + S k) with (S index + k) by lia. exact R5.
Qed.

Lemma showSubtitle_current h txt duration ui :
  schedule_current ui -> schedule_current (showSubtitle h txt duration ui).
Proof.
  intros [Hs Hf]. unfold showSubtitle.
  destruct (negb (subtitleText h) || negb (subtitleDisplay h)); [now split|].
  cbn [setTimeout snd]. split.
  - intros id ms subtitle index. cbn [timeouts subtitleTimers currentSubtitles nextTimer].
    destruct (decide (id = nextTimer ui)) as [->|Hne].
    + rewrite lookup_insert_eq. discriminate.
    + rewrite lookup_insert_ne by congruence. apply Hs.
  - intros id Hid. cbn [timeouts nextTimer] in *.
    rewrite lookup_insert_ne by lia. apply Hf. lia.
Qed.

Lemma hideSubtitle_current h ui :
  schedule_current ui -> schedule_current (hideSubtitle h ui).
Proof. intros H. unfold hideSubtitle. now destruct (subtitleDisplay h). Qed.

Lemma clearSubtitles_current h ui :
  schedule_current ui -> schedule_current (clearSubtitles h ui).
Proof.
  intros H. destruct (clearSubtitles_clears h ui H) as (Hn & Hf & _).
  split; [|exact Hf]. intros id ms subtitle index Hl. now apply Hn in Hl.
Qed.

Lemma startSubtitles_spec cfg h year ui sceneConfig subs :
  schedule_current ui ->
  subtitlesEnabled cfg = true ->
  scenes cfg !! year = Some sceneConfig ->
  subtitles sceneConfig = Some subs ->
  let ui' := startSubtitles cfg h year ui in
  schedule_current ui' /\
  currentSubtitles ui' = subs /\
  forall k subtitle, subs !! k = Some subtitle ->
    timeouts ui' !! (nextTimer ui + k) =
    Some {| delay := time subtitle; callback := ShowTimer subtitle k |}.
Proof.
  intros Hi He Hy Hsubs. unfold startSubtitles. rewrite He, Hy, Hsubs. cbn [negb].
  destruct (clearSubtitles_clears h ui Hi) as (Hn & Hf & Ht & _ & En).
  cbv zeta in Hn, Hf, Ht, En.
  set (cleared := clearSubtitles h ui) in *.
  set (ui1 :=
         {| titleContent := titleContent cleared;
            descriptionContent := descriptionContent cleared;
            subtitleContent := subtitleContent cleared;
            subtitleHidden := subtitleHidden cleared;
            instructionsDisplay := instructionsDisplay cleared;
            currentSubtitles := subs; subtitleTimers := subtitleTimers cleared;
            currentSubtitleIndex := 0;
            timeouts := timeouts cleared; nextTimer := nextTimer cleared |}).
  change (schedule_current (schedule subs 0 ui1) /\
          currentSubtitles (schedule subs 0 ui1) = subs /\
          forall k subtitle, subs !! k = Some subtitle ->
            timeouts (schedule subs 0 ui1) !! (nextTimer ui + k) =
            Some {| delay := time subtitle; callback := ShowTimer subtitle k |}).
  assert (Hi1 : schedule_current ui1).
  { split; [|exact Hf]. intros id ms subtitle index Hl. now apply Hn in Hl. }
  destruct (schedule_spec subs 0 ui1 subs eq_refl eq_refl Hi1) as (R1 & R2 & _ & _ & R5).
  split; [exact R1|]. split; [exact R2|].
  intros k subtitle Hk. specialize (R5 k subtitle Hk). cbn [ui1 nextTimer] in R5.
  now rewrite En in R5.
Qed.

Lemma handle_current cfg h ui ev :
  schedule_current ui -> schedule_current (handle cfg h ui ev).
Proof.
  intros Hi. destruct ev; cbn [handle].
  - unfold updateSceneInfo. now destruct (scenes cfg !! year).
  - unfold startSubtitles. destruct (negb (subtitlesEnabled cfg)) eqn:He; [exact Hi|].
    destruct (scenes cfg !! year) as [sceneConfig|] eqn:Hy; [|exact Hi].
    destruct (subtitles sceneConfig) as [subs|] eqn:Hs; [|exact Hi].
    apply negb_false_iff in He.
    pose proof (startSubtitles_spec cfg h year ui sceneConfig subs Hi He Hy Hs) as [R _].
    unfold startSubtitles in R. now rewrite He, Hy, Hs in R.
  - now apply showSubtitle_current.
  - now apply showSubtitle_current.
  - now apply clearSubtitles_current.
  - unfold showInstructions, set_instructions. now destruct (instructions h).
  - unfold hideInstructions, set_instructions. now destruct (instructions h).
  - unfold cleanup. destruct (clearSubtitles_clears h ui Hi) as (Hn & Hf & _).
    split; [|exact Hf]. intros id' ms subtitle index Hl. now apply Hn in Hl.
  - unfold fire. destruct (timeouts ui !! id) as [[ms cb]|] eqn:E; [|exact Hi].
    assert (Hc : schedule_current (clearTimeout id ui)).
    { destruct Hi as [Hs Hf]. split.
      - intros id' ms' subtitle index Hl. cbn in Hl.
        apply lookup_delete_Some in Hl. now apply Hs.
      - intros id' Hid. cbn. destruct (decide (id' = id)) as [->|Hne];
          [apply lookup_delete_eq | rewrite lookup_delete_ne by congruence; now apply Hf]. }
    cbn [callback]. destruct cb as [subtitle index|]; [|now apply hideSubtitle_current].
    apply (showSubtitle_current h (text subtitle) (subtitleDuration cfg)) in Hc.
    exact Hc.
Qed.

Lemma init_current cfg h hidden display : schedule_current (init cfg h hidden display).
Proof.
  unfold init, updateSceneInfo.
  destruct (scenes cfg !! "2000");
    (split; [intros id ms sb i; cbn; rewrite lookup_empty; discriminate
            | intros id _; apply lookup_empty]).
Qed.

Lemma run_current cfg h evs : forall ui,
  schedule_current ui -> schedule_current (run cfg h ui evs).
Proof.
  induction evs as [|ev evs IH]; intros ui H; [exact H|].
  apply IH. now apply handle_current.
Qed.

(** X11.  Whatever the UIManager is asked to do and whichever timers
    fire, (1) every subtitle still scheduled is the entry of
    currentSubtitles at its index, due at that entry's time: startSubtitles
    and cleanup cancel everything scheduled for an earlier scene; and (2)
    startSubtitles for a year with subtitles, when subtitles are enabled,
    makes that year's list current and schedules one timer per entry, in
    order. *)
Theorem scheduled_subtitles_are_current cfg h hidden display evs :
  let ui := run cfg h (init cfg h hidden display) evs in
  (forall id ms subtitle index,
      timeouts ui !! id =
        Some {| delay := ms; callback := ShowTimer subtitle index |} ->
      currentSubtitles ui !! index = Some subtitle /\ ms = time subtitle) /\
  (forall year sceneConfig subs,
      subtitlesEnabled cfg = true ->
      scenes cfg !! year = Some sceneConfig ->
      subtitles sceneConfig = Some subs ->
      let ui' := startSubtitles cfg h year ui in
      currentSubtitles ui' = subs /\
      forall k subtitle, subs !! k = Some subtitle ->
        timeouts ui' !! (nextTimer ui + k) =
        Some {| delay := time subtitle; callback := ShowTimer subtitle k |}).
Proof.
  intros ui.
  assert (Hi : schedule_current ui) by (apply run_current, init_current).
  split.
  - intros id ms subtitle index Hl. destruct Hi as [Hs _].
    now destruct (Hs _ _ _ _ Hl) as (_ & ? & ?).
  - intros year sceneConfig subs He Hy Hs.
    now destruct (startSubtitles_spec cfg h year ui sceneConfig subs Hi He Hy Hs)
      as (_ & ? & ?).
Qed.

(** X12.  showSubtitle never cancels the hide timer of the subtitle shown
    before: after two calls both hide timers are pending, and when the
    first one fires the display is hidden although the second subtitle's
    own timer has not fired. *)
Theorem stale_hide_timer_hides_new_subtitle cfg h a b d1 d2 ui :
  subtitleText h = true ->
  subtitleDisplay h = true ->
  let first := nextTimer ui in
  let ui2 := showSubtitle h b d2 (showSubtitle h a d1 ui) in
  let ui3 := fire cfg h first ui2 in
  timeouts ui2 !! first = Some {| delay := d1; callback := HideTimer |} /\
  timeouts ui2 !! S first = Some {| delay := d2; callback := HideTimer |} /\
  subtitleHidden ui2 = false /\ subtitleContent ui2 = b /\
  subtitleHidden ui3 = true /\ subtitleContent ui3 = b /\
  timeouts ui3 !! S first = Some {| delay := d2; callback := HideTimer |}.
Proof.
  intros Ht Hd first ui2 ui3.
  assert (E2 : timeouts ui2 =
               <[S first := {| delay := d2; callback := HideTimer |}]>
                 (<[first := {| delay := d1; callback := HideTimer |}]> (timeouts ui)) /\
               subtitleHidden ui2 = false /\ subtitleContent ui2 = b).
  { unfold ui2, showSubtitle. rewrite Ht, Hd. cbn. auto. }
  destruct E2 as (Et & Eh & Ec).
  assert (L1 : timeouts ui2 !! first = Some {| delay := d1; callback := HideTimer |}).
  { rewrite Et, lookup_insert_ne by lia. apply lookup_insert_eq. }
  assert (L2 : timeouts ui2 !! S first = Some {| delay := d2; callback := HideTimer |}).
  { rewrite Et. apply lookup_insert_eq. }
  split; [exact L1|]. split; [exact L2|]. split; [exact Eh|]. split; [exact Ec|].
  unfold ui3, fire. rewrite L1. cbn [callback]. unfold hideSubtitle. rewrite Hd.
  cbn. rewrite lookup_delete_ne by lia. auto.
Qed.

(** The subtitles of a scene spaced by the subtitle duration: the hide
    timer of the first subtitle (4) hides the second one, whose own hide
    timer (5) is still pending. *)
Example second_subtitle_hidden_early :
  let ui := run demo_config demo_handles (init demo_config demo_handles true "block")
              [StartSubtitles "2000"; Fire 1; Fire 2; Fire 4] in
  subtitleContent ui = "NASA satellites monitor ocean color." /\
  subtitleHidden ui = true /\
  timeouts ui !! 5 = Some {| delay := 5000; callback := HideTimer |}.
Proof. vm_compute. repeat split. Qed.

Lemma stale_hide_timer_hides_new_subtitle_witness :
  subtitleText demo_handles = true /\
  subtitleDisplay demo_handles = true /\
  let ui := init demo_config demo_handles true "block" in
  let ui2 := showMessage demo_handles "Welcome to VR Mode" 3000 ui in
  let ui3 := showSubtitle demo_handles "Welcome to the year 2000." 5000 ui2 in
  subtitleHidden ui3 = false /\
  subtitleHidden (fire demo_config demo_handles 1 ui3) = true /\
  subtitleContent (fire demo_config demo_handles 1 ui3) = "Welcome to the year 2000.".
Proof.
  pose proof (stale_hide_timer_hides_new_subtitle demo_config demo_handles
                "Welcome to VR Mode" "Welcome to the year 2000." 3000 5000
                (init demo_config demo_handles true "block") eq_refl eq_refl)
    as (_ & _ & H1 & _ & H2 & H3 & _).
  split; [reflexivity|]. split; [reflexivity|].
  split; [exact H1|]. split; [exact H2 | exact H3].
Defined.

End UIManagerProofs.
Module EarthSpheresProofs.
Import EarthController EarthSpheres EarthControllerProofs.


Lemma visible_after_app V tr tr' :
  visible_after V (tr ++ tr') = visible_after (visible_after V tr) tr'.
Proof. unfold visible_after. apply fold_left_app. Qed.

(** Effects that do not touch a [visible] attribute. *)
Lemma visible_after_other V tr :
  Forall (fun e => match e with SetVisible _ _ => False | _ => True end) tr ->
  visible_after V tr = V.
Proof.
  revert V. induction tr as [|e tr IH]; intros V H; [reflexivity|].
  apply Forall_cons in H. destruct H as [He Htr].
  cbn [visible_after fold_left]. destruct e; try contradiction; now apply IH.
Qed.

Lemma switchYear_visible page year w V :
  visible_after V (trace w) = sphere page (currentYear (this w)) ->
  visible_after V (trace (switchYear page year w)) = sphere page year.
Proof.
  intros H. unfold switchYear.
  destruct (String.eqb (currentYear (this w)) year) eqn:E.
  { apply String.eqb_eq in E. now rewrite <- E. }
  cbn [trace]. rewrite !visible_after_app, H.
  rewrite (visible_after_other _ [ConsoleLog _]) by (repeat constructor).
  assert (Hrest : forall S,
             visible_after S
               (map (fun buttonYear =>
                       if String.eqb buttonYear year
                       then ClassAdd buttonYear else ClassRemove buttonYear)
                    (yearButtons page)) = S).
  { intros S. apply visible_after_other. apply Forall_forall. intros e He.
    apply list_elem_of_fmap in He. destruct He as (b & -> & _).
    now destruct (String.eqb b year). }
  assert (Hpanels : forall S, visible_after S (updateDataPanels page year) = S).
  { intros S. apply visible_after_other. unfold updateDataPanels.
    destruct (dataTextLeft page && has dataContent year),
      (dataTextRight page && has dataContent year); repeat constructor. }
  assert (Hui : forall S,
             visible_after S (if uiManager page then [UpdateSceneInfo year] else []) = S).
  { intros S. apply visible_after_other. destruct (uiManager page); repeat constructor. }
  assert (Hnarr : forall S, visible_after S (playNarration page year) = S).
  { intros S. apply visible_after_other. unfold playNarration.
    destruct (bool_decide _); repeat constructor. }
  rewrite Hnarr, Hui, Hpanels, Hrest. unfold sphere.
  destruct (earthSpheres page !! currentYear (this w)) as [cur|],
    (earthSpheres page !! year) as [el|]; cbn;
    rewrite ?difference_diag_L, ?union_empty_l_L; reflexivity.
Qed.

Lemma autoPlay_visible page w V on :
  visible_after V (trace w ++ button_effect page on ++ [ConsoleLog (if on then "[EarthController] Auto-play started" else "[EarthController] Auto-play stopped")]) =
  visible_after V (trace w).
Proof.
  rewrite visible_after_app. apply visible_after_other.
  unfold button_effect. destruct (autoPlayBtn page), on; repeat constructor.
Qed.

Lemma handle_visible page w ev V :
  visible_after V (trace w) = sphere page (currentYear (this w)) ->
  visible_after V (trace (handle page w ev)) =
  sphere page (currentYear (this (handle page w ev))).
Proof.
  intros H.
  assert (Hstart : forall w0,
             visible_after V (trace w0) = sphere page (currentYear (this w0)) ->
             visible_after V (trace (startAutoPlay page w0)) =
             sphere page (currentYear (this (startAutoPlay page w0)))).
  { intros w0 H0. unfold startAutoPlay. cbn [trace this currentYear].
    now rewrite (autoPlay_visible page w0 V true). }
  assert (Hstop : forall w0,
             visible_after V (trace w0) = sphere page (currentYear (this w0)) ->
             visible_after V (trace (stopAutoPlay page w0)) =
             sphere page (currentYear (this (stopAutoPlay page w0)))).
  { intros w0 H0. unfold stopAutoPlay. cbn [trace this currentYear].
    now rewrite (autoPlay_visible page w0 V false). }
  assert (Hswitch : forall year w0,
             visible_after V (trace w0) = sphere page (currentYear (this w0)) ->
             visible_after V (trace (switchYear page year w0)) =
             sphere page (currentYear (this (switchYear page year w0)))).
  { intros year w0 H0. rewrite switchYear_currentYear.
    now apply switchYear_visible. }
  destruct ev; cbn [handle].
  - unfold resetAutoPlay.
    destruct (truthy (autoPlay (this (switchYear page dataYear w))));
      [|now apply Hswitch].
    apply (Hstart {| this := this (switchYear page dataYear w);
                     intervals := clear_autoPlayTimer (switchYear page dataYear w);
                     nextTimer := nextTimer (switchYear page dataYear w);
                     now := now (switchYear page dataYear w);
                     trace := trace (switchYear page dataYear w) |}).
    now apply Hswitch.
  - unfold toggleAutoPlay. destruct (truthy (autoPlay (this w))); auto.
  - now apply Hswitch.
  - unfold fire. destruct (intervals w !! id) as [due|]; [|exact H].
    destruct (due <=? now w)%Z; [|exact H]. cbn [trace this].
    unfold nextYear. now apply Hswitch.
  - exact H.
Qed.

(** The same after a call that found nothing visible: the sphere of
    the new year is shown all the same. *)
Lemma switchYear_visible_none page year w V :
  visible_after V (trace w) = ∅ ->
  visible_after V (trace (switchYear page year w)) = sphere page year \/
  visible_after V (trace (switchYear page year w)) = ∅.
Proof.
  intros H. unfold switchYear.
  destruct (String.eqb (currentYear (this w)) year) eqn:E; [now right|]. left.
  cbn [trace]. rewrite !visible_after_app, H.
  rewrite (visible_after_other _ [ConsoleLog _]) by (repeat constructor).
  assert (Hrest : forall S,
             visible_after S
               (map (fun buttonYear =>
                       if String.eqb buttonYear year
                       then ClassAdd buttonYear else ClassRemove buttonYear)
                    (yearButtons page)) = S).
  { intros S. apply visible_after_other. apply Forall_forall. intros e He.
    apply list_elem_of_fmap in He. destruct He as (b & -> & _).
    now destruct (String.eqb b year). }
  assert (Hpanels : forall S, visible_after S (updateDataPanels page year) = S).
  { intros S. apply visible_after_other. unfold updateDataPanels.
    destruct (dataTextLeft page && has dataContent year),
      (dataTextRight page && has dataContent year); repeat constructor. }
  assert (Hui : forall S,
             visible_after S (if uiManager page then [UpdateSceneInfo year] else []) = S).
  { intros S. apply visible_after_other. destruct (uiManager page); repeat constructor. }
  assert (Hnarr : forall S, visible_after S (playNarration page year) = S).
  { intros S. apply visible_after_other. unfold playNarration.
    destruct (bool_decide _); repeat constructor. }
  rewrite Hnarr, Hui, Hpanels, Hrest. unfold sphere.
  destruct (earthSpheres page !! currentYear (this w)) as [cur|],
    (earthSpheres page !! year) as [el|]; cbn;
    rewrite ?empty_difference_L, ?union_empty_l_L; reflexivity.
Qed.

Lemma lookup_switchYear_visible page year w V :
  EarthControllerLookup.year_own page w ->
  at_most_current page V w ->
  at_most_current page V (fst (EarthControllerLookup.switchYear page year w)) /\
  (ObjectLiteral.get (earthSpheres page) year = ObjectLiteral.Inherited ->
   visible_after V (trace (fst (EarthControllerLookup.switchYear page year w))) = ∅).
Proof.
  intros Hc Hv. unfold at_most_current in *.
  assert (Hplain : ObjectLiteral.get (earthSpheres page) year
                   <> ObjectLiteral.Inherited ->
                   at_most_current page V
                     (fst (EarthControllerLookup.switchYear page year w))).
  { intros Hy. rewrite (lookup_switchYear_agrees page year w Hc Hy). cbn [fst].
    unfold at_most_current. rewrite switchYear_currentYear.
    destruct Hv as [Hv|Hv];
      [left; now apply switchYear_visible | now apply switchYear_visible_none]. }
  destruct (ObjectLiteral.get (earthSpheres page) year) eqn:Hy;
    [split; [apply Hplain; discriminate | discriminate] |
    | split; [apply Hplain; discriminate | discriminate]].
  assert (Hne : currentYear (this w) <> year).
  { intros E. apply Hc. now rewrite E. }
  rewrite (lookup_switchYear_raises page year w Hc Hy Hne).
  cbn [fst EarthControllerLookup.with_trace trace this].
  assert (E : visible_after V
                (trace w ++ [ConsoleLog ("[EarthController] Switching to year " +:+ year)] ++
                 match earthSpheres page !! currentYear (this w) with
                 | Some el => [SetVisible el false]
                 | None => []
                 end) = ∅).
  { rewrite !visible_after_app.
    rewrite (visible_after_other _ [ConsoleLog _]) by (repeat constructor).
    unfold sphere in Hv.
    destruct (earthSpheres page !! currentYear (this w)) as [cur|]; cbn;
      destruct Hv as [Hv|Hv]; rewrite Hv;
      rewrite ?difference_diag_L, ?empty_difference_L; reflexivity. }
  split; [now right | intros _; exact E].
Qed.

Lemma startAutoPlay_visible page w V :
  visible_after V (trace (startAutoPlay page w)) = visible_after V (trace w).
Proof. unfold startAutoPlay. cbn [trace]. apply (autoPlay_visible page w V true). Qed.

Lemma stopAutoPlay_visible page w V :
  visible_after V (trace (stopAutoPlay page w)) = visible_after V (trace w).
Proof. unfold stopAutoPlay. cbn [trace]. apply (autoPlay_visible page w V false). Qed.

Lemma resetAutoPlay_visible page w V :
  visible_after V (trace (resetAutoPlay page w)) = visible_after V (trace w) /\
  currentYear (this (resetAutoPlay page w)) = currentYear (this w).
Proof.
  unfold resetAutoPlay. destruct (truthy (autoPlay (this w))); [|split; reflexivity].
  rewrite startAutoPlay_visible. split; reflexivity.
Qed.

Lemma lookup_handle_visible page w ev V :
  EarthControllerLookup.year_own page w ->
  at_most_current page V w ->
  at_most_current page V (EarthControllerLookup.handle page w ev).
Proof.
  intros Hc Hv. destruct ev as [dataYear| |year|id|dt];
    cbn [EarthControllerLookup.handle].
  - destruct (lookup_switchYear_visible page dataYear w V Hc Hv) as [H _].
    destruct (EarthControllerLookup.switchYear page dataYear w) as [w' [err|]];
      cbn [fst] in H; [exact H|].
    unfold at_most_current in *.
    destruct (resetAutoPlay_visible page w' V) as [-> ->]. exact H.
  - unfold at_most_current in *. unfold toggleAutoPlay.
    destruct (truthy (autoPlay (this w)));
      [rewrite stopAutoPlay_visible | rewrite startAutoPlay_visible]; exact Hv.
  - apply (lookup_switchYear_visible page year w V Hc Hv).
  - unfold EarthControllerLookup.fire.
    destruct (intervals w !! id) as [due|]; [|exact Hv].
    destruct (due <=? now w)%Z; [|exact Hv].
    exact (proj1 (lookup_switchYear_visible page _ w V Hc Hv)).
  - exact Hv.
Qed.

(** Without inherited names the two models of the listeners agree. *)
Lemma lookup_handle_agrees page w ev :
  EarthControllerLookup.year_own page w -> plain page ev ->
  EarthControllerLookup.handle page w ev = handle page w ev.
Proof.
  intros Hc Hp. destruct ev as [dataYear| |year|id|dt];
    cbn [EarthControllerLookup.handle handle plain] in *; try reflexivity.
  - now rewrite (lookup_switchYear_agrees page dataYear w Hc Hp).
  - now rewrite (lookup_switchYear_agrees page year w Hc Hp).
  - unfold EarthControllerLookup.fire, fire.
    destruct (intervals w !! id) as [due|]; [|reflexivity].
    destruct (due <=? now w)%Z; [|reflexivity].
    unfold EarthControllerLookup.nextYear, nextYear.
    rewrite lookup_switchYear_agrees; [reflexivity | exact Hc |].
    apply ObjectLiteralProofs.get_plain.
    set (i := Z.rem _ _). unfold at_index, years.
    destruct (i <? 0)%Z; [reflexivity|].
    destruct (Z.to_nat i) as [|[|[|[|[|n]]]]]; reflexivity.
Qed.

(** X13.  On a page where the sphere of 2000 is the one visible at the
    start, after every sequence of year clicks, auto-play toggles, direct
    switchYear calls (with any argument) and timer ticks: (1) at most one
    sphere has its visible attribute set, and it is the sphere of
    currentYear; (2) when no year that was clicked or passed is a name
    inherited from Object.prototype, exactly the sphere of currentYear is
    visible (none when the page has no sphere for that year); (3) a
    switchYear with such an inherited name raises after it has hidden the
    current sphere, and leaves no sphere visible. *)
Theorem one_sphere_visible page v evs :
  let w := EarthControllerLookup.run page (boot v) evs in
  let visible w := visible_after (sphere page "2000") (trace w) in
  (visible w = sphere page (currentYear (this w)) \/ visible w = ∅) /\
  (Forall (plain page) evs -> visible w = sphere page (currentYear (this w))) /\
  (forall year,
      ObjectLiteral.get (earthSpheres page) year = ObjectLiteral.Inherited ->
      snd (EarthControllerLookup.switchYear page year w) <> None /\
      visible (EarthControllerLookup.handle page w (CallSwitchYear year)) = ∅).
Proof.
  intros w visible.
  assert (Hc : EarthControllerLookup.year_own page w)
    by apply lookup_run_own, lookup_boot_own.
  assert (Hv : at_most_current page (sphere page "2000") w).
  { unfold w. generalize (lookup_boot_own page v).
    assert (H0 : at_most_current page (sphere page "2000") (boot v)) by now left.
    revert H0. generalize (boot v). clear.
    induction evs as [|ev evs IH]; intros w0 H0 Hc0; [exact H0|].
    apply IH; [now apply lookup_handle_visible | now apply lookup_handle_own]. }
  split; [exact Hv|]. split.
  - intros Hp.
    assert (E : w = run page (boot v) evs).
    { unfold w. generalize (lookup_boot_own page v). generalize (boot v).
      clear - Hp. induction Hp as [|ev evs Hev _ IH]; intros w0 Hc0; [reflexivity|].
      cbn [EarthControllerLookup.run run fold_left].
      rewrite (lookup_handle_agrees page w0 ev Hc0 Hev).
      apply IH. rewrite <- (lookup_handle_agrees page w0 ev Hc0 Hev).
      now apply lookup_handle_own. }
    unfold visible. rewrite E. clear.
    assert (H : forall evs w,
               visible_after (sphere page "2000") (trace w) =
                 sphere page (currentYear (this w)) ->
               visible_after (sphere page "2000") (trace (run page w evs)) =
                 sphere page (currentYear (this (run page w evs)))).
    { clear evs. induction evs as [|ev evs IH]; intros w Hw; [exact Hw|].
      apply IH. now apply handle_visible. }
    apply H. reflexivity.
  - intros year Hy. split.
    + assert (Hne : currentYear (this w) <> year).
      { intros E. apply Hc. now rewrite E. }
      now rewrite (lookup_switchYear_raises page year w Hc Hy Hne).
    + cbn [EarthControllerLookup.handle].
      apply (lookup_switchYear_visible page year w _ Hc Hv), Hy.
Qed.

Lemma years_member y :
  has years y = true -> y = "2000" \/ y = "2010" \/ y = "2020" \/ y = "2050".
Proof.
  unfold has, years. cbn [existsb]. intros H.
  repeat (apply orb_true_iff in H; destruct H as [H|H]);
    try (apply String.eqb_eq in H; subst; tauto). discriminate.
Qed.

(** X14.  From a current year that is one of the four, nextYear and
    previousYear undo each other, four calls of either come back to the
    year they started from, and the year stays one of the four. *)
Theorem year_navigation_round_trip page w :
  has years (currentYear (this w)) = true ->
  currentYear (this (previousYear page (nextYear page w))) = currentYear (this w) /\
  currentYear (this (nextYear page (previousYear page w))) = currentYear (this w) /\
  currentYear (this (Nat.iter 4 (nextYear page) w)) = currentYear (this w) /\
  currentYear (this (Nat.iter 4 (previousYear page) w)) = currentYear (this w) /\
  has years (currentYear (this (nextYear page w))) = true /\
  has years (currentYear (this (previousYear page w))) = true.
Proof.
  intros H. apply years_member in H.
  assert (Hn : forall w0, currentYear (this (nextYear page w0)) =
                 at_index years (Z.rem (indexOf years (currentYear (this w0)) + 1)
                                       (array_length years))).
  { intros w0. unfold nextYear. apply switchYear_currentYear. }
  assert (Hp : forall w0, currentYear (this (previousYear page w0)) =
                 at_index years
                   (Z.rem (indexOf years (currentYear (this w0)) - 1 + array_length years)
                          (array_length years))).
  { intros w0. unfold previousYear. apply switchYear_currentYear. }
  cbn [Nat.iter nat_rect]. unfold Nat.iter. cbn [nat_rect].
  rewrite !Hn, !Hp, ?Hn, ?Hp, ?Hn, ?Hp.
  destruct H as [-> | [-> | [-> | ->]]]; repeat split; reflexivity.
Qed.

Lemma year_navigation_round_trip_witness :
  let w := switchYear demo_page "2050" (boot (VBool false)) in
  has years (currentYear (this w)) = true /\
  currentYear (this (nextYear demo_page w)) = "2000" /\
  currentYear (this (previousYear demo_page (nextYear demo_page w))) = "2050".
Proof.
  pose proof (year_navigation_round_trip demo_page
                (switchYear demo_page "2050" (boot (VBool false))) eq_refl)
    as (H & _).
  split; [reflexivity|]. split; [reflexivity | exact H].
Defined.

End EarthSpheresProofs.
Module EarthControllerVRProofs.
Import EarthController EarthControllerVR.

(* ------------------------------------------------------------------- *)
(*  switchYear with a year button missing                              *)
(* ------------------------------------------------------------------- *)
Lemma update_buttons_missing page year entries :
  (exists y, y ∈ entries /\ yearButtons page !! y = None) ->
  snd (update_buttons page year entries) = Some null_button.
Proof.
  induction entries as [|a entries IH]; intros (y & Hin & Hy).
  - now apply elem_of_nil in Hin.
  - cbn [update_buttons]. destruct (yearButtons page !! a) as [button|] eqn:Ea;
      [|reflexivity].
    apply elem_of_cons in Hin. destruct Hin as [->|Hin]; [congruence|].
    specialize (IH (ex_intro _ y (conj Hin Hy))).
    destruct (update_buttons page year entries) as [later err]. exact IH.
Qed.

(** What [switchYear] leaves alone in every case. *)
Lemma vr_switchYear_keeps page year w :
  let w' := fst (switchYear page year w) in
  intervals w' = intervals w /\ nextTimer w' = nextTimer w /\ now w' = now w /\
  autoPlay (this w') = autoPlay (this w) /\
  autoPlayTimer (this w') = autoPlayTimer (this w) /\
  autoPlayInterval (this w') = autoPlayInterval (this w).
Proof.
  unfold switchYear. destruct (String.eqb (currentYear (this w)) year); [cbn; tauto|].
  destruct (update_buttons page year buttonYears) as [buttons [err|]]; cbn; tauto.
Qed.

Lemma switchYear_committed page year w :
  snd (switchYear page year w) = None ->
  currentYear (this (fst (switchYear page year w))) = year.
Proof.
  unfold switchYear. destruct (String.eqb (currentYear (this w)) year) eqn:E.
  - intros _. now apply String.eqb_eq in E.
  - destruct (update_buttons page year buttonYears) as [buttons [err|]];
      [discriminate | reflexivity].
Qed.

Lemma switchYear_raised page year w err :
  snd (switchYear page year w) = Some err ->
  this (fst (switchYear page year w)) = this w.
Proof.
  unfold switchYear. destruct (String.eqb (currentYear (this w)) year);
    [discriminate|].
  destruct (update_buttons page year buttonYears) as [buttons [e|]];
    [reflexivity | discriminate].
Qed.

Lemma switchYear_missing page year w :
  (exists y, y ∈ buttonYears /\ yearButtons page !! y = None) ->
  currentYear (this w) <> year ->
  snd (switchYear page year w) = Some null_button /\
  this (fst (switchYear page year w)) = this w /\
  (forall el, earthSpheres page !! currentYear (this w) = Some el ->
              SetVisible el false ∈ trace (fst (switchYear page year w))) /\
  (forall el, earthSpheres page !! year = Some el ->
              SetVisible el true ∈ trace (fst (switchYear page year w))).
Proof.
  intros Hmiss Hne. pose proof (update_buttons_missing page year buttonYears Hmiss) as Hb.
  unfold switchYear. apply String.eqb_neq in Hne. rewrite Hne.
  destruct (update_buttons page year buttonYears) as [buttons err]. cbn [snd] in Hb.
  subst err. cbn [fst snd with_trace this trace]. repeat split.
  - intros el ->. rewrite !elem_of_app. right. right. left. left.
  - intros el ->. rewrite !elem_of_app. right. right. right. left. left.
Qed.

Lemma switchYear_stuck page year w :
  (exists y, y ∈ buttonYears /\ yearButtons page !! y = None) ->
  currentYear (this (fst (switchYear page year w))) = currentYear (this w).
Proof.
  intros Hmiss. destruct (String.eqb (currentYear (this w)) year) eqn:E.
  - unfold switchYear. now rewrite E.
  - apply String.eqb_neq in E.
    now destruct (switchYear_missing page year w Hmiss E) as (_ & -> & _).
Qed.

Lemma resetAutoPlay_year page w :
  currentYear (this (resetAutoPlay page w)) = currentYear (this w).
Proof. unfold resetAutoPlay. now destruct (autoPlay (this w)). Qed.

Lemma toggleAutoPlay_year page w :
  currentYear (this (toggleAutoPlay page w)) = currentYear (this w).
Proof. unfold toggleAutoPlay. now destruct (autoPlay (this w)). Qed.

Lemma handle_stuck page w ev :
  (exists y, y ∈ buttonYears /\ yearButtons page !! y = None) ->
  currentYear (this (handle page w ev)) = currentYear (this w).
Proof.
  intros Hmiss.
  assert (Hl : forall year w0,
             currentYear (this (year_listener page year w0)) = currentYear (this w0)).
  { intros year w0. unfold year_listener.
    pose proof (switchYear_stuck page year w0 Hmiss) as Hs.
    destruct (switchYear page year w0) as [w' [err|]]; cbn [fst] in Hs;
      [exact Hs | now rewrite resetAutoPlay_year]. }
  destruct ev; cbn [handle].
  - destruct (yearButtons page !! year); [|reflexivity]. now rewrite Hl.
  - destruct (yearButtons page !! year); [|reflexivity]. now rewrite Hl.
  - destruct (autoPlayBtn page); [|reflexivity]. now rewrite toggleAutoPlay_year.
  - destruct (autoPlayBtn page); [|reflexivity]. now rewrite toggleAutoPlay_year.
  - now apply switchYear_stuck.
  - unfold fire. destruct (intervals w !! id) as [due|]; [|reflexivity].
    destruct (due <=? now w)%Z; [|reflexivity]. cbn [this].
    unfold nextYear. now apply switchYear_stuck.
  - reflexivity.
Qed.

(** X15.  In the VR build switchYear walks over all four year buttons
    without a null check and assigns currentYear last.  On a page that
    lacks one of the four buttons, every switchYear to another year raises
    a TypeError after it has hidden the current sphere and shown the
    target one, and currentYear is never assigned: whatever the user and
    the auto-play timer do, currentYear stays "2000". *)
Theorem missing_button_blocks_year_change page evs :
  (exists y, y ∈ buttonYears /\ yearButtons page !! y = None) ->
  let w := run page (setup page) evs in
  currentYear (this w) = "2000" /\
  forall year, year <> "2000" ->
    snd (switchYear page year w) = Some null_button /\
    currentYear (this (fst (switchYear page year w))) = "2000" /\
    (forall el, earthSpheres page !! "2000" = Some el ->
                SetVisible el false ∈ trace (fst (switchYear page year w))) /\
    (forall el, earthSpheres page !! year = Some el ->
                SetVisible el true ∈ trace (fst (switchYear page year w))).
Proof.
  intros Hmiss w.
  assert (Hw : currentYear (this w) = "2000").
  { unfold w. generalize (setup page) (eq_refl : currentYear (this (setup page)) = "2000").
    induction evs as [|ev evs IH]; intros w0 H0; [exact H0|].
    apply IH. now rewrite handle_stuck. }
  split; [exact Hw|]. intros year Hne.
  destruct (switchYear_missing page year w Hmiss) as (He & Ht & Hh & Hs);
    [congruence|].
  split; [exact He|]. split; [now rewrite Ht|]. split; [|exact Hs].
  intros el Hel. apply Hh. now rewrite Hw.
Qed.

(* ------------------------------------------------------------------- *)
(*  Auto-play                                                          *)
(* ------------------------------------------------------------------- *)
Lemma vr_consistent_cleared w : autoPlay_consistent w -> clear_autoPlayTimer w = ∅.
Proof.
  intros (Hdom & _). apply map_empty. intros j. unfold clear_autoPlayTimer.
  apply eq_None_not_Some.
  destruct (autoPlayTimer (this w)) as [id|] eqn:E.
  - destruct (decide (id = j)) as [->|Hne].
    + rewrite lookup_delete_eq. now intros [? ?].
    + rewrite lookup_delete_ne by exact Hne. intros Hs.
      apply Hdom in Hs. congruence.
  - intros Hs. apply Hdom in Hs. discriminate.
Qed.

Lemma vr_consistent_off w :
  autoPlay_consistent w -> autoPlay (this w) = false -> intervals w = ∅.
Proof.
  intros H Hoff. pose proof (vr_consistent_cleared w H) as Hc.
  destruct H as (_ & Hon & _). unfold clear_autoPlayTimer in Hc.
  destruct (autoPlayTimer (this w)) as [id|] eqn:E; [|exact Hc].
  assert (autoPlay (this w) = true) by (apply Hon; eauto). congruence.
Qed.

Lemma startAutoPlay_consistent page w :
  intervals w = ∅ -> autoPlay_consistent (startAutoPlay page w).
Proof.
  intros He. unfold startAutoPlay, autoPlay_consistent.
  cbn [intervals this autoPlayTimer autoPlay nextTimer]. rewrite He, insert_empty.
  split; [|split].
  - intros id. split.
    + intros [z Hz]. apply lookup_singleton_Some in Hz. destruct Hz as [-> _].
      reflexivity.
    + intros [= <-]. rewrite lookup_singleton_eq. eauto.
  - split; eauto.
  - intros id [= <-]. lia.
Qed.

Lemma stopAutoPlay_consistent page w :
  autoPlay_consistent w -> autoPlay_consistent (stopAutoPlay page w).
Proof.
  intros H. unfold stopAutoPlay, autoPlay_consistent.
  cbn [intervals this autoPlayTimer autoPlay nextTimer].
  rewrite (vr_consistent_cleared w H). split; [|split].
  - intros id. rewrite lookup_empty. split; [now intros [? ?] | discriminate].
  - split; [discriminate | now intros [? ?]].
  - discriminate.
Qed.

Lemma vr_switchYear_consistent page year w :
  autoPlay_consistent w -> autoPlay_consistent (fst (switchYear page year w)).
Proof.
  intros H. destruct (vr_switchYear_keeps page year w) as (Ei & En & _ & Ea & Et & _).
  unfold autoPlay_consistent. rewrite Ei, En, Ea, Et. exact H.
Qed.

Lemma vr_resetAutoPlay_consistent page w :
  autoPlay_consistent w -> autoPlay_consistent (resetAutoPlay page w).
Proof.
  intros H. unfold resetAutoPlay. destruct (autoPlay (this w)); [|exact H].
  apply startAutoPlay_consistent. now apply vr_consistent_cleared.
Qed.

Lemma vr_toggleAutoPlay_consistent page w :
  autoPlay_consistent w -> autoPlay_consistent (toggleAutoPlay page w).
Proof.
  intros H. unfold toggleAutoPlay. destruct (autoPlay (this w)) eqn:E.
  - now apply stopAutoPlay_consistent.
  - apply startAutoPlay_consistent. now apply vr_consistent_off.
Qed.

Lemma with_trace_consistent tr w :
  autoPlay_consistent w -> autoPlay_consistent (with_trace tr w).
Proof. intros H. exact H. Qed.

Lemma handle_autoPlay_consistent page w ev :
  autoPlay_consistent w -> autoPlay_consistent (handle page w ev).
Proof.
  intros H.
  assert (Hl : forall year w0, autoPlay_consistent w0 ->
                               autoPlay_consistent (year_listener page year w0)).
  { intros year w0 H0. unfold year_listener.
    pose proof (vr_switchYear_consistent page year w0 H0) as Hs.
    destruct (switchYear page year w0) as [w' [err|]]; cbn [fst] in Hs;
      [exact Hs | now apply vr_resetAutoPlay_consistent]. }
  destruct ev; cbn [handle].
  - destruct (yearButtons page !! year); [|exact H].
    now apply Hl, with_trace_consistent.
  - destruct (yearButtons page !! year); [|exact H]. now apply Hl.
  - destruct (autoPlayBtn page); [|exact H].
    now apply vr_toggleAutoPlay_consistent, with_trace_consistent.
  - destruct (autoPlayBtn page); [|exact H]. now apply vr_toggleAutoPlay_consistent.
  - now apply vr_switchYear_consistent.
  - unfold fire. destruct (intervals w !! id) as [due|] eqn:E; [|exact H].
    destruct (due <=? now w)%Z; [|exact H]. unfold nextYear.
    set (year := at_index years _).
    pose proof (vr_switchYear_consistent page year w H) as H'.
    destruct (vr_switchYear_keeps page year w) as (Ei & _).
    set (w' := fst (switchYear page year w)) in *.
    destruct H' as (Hdom & Hon & Hlt).
    split; [|split]; cbn [intervals this nextTimer]; try assumption.
    intros j. rewrite <- Hdom. destruct (decide (id = j)) as [->|Hne].
    + rewrite lookup_insert_eq, Ei, E. split; eauto.
    + now rewrite lookup_insert_ne.
  - exact H.
Qed.

Lemma setup_consistent page : autoPlay_consistent (setup page).
Proof. apply startAutoPlay_consistent. reflexivity. Qed.

Lemma run_autoPlay_consistent page evs : forall w,
  autoPlay_consistent w -> autoPlay_consistent (run page w evs).
Proof.
  induction evs as [|ev evs IH]; intros w H; [exact H|].
  apply IH. now apply handle_autoPlay_consistent.
Qed.

(** X16.  In the VR build auto-play is started by setup, with one
    interval due a full period later.  After any sequence of clicks and
    hovers on the year and auto-play buttons, direct switchYear calls and
    timer ticks (also ticks and listeners that raise), auto-play is on
    exactly when one interval is alive, and off exactly when none is;
    there are never two. *)
Theorem vr_autoPlay_on_iff_interval page evs :
  intervals (setup page) = {[ 1 := 5000%Z ]} /\
  let w := run page (setup page) evs in
  (autoPlay (this w) = true <-> exists id due, intervals w = {[ id := due ]}) /\
  (autoPlay (this w) = false <-> intervals w = ∅).
Proof.
  split; [reflexivity|]. intros w.
  pose proof (run_autoPlay_consistent page evs _ (setup_consistent page)) as H.
  fold w in H. destruct H as (Hdom & Hon & _).
  assert (Hnone : autoPlayTimer (this w) = None -> intervals w = ∅).
  { intros E. apply map_empty. intros j. apply eq_None_not_Some. intros Hs.
    apply Hdom in Hs. congruence. }
  assert (Hsome : forall id, autoPlayTimer (this w) = Some id ->
                             exists due, intervals w = {[ id := due ]}).
  { intros id E. destruct (proj2 (Hdom id) E) as [due Hdue]. exists due.
    apply map_eq. intros j. destruct (decide (id = j)) as [<-|Hne].
    - now rewrite lookup_singleton_eq.
    - rewrite lookup_singleton_ne by exact Hne. apply eq_None_not_Some.
      intros Hs. apply Hdom in Hs. congruence. }
  destruct (autoPlayTimer (this w)) as [id|] eqn:E.
  - assert (Ha : autoPlay (this w) = true) by (apply Hon; eauto).
    destruct (Hsome id eq_refl) as [due Hd]. split; split.
    + intros _. eauto.
    + intros _. exact Ha.
    + congruence.
    + intros He. rewrite He in Hd. symmetry in Hd.
      apply (f_equal (fun m => m !! id)) in Hd.
      rewrite lookup_singleton_eq, lookup_empty in Hd. discriminate.
  - assert (Ha : autoPlay (this w) = false).
    { destruct (autoPlay (this w)) eqn:Ea; [|reflexivity].
      destruct (proj1 Hon eq_refl). discriminate. }
    pose proof (Hnone eq_refl) as He. split; split.
    + congruence.
    + intros (id & due & Hd). rewrite He in Hd.
      apply (f_equal (fun m => m !! id)) in Hd.
      rewrite lookup_singleton_eq, lookup_empty in Hd. discriminate.
    + intros _. exact He.
    + intros _. exact Ha.
Qed.

Lemma page_without_2050_missing :
  exists y, y ∈ buttonYears /\ yearButtons page_without_2050 !! y = None.
Proof.
  exists "2050". split; [|reflexivity].
  apply (bool_decide_unpack _). vm_compute. reflexivity.
Defined.

Lemma missing_button_blocks_year_change_witness :
  (exists y, y ∈ buttonYears /\ yearButtons page_without_2050 !! y = None) /\
  let w := run page_without_2050 (setup page_without_2050)
             [Elapse 5000; TimerFires 1; ClickYear "2020"] in
  currentYear (this w) = "2000" /\
  snd (switchYear page_without_2050 "2010" w) = Some null_button /\
  SetVisible "earth-2010" true ∈ trace (fst (switchYear page_without_2050 "2010" w)).
Proof.
  split; [exact page_without_2050_missing|].
  pose proof (missing_button_blocks_year_change page_without_2050
                [Elapse 5000; TimerFires 1; ClickYear "2020"]
                page_without_2050_missing) as [Hy Hs].
  cbv zeta in *. split; [exact Hy|].
  destruct (Hs "2010" ltac:(discriminate)) as (He & _ & _ & Hshow).
  split; [exact He|]. apply Hshow. reflexivity.
Defined.

End EarthControllerVRProofs.
Module GlobeViewProofs.
Import GlobeRotation GlobeView GlobeRotationProofs.






(* ------------------------------------------------------------------- *)
(*  Spheres and hotspots turn together                                 *)
(* ------------------------------------------------------------------- *)
Lemma last_rotation_app el tr tr' :
  last_rotation el (tr ++ tr') =
  match last_rotation el tr' with
  | Some rot => Some rot
  | None => last_rotation el tr
  end.
Proof.
  unfold last_rotation. rewrite fold_left_app.
  generalize (fold_left
                (fun acc e => match e with
                              | SetRotation el' rot =>
                                  if String.eqb el' el then Some rot else acc
                              | SetCursor _ => acc
                              end) tr None).
  induction tr' as [|e tr' IH] using rev_ind; intros acc; [reflexivity|].
  rewrite !fold_left_app. cbn [fold_left]. destruct e as [el' rot|style].
  - destruct (String.eqb el' el); [reflexivity | apply IH].
  - apply IH.
Qed.

Lemma last_rotation_map el rot els :
  last_rotation el (map (fun el' => SetRotation el' rot) els) =
  if bool_decide (el ∈ els) then Some rot else None.
Proof.
  induction els as [|a els IH] using rev_ind.
  - cbn. rewrite bool_decide_eq_false_2; [reflexivity | apply not_elem_of_nil].
  - rewrite map_app, last_rotation_app, IH. cbn [map].
    unfold last_rotation at 1. cbn [fold_left].
    destruct (String.eqb a el) eqn:E.
    + apply String.eqb_eq in E. subst a.
      rewrite bool_decide_eq_true_2; [reflexivity|]. apply elem_of_app. right. left.
    + apply String.eqb_neq in E. destruct (decide (el ∈ els)) as [Hin|Hout].
      * rewrite !bool_decide_eq_true_2; [reflexivity | | exact Hin].
        apply elem_of_app. now left.
      * rewrite !bool_decide_eq_false_2; [reflexivity | | exact Hout].
        intros H. apply elem_of_app in H. destruct H as [H|H]; [contradiction|].
        apply list_elem_of_singleton in H. congruence.
Qed.

Lemma last_rotation_render page rot el tr :
  el ∈ rotated page -> last_rotation el (tr ++ render page rot) = Some rot.
Proof.
  intros Hin. rewrite last_rotation_app. unfold render.
  rewrite last_rotation_app, !last_rotation_map.
  unfold rotated in Hin. apply elem_of_app in Hin.
  destruct (decide (el ∈ hotspots page)) as [Hh|Hh].
  - now rewrite (bool_decide_eq_true_2 _ Hh).
  - rewrite (bool_decide_eq_false_2 _ Hh). destruct Hin as [Hs|Hs]; [|contradiction].
    now rewrite (bool_decide_eq_true_2 _ Hs).
Qed.

Lemma last_rotation_cursor el tr cursor :
  Forall (fun e => match e with SetCursor _ => True | _ => False end) cursor ->
  last_rotation el (tr ++ cursor) = last_rotation el tr.
Proof.
  intros H. rewrite last_rotation_app.
  assert (E : last_rotation el cursor = None).
  { induction cursor as [|e cursor IH] using rev_ind; [reflexivity|].
    apply Forall_app in H. destruct H as [H1 H2].
    apply (proj1 (Forall_singleton _ _)) in H2.
    rewrite last_rotation_app. destruct e as [el' rot|style]; [destruct H2|].
    cbn. now apply IH. }
  now rewrite E.
Qed.

Lemma applyInertia_in_step page s :
  in_step page s -> in_step page (applyInertia page s).
Proof.
  intros H el Hel. unfold applyInertia.
  destruct (negb (isDragging s) && _); cbn [trace globeRotation].
  - left. now apply last_rotation_render.
  - now apply H.
Qed.

Lemma handle_in_step page s ev : in_step page s -> in_step page (handle page s ev).
Proof.
  intros H.
  assert (Hcur : forall cursor s0,
             Forall (fun e => match e with SetCursor _ => True | _ => False end) cursor ->
             globeRotation s0 = globeRotation s ->
             trace s0 = trace s ++ cursor -> in_step page s0).
  { intros cursor s0 Hc Hr Ht el Hel. rewrite Ht, Hr, last_rotation_cursor by exact Hc.
    now apply H. }
  assert (Hdrag : forall c now, in_step page (drag_to page c now s)).
  { intros c now el Hel. left. cbn [drag_to trace globeRotation].
    now apply last_rotation_render. }
  assert (Hrel : forall cursor,
             Forall (fun e => match e with SetCursor _ => True | _ => False end) cursor ->
             in_step page (release page cursor s)).
  { intros cursor Hc. unfold release. destruct (isDragging s); [|exact H].
    apply applyInertia_in_step. now apply (Hcur cursor). }
  destruct ev as [onUI cx cy now | cx cy now | | onUI ts now | ts now | | ];
    cbn [handle].
  - destruct onUI; [exact H|]. apply (Hcur [SetCursor "grabbing"]);
      [repeat constructor | reflexivity | reflexivity].
  - destruct (isDragging s); [apply Hdrag | exact H].
  - apply Hrel. repeat constructor.
  - destruct onUI; [exact H|]. destruct ts as [|t [|t' ts]]; try exact H.
    apply (Hcur []); [constructor | reflexivity | reflexivity].
  - destruct (isDragging s); [|exact H].
    destruct ts as [|t [|t' ts]]; try exact H. apply Hdrag.
  - apply Hrel. constructor.
  - unfold run_frame. destruct (frames s) as [|id rest]; [exact H|].
    apply applyInertia_in_step. intros el Hel. now apply H.
Qed.

(** X19.  The spheres and the hotspots turn together: after any sequence
    of pointer events and animation frames, the rotation last written to
    every visible sphere and every hotspot is the current globeRotation
    (before the first write the globe is at its initial rotation). *)
Theorem spheres_and_hotspots_in_step page evs el :
  el ∈ rotated page ->
  let s := run page setup evs in
  last_rotation el (trace s) = Some (globeRotation s) \/
  (last_rotation el (trace s) = None /\ globeRotation s = {| x := 0; y := 0 |}).
Proof.
  intros Hel s.
  assert (H : forall evs s0, in_step page s0 -> in_step page (run page s0 evs)).
  { clear. intros evs. induction evs as [|ev evs IH]; intros s0 H0; [exact H0|].
    apply IH. now apply handle_in_step. }
  apply (H evs setup); [|exact Hel].
  intros el' _. right. split; reflexivity.
Qed.


Lemma demo_hotspot_rotated : "hotspot-pacific" ∈ rotated demo_page.
Proof. apply (bool_decide_unpack _). vm_compute. reflexivity. Defined.

Lemma spheres_and_hotspots_in_step_witness :
  "hotspot-pacific" ∈ rotated demo_page /\
  let s := run demo_page setup
             [MouseDown false 0 0 0; MouseMove 4 0 1000; MouseUp; Frame] in
  last_rotation "hotspot-pacific" (trace s) = Some (globeRotation s) \/
  (last_rotation "hotspot-pacific" (trace s) = None /\
   globeRotation s = {| x := 0; y := 0 |}).
Proof.
  split; [exact demo_hotspot_rotated|].
  exact (spheres_and_hotspots_in_step demo_page
           [MouseDown false 0 0 0; MouseMove 4 0 1000; MouseUp; Frame]
           "hotspot-pacific" demo_hotspot_rotated).
Defined.

End GlobeViewProofs.
Module AnimationControllerProofs.
Import AnimationController.

Lemma stop_elements els : forall c,
  let c' := fold_left (fun c waterEl =>
                         removeAttribute waterEl "animation__wave"
                           (removeAttribute waterEl "animation__rise"
                              (removeAttribute waterEl "animation__level" c)))
                      els c in
  waterElements c' = waterElements c /\
  isInitialized c' = isInitialized c /\
  forall el name,
    attributes c' !! (el, name) =
    if bool_decide (el ∈ els) && bool_decide (name ∈ animations)
    then None else attributes c !! (el, name).
Proof.
  induction els as [|a els IH]; intros c.
  - cbn. split; [reflexivity|]. split; [reflexivity|]. intros el name.
    rewrite (bool_decide_eq_false_2 (el ∈ [])); [reflexivity | apply not_elem_of_nil].
  - cbn [fold_left].
    set (c1 := removeAttribute a "animation__wave" _).
    destruct (IH c1) as (Hw & Hi & Ha). cbv zeta in Hw, Hi, Ha.
    split; [exact Hw|]. split; [exact Hi|]. intros el name. rewrite Ha.
    destruct (bool_decide (name ∈ animations)) eqn:En.
    + rewrite !andb_true_r. destruct (decide (el ∈ els)) as [Hin|Hout].
      * rewrite !bool_decide_eq_true_2; [reflexivity | now right | exact Hin].
      * rewrite (bool_decide_eq_false_2 _ Hout).
        destruct (decide (el = a)) as [->|Hne].
        -- rewrite bool_decide_eq_true_2 by left.
           apply bool_decide_eq_true_1 in En. unfold animations in En.
           unfold c1, removeAttribute. cbn [attributes].
           repeat (apply elem_of_cons in En; destruct En as [->|En]).
           ++ rewrite !lookup_delete_ne by congruence. apply lookup_delete_eq.
           ++ rewrite lookup_delete_ne by congruence. apply lookup_delete_eq.
           ++ apply lookup_delete_eq.
           ++ now apply elem_of_nil in En.
        -- rewrite bool_decide_eq_false_2.
           2: { intros H. apply elem_of_cons in H. tauto. }
           unfold c1, removeAttribute. cbn [attributes].
           now rewrite !lookup_delete_ne by congruence.
    + rewrite !andb_false_r. unfold c1, removeAttribute. cbn [attributes].
      apply bool_decide_eq_false_1 in En. unfold animations in En.
      rewrite !lookup_delete_ne; [reflexivity | | |];
        intros [= _ <-]; apply En; rewrite !elem_of_cons; tauto.
Qed.

Lemma handle_disabled waterLevels c call :
  waterElements c = ∅ -> isInitialized c = false ->
  handle waterLevels c call = c.
Proof.
  intros Hw Hi. destruct c as [w i a]. cbn in Hw, Hi. subst w i.
  destruct call; reflexivity.
Qed.

(** X20.  cleanup() removes the level, rise and wave animations from every
    registered water element, leaves every other attribute as it is, and
    disables the controller: whatever is called afterwards
    (updateWaterLevel, createWaveEffect, stopWaveEffect, stopAllAnimations,
    cleanup, for any year), nothing is written to the page. *)
Theorem cleanup_stops_and_disables waterLevels c calls :
  let c' := cleanup c in
  (forall year el name,
      waterElements c !! year = Some el -> name ∈ animations ->
      attributes c' !! (el, name) = None) /\
  (forall el name,
      name ∉ animations -> attributes c' !! (el, name) = attributes c !! (el, name)) /\
  run waterLevels c' calls = c'.
Proof.
  intros c'.
  destruct (stop_elements (map_to_list (waterElements c)).*2 c) as (_ & _ & Ha).
  cbv zeta in Ha. split; [|split].
  - intros year el name Hy Hn. unfold c', cleanup, stopAllAnimations.
    cbn [attributes]. rewrite Ha.
    rewrite !bool_decide_eq_true_2; [reflexivity | exact Hn |].
    apply list_elem_of_fmap. exists (year, el). split; [reflexivity|].
    now apply elem_of_map_to_list.
  - intros el name Hn. unfold c', cleanup, stopAllAnimations. cbn [attributes].
    rewrite Ha. rewrite (bool_decide_eq_false_2 _ Hn). now rewrite andb_false_r.
  - induction calls as [|call calls IH]; [reflexivity|].
    cbn [run fold_left]. rewrite handle_disabled by reflexivity. exact IH.
Qed.

End AnimationControllerProofs.
Module GazeControllerProofs.
Import SceneManager SceneNavigation GazeController SceneManagerProofs
       SceneNavigationProofs.

Lemma request_on_the_map cfg env portal targetScene m :
  mapping cfg portal = Some targetScene ->
  on_the_map cfg env m -> on_the_map cfg env (request env targetScene m).
Proof.
  intros Hmap [Hs Hp]. split; [now rewrite request_stays|].
  destruct (request_pending env targetScene m) as [->|(k & -> & _ & Ht & Hc)];
    [exact Hp|].
  apply Forall_app. split; [exact Hp|]. apply Forall_singleton. rewrite Ht.
  split; [now exists portal | exact Hc].
Qed.

Lemma resume_on_the_map cfg env m :
  on_the_map cfg env m -> on_the_map cfg env (resume env m).
Proof.
  intros [Hs Hp]. destruct (pending m) as [|k rest] eqn:E.
  - rewrite (resume_nothing env m E). split; [exact Hs | now rewrite E].
  - apply Forall_cons in Hp. destruct Hp as [Hk Hrest]. split.
    + destruct (resume_moves env m k rest E) as [->| ->]; [exact Hs | now right].
    + destruct (resume_pending env m k rest E) as [->|(k' & -> & _ & _ & Ht)];
        [exact Hrest|].
      apply Forall_cons. split; [now rewrite Ht | exact Hrest].
Qed.

Lemma handle_on_the_map cfg env w ev :
  (forall m, sceneManager w = Some m -> on_the_map cfg env m) ->
  forall m, sceneManager (handle cfg env w ev) = Some m -> on_the_map cfg env m.
Proof.
  intros H. destruct ev as [portal now | portal | el | ]; cbn [handle].
  - unfold onGazeStart. destruct (is_portal portal); [|exact H].
    destruct (transitioning w); exact H.
  - destruct (is_portal portal) as [el|] eqn:Ep; [|exact H].
    unfold onGazeComplete. rewrite Ep.
    destruct (mapping cfg (id el)) as [targetScene|] eqn:Em; [|exact H].
    cbn [flashPortal resetGaze write sceneManager]. intros m Hm.
    destruct (sceneManager w) as [m0|]; [|discriminate]. injection Hm as <-.
    apply (request_on_the_map cfg env (id el)); [exact Em | now apply H].
  - exact H.
  - cbn [sceneManager]. intros m Hm.
    destruct (sceneManager w) as [m0|]; [|discriminate]. injection Hm as <-.
    apply resume_on_the_map. now apply H.
Qed.

Lemma run_on_the_map cfg env evs : forall w,
  (forall m, sceneManager w = Some m -> on_the_map cfg env m) ->
  forall m, sceneManager (run cfg env w evs) = Some m -> on_the_map cfg env m.
Proof.
  induction evs as [|ev evs IH]; intros w H; [exact H|].
  apply IH. now apply handle_on_the_map.
Qed.

Lemma run_sceneManager_set cfg env evs : forall w,
  is_Some (sceneManager w) -> is_Some (sceneManager (run cfg env w evs)).
Proof.
  induction evs as [|ev evs IH]; intros w H; [exact H|].
  apply IH. destruct H as [m H].
  destruct ev as [portal now | portal | el | ]; cbn [handle].
  - unfold onGazeStart. destruct (is_portal portal); [|now exists m].
    destruct (transitioning w); now exists m.
  - destruct (is_portal portal) as [el|] eqn:Ep; [|now exists m].
    unfold onGazeComplete. rewrite Ep.
    destruct (mapping cfg (id el)); [|now exists m].
    cbn [flashPortal resetGaze write sceneManager]. rewrite H. now eexists.
  - now exists m.
  - cbn [sceneManager]. rewrite H. now eexists.
Qed.

(** X21.  A GazeController in front of a SceneManager.  (1) Whatever is
    gazed at and clicked, and whatever raises, the current scene is the
    constructor's "2000" or a scene that some portal maps to and
    CONFIG.scenes has.
    (2) A gaze that starts while a transition is in progress is ignored.
    (3) Completing the gaze on a mapped portal always resets the gaze and
    flashes the portal, also when the SceneManager drops the request
    because a transition is in progress; on a portal without mapping (or
    mapped to an empty string) it changes neither the gaze nor the
    SceneManager. *)
Theorem portals_lead_to_mapped_scenes cfg env evs :
  let w := run cfg env (constructor (Some boot)) evs in
  (exists m, sceneManager w = Some m /\
             (currentScene (state m) = "2000" \/
              reachable cfg env (currentScene (state m)))) /\
  (forall portal now, transitioning w = true ->
                      onGazeStart cfg now portal w = w) /\
  (forall el,
      has_class_portal el = true ->
      let w' := onGazeComplete cfg env (Some el) w in
      match mapping cfg (id el) with
      | Some targetScene =>
          isGazing w' = false /\ gazeTarget w' = None /\
          (exists before,
              written w' = before ++ [Flash (id el); SetTimeout 500]) /\
          sceneManager w' = request env targetScene <$> sceneManager w /\
          (transitioning w = true ->
           (state <$> sceneManager w') = (state <$> sceneManager w) /\
           (pending <$> sceneManager w') = (pending <$> sceneManager w))
      | None =>
          isGazing w' = isGazing w /\ gazeTarget w' = gazeTarget w /\
          sceneManager w' = sceneManager w
      end).
Proof.
  intros w.
  assert (Hinv : forall m, sceneManager w = Some m -> on_the_map cfg env m).
  { apply run_on_the_map. intros m [= <-]. split; [now left | constructor]. }
  split; [|split].
  - destruct (run_sceneManager_set cfg env evs (constructor (Some boot)))
      as [m E]; [now eexists|].
    exists m. split; [exact E|]. now apply Hinv.
  - intros portal now Ht. unfold onGazeStart.
    destruct (is_portal portal); [|reflexivity]. now rewrite Ht.
  - intros el Hel w'. unfold w', onGazeComplete, is_portal. rewrite Hel.
    destruct (mapping cfg (id el)) as [targetScene|] eqn:Em.
    + cbn [flashPortal resetGaze write isGazing gazeTarget written sceneManager].
      split; [reflexivity|]. split; [reflexivity|]. split.
      { eexists. reflexivity. }
      split; [reflexivity|]. intros Ht. unfold transitioning in Ht.
      destruct (sceneManager w) as [m|]; [|discriminate]. cbn [fmap option_fmap option_map].
      destruct m as [s tr ps]. cbn [state] in Ht. unfold request.
      cbn [state trace pending].
      rewrite (switchScene_entry_busy env targetScene s tr Ht). split; reflexivity.
    + cbn [write isGazing gazeTarget sceneManager]. auto.
Qed.

End GazeControllerProofs.
